(** * A cohort Markov model engine (core.py), embedded in Rocq

    The engine of [core.py] is embedded shallowly:
    - Python floats are modelled as exact rationals ([Q]); "equal within
      floating tolerance" becomes [Qeq];
    - Python exceptions are modelled by the [result] type;
    - [Probability] objects are shared and mutable, so they live in a heap
      ([list Probability]) and nodes hold references ([pid]) into it;
    - the [MarkovState] objects live in a store and transitions refer to
      their destination by its index ([sid]); the nodes a state owns are a
      tree inside it;
    - Python dictionaries are insertion-ordered association lists, with
      names as keys; the variables of a node travel as keyword arguments
      and as items of the reports, so a variable that bears the name of a
      parameter of [forward] or of a key of a report is followed as the code
      treats it, up to the point where a report is filed under a number.

    The first part holds the definitions, the second the properties. *)

From Stdlib Require Import QArith Qabs Qpower List String Bool Arith Lia.
From Stdlib Require Import Permutation.
Import ListNotations.
Open Scope string_scope.
Open Scope list_scope.
Open Scope Q_scope.
Set Warnings "-register-all".

(** ** Errors *)

Inductive error : Type :=
| TypeError | ValueError | IndexError | AttributeError | KeyError
| NotImplementedError | ZeroDivisionError
| RecursionError   (* the fuel of a recursive evaluation is exhausted *)
| DanglingRef      (* a reference outside the heap; no Python counterpart *)
| NumberAsKey.     (* a report filed under a number, where the dictionaries
                      here have names as keys: the run is not followed
                      further; no Python counterpart *)

Inductive result (A : Type) : Type :=
| Ok (a : A)
| Err (e : error).
Arguments Ok {A} a.
Arguments Err {A} e.

Definition bind {A B} (r : result A) (k : A -> result B) : result B :=
  match r with
  | Ok a => k a
  | Err e => Err e
  end.

Notation "x <- c ;; k" := (bind c (fun x => k))
  (at level 61, c at next level, right associativity).
Notation "' pat <- c ;; k" := (bind c (fun x => match x with pat => k end))
  (at level 61, pat pattern, c at next level, right associativity).

Definition is_ok {A} (r : result A) : bool :=
  match r with Ok _ => true | Err _ => false end.

(** ** Lists: Python's item assignment, slices and [sum] *)

Fixpoint update {A} (l : list A) (i : nat) (x : A) : list A :=
  match l, i with
  | [], _ => []
  | _ :: l', O => x :: l'
  | y :: l', S i' => y :: update l' i' x
  end.

(** [l[a:b]] for non-negative [a <= b]. *)
Definition slice {A} (l : list A) (a b : nat) : list A :=
  firstn (b - a) (skipn a l).

(** [sum(l)] and [np.sum(l)]: left to right from 0. *)
Definition Qsum (l : list Q) : Q := fold_left Qplus l 0.

(** ** Dictionaries, in insertion order *)

Definition dict (V : Type) : Type := list (string * V).

Fixpoint dict_get {V} (d : dict V) (k : string) : option V :=
  match d with
  | [] => None
  | (k', v) :: d' => if String.eqb k' k then Some v else dict_get d' k
  end.

(** [d.get(k, 0)] *)
Definition dict_get0 (d : dict Q) (k : string) : Q :=
  match dict_get d k with Some v => v | None => 0 end.

(** [d[k] = v]: an existing key keeps its place, a new one goes last. *)
Fixpoint dict_set {V} (d : dict V) (k : string) (v : V) : dict V :=
  match d with
  | [] => [(k, v)]
  | (k', v') :: d' =>
      if String.eqb k' k then (k', v) :: d' else (k', v') :: dict_set d' k v
  end.

Definition dict_keys {V} (d : dict V) : list string := map fst d.

Definition dict_mem {V} (d : dict V) (k : string) : bool :=
  match dict_get d k with Some _ => true | None => false end.

(** [defaultdict(list)]: [d[k].append(x)]. *)
Definition dd_append (d : dict (list Q)) (k : string) (x : Q) : dict (list Q) :=
  match dict_get d k with
  | Some l => dict_set d k (l ++ [x])
  | None => dict_set d k [x]
  end.

(** The list under [k] of a [defaultdict(list)]. *)
Definition dd_get (d : dict (list Q)) (k : string) : list Q :=
  match dict_get d k with Some l => l | None => [] end.

Definition mem_string (k : string) (l : list string) : bool :=
  existsb (String.eqb k) l.

(** [list(a.keys() | b.keys())].  Python leaves the iteration order of a set
    unspecified; the keys of [a] followed by the new keys of [b] is one such
    order. *)
Definition keys_union {V W} (a : dict V) (b : dict W) : list string :=
  dict_keys a ++ filter (fun k => negb (mem_string k (dict_keys a))) (dict_keys b).

(** ** Probability *)

Inductive distribution : Type :=
| uniform | beta | binomial | gamma | normal | lognormal.

Definition pid : Type := nat.

Inductive Probability : Type :=
| ProbabilityWithRange (prob dist_param_1 dist_param_2 : Q) (dist : distribution)
| TimeVaringProbability (probs : list pid) (time : nat)
| ComplementProbability (_other_probs : option (list pid)).

Definition heap : Type := list Probability.

(** [ProbabilityWithRange(prob)] with the defaults of [__init__]. *)
Definition constant (p : Q) : Probability := ProbabilityWithRange p p p uniform.

Definition alloc (h : heap) (p : Probability) : heap * pid :=
  (h ++ [p], List.length h).

(** [p.value(time)].  A time-varying source stores a given [time] in its
    cursor and reads its element with [value()]; a complement passes [time]
    on to its siblings, summed left to right. *)
Fixpoint value (fuel : nat) (h : heap) (p : pid) (time : option nat)
  : result (Q * heap) :=
  match fuel with
  | O => Err RecursionError
  | S fuel' =>
      match nth_error h p with
      | None => Err DanglingRef
      | Some (ProbabilityWithRange q _ _ _) => Ok (q, h)
      | Some (TimeVaringProbability probs cur) =>
          let t := match time with Some t => t | None => cur end in
          let h1 := match time with
                    | Some _ => update h p (TimeVaringProbability probs t)
                    | None => h
                    end in
          match nth_error probs t with
          | None => Err IndexError
          | Some q => value fuel' h1 q None
          end
      | Some (ComplementProbability None) => Err TypeError
      | Some (ComplementProbability (Some others)) =>
          '(s, h') <-
            (fix go (l : list pid) (h0 : heap) (acc : Q) : result (Q * heap) :=
               match l with
               | [] => Ok (acc, h0)
               | q :: l' =>
                   '(v, h1) <- value fuel' h0 q time ;;
                   go l' h1 (acc + v)
               end) others h 0 ;;
          Ok (1 - s, h')
      end
  end.

(** The sum inside [ComplementProbability.value], named. *)
Fixpoint sum_values (fuel : nat) (l : list pid) (h0 : heap) (time : option nat)
  (acc : Q) : result (Q * heap) :=
  match l with
  | [] => Ok (acc, h0)
  | q :: l' =>
      '(v, h1) <- value fuel h0 q time ;;
      sum_values fuel l' h1 time (acc + v)
  end.

(** [set_other_probabilities]: the complement drops itself, by identity. *)
Definition set_other_probabilities (h : heap) (c : pid) (other_probs : list pid)
  : result heap :=
  match nth_error h c with
  | Some (ComplementProbability _) =>
      Ok (update h c
            (ComplementProbability
               (Some (filter (fun p => negb (Nat.eqb p c)) other_probs))))
  | Some _ => Err AttributeError
  | None => Err DanglingRef
  end.

Section Sampling.

(** [getattr(np.random.default_rng(seed), distribution)(a, b)]: a fresh
    generator per call, so the draw is a function of its arguments. *)
Variable rng : nat -> distribution -> Q -> Q -> Q.

Fixpoint sample_value (fuel : nat) (h : heap) (p : pid) (random_state : nat)
  : result heap :=
  match fuel with
  | O => Err RecursionError
  | S fuel' =>
      match nth_error h p with
      | None => Err DanglingRef
      | Some (ProbabilityWithRange _ a b d) =>
          Ok (update h p (ProbabilityWithRange (rng random_state d a b) a b d))
      | Some (TimeVaringProbability probs _) =>
          (fix go (l : list pid) (h0 : heap) : result heap :=
             match l with
             | [] => Ok h0
             | q :: l' =>
                 h1 <- sample_value fuel' h0 q random_state ;;
                 go l' h1
             end) probs h
      | Some (ComplementProbability _) => Err AttributeError
      end
  end.

End Sampling.

(** ** Nodes *)

(** The identity of a [MarkovState] object: its index in the store of states. *)
Definition sid : Type := nat.

(** An entry of a transition's [children]: a reference to a [MarkovState], or
    [None] (the default [dst_state] of the constructor). *)
Inductive TChild : Type :=
| ChildState (s : sid)
| ChildNone.

(** The nodes a state owns.  Every node of a tree built with [add_child]
    under a controller has that controller attached, so the [controller]
    attribute is not represented. *)
Inductive Node : Type :=
| ChanceNode (node_name : string) (trans_prob : pid) (variables : dict Q)
    (children : list Node)
| StateTransition (node_name : string) (trans_prob : pid) (variables : dict Q)
    (children : list TChild) (cumulative_probs : list Q)
    (cumulative_variables : list Q).

Record MarkovState : Type := mkState {
  node_name : string;
  trans_prob : pid;
  variables : dict Q;
  children : list Node;
  initial_prob : list Q
}.

Definition store : Type := list MarkovState.

Definition Node_name (n : Node) : string :=
  match n with
  | ChanceNode nm _ _ _ => nm
  | StateTransition nm _ _ _ _ _ => nm
  end.

Definition Node_trans_prob (n : Node) : pid :=
  match n with
  | ChanceNode _ p _ _ => p
  | StateTransition _ p _ _ _ _ => p
  end.

(** ** The controller *)

Inductive CountMethod : Type := count_start | count_half | count_end.

(** A value of [next_cycle_start_prob]: the list that reports are appended
    to during a cycle, or the scalar it is replaced by. *)
Inductive StartProb : Type :=
| Scalar (q : Q)
| Appended (l : list Q).

Record MarkovController : Type := mkController {
  ctrl_trans_prob : pid;
  ctrl_children : list sid;
  total_cycles : nat;
  count_method : CountMethod;
  discount_rate : Q;
  model_time : nat;
  total_probs : dict (list Q);
  total_variables : dict (list Q);
  cycle_probs : dict (list Q);
  cycle_variables : dict (list Q);
  next_cycle_start_prob : dict StartProb
}.

(** The object passed as [node] to the mediator. *)
Inductive AnyNode : Type :=
| AState (s : MarkovState)
| ANode (n : Node)
| AController (c : MarkovController).

(** What the mediator reads from the dictionary a node reports,
    [{'dst': ..., 'prob': ..., **variables}]: the name under ['dst'], the
    window under ['prob'], and the items left once these two are popped.
    [transition_report] and [state_report] below build it from what a node
    reports, where a variable may bear one of the two keys. *)
Record payload : Type := mkPayload {
  dst : option string;
  prob : list Q;
  vars : dict Q
}.

Definition set_model_time (c : MarkovController) (t : nat) : MarkovController :=
  mkController (ctrl_trans_prob c) (ctrl_children c) (total_cycles c)
    (count_method c) (discount_rate c) t (total_probs c) (total_variables c)
    (cycle_probs c) (cycle_variables c) (next_cycle_start_prob c).

Definition set_totals (c : MarkovController) (tp tv : dict (list Q))
  : MarkovController :=
  mkController (ctrl_trans_prob c) (ctrl_children c) (total_cycles c)
    (count_method c) (discount_rate c) (model_time c) tp tv
    (cycle_probs c) (cycle_variables c) (next_cycle_start_prob c).

Definition set_cycle (c : MarkovController) (cp cv : dict (list Q))
  : MarkovController :=
  mkController (ctrl_trans_prob c) (ctrl_children c) (total_cycles c)
    (count_method c) (discount_rate c) (model_time c) (total_probs c)
    (total_variables c) cp cv (next_cycle_start_prob c).

Definition set_next (c : MarkovController) (nx : dict StartProb)
  : MarkovController :=
  mkController (ctrl_trans_prob c) (ctrl_children c) (total_cycles c)
    (count_method c) (discount_rate c) (model_time c) (total_probs c)
    (total_variables c) (cycle_probs c) (cycle_variables c) nx.

(** [self.next_cycle_start_prob[k].append(x)] on a [defaultdict(list)]. *)
Definition next_append (d : dict StartProb) (k : string) (x : Q)
  : result (dict StartProb) :=
  match dict_get d k with
  | None => Ok (dict_set d k (Appended [x]))
  | Some (Appended l) => Ok (dict_set d k (Appended (l ++ [x])))
  | Some (Scalar _) => Err AttributeError
  end.

(** [np.mean(l)] *)
Definition np_mean (l : list Q) : Q := Qsum l / inject_Z (Z.of_nat (List.length l)).

(** [np.sum] of a value of [next_cycle_start_prob]. *)
Definition np_sum (v : StartProb) : Q :=
  match v with
  | Scalar q => q
  | Appended l => Qsum l
  end.

(** [prob_methods[self.count_method]]; the dictionary literal evaluates
    [prob_data[0]], [prob_data[1]] and the mean, whichever is selected. *)
Definition select_prob (m : CountMethod) (prob_data : list Q) : result Q :=
  match prob_data with
  | w0 :: w1 :: _ =>
      Ok match m with
         | count_start => w0
         | count_end => w1
         | count_half => np_mean prob_data
         end
  | _ => Err IndexError
  end.

(** The loop over the remaining items of [data]. *)
Fixpoint discount_items (items : dict Q) (p discount_factor : Q)
  (cv : dict (list Q)) : result (dict (list Q)) :=
  match items with
  | [] => Ok cv
  | (key, v) :: items' =>
      if Qeq_bool discount_factor 0 then Err ZeroDivisionError
      else discount_items items' p discount_factor
             (dd_append cv key ((v * p) / discount_factor))
  end.

Definition handle_node_message (c : MarkovController) (node : AnyNode)
  (data : payload) : result MarkovController :=
  r <- match node with
       | AState s => Ok (Some (node_name s, c))
       | ANode (StateTransition _ _ _ _ _ _) =>
           match dst data with
           | None => Err KeyError
           | Some destination_name =>
               match nth_error (prob data) 1 with
               | None => Err IndexError
               | Some w1 =>
                   nx <- next_append (next_cycle_start_prob c) destination_name w1 ;;
                   Ok (Some (destination_name, set_next c nx))
               end
           end
       | _ => Ok None
       end ;;
  match r with
  | None => Ok c
  | Some (name, c1) =>
      p <- select_prob (count_method c1) (prob data) ;;
      let cp := dd_append (cycle_probs c1) name p in
      let discount_factor := (1 + discount_rate c1) ^ Z.of_nat (model_time c1) in
      cv <- discount_items (vars data) p discount_factor (cycle_variables c1) ;;
      Ok (set_cycle c1 cp cv)
  end.

(** ** [reset] *)

(** [StateTransition.reset] overrides [Node.reset] and only calls
    [reset_memory]; a [ChanceNode] has no [reset_memory] and recurses. *)
Fixpoint Node_reset (n : Node) : Node :=
  match n with
  | ChanceNode nm p vs ch => ChanceNode nm p vs (map Node_reset ch)
  | StateTransition nm p vs ch _ _ => StateTransition nm p vs ch [] []
  end.

Definition MarkovState_reset_memory (s : MarkovState) : MarkovState :=
  mkState (node_name s) (trans_prob s) (variables s) (children s) [].

(** [Node.reset] on a [MarkovState]. *)
Definition MarkovState_reset (s : MarkovState) : MarkovState :=
  let s1 := MarkovState_reset_memory s in
  mkState (node_name s1) (trans_prob s1) (variables s1)
    (map Node_reset (children s1)) (initial_prob s1).

Definition reset_memory (c : MarkovController) : MarkovController :=
  mkController (ctrl_trans_prob c) (ctrl_children c) (total_cycles c)
    (count_method c) (discount_rate c) 0%nat [] [] [] [] [].

(** [child.reset()] for the state object [i] of the store. *)
Definition reset_state_at (sts : store) (i : sid) : result store :=
  match nth_error sts i with
  | Some s => Ok (update sts i (MarkovState_reset s))
  | None => Err DanglingRef
  end.

Fixpoint reset_children (ids : list sid) (sts : store) : result store :=
  match ids with
  | [] => Ok sts
  | i :: ids' =>
      sts1 <- reset_state_at sts i ;;
      reset_children ids' sts1
  end.

(** [Node.reset] on the controller. *)
Definition reset (c : MarkovController) (sts : store)
  : result (MarkovController * store) :=
  let c1 := reset_memory c in
  sts1 <- reset_children (ctrl_children c1) sts ;;
  Ok (c1, sts1).

(** ** Calling a method on a node inside a state *)

(** The node reached from a list of children by a path of child indices. *)
Fixpoint node_at (path : list nat) (l : list Node) : option Node :=
  match path with
  | [] => None
  | k :: path' =>
      match nth_error l k, path' with
      | Some n, [] => Some n
      | Some (ChanceNode _ _ _ ch), _ => node_at path' ch
      | _, _ => None
      end
  end.

(** [f] applied to the node at [path]; the nodes off the path are kept. *)
Fixpoint update_at (f : Node -> Node) (path : list nat) (l : list Node)
  : list Node :=
  match path with
  | [] => l
  | k :: path' =>
      match nth_error l k, path' with
      | Some n, [] => update l k (f n)
      | Some (ChanceNode nm p vs ch), _ =>
          update l k (ChanceNode nm p vs (update_at f path' ch))
      | _, _ => l
      end
  end.

(** [t.reset()] for the node [t] at [path] below the state object [i]. *)
Definition call_reset (sts : store) (i : sid) (path : list nat) : store :=
  match nth_error sts i with
  | Some s =>
      update sts i
        (mkState (node_name s) (trans_prob s) (variables s)
           (update_at Node_reset path (children s)) (initial_prob s))
  | None => sts
  end.

(** ** [lookup] *)

Fixpoint Node_lookup (n : Node) (name : string) : bool :=
  match n with
  | ChanceNode nm _ _ ch =>
      String.eqb nm name || existsb (fun ch0 => Node_lookup ch0 name) ch
  | StateTransition nm _ _ _ _ _ => String.eqb nm name
  end.

Inductive Found : Type :=
| FoundState (i : sid)
| FoundController
| FoundOther          (* a chance node or a transition *)
| NotFound.

Definition MarkovState_lookup (i : sid) (s : MarkovState) (name : string) : Found :=
  if String.eqb (node_name s) name then FoundState i
  else if existsb (fun ch0 => Node_lookup ch0 name) (children s) then FoundOther
  else NotFound.

Fixpoint lookup_children (ids : list sid) (sts : store) (name : string)
  : result Found :=
  match ids with
  | [] => Ok NotFound
  | i :: ids' =>
      match nth_error sts i with
      | None => Err DanglingRef
      | Some s =>
          match MarkovState_lookup i s name with
          | NotFound => lookup_children ids' sts name
          | f => Ok f
          end
      end
  end.

(** [Node.lookup] on the controller, whose own name is ['controller']. *)
Definition lookup (c : MarkovController) (sts : store) (name : string)
  : result Found :=
  if String.eqb "controller" name then Ok FoundController
  else lookup_children (ctrl_children c) sts name.

(** ** [verify] *)

(** [math.isclose(a, b, rel_tol=rel_tol)], with its default [abs_tol] of 0. *)
Definition isclose (a b rel_tol : Q) : bool :=
  Qeq_bool a b
  || Qle_bool (Qabs (b - a)) (Qabs (rel_tol * b))
  || Qle_bool (Qabs (b - a)) (Qabs (rel_tol * a))
  || Qle_bool (Qabs (b - a)) 0.

Definition rel_tol : Q := 1 # 1000000000.

(** [sum(child.trans_prob for child in self.children)]: each step is
    [Probability.__radd__], that is [p.value() + acc]. *)
Fixpoint sum_trans_probs (fuel : nat) (ps : list pid) (h : heap) (acc : Q)
  : result (Q * heap) :=
  match ps with
  | [] => Ok (acc, h)
  | p :: ps' =>
      '(v, h1) <- value fuel h p None ;;
      sum_trans_probs fuel ps' h1 (v + acc)
  end.

(** The body of [Node.verify] before it recurses. *)
Definition check_children (fuel : nat) (ps : list pid) (h : heap) : result heap :=
  '(total_prob, h1) <- sum_trans_probs fuel ps h 0 ;;
  if isclose total_prob 1 rel_tol then Ok h1 else Err ValueError.

Fixpoint Node_verify (fuel : nat) (n : Node) (h : heap) : result heap :=
  match n with
  | ChanceNode _ _ _ ch =>
      match ch with
      | [] => Ok h
      | _ =>
          h1 <- check_children fuel (map Node_trans_prob ch) h ;;
          (fix go (l : list Node) (h0 : heap) : result heap :=
             match l with
             | [] => Ok h0
             | n0 :: l' => h2 <- Node_verify fuel n0 h0 ;; go l' h2
             end) ch h1
      end
  | StateTransition _ _ _ ch _ _ =>
      match ch with
      | [ChildState _] => Ok h
      | _ => Err ValueError
      end
  end.

Fixpoint verify_nodes (fuel : nat) (l : list Node) (h : heap) : result heap :=
  match l with
  | [] => Ok h
  | n :: l' => h1 <- Node_verify fuel n h ;; verify_nodes fuel l' h1
  end.

(** [Node.verify] on a [MarkovState]. *)
Definition MarkovState_verify (fuel : nat) (s : MarkovState) (h : heap)
  : result heap :=
  match children s with
  | [] => Ok h
  | ch =>
      h1 <- check_children fuel (map Node_trans_prob ch) h ;;
      verify_nodes fuel ch h1
  end.

Fixpoint get_states (ids : list sid) (sts : store) : result (list MarkovState) :=
  match ids with
  | [] => Ok []
  | i :: ids' =>
      match nth_error sts i with
      | None => Err DanglingRef
      | Some s => l <- get_states ids' sts ;; Ok (s :: l)
      end
  end.

Fixpoint verify_states (fuel : nat) (l : list MarkovState) (h : heap)
  : result heap :=
  match l with
  | [] => Ok h
  | s :: l' => h1 <- MarkovState_verify fuel s h ;; verify_states fuel l' h1
  end.

(** [Node.verify] on the controller. *)
Definition verify (fuel : nat) (c : MarkovController) (sts : store) (h : heap)
  : result heap :=
  ss <- get_states (ctrl_children c) sts ;;
  match ss with
  | [] => Ok h
  | _ =>
      h1 <- check_children fuel (map trans_prob ss) h ;;
      verify_states fuel ss h1
  end.

(** ** [forward] *)

(** [input_prob] is the state's [Probability] object for the children of a
    state, and a float below. *)
Inductive InputProb : Type :=
| InFloat (q : Q)
| InObject (p : pid).

(** The left operand of [input_prob * v]: [Probability.__mul__] reads
    [self.value()]. *)
Definition input_value (fuel : nat) (h : heap) (i : InputProb)
  : result (Q * heap) :=
  match i with
  | InFloat q => Ok (q, h)
  | InObject p => value fuel h p None
  end.

(** [output_variables] of [Node.forward]. *)
Definition merge_variables (input own : dict Q) : dict Q :=
  fold_left
    (fun out k => dict_set out k (dict_get0 input k + dict_get0 own k))
    (keys_union input own) [].

(** [output_variables] of [StateTransition.forward]. *)
Definition merge_variables_dst (input own destination : dict Q) : dict Q :=
  fold_left
    (fun out k =>
       dict_set out k
         (dict_get0 input k + dict_get0 own k + dict_get0 destination k))
    (keys_union input own) [].

(** [destination = self.children[0]], then its [variables] and [node_name]. *)
Definition destination_of (sts : store) (ch : list TChild)
  : result MarkovState :=
  match ch with
  | [] => Err IndexError
  | ChildNone :: _ => Err AttributeError
  | ChildState i :: _ =>
      match nth_error sts i with
      | Some d => Ok d
      | None => Err DanglingRef
      end
  end.

(** [child.forward(time=time, input_prob=..., **variables)]: a variable that
    bears the name of a parameter of [forward] makes the call raise
    [TypeError] (more than one value for the argument). *)
Definition has_parameter_name (variables : dict Q) : bool :=
  dict_mem variables "self" || dict_mem variables "time"
  || dict_mem variables "input_prob".

(** The dictionary [{'dst': name, 'prob': window, **variables}] of a
    transition, as the mediator reads it.  A variable named ['prob'] puts a
    number in the place of the window: the mediator's
    [next_cycle_start_prob[dst].append(prob_data[1])] then raises
    [TypeError], unless the start mass kept under the name is a scalar, which
    has no [append].  A variable named ['dst'] puts a number in the place of
    the destination's name, and the report is filed under that number:
    [NumberAsKey], where the run is not followed further. *)
Definition transition_report (c : MarkovController) (destination_name : string)
  (window : list Q) (variables : dict Q) : result payload :=
  if dict_mem variables "prob" then
    if dict_mem variables "dst" then Err TypeError
    else match dict_get (next_cycle_start_prob c) destination_name with
         | Some (Scalar _) => Err AttributeError
         | _ => Err TypeError
         end
  else if dict_mem variables "dst" then Err NumberAsKey
  else Ok (mkPayload (Some destination_name) window variables).

(** [Node.forward] and [StateTransition.forward].  In the loop over the
    children, every call
    [child.forward(time=time, input_prob=output_prob, **output_variables)]
    first binds its keywords. *)
Fixpoint Node_forward (fuel : nat) (sts : store) (n : Node) (time : nat)
  (input_prob : InputProb) (input_variables : dict Q)
  (h : heap) (c : MarkovController) {struct n}
  : result (Node * heap * MarkovController) :=
  match n with
  | ChanceNode nm p vs ch =>
      '(v, h1) <- value fuel h p (Some time) ;;
      '(iv, h2) <- input_value fuel h1 input_prob ;;
      let output_prob := iv * v in
      let output_variables := merge_variables input_variables vs in
      '(ch', h3, c') <-
        (fix go (l : list Node) (h0 : heap) (c0 : MarkovController)
           : result (list Node * heap * MarkovController) :=
           match l with
           | [] => Ok ([], h0, c0)
           | n0 :: l' =>
               if has_parameter_name output_variables then Err TypeError
               else
                 '(n1, h4, c1) <- Node_forward fuel sts n0 time
                                    (InFloat output_prob) output_variables
                                    h0 c0 ;;
                 '(l1, h5, c2) <- go l' h4 c1 ;;
                 Ok (n1 :: l1, h5, c2)
           end) ch h2 c ;;
      Ok (ChanceNode nm p vs ch', h3, c')
  | StateTransition nm p vs ch cum cumv =>
      let cum1 := if Nat.eqb time 0 then cum ++ [0] else cum in
      '(v, h1) <- value fuel h p (Some time) ;;
      '(iv, h2) <- input_value fuel h1 input_prob ;;
      let output_prob := iv * v in
      let cum2 := cum1 ++ [output_prob] in
      destination <- destination_of sts ch ;;
      let output_variables :=
        merge_variables_dst input_variables vs (variables destination) in
      let n' := StateTransition nm p vs ch cum2 cumv in
      data <- transition_report c (node_name destination)
                (slice cum2 time (time + 2)) output_variables ;;
      c' <- handle_node_message c (ANode n') data ;;
      Ok (n', h2, c')
  end.

(** The loop [for child in self.children:
    child.forward(time=time, input_prob=..., **variables)]. *)
Fixpoint forward_children (fuel : nat) (sts : store) (l : list Node)
  (time : nat) (input_prob : InputProb) (input_variables : dict Q)
  (h : heap) (c : MarkovController)
  : result (list Node * heap * MarkovController) :=
  match l with
  | [] => Ok ([], h, c)
  | n :: l' =>
      if has_parameter_name input_variables then Err TypeError
      else
        '(n1, h1, c1) <- Node_forward fuel sts n time input_prob
                           input_variables h c ;;
        '(l1, h2, c2) <- forward_children fuel sts l' time input_prob
                           input_variables h1 c1 ;;
        Ok (n1 :: l1, h2, c2)
  end.

(** [{k:0 for k in self.variables.keys()}] *)
Definition zero_variables (vs : dict Q) : dict Q :=
  fold_left (fun out k => dict_set out k 0) (dict_keys vs) [].

(** [MarkovState.forward]: the children are entered with the state's
    probability object and, as keywords, zeros under the names of the
    state's variables. *)
Definition MarkovState_forward (fuel : nat) (sts : store) (s : MarkovState)
  (time : nat) (h : heap) (c : MarkovController)
  : result (MarkovState * heap * MarkovController) :=
  '(ch', h1, c1) <- forward_children fuel sts (children s) time
                      (InObject (trans_prob s)) (zero_variables (variables s))
                      h c ;;
  Ok (mkState (node_name s) (trans_prob s) (variables s) ch' (initial_prob s),
      h1, c1).

(** ** [MarkovState.start] *)

(** [initial_prob] after the two [append]s of [start]. *)
Definition start_history (s : MarkovState) (time : nat) (cycle_start_prob : Q)
  : list Q :=
  let hist1 := if Nat.eqb time 0 then initial_prob s ++ [cycle_start_prob]
               else initial_prob s in
  hist1 ++ [0].

(** [self.initial_prob[time: time+2]] as [start] reports it. *)
Definition start_window (s : MarkovState) (time : nat) (cycle_start_prob : Q)
  : list Q :=
  slice (start_history s time cycle_start_prob) time (time + 2).

(** The dictionary [{'prob': window, **variables}] of a state, as the
    mediator reads it.  A variable named ['prob'] puts a number in the place
    of the window, and the mediator's [prob_data[0]] raises [TypeError].  A
    state has no ['dst'] of its own: a variable of that name is reported as
    any other. *)
Definition state_report (window : list Q) (variables : dict Q)
  : result payload :=
  if dict_mem variables "prob" then Err TypeError
  else Ok (mkPayload None window variables).

Definition MarkovState_start (fuel : nat) (sts : store) (s : MarkovState)
  (time : nat) (cycle_start_prob : Q) (h : heap) (c : MarkovController)
  : result (MarkovState * heap * MarkovController) :=
  let s1 := mkState (node_name s) (trans_prob s) (variables s) (children s)
              (start_history s time cycle_start_prob) in
  data <- state_report (start_window s time cycle_start_prob)
            (variables s1) ;;
  c1 <- handle_node_message c (AState s1) data ;;
  let '(h1, p) := alloc h (constant cycle_start_prob) in
  let s2 := mkState (node_name s1) p (variables s1) (children s1)
              (initial_prob s1) in
  MarkovState_forward fuel sts s2 time h1 c1.

(** ** Cycles *)

(** [send_to_node]: only a [MarkovState] implements [on_controller_message];
    there it calls [start].  A start mass is a scalar whenever
    [start_one_cycle] follows the seeding of [run] or [end_one_cycle]; a list
    would make the first product of [forward] a [TypeError]. *)
Definition send_to_node (fuel : nat) (node : string) (time : nat)
  (cycle_start_prob : StartProb)
  (c : MarkovController) (sts : store) (h : heap)
  : result (MarkovController * store * heap) :=
  target <- lookup c sts node ;;
  match target with
  | NotFound => Err ValueError
  | FoundController | FoundOther => Err NotImplementedError
  | FoundState i =>
      match nth_error sts i, cycle_start_prob with
      | None, _ => Err DanglingRef
      | Some _, Appended _ => Err TypeError
      | Some s, Scalar m =>
          '(s', h', c') <- MarkovState_start fuel sts s time m h c ;;
          Ok (c', update sts i s', h')
      end
  end.

Fixpoint send_all (fuel : nat) (items : dict StartProb)
  (c : MarkovController) (sts : store) (h : heap)
  : result (MarkovController * store * heap) :=
  match items with
  | [] => Ok (c, sts, h)
  | (node, m) :: items' =>
      '(c1, sts1, h1) <- send_to_node fuel node (model_time c) m c sts h ;;
      send_all fuel items' c1 sts1 h1
  end.

Definition start_one_cycle (fuel : nat)
  (c : MarkovController) (sts : store) (h : heap)
  : result (MarkovController * store * heap) :=
  let snapshot := next_cycle_start_prob c in
  send_all fuel snapshot (set_next c []) sts h.

(** [for key in d.keys(): totals[key].append(np.sum(d[key]))] *)
Definition append_sums (totals cycle : dict (list Q)) : dict (list Q) :=
  fold_left (fun t kv => dd_append t (fst kv) (Qsum (snd kv))) cycle totals.

Definition end_one_cycle (c : MarkovController) : MarkovController :=
  let nx := map (fun kv => (fst kv, Scalar (np_sum (snd kv))))
              (next_cycle_start_prob c) in
  mkController (ctrl_trans_prob c) (ctrl_children c) (total_cycles c)
    (count_method c) (discount_rate c) (S (model_time c))
    (append_sums (total_probs c) (cycle_probs c))
    (append_sums (total_variables c) (cycle_variables c))
    [] [] nx.

(** ** [run] *)

(** [for state in self.children:
       self.next_cycle_start_prob[state.node_name] = state.trans_prob.value(0)] *)
Fixpoint seed_start_probs (fuel : nat) (l : list MarkovState) (h : heap)
  (nx : dict StartProb) : result (dict StartProb * heap) :=
  match l with
  | [] => Ok (nx, h)
  | s :: l' =>
      '(v, h1) <- value fuel h (trans_prob s) (Some 0%nat) ;;
      seed_start_probs fuel l' h1 (dict_set nx (node_name s) (Scalar v))
  end.

Fixpoint cycles (fuel : nat) (n : nat)
  (c : MarkovController) (sts : store) (h : heap)
  : result (MarkovController * store * heap) :=
  match n with
  | O => Ok (c, sts, h)
  | S n' =>
      '(c1, sts1, h1) <- start_one_cycle fuel c sts h ;;
      cycles fuel n' (end_one_cycle c1) sts1 h1
  end.

(** A table: its columns in order.  [pd.DataFrame.from_dict] refuses columns
    of different lengths. *)
Definition DataFrame : Type := dict (list Q).

Fixpoint same_lengths (n : nat) (d : dict (list Q)) : bool :=
  match d with
  | [] => true
  | (_, l) :: d' => Nat.eqb (List.length l) n && same_lengths n d'
  end.

Definition DataFrame_from_dict (d : dict (list Q)) : result DataFrame :=
  match d with
  | [] => Ok []
  | (_, l) :: d' =>
      if same_lengths (List.length l) d' then Ok d else Err ValueError
  end.

Definition run (fuel : nat) (c : MarkovController) (sts : store) (h : heap)
  : result (DataFrame * DataFrame * (MarkovController * store * heap)) :=
  '(c1, sts1) <- reset c sts ;;
  ss <- get_states (ctrl_children c1) sts1 ;;
  '(nx, h1) <- seed_start_probs fuel ss h (next_cycle_start_prob c1) ;;
  '(c2, sts2, h2) <- cycles fuel (total_cycles c1) (set_next c1 nx) sts1 h1 ;;
  prob_df <- DataFrame_from_dict (total_probs c2) ;;
  variable_df <- DataFrame_from_dict (total_variables c2) ;;
  Ok (prob_df, variable_df, (c2, sts2, h2)).

(** Row [t] of a table, and the sum across its columns. *)
Definition row (df : DataFrame) (t : nat) : list Q :=
  map (fun kv => nth t (snd kv) 0) df.

Definition row_sum (df : DataFrame) (t : nat) : Q := Qsum (row df t).

(** ** The same computations, apart from the names of the variables

    The functions below compute as [forward], [start] and [run] do once the
    reports and the calls are built: the variables are kept apart from the
    keys of a report and from the arguments of a call, so no name is looked
    at.  They are the device of the proofs: the functions of the code return
    nothing else when they return, and agree with these where no variable
    bears one of the five names ([refines] and [plain_names] below). *)

Fixpoint Node_forward_core (fuel : nat) (sts : store) (n : Node) (time : nat)
  (input_prob : InputProb) (input_variables : dict Q)
  (h : heap) (c : MarkovController) {struct n}
  : result (Node * heap * MarkovController) :=
  match n with
  | ChanceNode nm p vs ch =>
      '(v, h1) <- value fuel h p (Some time) ;;
      '(iv, h2) <- input_value fuel h1 input_prob ;;
      let output_prob := iv * v in
      let output_variables := merge_variables input_variables vs in
      '(ch', h3, c') <-
        (fix go (l : list Node) (h0 : heap) (c0 : MarkovController)
           : result (list Node * heap * MarkovController) :=
           match l with
           | [] => Ok ([], h0, c0)
           | n0 :: l' =>
               '(n1, h4, c1) <- Node_forward_core fuel sts n0 time
                                  (InFloat output_prob) output_variables h0 c0 ;;
               '(l1, h5, c2) <- go l' h4 c1 ;;
               Ok (n1 :: l1, h5, c2)
           end) ch h2 c ;;
      Ok (ChanceNode nm p vs ch', h3, c')
  | StateTransition nm p vs ch cum cumv =>
      let cum1 := if Nat.eqb time 0 then cum ++ [0] else cum in
      '(v, h1) <- value fuel h p (Some time) ;;
      '(iv, h2) <- input_value fuel h1 input_prob ;;
      let output_prob := iv * v in
      let cum2 := cum1 ++ [output_prob] in
      destination <- destination_of sts ch ;;
      let output_variables :=
        merge_variables_dst input_variables vs (variables destination) in
      let n' := StateTransition nm p vs ch cum2 cumv in
      c' <- handle_node_message c (ANode n')
              (mkPayload (Some (node_name destination))
                 (slice cum2 time (time + 2)) output_variables) ;;
      Ok (n', h2, c')
  end.

Fixpoint forward_children_core (fuel : nat) (sts : store) (l : list Node)
  (time : nat) (input_prob : InputProb) (input_variables : dict Q)
  (h : heap) (c : MarkovController)
  : result (list Node * heap * MarkovController) :=
  match l with
  | [] => Ok ([], h, c)
  | n :: l' =>
      '(n1, h1, c1) <- Node_forward_core fuel sts n time input_prob
                         input_variables h c ;;
      '(l1, h2, c2) <- forward_children_core fuel sts l' time input_prob
                         input_variables h1 c1 ;;
      Ok (n1 :: l1, h2, c2)
  end.

Definition MarkovState_forward_core (fuel : nat) (sts : store) (s : MarkovState)
  (time : nat) (h : heap) (c : MarkovController)
  : result (MarkovState * heap * MarkovController) :=
  '(ch', h1, c1) <- forward_children_core fuel sts (children s) time
                      (InObject (trans_prob s)) (zero_variables (variables s))
                      h c ;;
  Ok (mkState (node_name s) (trans_prob s) (variables s) ch' (initial_prob s),
      h1, c1).

Definition MarkovState_start_core (fuel : nat) (sts : store) (s : MarkovState)
  (time : nat) (cycle_start_prob : Q) (h : heap) (c : MarkovController)
  : result (MarkovState * heap * MarkovController) :=
  let s1 := mkState (node_name s) (trans_prob s) (variables s) (children s)
              (start_history s time cycle_start_prob) in
  c1 <- handle_node_message c (AState s1)
          (mkPayload None (start_window s time cycle_start_prob)
             (variables s1)) ;;
  let '(h1, p) := alloc h (constant cycle_start_prob) in
  let s2 := mkState (node_name s1) p (variables s1) (children s1)
              (initial_prob s1) in
  MarkovState_forward_core fuel sts s2 time h1 c1.

Definition send_to_node_core (fuel : nat) (node : string) (time : nat)
  (cycle_start_prob : StartProb)
  (c : MarkovController) (sts : store) (h : heap)
  : result (MarkovController * store * heap) :=
  target <- lookup c sts node ;;
  match target with
  | NotFound => Err ValueError
  | FoundController | FoundOther => Err NotImplementedError
  | FoundState i =>
      match nth_error sts i, cycle_start_prob with
      | None, _ => Err DanglingRef
      | Some _, Appended _ => Err TypeError
      | Some s, Scalar m =>
          '(s', h', c') <- MarkovState_start_core fuel sts s time m h c ;;
          Ok (c', update sts i s', h')
      end
  end.

Fixpoint send_all_core (fuel : nat) (items : dict StartProb)
  (c : MarkovController) (sts : store) (h : heap)
  : result (MarkovController * store * heap) :=
  match items with
  | [] => Ok (c, sts, h)
  | (node, m) :: items' =>
      '(c1, sts1, h1) <- send_to_node_core fuel node (model_time c) m c sts h ;;
      send_all_core fuel items' c1 sts1 h1
  end.

Definition start_one_cycle_core (fuel : nat)
  (c : MarkovController) (sts : store) (h : heap)
  : result (MarkovController * store * heap) :=
  let snapshot := next_cycle_start_prob c in
  send_all_core fuel snapshot (set_next c []) sts h.

Fixpoint cycles_core (fuel : nat) (n : nat)
  (c : MarkovController) (sts : store) (h : heap)
  : result (MarkovController * store * heap) :=
  match n with
  | O => Ok (c, sts, h)
  | S n' =>
      '(c1, sts1, h1) <- start_one_cycle_core fuel c sts h ;;
      cycles_core fuel n' (end_one_cycle c1) sts1 h1
  end.

Definition run_core (fuel : nat) (c : MarkovController) (sts : store) (h : heap)
  : result (DataFrame * DataFrame * (MarkovController * store * heap)) :=
  '(c1, sts1) <- reset c sts ;;
  ss <- get_states (ctrl_children c1) sts1 ;;
  '(nx, h1) <- seed_start_probs fuel ss h (next_cycle_start_prob c1) ;;
  '(c2, sts2, h2) <- cycles_core fuel (total_cycles c1) (set_next c1 nx) sts1 h1 ;;
  prob_df <- DataFrame_from_dict (total_probs c2) ;;
  variable_df <- DataFrame_from_dict (total_variables c2) ;;
  Ok (prob_df, variable_df, (c2, sts2, h2)).

(** A computation that returns nothing but what another returns. *)
Definition refines {A} (a b : result A) : Prop :=
  forall r, a = Ok r -> b = Ok r.

(** Variables none of which is named as a parameter of [forward] or as a key
    of a report. *)
Definition plain_variables (vs : dict Q) : bool :=
  negb (has_parameter_name vs || dict_mem vs "prob" || dict_mem vs "dst").

Fixpoint plain_node (n : Node) : bool :=
  match n with
  | ChanceNode _ _ vs ch => plain_variables vs && forallb plain_node ch
  | StateTransition _ _ vs _ _ _ => plain_variables vs
  end.

Definition plain_state (s : MarkovState) : bool :=
  plain_variables (variables s) && forallb plain_node (children s).

(** No variable of the model is named [self], [time], [input_prob], [prob]
    or [dst]. *)
Definition plain_names (sts : store) : bool := forallb plain_state sts.

(** ** [init_prob] *)

Definition is_complement (h : heap) (p : pid) : bool :=
  match nth_error h p with
  | Some (ComplementProbability _) => true
  | _ => false
  end.

(** The last loop of [Node.init_prob]: the first complement among the
    children is told all the children's probabilities. *)
Definition resolve_complement (ps : list pid) (h : heap) : result heap :=
  match find (is_complement h) ps with
  | Some c => set_other_probabilities h c ps
  | None => Ok h
  end.

Section InitProb.

Variable rng : nat -> distribution -> Q -> Q -> Q.

(** The first lines of [init_prob]. *)
Definition sample_own (fuel : nat) (random_state : option nat) (p : pid)
  (h : heap) : result heap :=
  match random_state with
  | None => Ok h
  | Some seed =>
      if is_complement h p then Ok h else sample_value rng fuel h p seed
  end.

Fixpoint Node_init_prob (fuel : nat) (random_state : option nat) (n : Node)
  (h : heap) : result heap :=
  match n with
  | ChanceNode _ p _ ch =>
      h1 <- sample_own fuel random_state p h ;;
      h2 <- (fix go (l : list Node) (h0 : heap) : result heap :=
               match l with
               | [] => Ok h0
               | n0 :: l' =>
                   h3 <- Node_init_prob fuel random_state n0 h0 ;; go l' h3
               end) ch h1 ;;
      resolve_complement (map Node_trans_prob ch) h2
  | StateTransition _ p _ _ _ _ => sample_own fuel random_state p h
  end.

Fixpoint init_nodes (fuel : nat) (random_state : option nat) (l : list Node)
  (h : heap) : result heap :=
  match l with
  | [] => Ok h
  | n :: l' =>
      h1 <- Node_init_prob fuel random_state n h ;;
      init_nodes fuel random_state l' h1
  end.

Definition MarkovState_init_prob (fuel : nat) (random_state : option nat)
  (s : MarkovState) (h : heap) : result heap :=
  h1 <- sample_own fuel random_state (trans_prob s) h ;;
  h2 <- init_nodes fuel random_state (children s) h1 ;;
  resolve_complement (map Node_trans_prob (children s)) h2.

Fixpoint init_states (fuel : nat) (random_state : option nat)
  (l : list MarkovState) (h : heap) : result heap :=
  match l with
  | [] => Ok h
  | s :: l' =>
      h1 <- MarkovState_init_prob fuel random_state s h ;;
      init_states fuel random_state l' h1
  end.

(** [Node.init_prob] on the controller. *)
Definition init_prob (fuel : nat) (random_state : option nat)
  (c : MarkovController) (sts : store) (h : heap) : result heap :=
  h1 <- sample_own fuel random_state (ctrl_trans_prob c) h ;;
  ss <- get_states (ctrl_children c) sts ;;
  h2 <- init_states fuel random_state ss h1 ;;
  resolve_complement (map trans_prob ss) h2.

End InitProb.

(** ** Vocabulary of the statements *)

(** The key a report is filed under: the reporting state's own name, or the
    destination named by a transition's report. *)
Definition report_key (node : AnyNode) (data : payload) : option string :=
  match node with
  | AState s => Some (node_name s)
  | ANode (StateTransition _ _ _ _ _ _) => dst data
  | _ => None
  end.

Definition is_transition (node : AnyNode) : bool :=
  match node with
  | ANode (StateTransition _ _ _ _ _ _) => true
  | _ => false
  end.

(** A reporter the mediator handles. *)
Definition is_reporter (node : AnyNode) : bool :=
  match node with
  | AState _ => true
  | ANode (StateTransition _ _ _ _ _ _) => true
  | _ => false
  end.

(** [next_cycle_start_prob[k]] can be appended to: it is absent or a list. *)
Definition appendable (d : dict StartProb) (k : string) : bool :=
  match dict_get d k with
  | Some (Scalar _) => false
  | _ => true
  end.

(** The scalar a count method selects from a two-element window. *)
Definition selected (m : CountMethod) (w0 w1 : Q) : Q :=
  match m with
  | count_start => w0
  | count_end => w1
  | count_half => (w0 + w1) / 2
  end.

(** A loop [for k, v in items: acc[k].append(g(v))]. *)
Definition fold_append {V} (g : V -> Q) (items : dict V) (acc : dict (list Q))
  : dict (list Q) :=
  fold_left (fun acc kv => dd_append acc (fst kv) (g (snd kv))) items acc.

(** ** Example models *)

(** Two states: A keeps half of its mass and sends half to B; B is absorbing.
    Heap: the initial occupancies 1 and 0, then the transition
    probabilities 1/2, 1/2 and 1. *)
Definition ab_heap : heap :=
  [constant 1; constant 0; constant (1 # 2); constant (1 # 2); constant 1;
   constant 1].

Definition ab_state_a : MarkovState :=
  mkState "A" 0%nat []
    [StateTransition "a_to_a" 2%nat [] [ChildState 0%nat] [] [];
     StateTransition "a_to_b" 3%nat [] [ChildState 1%nat] [] []] [].

Definition ab_state_b : MarkovState :=
  mkState "B" 1%nat []
    [StateTransition "b_to_b" 4%nat [] [ChildState 1%nat] [] []] [].

Definition ab_store : store := [ab_state_a; ab_state_b].

Definition ab_controller (n : nat) (m : CountMethod) : MarkovController :=
  mkController 5%nat [0%nat; 1%nat] n m 0 0%nat [] [] [] [] [].

(** A transition without variables of its own into a state with a cost. *)
Definition landing_store : store :=
  [mkState "A" 0%nat []
     [StateTransition "a_to_b" 4%nat [] [ChildState 1%nat] [] []] [];
   mkState "B" 1%nat [("cost", 100)]
     [StateTransition "b_to_b" 4%nat [] [ChildState 1%nat] [] []] []].

(** ** Vocabulary for probabilities *)

(** The constant stored in a [ProbabilityWithRange] cell. *)
Definition constant_at (h : heap) (q : pid) : option Q :=
  match nth_error h q with
  | Some (ProbabilityWithRange v _ _ _) => Some v
  | _ => None
  end.

(** What a source that is a [ProbabilityWithRange], or a time-varying
    sequence with a [ProbabilityWithRange] at index [t], reads at cycle [t]. *)
Definition flat_value (h : heap) (t : nat) (p : pid) : option Q :=
  match nth_error h p with
  | Some (ProbabilityWithRange v _ _ _) => Some v
  | Some (TimeVaringProbability probs _) =>
      match nth_error probs t with
      | Some q => constant_at h q
      | None => None
      end
  | _ => None
  end.

Definition flat (h : heap) (t : nat) (p : pid) : bool :=
  match flat_value h t p with Some _ => true | None => false end.

(** The number [p.value(t)] returns, 0 standing for an error. *)
Definition value_of (fuel : nat) (h : heap) (t : nat) (p : pid) : Q :=
  match value fuel h p (Some t) with
  | Ok (v, _) => v
  | Err _ => 0
  end.

(** Two cells that differ at most in the cursor of a time-varying source. *)
Definition same_up_to_cursor (a b : Probability) : Prop :=
  a = b \/
  exists probs t1 t2,
    a = TimeVaringProbability probs t1 /\ b = TimeVaringProbability probs t2.

(** Heaps that differ at most in cursors and in cells allocated since. *)
Definition cursor_ext (h h' : heap) : Prop :=
  (List.length h <= List.length h')%nat /\
  forall i a, nth_error h i = Some a ->
              exists b, nth_error h' i = Some b /\ same_up_to_cursor a b.

(** Two cells of the same kind that differ at most in a sampled value. *)
Definition same_up_to_sample (a b : Probability) : Prop :=
  a = b \/
  exists v1 v2 x y d,
    a = ProbabilityWithRange v1 x y d /\ b = ProbabilityWithRange v2 x y d.

Definition sample_ext (h h' : heap) : Prop :=
  List.length h = List.length h' /\
  forall i a, nth_error h i = Some a ->
              exists b, nth_error h' i = Some b /\ same_up_to_sample a b.

(** ** Vocabulary for [verify] *)

(** The sum [verify] computes for a group of sibling probabilities. *)
Definition total_prob (fuel : nat) (h : heap) (ps : list pid) : result Q :=
  '(v, _) <- sum_trans_probs fuel ps h 0 ;; Ok v.

(** [math.isclose(total, 1.0, rel_tol=1e-9)] as an inequality: the distance
    to 1 is at most [1e-9] times the larger of 1 and [|total|]. *)
Definition close_to_one (total : Q) : Prop :=
  Qabs (total - 1) <= rel_tol \/ Qabs (total - 1) <= rel_tol * Qabs total.

Definition group_ok (fuel : nat) (h : heap) (ps : list pid) : Prop :=
  exists total, total_prob fuel h ps = Ok total /\ close_to_one total.

(** The condition [verify] checks below a node: every node with children has
    a sum close to one, and every transition has exactly one child, a
    [MarkovState]. *)
Fixpoint node_ok (fuel : nat) (h : heap) (n : Node) : Prop :=
  match n with
  | ChanceNode _ _ _ ch =>
      match ch with
      | [] => True
      | _ =>
          group_ok fuel h (map Node_trans_prob ch) /\
          (fix all (l : list Node) : Prop :=
             match l with
             | [] => True
             | n0 :: l' => node_ok fuel h n0 /\ all l'
             end) ch
      end
  | StateTransition _ _ _ ch _ _ => exists d, ch = [ChildState d]
  end.

Fixpoint nodes_ok (fuel : nat) (h : heap) (l : list Node) : Prop :=
  match l with
  | [] => True
  | n :: l' => node_ok fuel h n /\ nodes_ok fuel h l'
  end.

Definition state_ok (fuel : nat) (h : heap) (s : MarkovState) : Prop :=
  match children s with
  | [] => True
  | ch => group_ok fuel h (map Node_trans_prob ch) /\ nodes_ok fuel h ch
  end.

Fixpoint states_ok (fuel : nat) (h : heap) (l : list MarkovState) : Prop :=
  match l with
  | [] => True
  | s :: l' => state_ok fuel h s /\ states_ok fuel h l'
  end.

Definition model_ok (fuel : nat) (c : MarkovController) (sts : store)
  (h : heap) : Prop :=
  exists ss,
    get_states (ctrl_children c) sts = Ok ss /\
    match ss with
    | [] => True
    | _ => group_ok fuel h (map trans_prob ss) /\ states_ok fuel h ss
    end.

(** A transition to which a second destination was added with [add_child]:
    A sends all of its mass through one transition whose children are B and
    B2, of initial occupancies 1/2 and 1/2. *)
Definition two_children_heap : heap :=
  [constant 0; constant (1 # 2); constant (1 # 2); constant 1; constant 1].

Definition two_children_store : store :=
  [mkState "A" 0%nat []
     [StateTransition "a_out" 3%nat [] [ChildState 1%nat; ChildState 2%nat]
        [] []] [];
   mkState "B" 1%nat [] [] [];
   mkState "B2" 2%nat [] [] []].

Definition two_children_controller : MarkovController :=
  mkController 4%nat [0%nat; 1%nat; 2%nat] 1 count_half 0 0%nat [] [] [] [] [].

(** The occupancy history of a state before its start at cycle [t] of a run:
    empty after the reset, then the mass [m0] delivered at cycle 0 followed
    by one placeholder per start. *)
Definition history_before (t : nat) (m0 : Q) : list Q :=
  match t with
  | O => []
  | S _ => m0 :: repeat 0 t
  end.

(** The report of state A of the two-state model at cycle 0, with a cost. *)
Definition ab_report : payload := mkPayload None [1; 0] [("cost", 50)].

(** Two constants and their complement. *)
Definition group_heap : heap :=
  [constant (1 # 5); constant (3 # 10); ComplementProbability None].

Definition group_rng (seed : nat) (d : distribution) (a b : Q) : Q := a / 2.

(** ** Vocabulary for mass conservation *)

Fixpoint flat_values (h : heap) (t : nat) (l : list pid) : option (list Q) :=
  match l with
  | [] => Some []
  | p :: l' =>
      match flat_value h t p, flat_values h t l' with
      | Some v, Some vs => Some (v :: vs)
      | _, _ => None
      end
  end.

(** What a probability reads at cycle [t]: a flat source, or a populated
    complement of flat sources. *)
Definition den (h : heap) (t : nat) (p : pid) : option Q :=
  match nth_error h p with
  | Some (ComplementProbability (Some sibs)) =>
      match flat_values h t sibs with
      | Some vs => Some (1 - Qsum vs)
      | None => None
      end
  | _ => flat_value h t p
  end.

Fixpoint dens (h : heap) (t : nat) (l : list pid) : option (list Q) :=
  match l with
  | [] => Some []
  | p :: l' =>
      match den h t p, dens h t l' with
      | Some v, Some vs => Some (v :: vs)
      | _, _ => None
      end
  end.

(** The probabilities of a group of siblings sum to one at cycle [t]. *)
Definition group_closed (h : heap) (t : nat) (ps : list pid) : bool :=
  match dens h t ps with
  | Some vs => Qeq_bool (Qsum vs) 1
  | None => false
  end.

(** Below a node, at cycle [t]: the children of every chance node sum to one,
    and every transition has one child, one of the [ns] states of the
    controller. *)
Fixpoint closed_node (h : heap) (ns : nat) (t : nat) (n : Node) : bool :=
  match n with
  | ChanceNode _ _ _ ch =>
      group_closed h t (map Node_trans_prob ch)
      && forallb (closed_node h ns t) ch
  | StateTransition _ _ _ ch _ _ =>
      match ch with
      | [ChildState d] => Nat.ltb d ns
      | _ => false
      end
  end.

Definition closed_state (h : heap) (ns : nat) (t : nat) (s : MarkovState)
  : bool :=
  group_closed h t (map Node_trans_prob (children s))
  && forallb (closed_node h ns t) (children s).

(** A closed model: the controller owns the states of the store, whose
    initial probabilities sum to one, and every state is closed at every
    cycle of the run. *)
Definition closed_model (c : MarkovController) (sts : store) (h : heap)
  : bool :=
  group_closed h 0 (map trans_prob sts)
  && forallb
       (fun t => forallb (closed_state h (List.length sts) t) sts)
       (seq 0 (total_cycles c)).

(** Names as the data model requires them: the states have distinct names,
    none is ['controller'], and no node below a state bears the name of a
    state. *)
Definition state_names (sts : store) : list string := map node_name sts.

Definition unique_names (sts : store) : Prop :=
  NoDup (state_names sts) /\
  ~ In "controller" (state_names sts) /\
  forall s k, In s sts -> In k (state_names sts) ->
              existsb (fun n => Node_lookup n k) (children s) = false.

(** The names of the destinations of the transitions below a node. *)
Fixpoint dst_names (names : list string) (n : Node) : list string :=
  match n with
  | ChanceNode _ _ _ ch => flat_map (dst_names names) ch
  | StateTransition _ _ _ ch _ _ =>
      match ch with
      | ChildState d :: _ =>
          match nth_error names d with
          | Some nm => [nm]
          | None => []
          end
      | _ => []
      end
  end.

Definition all_dst_names (sts : store) : list string :=
  flat_map (fun s => flat_map (dst_names (state_names sts)) (children s)) sts.

(** Every state is the destination of some transition, or at most one cycle
    is run: then every column of the table has an entry at every cycle. *)
Definition reentered (c : MarkovController) (sts : store) : Prop :=
  (total_cycles c <= 1)%nat \/
  forall k, In k (state_names sts) -> In k (all_dst_names sts).

(** The mass last output by the transitions below a node. *)
Fixpoint out_total (n : Node) : Q :=
  match n with
  | ChanceNode _ _ _ ch => Qsum (map out_total ch)
  | StateTransition _ _ _ _ cum _ => last cum 0
  end.

(** The length of a transition's history before cycle [t] of a run. *)
Definition cum_len (t : nat) : nat :=
  match t with
  | O => O
  | S _ => S t
  end.

Fixpoint hist_ok (t : nat) (n : Node) : bool :=
  match n with
  | ChanceNode _ _ _ ch => forallb (hist_ok t) ch
  | StateTransition _ _ _ _ cum _ => Nat.eqb (List.length cum) (cum_len t)
  end.

(** The variable names reported below a node entered with [input]. *)
Fixpoint node_var_keys (n : Node) (input : dict Q) : list string :=
  match n with
  | ChanceNode _ _ vs ch =>
      flat_map (fun n0 => node_var_keys n0 (merge_variables input vs)) ch
  | StateTransition _ _ vs _ _ _ => keys_union input vs
  end.

Definition state_var_keys (s : MarkovState) : list string :=
  dict_keys (variables s)
  ++ flat_map (fun n => node_var_keys n (zero_variables (variables s)))
       (children s).

(** The sum of everything accumulated in a cycle. *)
Definition dict_total (d : dict (list Q)) : Q :=
  Qsum (map (fun kv => Qsum (snd kv)) d).

Definition next_total (d : dict StartProb) : Q :=
  Qsum (map (fun kv => np_sum (snd kv)) d).

(** The fields of the controller that a report leaves alone. *)
Definition config (c : MarkovController) :=
  (ctrl_trans_prob c, ctrl_children c, total_cycles c, count_method c,
   discount_rate c, model_time c, total_probs c, total_variables c).

(** The keys of [d'] are those of [d] and those of [K]. *)
Definition keys_grow {V} (d d' : dict V) (K : list string) : Prop :=
  forall k, In k (dict_keys d') <-> In k (dict_keys d) \/ In k K.

(** The effect of a sequence of reports on the controller: [dP] was added to
    the cycle's probability accumulators, under the keys [Kp]; [dN] to the
    start masses of the next cycle, under the keys [Kn]; and the variables
    [Kv] were accumulated. *)
Record ctrl_step (c c' : MarkovController) (dP dN : Q)
  (Kp Kn Kv : list string) : Prop := mkStep {
  step_config : config c' = config c;
  step_probs : dict_total (cycle_probs c') == dict_total (cycle_probs c) + dP;
  step_next : next_total (next_cycle_start_prob c')
              == next_total (next_cycle_start_prob c) + dN;
  step_pkeys : keys_grow (cycle_probs c) (cycle_probs c') Kp;
  step_nkeys : keys_grow (next_cycle_start_prob c) (next_cycle_start_prob c') Kn;
  step_vkeys : keys_grow (cycle_variables c) (cycle_variables c') Kv
}.

(** During a cycle: the accumulators have distinct keys, and every start
    mass of the next cycle is a list. *)
Definition ctrl_inv (c : MarkovController) : Prop :=
  NoDup (dict_keys (cycle_probs c)) /\
  NoDup (dict_keys (next_cycle_start_prob c)) /\
  NoDup (dict_keys (cycle_variables c)) /\
  (forall k, appendable (next_cycle_start_prob c) k = true) /\
  ~ 1 + discount_rate c == 0.

(** The mass output at the previous cycle by the transitions below a node. *)
Definition prev_total (t : nat) (n : Node) : Q :=
  match t with
  | O => 0
  | S _ => out_total n
  end.

(** The mass [x] that [input_prob] stands for. *)
Definition input_reads (h : heap) (i : InputProb) (x : Q) : Prop :=
  match i with
  | InFloat q => q = x
  | InObject p => constant_at h p = Some x
  end.

(** What [forward] does below a node [n] of a closed model at cycle [t],
    entered with the mass [x]: with [v] the probability of [n], the
    transitions below output [x * v] in total; the controller accumulates the
    selected part of the windows [[previous output; output]], and [x * v] as
    start mass of the next cycle. *)
Definition forward_ok (fuel : nat) (sts : store) (h0 : heap) (t : nat)
  (m : CountMethod) (n : Node) : Prop :=
  forall ip x iv h c v,
    closed_node h0 (List.length sts) t n = true ->
    hist_ok t n = true ->
    den h0 t (Node_trans_prob n) = Some v ->
    cursor_ext h0 h ->
    input_reads h ip x ->
    count_method c = m ->
    ctrl_inv c ->
    exists n' h' c',
      Node_forward_core fuel sts n t ip iv h c = Ok (n', h', c') /\
      cursor_ext h0 h' /\ cursor_ext h h' /\
      Node_reset n' = Node_reset n /\
      hist_ok (S t) n' = true /\
      out_total n' == x * v /\
      ctrl_step c c' (selected m (prev_total t n) (x * v)) (x * v)
        (dst_names (state_names sts) n) (dst_names (state_names sts) n)
        (node_var_keys n iv) /\
      ctrl_inv c'.

(** Two states that differ at most in their probability object and in the
    histories they and their transitions hold. *)
Definition same_state (s0 s : MarkovState) : Prop :=
  node_name s = node_name s0 /\
  variables s = variables s0 /\
  map Node_reset (children s) = map Node_reset (children s0).

Definition same_skeleton (sts0 sts : store) : Prop :=
  Forall2 same_state sts0 sts.

(** The state object of a given name. *)
Definition state_named (sts : store) (k : string) : option MarkovState :=
  find (fun s => String.eqb (node_name s) k) sts.

(** The mass last output by the transitions of a state. *)
Definition state_out (s : MarkovState) : Q := Qsum (map out_total (children s)).

(** The keys a started state reports under. *)
Definition state_dsts (names : list string) (s : MarkovState) : list string :=
  flat_map (dst_names names) (children s).

(** Sums and keys over the start masses delivered in a cycle. *)
Definition item_prev (t : nat) (sts : store) (kv : string * StartProb) : Q :=
  match t with
  | O => np_sum (snd kv)
  | S _ =>
      match state_named sts (fst kv) with
      | Some s => state_out s
      | None => 0
      end
  end.

Definition dsts_of (sts0 : store) (k : string) : list string :=
  match state_named sts0 k with
  | Some s0 => state_dsts (state_names sts0) s0
  | None => []
  end.

Definition vkeys_of (sts0 : store) (k : string) : list string :=
  match state_named sts0 k with
  | Some s0 => state_var_keys s0
  | None => []
  end.

Definition all_scalar (items : dict StartProb) : Prop :=
  forall kv, In kv items -> exists x, snd kv = Scalar x.

(** The variable names reported in a cycle. *)
Definition all_var_keys (sts : store) : list string :=
  flat_map state_var_keys sts.

(** A run before its cycle [t]: the start masses are scalars, one per state,
    of sum one; the histories have the length of the cycles before; the mass
    last output by the transitions is one. *)
Record cycle_pre (sts0 : store) (h0 : heap) (t : nat)
  (c : MarkovController) (sts : store) (h : heap) : Prop := mkPre {
  pre_children : ctrl_children c = seq 0 (List.length sts0);
  pre_time : model_time c = t;
  pre_rate : ~ 1 + discount_rate c == 0;
  pre_cp : cycle_probs c = [];
  pre_cv : cycle_variables c = [];
  pre_nodup : NoDup (dict_keys (next_cycle_start_prob c));
  pre_keys : forall k, In k (dict_keys (next_cycle_start_prob c))
                       <-> In k (state_names sts0);
  pre_scalar : all_scalar (next_cycle_start_prob c);
  pre_mass : next_total (next_cycle_start_prob c) == 1;
  pre_skel : same_skeleton sts0 sts;
  pre_hist : forall i s, nth_error sts i = Some s ->
                         forallb (hist_ok t) (children s) = true /\
                         exists m0, initial_prob s = history_before t m0;
  pre_out : t <> O -> Qsum (map state_out sts) == 1;
  pre_heap : cursor_ext h0 h
}.

(** The controller after the reports of a cycle, before [end_one_cycle]. *)
Record cycle_mid (sts0 : store) (c c1 : MarkovController) : Prop := mkMid {
  mid_config : config c1 = config c;
  mid_cp_nodup : NoDup (dict_keys (cycle_probs c1));
  mid_cp_keys : forall k, In k (dict_keys (cycle_probs c1))
                          <-> In k (state_names sts0);
  mid_cp_total : dict_total (cycle_probs c1) == 1;
  mid_cv_nodup : NoDup (dict_keys (cycle_variables c1));
  mid_cv_keys : forall k, In k (dict_keys (cycle_variables c1))
                          <-> In k (all_var_keys sts0);
  mid_nx_nodup : NoDup (dict_keys (next_cycle_start_prob c1));
  mid_nx_keys : forall k, In k (dict_keys (next_cycle_start_prob c1))
                          <-> In k (all_dst_names sts0);
  mid_nx_total : next_total (next_cycle_start_prob c1) == 1
}.

(** A table under construction after [t] cycles, with columns [K]: every
    column has [t] entries. *)
Record table_ok (K : list string) (t : nat) (d : dict (list Q)) : Prop :=
  mkTable {
  tab_nodup : NoDup (dict_keys d);
  tab_len : forall k l, dict_get d k = Some l -> List.length l = t;
  tab_keys : t <> O -> forall k, In k (dict_keys d) <-> In k K;
  tab_empty : t = O -> d = []
}.

(** The two tables after [t] cycles: [t] rows each, and every row of the
    probability table sums to one. *)
Record totals_ok (sts0 : store) (t : nat) (c : MarkovController) : Prop :=
  mkTotals {
  tot_probs : table_ok (state_names sts0) t (total_probs c);
  tot_vars : table_ok (all_var_keys sts0) t (total_variables c);
  tot_rows : forall t', (t' < t)%nat -> row_sum (total_probs c) t' == 1
}.

(** The start masses [run] seeds. *)
Definition seeded (l : list MarkovState) (vs : list Q) : dict StartProb :=
  map (fun sv => (node_name (fst sv), Scalar (snd sv))) (combine l vs).

(** What any handled sequence of reports does to the keys of the
    controller's accumulators: the probability accumulator keeps its keys and
    gains at most [Kp]; the start masses gain at most [Kn]. *)
Record ctrl_keys (c c' : MarkovController) (Kp Kn : list string) : Prop :=
  mkKeys {
  ck_config : config c' = config c;
  ck_kept : forall k, In k (dict_keys (cycle_probs c)) ->
                      In k (dict_keys (cycle_probs c'));
  ck_probs : forall k, In k (dict_keys (cycle_probs c')) ->
                       In k (dict_keys (cycle_probs c)) \/ In k Kp;
  ck_next : forall k, In k (dict_keys (next_cycle_start_prob c')) ->
                      In k (dict_keys (next_cycle_start_prob c)) \/ In k Kn
}.

(** Whenever [forward] returns below a node, the keys it added are the
    names of destinations below the node. *)
Definition forward_keys (fuel : nat) (sts : store) (n : Node) : Prop :=
  forall t ip iv h c n' h' c',
    Node_forward_core fuel sts n t ip iv h c = Ok (n', h', c') ->
    ctrl_keys c c' (dst_names (state_names sts) n)
      (dst_names (state_names sts) n) /\
    Node_reset n' = Node_reset n.

(** The number of entries of a column. *)
Definition col_len (d : dict (list Q)) (k : string) : nat :=
  List.length (dd_get d k).

(** A run after its first cycle, with a state [k0] that no transition leads
    to: its column has one entry and will get no other. *)
Record stuck (sts0 : store) (k0 : string) (c : MarkovController)
  (sts : store) : Prop := mkStuck {
  stuck_skel : same_skeleton sts0 sts;
  stuck_next : forall k, In k (dict_keys (next_cycle_start_prob c)) ->
                         In k (all_dst_names sts0);
  stuck_cp : cycle_probs c = [];
  stuck_in : In k0 (dict_keys (total_probs c));
  stuck_len : col_len (total_probs c) k0 = 1%nat
}.

(** The model of [demo-build_from_code.py], run for three cycles: three
    states, a background mortality that grows by 0.0001 per cycle, two chance
    nodes below state_b. *)
Definition background_mortality_at (t : nat) : Probability :=
  let v := inject_Z (Z.of_nat (t + 1)) * (1 # 10000) in
  ProbabilityWithRange v (v - (1 # 10000)) (v + (1 # 10000)) uniform.

Definition demo_heap : heap :=
  [constant 1; constant 0; constant 0]
  ++ map background_mortality_at (seq 0 20)
  ++ [TimeVaringProbability (seq 3 20) 0;
      ComplementProbability None; ComplementProbability None;
      ComplementProbability None;
      constant (2 # 10); constant (1 # 100); constant (3 # 10);
      ComplementProbability None; constant 1; constant 1].

Definition cost_utility (c u : Q) : dict Q := [("cost", c); ("utility", u)].

Definition transition_to (nm : string) (p : pid) (d : sid) (vs : dict Q)
  : Node :=
  StateTransition nm p vs [ChildState d] [] [].

Definition demo_k2 : Node :=
  ChanceNode "k1" 25%nat (cost_utility 30 (- (2 # 10)))
    [transition_to "k2_to_a" 29%nat 0%nat (cost_utility 6 (- (2 # 10)));
     transition_to "k2_to_b" 30%nat 1%nat (cost_utility 7 (- (1 # 10)))].

Definition demo_k1 : Node :=
  ChanceNode "k1" 24%nat (cost_utility 20 (- (1 # 10)))
    [demo_k2; transition_to "k1_to_c" 28%nat 2%nat (cost_utility 0 0)].

Definition demo_store : store :=
  [mkState "state_a" 0%nat (cost_utility 50 1)
     [transition_to "a_to_a" 26%nat 0%nat [("cost", 1)];
      transition_to "a_to_b" 27%nat 1%nat (cost_utility 2 (- (1 # 10)));
      transition_to "a_to_c" 23%nat 2%nat (cost_utility 2 (- (1 # 10)))] [];
   mkState "state_b" 1%nat (cost_utility 100 (7 # 10))
     [demo_k1; transition_to "b_to_c" 23%nat 2%nat (cost_utility 0 0)] [];
   mkState "state_c" 2%nat (cost_utility 0 0)
     [transition_to "c_to_c" 31%nat 2%nat (cost_utility 0 0)] []].

Definition demo_controller : MarkovController :=
  mkController 32%nat [0%nat; 1%nat; 2%nat] 3 count_half (2 # 100) 0%nat
    [] [] [] [] [].

(** A rational in millionths, rounded down. *)
Definition millionths (q : Q) : Z :=
  let q' := Qred (q * 1000000) in (Qnum q' / Zpos (Qden q'))%Z.

Definition demo_tables : result (dict (list Z) * dict (list Z)) :=
  h1 <- init_prob group_rng 5 None demo_controller demo_store demo_heap ;;
  h2 <- verify 5 demo_controller demo_store h1 ;;
  '(p, v, _) <- run 5 demo_controller demo_store h2 ;;
  Ok (map (fun kv => (fst kv, map millionths (snd kv))) p,
      map (fun kv => (fst kv, map millionths (snd kv))) v).

(** ** Vocabulary for the further properties *)

(** A [ProbabilityWithRange] built without a range: both parameters default
    to [prob] and the distribution to [uniform]. *)
Definition without_range (x : Probability) : Prop :=
  match x with
  | ProbabilityWithRange v a b d => a = v /\ b = v /\ d = uniform
  | _ => True
  end.

(** What a [ProbabilityWithRange], or a time-varying sequence with a
    [ProbabilityWithRange] under its cursor, reads when no cycle is given. *)
Definition cursor_value (h : heap) (p : pid) : option Q :=
  match nth_error h p with
  | Some (ProbabilityWithRange v _ _ _) => Some v
  | Some (TimeVaringProbability probs cur) =>
      match nth_error probs cur with
      | Some q => constant_at h q
      | None => None
      end
  | _ => None
  end.

(** The names below a node in the order [lookup] visits them; a transition
    does not search its destination. *)
Fixpoint Node_names (n : Node) : list string :=
  match n with
  | ChanceNode nm _ _ ch => nm :: flat_map Node_names ch
  | StateTransition nm _ _ _ _ _ => [nm]
  end.

(** The nodes of the tree in the order [lookup] visits them, each under its
    name with what [lookup] returns for it. *)
Definition state_entries (i : sid) (s : MarkovState) : dict Found :=
  (node_name s, FoundState i)
  :: map (fun nm => (nm, FoundOther)) (flat_map Node_names (children s)).

Fixpoint states_entries (ids : list sid) (ss : list MarkovState) : dict Found :=
  match ids, ss with
  | i :: ids', s :: ss' => state_entries i s ++ states_entries ids' ss'
  | _, _ => []
  end.

Definition tree_entries (c : MarkovController) (ss : list MarkovState)
  : dict Found :=
  ("controller", FoundController) :: states_entries (ctrl_children c) ss.

(** Two constants and a time-varying sequence over them. *)
Definition tv_heap : heap :=
  [constant (1 # 10); constant (2 # 10);
   TimeVaringProbability [0%nat; 1%nat] 0].

(** A constant and two complements that were never told their siblings. *)
Definition two_complements_heap : heap :=
  [constant (1 # 5); ComplementProbability None; ComplementProbability None].

(** A state in the middle of a run, with its self-loop. *)
Definition running_store : store :=
  [mkState "A" 0%nat []
     [StateTransition "a_to_a" 4%nat [] [ChildState 0%nat] [0; 1] []] [1; 0]].

(** ** Vocabulary for the Markov trace *)

(** The probability a source reads at cycle [t], 0 where it reads none. *)
Definition prob_at (h : heap) (t : nat) (p : pid) : Q :=
  match den h t p with
  | Some v => v
  | None => 0
  end.

(** The destination of a transition is the state named [k]. *)
Definition leads_to (names : list string) (k : string) (ch : list TChild)
  : bool :=
  match ch with
  | ChildState d :: _ =>
      match nth_error names d with
      | Some nm => String.eqb nm k
      | None => false
      end
  | _ => false
  end.

(** The probability, at cycle [t], of passing through node [n] and from
    there to the state named [k]: the products of the probabilities along
    the paths from [n] to the transitions into [k], summed. *)
Fixpoint reach (names : list string) (h : heap) (t : nat) (k : string)
  (n : Node) : Q :=
  match n with
  | ChanceNode _ p _ ch => prob_at h t p * Qsum (map (reach names h t k) ch)
  | StateTransition _ p _ ch _ _ =>
      if leads_to names k ch then prob_at h t p else 0
  end.

(** The transition probability of the chain at cycle [t], from state [s] to
    the state named [k]. *)
Definition transition_prob (sts : store) (h : heap) (t : nat) (s : MarkovState)
  (k : string) : Q :=
  Qsum (map (reach (state_names sts) h t k) (children s)).

(** The Markov trace: the occupancy of the state named [k] at the start of
    cycle [t].  At cycle 0 it is the state's initial probability; then the
    occupancies of the cycle before, each multiplied by the transition
    probability into [k], summed over the states. *)
Fixpoint occupancy (sts : store) (h : heap) (t : nat) (k : string) : Q :=
  match t with
  | O =>
      match state_named sts k with
      | Some s => prob_at h 0 (trans_prob s)
      | None => 0
      end
  | S t' =>
      Qsum (map (fun s => occupancy sts h t' (node_name s)
                          * transition_prob sts h t' s k) sts)
  end.

(** The mass last output into the state named [k] by the transitions below
    a node. *)
Fixpoint out_to (names : list string) (k : string) (n : Node) : Q :=
  match n with
  | ChanceNode _ _ _ ch => Qsum (map (out_to names k) ch)
  | StateTransition _ _ _ ch cum _ =>
      if leads_to names k ch then last cum 0 else 0
  end.

Definition state_out_to (names : list string) (k : string) (s : MarkovState)
  : Q :=
  Qsum (map (out_to names k) (children s)).

Definition prev_to (names : list string) (k : string) (t : nat) (n : Node)
  : Q :=
  match t with
  | O => 0
  | S _ => out_to names k n
  end.

(** What the controller has accumulated in the cycle under the key [k]. *)
Definition cycle_sum (c : MarkovController) (k : string) : Q :=
  Qsum (dd_get (cycle_probs c) k).

Definition next_sum (c : MarkovController) (k : string) : Q :=
  match dict_get (next_cycle_start_prob c) k with
  | Some v => np_sum v
  | None => 0
  end.

(** The effect of a sequence of reports under the key [k]. *)
Record key_step (c c' : MarkovController) (k : string) (dP dN : Q) : Prop :=
  mkKeyStep {
  ks_probs : cycle_sum c' k == cycle_sum c k + dP;
  ks_next : next_sum c' k == next_sum c k + dN
}.

(** What [forward] below a node does under the key [k], whenever it
    returns. *)
Definition forward_key (fuel : nat) (sts : store) (h0 : heap) (t : nat)
  (m : CountMethod) (k : string) (n : Node) : Prop :=
  forall ip x iv h c v n' h' c',
    closed_node h0 (List.length sts) t n = true ->
    hist_ok t n = true ->
    den h0 t (Node_trans_prob n) = Some v ->
    cursor_ext h0 h ->
    input_reads h ip x ->
    count_method c = m ->
    ctrl_inv c ->
    Node_forward_core fuel sts n t ip iv h c = Ok (n', h', c') ->
    out_to (state_names sts) k n' == x * reach (state_names sts) h0 t k n /\
    key_step c c' k
      (selected m (prev_to (state_names sts) k t n)
         (x * reach (state_names sts) h0 t k n))
      (x * reach (state_names sts) h0 t k n).

(** Per start mass delivered in a cycle: what it adds under the key [k]. *)
Definition item_prev_to (t : nat) (names : list string) (sts : store)
  (k : string) (kv : string * StartProb) : Q :=
  match t with
  | O => if String.eqb (fst kv) k then np_sum (snd kv) else 0
  | S _ =>
      match state_named sts (fst kv) with
      | Some s => state_out_to names k s
      | None => 0
      end
  end.

Definition item_flow (sts0 : store) (h0 : heap) (t : nat) (k : string)
  (kv : string * StartProb) : Q :=
  np_sum (snd kv)
  * match state_named sts0 (fst kv) with
    | Some s0 => transition_prob sts0 h0 t s0 k
    | None => 0
    end.

(** A run before its cycle [t], along the Markov trace: every start mass is
    the occupancy of its state, and the mass last output into every state is
    its occupancy. *)
Definition trace_pre (sts0 : store) (h0 : heap) (t : nat)
  (c : MarkovController) (sts : store) : Prop :=
  (forall kv, In kv (next_cycle_start_prob c) ->
              np_sum (snd kv) == occupancy sts0 h0 t (fst kv)) /\
  (t <> O ->
   forall k, In k (state_names sts0) ->
             Qsum (map (state_out_to (state_names sts0) k) sts)
             == occupancy sts0 h0 t k).

(** The probability table after [t] cycles, along the Markov trace. *)
Definition trace_table (sts0 : store) (h0 : heap) (m : CountMethod) (t : nat)
  (c : MarkovController) : Prop :=
  forall k, In k (state_names sts0) ->
            List.length (dd_get (total_probs c) k) = t /\
            forall t', (t' < t)%nat ->
                       nth t' (dd_get (total_probs c) k) 0
                       == selected m (occupancy sts0 h0 t' k)
                            (occupancy sts0 h0 (S t') k).

(** ** Vocabulary for the table of variables *)

(** The value a transition reports under the variable [v], entered with the
    variables [input]: for a name of [input] or of its own, the sum of the
    three values; nothing for another name. *)
Definition payoff (v : string) (input own destination : dict Q) : Q :=
  if dict_mem input v || dict_mem own v
  then dict_get0 input v + dict_get0 own v + dict_get0 destination v
  else 0.

(** The variables of the destination of a transition. *)
Definition destination_variables (sts : store) (ch : list TChild) : dict Q :=
  match destination_of sts ch with
  | Ok d => variables d
  | Err _ => []
  end.

(** What a unit of mass entering node [n] at cycle [t] with the variables
    [input] is expected to report under [v]: the values the transitions
    below report, each weighted by the probability of the path to it. *)
Fixpoint reward (sts : store) (h : heap) (t : nat) (v : string)
  (input : dict Q) (n : Node) : Q :=
  match n with
  | ChanceNode _ p vs ch =>
      prob_at h t p
      * Qsum (map (reward sts h t v (merge_variables input vs)) ch)
  | StateTransition _ p vs ch _ _ =>
      prob_at h t p * payoff v input vs (destination_variables sts ch)
  end.

(** The same for a unit of mass that starts the cycle in state [s]. *)
Definition state_reward (sts : store) (h : heap) (t : nat) (v : string)
  (s : MarkovState) : Q :=
  Qsum (map (reward sts h t v (zero_variables (variables s))) (children s)).

(** The value expected under [v] from the transitions taken during cycle
    [t], along the Markov trace. *)
Definition cycle_reward (sts : store) (h : heap) (t : nat) (v : string) : Q :=
  Qsum (map (fun s => occupancy sts h t (node_name s)
                      * state_reward sts h t v s) sts).

(** The value at the start of cycle [t]: at cycle 0 the states' own values,
    weighted by the initial occupancies; later, what the transitions of the
    cycle before reported. *)
Definition entry_reward (sts : store) (h : heap) (t : nat) (v : string) : Q :=
  match t with
  | O => Qsum (map (fun s => occupancy sts h 0 (node_name s)
                             * dict_get0 (variables s) v) sts)
  | S t' => cycle_reward sts h t' v
  end.

(** [(1 + self.discount_rate) ** self.model_time] *)
Definition discount_factor (c : MarkovController) : Q :=
  (1 + discount_rate c) ^ Z.of_nat (model_time c).

(** The mass last output by the transitions below a node, each weighted by
    the value it reports under [v]. *)
Fixpoint out_reward (sts : store) (v : string) (input : dict Q) (n : Node)
  : Q :=
  match n with
  | ChanceNode _ _ vs ch =>
      Qsum (map (out_reward sts v (merge_variables input vs)) ch)
  | StateTransition _ _ vs ch cum _ =>
      last cum 0 * payoff v input vs (destination_variables sts ch)
  end.

Definition state_out_reward (sts : store) (v : string) (s : MarkovState) : Q :=
  Qsum (map (out_reward sts v (zero_variables (variables s))) (children s)).

(** What the controller has accumulated in the cycle under the variable
    [v]. *)
Definition var_sum (c : MarkovController) (v : string) : Q :=
  Qsum (dd_get (cycle_variables c) v).

(** The effect of a sequence of reports under the variable [v], with the
    discount factor [D]. *)
Definition var_step (D : Q) (c c' : MarkovController) (v : string) (dV : Q)
  : Prop :=
  var_sum c' v == var_sum c v + dV / D.

(** What [forward] below a node does under the variable [v], whenever it
    returns. *)
Definition forward_var (fuel : nat) (sts : store) (h0 : heap) (t : nat)
  (m : CountMethod) (D : Q) (v : string) (n : Node) : Prop :=
  forall ip x iv h c p n' h' c',
    closed_node h0 (List.length sts) t n = true ->
    hist_ok t n = true ->
    den h0 t (Node_trans_prob n) = Some p ->
    cursor_ext h0 h ->
    input_reads h ip x ->
    count_method c = m ->
    discount_factor c = D ->
    ctrl_inv c ->
    Node_forward_core fuel sts n t ip iv h c = Ok (n', h', c') ->
    out_reward sts v iv n' == x * reward sts h0 t v iv n /\
    var_step D c c' v
      (selected m
         (match t with O => 0 | S _ => out_reward sts v iv n end)
         (x * reward sts h0 t v iv n)).

(** Per start mass delivered in a cycle: what it adds under the variable
    [v]. *)
Definition item_entry_reward (t : nat) (sts0 sts : store) (v : string)
  (kv : string * StartProb) : Q :=
  match state_named sts (fst kv) with
  | Some s =>
      match t with
      | O => np_sum (snd kv) * dict_get0 (variables s) v
      | S _ => state_out_reward sts0 v s
      end
  | None => 0
  end.

Definition item_reward (sts0 : store) (h0 : heap) (t : nat) (v : string)
  (kv : string * StartProb) : Q :=
  np_sum (snd kv)
  * match state_named sts0 (fst kv) with
    | Some s0 => state_reward sts0 h0 t v s0
    | None => 0
    end.

(** The variables of every state have distinct names, as the keys of a
    dictionary do. *)
Definition distinct_variables (sts : store) : Prop :=
  forall s, In s sts -> NoDup (dict_keys (variables s)).

(** A run before its cycle [t]: the transitions' last outputs, weighted by
    the values they report, are what the cycle before is expected to
    report. *)
Definition reward_pre (sts0 : store) (h0 : heap) (t : nat) (v : string)
  (sts : store) : Prop :=
  t <> O ->
  Qsum (map (state_out_reward sts0 v) sts) == entry_reward sts0 h0 t v.

(** The table of variables after [t] cycles. *)
Definition reward_table (sts0 : store) (h0 : heap) (m : CountMethod) (r : Q)
  (t : nat) (c : MarkovController) : Prop :=
  forall v, In v (all_var_keys sts0) ->
            List.length (dd_get (total_variables c) v) = t /\
            forall t', (t' < t)%nat ->
                       nth t' (dd_get (total_variables c) v) 0
                       == selected m (entry_reward sts0 h0 t' v)
                            (cycle_reward sts0 h0 t' v)
                          / (1 + r) ^ Z.of_nat t'.

(** The two-state model with costs: 50 for a cycle that starts in A, 1 for
    staying in A, 20 for the move to B, and 5 for being in B. *)
Definition priced_store : store :=
  [mkState "A" 0%nat [("cost", 50)]
     [StateTransition "a_to_a" 2%nat [("cost", 1)] [ChildState 0%nat] [] [];
      StateTransition "a_to_b" 3%nat [("cost", 20)] [ChildState 1%nat] [] []]
     [];
   mkState "B" 1%nat [("cost", 5)]
     [StateTransition "b_to_b" 4%nat [] [ChildState 1%nat] [] []] []].

Definition priced_controller (n : nat) (m : CountMethod) : MarkovController :=
  mkController 5%nat [0%nat; 1%nat] n m (3 # 100) 0%nat [] [] [] [] [].

(** ** Building the tree: [set_controller] and [add_child] *)

(** While a tree is built, the node objects refer to each other: a node
    holds its children and the controller it was given.  They live in a
    heap of their own; the class of an object decides which method body
    runs. *)
Inductive Kind : Type :=
| KChanceNode | KMarkovState | KStateTransition | KMarkovController.

Definition oid : Type := nat.

(** An entry of [children] is an object, or [None] for a transition
    created without [dst_state]. *)
Record NodeObj : Type := mkObj {
  obj_kind : Kind;
  obj_name : string;
  obj_controller : option oid;
  obj_children : list (option oid)
}.

Definition graph : Type := list NodeObj.

Definition with_controller (o : NodeObj) (ctl : option oid) : NodeObj :=
  mkObj (obj_kind o) (obj_name o) ctl (obj_children o).

Definition with_children (o : NodeObj) (ch : list (option oid)) : NodeObj :=
  mkObj (obj_kind o) (obj_name o) (obj_controller o) ch.

(** [Node.__init__] and [StateTransition.__init__]: no controller; no
    children, or the destination as only child. *)
Definition new_node (k : Kind) (name : string) (dst_state : option oid)
  : NodeObj :=
  mkObj k name None
    match k with
    | KStateTransition => [dst_state]
    | _ => []
    end.

(** [n.set_controller(controller)]: [StateTransition] overrides
    [Node.set_controller] and does not go on to its destination. *)
Fixpoint set_controller (fuel : nat) (g : graph) (n : oid) (ctl : oid)
  : result graph :=
  match fuel with
  | O => Err RecursionError
  | S fuel' =>
      match nth_error g n with
      | None => Err DanglingRef
      | Some o =>
          let g1 := update g n (with_controller o (Some ctl)) in
          match obj_kind o with
          | KStateTransition => Ok g1
          | _ =>
              (fix go (l : list (option oid)) (g0 : graph) : result graph :=
                 match l with
                 | [] => Ok g0
                 | None :: _ => Err AttributeError
                 | Some ch :: l' =>
                     g2 <- set_controller fuel' g0 ch ctl ;;
                     go l' g2
                 end) (obj_children o) g1
          end
      end
  end.

(** The loop of [Node.set_controller] over the children, named. *)
Fixpoint set_controller_children (fuel : nat) (l : list (option oid))
  (g : graph) (ctl : oid) : result graph :=
  match l with
  | [] => Ok g
  | None :: _ => Err AttributeError
  | Some ch :: l' =>
      g1 <- set_controller fuel g ch ctl ;;
      set_controller_children fuel l' g1 ctl
  end.

(** [parent.add_child(child)].  On a [MarkovController] the child must be a
    [MarkovState]; it is given the controller, then appended.  On any other
    node the child is appended, then given the parent's controller if the
    parent has one. *)
Definition add_child (fuel : nat) (g : graph) (parent child : oid)
  : result graph :=
  match nth_error g parent, nth_error g child with
  | Some po, Some co =>
      match obj_kind po with
      | KMarkovController =>
          match obj_kind co with
          | KMarkovState =>
              g1 <- set_controller fuel g child parent ;;
              match nth_error g1 parent with
              | Some po1 =>
                  Ok (update g1 parent
                        (with_children po1 (obj_children po1 ++ [Some child])))
              | None => Err DanglingRef
              end
          | _ => Err TypeError
          end
      | _ =>
          let g1 := update g parent
                      (with_children po (obj_children po ++ [Some child])) in
          match obj_controller po with
          | Some ctl => set_controller fuel g1 child ctl
          | None => Ok g1
          end
      end
  | _, _ => Err DanglingRef
  end.

(** [n.notify_controller(data)]: the controller the report goes to. *)
Definition notify_controller (g : graph) (n : oid) : result oid :=
  match nth_error g n with
  | None => Err DanglingRef
  | Some o =>
      match obj_controller o with
      | Some ctl => Ok ctl
      | None => Err ValueError
      end
  end.

(** [m] is [n] or below it, following the children as [set_controller]
    does: not through a transition. *)
Inductive below (g : graph) : oid -> oid -> Prop :=
| below_self n : below g n n
| below_child n o c m :
    nth_error g n = Some o ->
    obj_kind o <> KStateTransition ->
    In (Some c) (obj_children o) ->
    below g c m ->
    below g n m.

(** The objects of [g'] are those of [g], some of them given the
    controller [ctl]. *)
Definition attaches (ctl : oid) (g g' : graph) : Prop :=
  List.length g' = List.length g /\
  forall m o, nth_error g m = Some o ->
              nth_error g' m = Some o \/
              nth_error g' m = Some (with_controller o (Some ctl)).

Definition has_controller (g : graph) (ctl : oid) (m : oid) : Prop :=
  exists o, nth_error g m = Some o /\ obj_controller o = Some ctl.

(** What building a tree under the controller [ctl] keeps: [ctl] is a
    [MarkovController]; no object has another controller; below an object that has the controller, every
    object has it; the children of the controller have it. *)
Record tree_inv (g : graph) (ctl : oid) : Prop := mkTreeInv {
  ti_kind : forall co, nth_error g ctl = Some co ->
                       obj_kind co = KMarkovController;
  ti_one : forall n o, nth_error g n = Some o ->
                       obj_controller o = None \/ obj_controller o = Some ctl;
  ti_below : forall n m, has_controller g ctl n -> below g n m ->
                         has_controller g ctl m;
  ti_owned : forall co c, nth_error g ctl = Some co ->
                          In (Some c) (obj_children co) ->
                          has_controller g ctl c
}.

(** A controller with a state A, a chance node and a transition back to A,
    none of them attached yet. *)
Definition parts : graph :=
  [new_node KMarkovController "controller" None;
   new_node KMarkovState "A" None;
   new_node KChanceNode "k" None;
   new_node KStateTransition "a_to_a" (Some 1%nat)].

(** The same objects after [A.add_child(k)], [k.add_child(a_to_a)] and
    [controller.add_child(A)]. *)
Definition built : graph :=
  [mkObj KMarkovController "controller" None [Some 1%nat];
   mkObj KMarkovState "A" (Some 0%nat) [Some 2%nat];
   mkObj KChanceNode "k" (Some 0%nat) [Some 3%nat];
   mkObj KStateTransition "a_to_a" (Some 0%nat) [Some 1%nat]].

(** ** Reading parameter values ([utils.py]) *)

(** Strings are sequences of characters with code points below 256.
    [str.split(sep)] on a one-character separator: the pieces between the
    separators, empty ones included; never an empty list. *)
Fixpoint split_on (sep : Ascii.ascii) (s : string) : list string :=
  match s with
  | EmptyString => [EmptyString]
  | String c s' =>
      if Ascii.eqb c sep then EmptyString :: split_on sep s'
      else match split_on sep s' with
           | [] => [String c EmptyString]
           | w :: ws => String c w :: ws
           end
  end.

(** The separators [','] and [';']. *)
Definition comma : Ascii.ascii := Ascii.ascii_of_nat 44.
Definition semicolon : Ascii.ascii := Ascii.ascii_of_nat 59.

(** [c.isspace()] for a character below 256: tab to carriage return, the
    four separators 28 to 31, space, next line (133) and no-break space
    (160). *)
Definition is_space (c : Ascii.ascii) : bool :=
  let n := Ascii.nat_of_ascii c in
  ((9 <=? n) && (n <=? 13) || (28 <=? n) && (n <=? 32)
   || (n =? 133) || (n =? 160))%nat.

Fixpoint lstrip (s : string) : string :=
  match s with
  | EmptyString => EmptyString
  | String c s' => if is_space c then lstrip s' else s
  end.

Fixpoint rstrip (s : string) : string :=
  match s with
  | EmptyString => EmptyString
  | String c s' =>
      match rstrip s' with
      | EmptyString => if is_space c then EmptyString else String c EmptyString
      | r => String c r
      end
  end.

(** [s.strip()] *)
Definition strip (s : string) : string := rstrip (lstrip s).

Section ParseValue.

(** Python's floats, and [float(s)] with [None] for its [ValueError]. *)
Variable F : Type.
Variable float : string -> option F.

(** A parsed value: a float, or the text itself where [float] refuses it. *)
Inductive cell : Type :=
| CFloat (x : F)
| CStr (s : string).

(** What [parse_value_from_str] returns: the only row, or the list of rows. *)
Inductive parsed : Type :=
| Flat (row : list cell)
| Rows (rows : list (list cell)).

(** The body of the inner loop: a blank value is skipped. *)
Definition parse_cell (value : string) : option cell :=
  let value := strip value in
  match value with
  | EmptyString => None
  | _ =>
      Some match float value with
           | Some x => CFloat x
           | None => CStr value
           end
  end.

Fixpoint parse_cells (values : list string) : list cell :=
  match values with
  | [] => []
  | value :: values' =>
      match parse_cell value with
      | Some c => c :: parse_cells values'
      | None => parse_cells values'
      end
  end.

Definition parse_row (row : string) : list cell :=
  parse_cells (split_on comma row).

Definition shape (result : list (list cell)) : parsed :=
  match result with
  | [row] => Flat row
  | _ => Rows result
  end.

Definition parse_value_from_str (value_str : string) : parsed :=
  shape (map parse_row (split_on semicolon value_str)).

End ParseValue.

Arguments CFloat {F} x.
Arguments CStr {F} s.
Arguments Flat {F} row.
Arguments Rows {F} rows.

(** A separator does not occur in a string. *)
Fixpoint free_of (sep : Ascii.ascii) (s : string) : bool :=
  match s with
  | EmptyString => true
  | String c s' => negb (Ascii.eqb c sep) && free_of sep s'
  end.

(** A toy [float] that reads the digits 0 and 1 only. *)
Definition toy_float (s : string) : option Q :=
  if String.eqb s "0" then Some 0
  else if String.eqb s "1" then Some 1
  else None.

(** A cell as the parser leaves it: not blank, without whitespace around
    it, a float exactly where [float] accepts the text. *)
Definition clean_cell {F} (float : string -> option F) (c : cell F) : Prop :=
  match c with
  | CStr s => s <> EmptyString /\ strip s = s /\ float s = None
  | CFloat x =>
      exists s, s <> EmptyString /\ strip s = s /\ float s = Some x
  end.

Definition cells_of {F} (p : parsed F) : list (cell F) :=
  match p with
  | Flat row => row
  | Rows rows => List.concat rows
  end.

Definition head_space (s : string) : bool :=
  match s with
  | EmptyString => false
  | String c _ => is_space c
  end.

(** ** Further examples and vocabulary *)

(** A controller in its third cycle, with a discount rate of 25%. *)
Definition discounting_controller : MarkovController :=
  mkController 5%nat [0%nat; 1%nat] 4 count_half (1 # 4) 2%nat [] [] [] [] [].

(** The controller of [running_store]. *)
Definition running_controller : MarkovController :=
  mkController 5%nat [0%nat] 2 count_half 0 1%nat [] [] [] [] [].

(** The nodes below [n] are reached within [fuel] nested calls, and every
    child met on the way is an object of the graph. *)
Fixpoint reaches_leaves (fuel : nat) (g : graph) (n : oid) : bool :=
  match fuel with
  | O => false
  | S fuel' =>
      match nth_error g n with
      | None => false
      | Some o =>
          match obj_kind o with
          | KStateTransition => true
          | _ =>
              forallb (fun c => match c with
                                | Some ch => reaches_leaves fuel' g ch
                                | None => false
                                end) (obj_children o)
          end
      end
  end.

(** * Properties *)

(** ** Dictionaries *)

Lemma dict_get_set_same {V} (d : dict V) k v :
  dict_get (dict_set d k v) k = Some v.
Proof.
  induction d as [|[k' v'] d IH]; simpl.
  - now rewrite String.eqb_refl.
  - destruct (String.eqb k' k) eqn:E; simpl; rewrite E; auto.
Qed.

Lemma dict_get_set_other {V} (d : dict V) k k' v :
  k <> k' -> dict_get (dict_set d k v) k' = dict_get d k'.
Proof.
  intros Hne. induction d as [|[k0 v0] d IH]; simpl.
  - destruct (String.eqb k k') eqn:E; auto.
    apply String.eqb_eq in E. contradiction.
  - destruct (String.eqb k0 k) eqn:E; simpl.
    + apply String.eqb_eq in E. subst k0.
      destruct (String.eqb k k') eqn:E'; auto.
      apply String.eqb_eq in E'. contradiction.
    + destruct (String.eqb k0 k'); auto.
Qed.

Lemma dict_keys_set_mem {V} (d : dict V) k v l :
  dict_get d k = Some l -> dict_keys (dict_set d k v) = dict_keys d.
Proof.
  induction d as [|[k0 v0] d IH]; simpl; intros H; [discriminate|].
  destruct (String.eqb k0 k) eqn:E; simpl; auto.
  unfold dict_keys in *. now rewrite IH.
Qed.

Lemma dict_keys_set_new {V} (d : dict V) k v :
  dict_get d k = None -> dict_keys (dict_set d k v) = dict_keys d ++ [k].
Proof.
  induction d as [|[k0 v0] d IH]; simpl; intros H; auto.
  destruct (String.eqb k0 k) eqn:E; [discriminate|].
  simpl. unfold dict_keys in *. now rewrite IH.
Qed.

Lemma dict_get_None_notin {V} (d : dict V) k :
  dict_get d k = None <-> ~ In k (dict_keys d).
Proof.
  induction d as [|[k0 v0] d IH]; simpl.
  - tauto.
  - destruct (String.eqb k0 k) eqn:E.
    + apply String.eqb_eq in E. split; [discriminate | intros H; exfalso; auto].
    + apply String.eqb_neq in E. rewrite IH. tauto.
Qed.

Lemma dd_append_same d k x :
  dict_get (dd_append d k x) k = Some (dd_get d k ++ [x]).
Proof.
  unfold dd_append, dd_get.
  destruct (dict_get d k); now rewrite dict_get_set_same.
Qed.

Lemma dd_append_other d k k' x :
  k <> k' -> dict_get (dd_append d k x) k' = dict_get d k'.
Proof.
  intros. unfold dd_append.
  destruct (dict_get d k); now apply dict_get_set_other.
Qed.

Lemma dd_get_append_same d k x : dd_get (dd_append d k x) k = dd_get d k ++ [x].
Proof. unfold dd_get at 1. now rewrite dd_append_same. Qed.

Lemma dd_get_append_other d k k' x :
  k <> k' -> dd_get (dd_append d k x) k' = dd_get d k'.
Proof. intros. unfold dd_get. now rewrite dd_append_other. Qed.

Lemma Qsum_acc l a : fold_left Qplus l a == a + Qsum l.
Proof.
  unfold Qsum. revert a.
  induction l as [|x l IH]; intros a; simpl.
  - ring.
  - rewrite IH. rewrite (IH (0 + x)). ring.
Qed.

Lemma Qsum_cons x l : Qsum (x :: l) == x + Qsum l.
Proof. unfold Qsum at 1. simpl. rewrite Qsum_acc. ring. Qed.

Lemma Qsum_app l1 l2 : Qsum (l1 ++ l2) == Qsum l1 + Qsum l2.
Proof.
  unfold Qsum at 1. rewrite fold_left_app. rewrite Qsum_acc.
  fold (Qsum l1). ring.
Qed.

Lemma Qsum_snoc l x : Qsum (l ++ [x]) == Qsum l + x.
Proof.
  rewrite Qsum_app. assert (H : Qsum [x] == x) by (unfold Qsum; simpl; ring).
  now rewrite H.
Qed.

(** ** The mediator *)

Lemma next_append_ok d k x :
  appendable d k = true -> exists d', next_append d k x = Ok d'.
Proof.
  unfold appendable, next_append.
  destruct (dict_get d k) as [[q|l]|]; intros H; try discriminate; eauto.
Qed.

Lemma np_mean_pair w0 w1 : np_mean [w0; w1] == (w0 + w1) / 2.
Proof. unfold np_mean, Qsum. simpl. field. Qed.

Lemma select_prob_pair m w0 w1 :
  exists p, select_prob m [w0; w1] = Ok p /\ p == selected m w0 w1.
Proof.
  destruct m; simpl; eexists; split; try reflexivity.
  apply np_mean_pair.
Qed.

Lemma discount_items_ok items p f cv :
  ~ f == 0 ->
  discount_items items p f cv
  = Ok (fold_left (fun acc kv => dd_append acc (fst kv) ((snd kv * p) / f))
          items cv).
Proof.
  intros Hf. revert cv.
  induction items as [|[k v] items IH]; intros cv; simpl; auto.
  destruct (Qeq_bool f 0) eqn:E.
  - apply Qeq_bool_eq in E. contradiction.
  - apply IH.
Qed.

Lemma discount_items_nil p f cv : discount_items [] p f cv = Ok cv.
Proof. reflexivity. Qed.

(** What a handled report does to the controller, when nothing raises. *)
Lemma handle_node_message_reporter c node data key w0 w1 :
  report_key node data = Some key ->
  prob data = [w0; w1] ->
  ~ 1 + discount_rate c == 0 ->
  (is_transition node = true ->
   appendable (next_cycle_start_prob c) key = true) ->
  exists p nx,
    select_prob (count_method c) [w0; w1] = Ok p /\
    p == selected (count_method c) w0 w1 /\
    (if is_transition node
     then next_append (next_cycle_start_prob c) key w1 = Ok nx
     else nx = next_cycle_start_prob c) /\
    handle_node_message c node data
    = Ok (set_cycle (set_next c nx)
            (dd_append (cycle_probs c) key p)
            (fold_left
               (fun acc kv =>
                  dd_append acc (fst kv)
                    ((snd kv * p)
                     / (1 + discount_rate c) ^ Z.of_nat (model_time c)))
               (vars data) (cycle_variables c))).
Proof.
  intros Hkey Hw Hr Happ.
  destruct (select_prob_pair (count_method c) w0 w1) as [p [Hp Hsel]].
  assert (Hf : ~ (1 + discount_rate c) ^ Z.of_nat (model_time c) == 0)
    by now apply Qpower_not_0.
  destruct node as [s | [nm q vs ch | nm q vs ch cum cumv] | c0];
    simpl in Hkey; try discriminate.
  - inversion Hkey; subst key.
    exists p, (next_cycle_start_prob c). repeat split; auto.
    unfold handle_node_message. cbn [bind]. rewrite Hw, Hp. cbn [bind].
    rewrite discount_items_ok by exact Hf. cbn [bind].
    destruct c; reflexivity.
  - destruct (next_append_ok (next_cycle_start_prob c) key w1 (Happ eq_refl))
      as [nx Hnx].
    exists p, nx. repeat split; auto.
    unfold handle_node_message. rewrite Hkey, Hw. cbn [bind nth_error].
    rewrite Hnx. cbn [bind]. cbn [count_method set_next]. rewrite Hp.
    cbn [bind]. rewrite discount_items_ok by exact Hf. reflexivity.
Qed.

(** C7.  A report with the two-element window [w0; w1] from a state or a
    transition is handled, and the scalar appended to the cycle's probability
    accumulator under the report's key is [w0] for 'start', [w1] for 'end'
    and the mean [(w0 + w1) / 2] for 'half'. *)
Theorem count_method_selects_from_window c node data key w0 w1 :
  report_key node data = Some key ->
  prob data = [w0; w1] ->
  ~ 1 + discount_rate c == 0 ->
  (is_transition node = true ->
   appendable (next_cycle_start_prob c) key = true) ->
  exists c' p,
    handle_node_message c node data = Ok c' /\
    cycle_probs c' = dd_append (cycle_probs c) key p /\
    dd_get (cycle_probs c') key = dd_get (cycle_probs c) key ++ [p] /\
    p == match count_method c with
         | count_start => w0
         | count_end => w1
         | count_half => (w0 + w1) / 2
         end.
Proof.
  intros Hkey Hw Hr Happ.
  destruct (handle_node_message_reporter c node data key w0 w1 Hkey Hw Hr Happ)
    as [p [nx [_ [Hsel [_ Hh]]]]].
  eexists; exists p. split; [exact Hh|].
  simpl. split; [reflexivity|]. split; [apply dd_get_append_same | exact Hsel].
Qed.

Lemma count_method_selects_from_window_witness :
  report_key (AState ab_state_a) ab_report = Some "A" /\
  prob ab_report = [1; 0] /\
  ~ 1 + discount_rate (ab_controller 2 count_half) == 0 /\
  (is_transition (AState ab_state_a) = true ->
   appendable (next_cycle_start_prob (ab_controller 2 count_half)) "A" = true) /\
  exists c' p,
    handle_node_message (ab_controller 2 count_half) (AState ab_state_a)
      ab_report = Ok c' /\
    cycle_probs c' = dd_append (cycle_probs (ab_controller 2 count_half)) "A" p /\
    dd_get (cycle_probs c') "A"
    = dd_get (cycle_probs (ab_controller 2 count_half)) "A" ++ [p] /\
    p == (1 + 0) / 2.
Proof.
  assert (H3 : ~ 1 + discount_rate (ab_controller 2 count_half) == 0)
    by (intros H; discriminate H).
  assert (H4 : is_transition (AState ab_state_a) = true ->
               appendable (next_cycle_start_prob (ab_controller 2 count_half))
                 "A" = true) by (intros H; discriminate H).
  repeat (split; [first [reflexivity | assumption]|]).
  exact (count_method_selects_from_window (ab_controller 2 count_half)
           (AState ab_state_a) ab_report "A" 1 0 eq_refl eq_refl H3 H4).
Defined.

(** C9.  A report from a node that is neither a state nor a transition is
    dropped: the call returns and the controller is unchanged. *)
Theorem other_reporters_are_ignored c node data :
  is_reporter node = false ->
  handle_node_message c node data = Ok c.
Proof.
  destruct node as [s | [nm q vs ch | nm q vs ch cum cumv] | c0];
    simpl; intros H; try discriminate; reflexivity.
Qed.

Lemma other_reporters_are_ignored_witness :
  is_reporter (ANode (ChanceNode "k1" 0%nat [("cost", 20)] [])) = false /\
  handle_node_message (ab_controller 2 count_half)
    (ANode (ChanceNode "k1" 0%nat [("cost", 20)] [])) ab_report
  = Ok (ab_controller 2 count_half).
Proof.
  split; [reflexivity|].
  apply (other_reporters_are_ignored (ab_controller 2 count_half)
           (ANode (ChanceNode "k1" 0%nat [("cost", 20)] [])) ab_report).
  reflexivity.
Defined.

(** ** Accumulating into a [defaultdict(list)] *)

Lemma dd_append_keys_NoDup d k x :
  NoDup (dict_keys d) -> NoDup (dict_keys (dd_append d k x)).
Proof.
  intros Hnd. unfold dd_append.
  destruct (dict_get d k) as [l|] eqn:E.
  - now rewrite (dict_keys_set_mem d k _ l E).
  - rewrite (dict_keys_set_new d k _ E).
    apply NoDup_app; [exact Hnd | constructor; [simpl; tauto | constructor] |].
    intros a Ha [Hb|[]]. subst a. now apply dict_get_None_notin in E.
Qed.

Section FoldAppend.

Variable V : Type.
Variable g : V -> Q.

Lemma fold_append_cons k v items acc :
  fold_append g ((k, v) :: items) acc
  = fold_append g items (dd_append acc k (g v)).
Proof. reflexivity. Qed.

Lemma fold_append_keys_NoDup items acc :
  NoDup (dict_keys acc) -> NoDup (dict_keys (fold_append g items acc)).
Proof.
  revert acc. induction items as [|[k v] items IH]; intros acc H; auto.
  rewrite fold_append_cons. apply IH. now apply dd_append_keys_NoDup.
Qed.

Lemma fold_append_other items acc k :
  ~ In k (dict_keys items) ->
  dict_get (fold_append g items acc) k = dict_get acc k.
Proof.
  revert acc. induction items as [|[k0 v0] items IH]; intros acc H; auto.
  simpl in H. rewrite fold_append_cons, IH by tauto.
  apply dd_append_other. tauto.
Qed.

Lemma fold_append_get items acc k v :
  NoDup (dict_keys items) ->
  dict_get items k = Some v ->
  dict_get (fold_append g items acc) k = Some (dd_get acc k ++ [g v]).
Proof.
  revert acc. induction items as [|[k0 v0] items IH]; intros acc Hnd Hget.
  - discriminate.
  - simpl in Hnd, Hget. inversion Hnd as [|? ? Hnotin Hnd']; subst.
    rewrite fold_append_cons. destruct (String.eqb k0 k) eqn:E.
    + apply String.eqb_eq in E. subst k0. inversion Hget; subst v0.
      rewrite fold_append_other by exact Hnotin.
      apply dd_append_same.
    + apply String.eqb_neq in E.
      rewrite (IH _ Hnd' Hget). now rewrite dd_get_append_other.
Qed.

End FoldAppend.

Lemma append_sums_get totals cycle k l :
  NoDup (dict_keys cycle) ->
  dict_get cycle k = Some l ->
  dd_get (append_sums totals cycle) k = dd_get totals k ++ [Qsum l].
Proof.
  intros Hnd Hget. unfold dd_get at 1.
  change (append_sums totals cycle) with (fold_append Qsum cycle totals).
  now rewrite (fold_append_get _ Qsum cycle totals k l Hnd Hget).
Qed.

(** C8.  For a variable [k] with raw value [v] in a handled report, the value
    appended to the cycle's accumulator of [k] is exactly
    [v * p / (1 + r) ^ t], with [p] the selected probability, [r] the discount
    rate and [t] the model time; at the end of the cycle the sum of that
    accumulator, to which the contribution adds, is appended to the column of
    [k] in the table of discounted variables. *)
Theorem discounted_contribution c node data key w0 w1 k v :
  report_key node data = Some key ->
  prob data = [w0; w1] ->
  ~ 1 + discount_rate c == 0 ->
  (is_transition node = true ->
   appendable (next_cycle_start_prob c) key = true) ->
  NoDup (dict_keys (vars data)) ->
  NoDup (dict_keys (cycle_variables c)) ->
  dict_get (vars data) k = Some v ->
  exists c' p,
    handle_node_message c node data = Ok c' /\
    select_prob (count_method c) (prob data) = Ok p /\
    let x := (v * p) / (1 + discount_rate c) ^ Z.of_nat (model_time c) in
    dd_get (cycle_variables c') k = dd_get (cycle_variables c) k ++ [x] /\
    dd_get (total_variables (end_one_cycle c')) k
    = dd_get (total_variables c) k ++ [Qsum (dd_get (cycle_variables c') k)] /\
    Qsum (dd_get (cycle_variables c') k)
    == Qsum (dd_get (cycle_variables c) k) + x.
Proof.
  intros Hkey Hw Hr Happ Hnd Hndc Hget.
  destruct (handle_node_message_reporter c node data key w0 w1 Hkey Hw Hr Happ)
    as [p [nx [Hp [_ [_ Hh]]]]].
  eexists; exists p. split; [exact Hh|]. split; [now rewrite Hw|].
  set (f := (1 + discount_rate c) ^ Z.of_nat (model_time c)).
  set (g := fun v0 : Q => (v0 * p) / f).
  assert (Hcv : dict_get (fold_append g (vars data) (cycle_variables c)) k
                = Some (dd_get (cycle_variables c) k ++ [g v]))
    by now apply fold_append_get.
  cbv zeta. cbn [cycle_variables set_cycle end_one_cycle total_variables
                 set_next].
  change (fold_left _ (vars data) (cycle_variables c))
    with (fold_append g (vars data) (cycle_variables c)).
  assert (Hdd : dd_get (fold_append g (vars data) (cycle_variables c)) k
                = dd_get (cycle_variables c) k ++ [g v])
    by (unfold dd_get at 1; now rewrite Hcv).
  split; [exact Hdd|]. split.
  - rewrite (append_sums_get _ _ k _ (fold_append_keys_NoDup Q g _ _ Hndc) Hcv).
    now rewrite Hdd.
  - rewrite Hdd. apply Qsum_snoc.
Qed.

(** ** [StateTransition.forward]: the reported variables *)

Lemma mem_string_In k l : mem_string k l = true <-> In k l.
Proof.
  unfold mem_string. rewrite existsb_exists. split.
  - intros [x [Hin Heq]]. apply String.eqb_eq in Heq. now subst.
  - intros H. exists k. split; [exact H | apply String.eqb_refl].
Qed.

Lemma fold_dict_set_get {V} (f : string -> V) keys acc k :
  dict_get (fold_left (fun out k0 => dict_set out k0 (f k0)) keys acc) k
  = if mem_string k keys then Some (f k) else dict_get acc k.
Proof.
  revert acc. induction keys as [|k0 keys IH]; intros acc; simpl; auto.
  rewrite IH. destruct (mem_string k keys) eqn:E.
  - now rewrite orb_true_r.
  - rewrite orb_false_r. destruct (String.eqb k k0) eqn:E0.
    + apply String.eqb_eq in E0. subst. apply dict_get_set_same.
    + apply String.eqb_neq in E0. apply dict_get_set_other. congruence.
Qed.

(** The variables a transition reports: the three-way sum, on the keys of
    the input and of the transition only. *)
Lemma merge_variables_dst_get input own destination k :
  dict_get (merge_variables_dst input own destination) k
  = if mem_string k (keys_union input own)
    then Some (dict_get0 input k + dict_get0 own k + dict_get0 destination k)
    else None.
Proof.
  unfold merge_variables_dst.
  now rewrite (fold_dict_set_get
                 (fun k => dict_get0 input k + dict_get0 own k
                           + dict_get0 destination k)).
Qed.

(** C3, on the code.  A transition without variables of its own, entered
    with no input variables, whose destination has [cost = 100]: the report
    has no [cost], so nothing is accumulated for it. *)
Theorem forward_drops_destination_only_key :
  exists n' h' c',
    Node_forward 3 landing_store
      (StateTransition "a_to_b" 4%nat [] [ChildState 1%nat] [] [])
      0 (InFloat 1) [] ab_heap (ab_controller 1 count_start)
    = Ok (n', h', c')
    /\ dict_get (variables (nth 1 landing_store ab_state_b)) "cost" = Some 100
    /\ dict_get (merge_variables_dst [] [] [("cost", 100)]) "cost" = None
    /\ cycle_variables c' = [].
Proof.
  do 3 eexists. vm_compute. repeat split; reflexivity.
Qed.

(** ** [MarkovState.start]: the reported window *)

Lemma skipn_repeat {A} (x : A) n k : skipn k (repeat x n) = repeat x (n - k).
Proof.
  revert k. induction n as [|n IH]; intros [|k]; simpl; auto.
Qed.

Lemma MarkovState_start_history fuel sts s t m h c s' h' c' :
  MarkovState_start_core fuel sts s t m h c = Ok (s', h', c') ->
  initial_prob s' = start_history s t m /\ node_name s' = node_name s.
Proof.
  unfold MarkovState_start_core.
  destruct (handle_node_message _ _ _) as [c1|e]; [|discriminate].
  cbn [bind alloc]. unfold MarkovState_forward_core.
  destruct (forward_children_core _ _ _ _ _ _ _ _) as [[[ch' h1] c2]|e];
    [|discriminate].
  cbn [bind]. intros H. inversion H; subst. simpl. auto.
Qed.

(** The window and the history of [start], by cycle. *)
Lemma start_shape s t m m0 :
  initial_prob s = history_before t m0 ->
  start_window s t m = match t with
                       | O => [m; 0]
                       | S _ => [0; 0]
                       end /\
  start_history s t m
  = history_before (S t) (match t with O => m | S _ => m0 end).
Proof.
  intros H. destruct t as [|t].
  - unfold start_window, start_history. rewrite H. split; reflexivity.
  - cbn [history_before] in *.
    assert (Hh : start_history s (S t) m = m0 :: repeat 0 (S (S t))).
    { unfold start_history. rewrite H. cbn [Nat.eqb].
      change (m0 :: repeat 0 (S t)) with ([m0] ++ repeat 0 (S t)).
      rewrite <- app_assoc. f_equal.
      change [0] with (repeat 0 1). rewrite <- repeat_app.
      now replace (S t + 1)%nat with (S (S t)) by lia. }
    split; [|exact Hh].
    unfold start_window, slice. rewrite Hh.
    replace (S t + 2 - S t)%nat with 2%nat by lia.
    cbn [skipn]. rewrite skipn_repeat.
    replace (S (S t) - t)%nat with (S (S O)) by lia. reflexivity.
Qed.

(** ** [reset] *)

Lemma nth_error_update_same {A} (l : list A) i x y :
  nth_error l i = Some y -> nth_error (update l i x) i = Some x.
Proof.
  revert i. induction l as [|a l IH]; intros [|i]; simpl; try discriminate; auto.
Qed.

Lemma nth_error_update_other {A} (l : list A) i j x :
  i <> j -> nth_error (update l i x) j = nth_error l j.
Proof.
  revert i j. induction l as [|a l IH]; intros [|i] [|j] H; simpl; auto.
  contradiction.
Qed.

Lemma length_update {A} (l : list A) i x :
  List.length (update l i x) = List.length l.
Proof.
  revert i. induction l as [|a l IH]; intros [|i]; simpl; auto.
Qed.

Lemma node_at_update_at f path l n :
  node_at path l = Some n ->
  node_at path (update_at f path l) = Some (f n).
Proof.
  revert l. induction path as [|k path IH]; intros l H; [discriminate|].
  simpl in *. destruct (nth_error l k) as [n0|] eqn:E; [|discriminate].
  destruct n0 as [nm p vs ch | nm p vs ch cum cumv];
    destruct path as [|k' path']; try discriminate;
    inversion H; subst;
    rewrite (nth_error_update_same l k _ _ E); auto;
    match goal with |- match ?x with _ => _ end = _ => now destruct x end.
Qed.

Lemma reset_children_ok ids sts :
  (forall i, In i ids -> (i < List.length sts)%nat) ->
  exists sts', reset_children ids sts = Ok sts'
               /\ List.length sts' = List.length sts.
Proof.
  revert sts. induction ids as [|i ids IH]; intros sts H; simpl.
  - eauto.
  - unfold reset_state_at.
    destruct (nth_error sts i) as [s|] eqn:E.
    + cbn [bind].
      destruct (IH (update sts i (MarkovState_reset s))) as [sts' [H1 H2]].
      * intros j Hj. rewrite length_update. apply H. now right.
      * exists sts'. split; [exact H1|]. now rewrite H2, length_update.
    + apply nth_error_None in E. specialize (H i (or_introl eq_refl)). lia.
Qed.

(** C10.  [reset()] on the transition at [path] below state [i] clears the
    transition's two histories and keeps its other fields; every state
    object of the store, the destination included, keeps its occupancy
    history, name, probability and variables, and a state other than [i] is
    untouched.  The controller's [reset], which reaches every transition this
    way, returns whatever the destinations are, so also on a cyclic model. *)
Theorem transition_reset_frame sts i s path nm p vs ch cum cumv c :
  nth_error sts i = Some s ->
  node_at path (children s) = Some (StateTransition nm p vs ch cum cumv) ->
  (forall k, In k (ctrl_children c) -> (k < List.length sts)%nat) ->
  Node_reset (StateTransition nm p vs ch cum cumv)
  = StateTransition nm p vs ch [] [] /\
  (exists s',
      nth_error (call_reset sts i path) i = Some s' /\
      node_at path (children s') = Some (StateTransition nm p vs ch [] [])) /\
  (forall j sj,
      nth_error sts j = Some sj ->
      exists sj',
        nth_error (call_reset sts i path) j = Some sj' /\
        initial_prob sj' = initial_prob sj /\
        node_name sj' = node_name sj /\
        trans_prob sj' = trans_prob sj /\
        variables sj' = variables sj /\
        (j <> i -> sj' = sj)) /\
  (exists sts', reset c sts = Ok (reset_memory c, sts')).
Proof.
  intros Hs Hn Hids. split; [reflexivity|].
  unfold call_reset. rewrite Hs. split; [|split].
  - eexists. split; [eapply nth_error_update_same; exact Hs|].
    cbn [children]. now apply (node_at_update_at Node_reset) in Hn.
  - intros j sj Hj. destruct (Nat.eq_dec j i) as [->|Hne].
    + rewrite Hs in Hj. inversion Hj; subst sj.
      eexists. split; [eapply nth_error_update_same; exact Hs|].
      cbn. repeat split; auto. intros H; now elim H.
    + exists sj. rewrite nth_error_update_other by congruence.
      repeat split; auto.
  - unfold reset.
    destruct (reset_children_ok (ctrl_children (reset_memory c)) sts)
      as [sts' [H1 _]]; [exact Hids|].
    exists sts'. now rewrite H1.
Qed.

(** ** Probabilities: reading does not depend on cursors *)

Lemma same_up_to_cursor_refl a : same_up_to_cursor a a.
Proof. now left. Qed.

Lemma same_up_to_cursor_trans a b c :
  same_up_to_cursor a b -> same_up_to_cursor b c -> same_up_to_cursor a c.
Proof.
  intros [->|[ps [t1 [t2 [-> ->]]]]] [H|[ps' [t1' [t2' [H1 H2]]]]].
  - now left.
  - right. now exists ps', t1', t2'.
  - subst c. right. now exists ps, t1, t2.
  - inversion H1; subst. right. now exists ps', t1, t2'.
Qed.

Lemma cursor_ext_refl h : cursor_ext h h.
Proof.
  split; [lia|]. intros i a H. exists a. split; [exact H | now left].
Qed.

Lemma cursor_ext_trans h1 h2 h3 :
  cursor_ext h1 h2 -> cursor_ext h2 h3 -> cursor_ext h1 h3.
Proof.
  intros [L1 H1] [L2 H2]. split; [lia|].
  intros i a Ha. destruct (H1 i a Ha) as [b [Hb Hab]].
  destruct (H2 i b Hb) as [c [Hc Hbc]].
  exists c. split; [exact Hc | eapply same_up_to_cursor_trans; eauto].
Qed.

Lemma cursor_ext_update h p probs t1 t2 :
  nth_error h p = Some (TimeVaringProbability probs t1) ->
  cursor_ext h (update h p (TimeVaringProbability probs t2)).
Proof.
  intros Hp. split; [rewrite length_update; lia|].
  intros i a Ha. destruct (Nat.eq_dec p i) as [->|Hne].
  - rewrite (nth_error_update_same h i _ _ Hp). eexists. split; [reflexivity|].
    rewrite Hp in Ha. inversion Ha; subst. right. now exists probs, t1, t2.
  - rewrite nth_error_update_other by exact Hne.
    exists a. split; [exact Ha | now left].
Qed.

Lemma cursor_ext_alloc h a : cursor_ext h (fst (alloc h a)).
Proof.
  unfold alloc. cbn [fst]. split; [rewrite length_app; lia|].
  intros i b Hb. exists b. split; [|now left].
  rewrite nth_error_app1; [exact Hb|]. apply nth_error_Some. congruence.
Qed.

Lemma cursor_ext_constant_at h h' q v :
  cursor_ext h h' -> constant_at h q = Some v -> constant_at h' q = Some v.
Proof.
  intros [_ H] Hc. unfold constant_at in *.
  destruct (nth_error h q) as [a|] eqn:E; [|discriminate].
  destruct (H q a E) as [b [Hb [Hab|[ps [t1 [t2 [Ha Hb']]]]]]];
    rewrite Hb; subst; [exact Hc | discriminate].
Qed.

Lemma cursor_ext_flat_value h h' t p v :
  cursor_ext h h' -> flat_value h t p = Some v -> flat_value h' t p = Some v.
Proof.
  intros Hext Hf. pose proof Hext as [_ H]. unfold flat_value in *.
  destruct (nth_error h p) as [a|] eqn:E; [|discriminate].
  destruct (H p a E) as [b [Hb [Hab|[ps [t1 [t2 [Ha Hb']]]]]]];
    rewrite Hb; subst.
  - destruct b as [x y z d | ps c | o]; try discriminate; auto.
    destruct (nth_error ps t) as [q|]; [|discriminate].
    eapply cursor_ext_constant_at; eauto.
  - destruct (nth_error ps t) as [q|]; [|discriminate].
    eapply cursor_ext_constant_at; eauto.
Qed.

Lemma value_constant fuel h q v time :
  constant_at h q = Some v -> value (S fuel) h q time = Ok (v, h).
Proof.
  unfold constant_at. simpl.
  destruct (nth_error h q) as [[x y z d | ps c | o]|]; try discriminate.
  intros H. now inversion H.
Qed.

Lemma value_time_varying fuel h p ps c t :
  nth_error h p = Some (TimeVaringProbability ps c) ->
  value (S fuel) h p (Some t)
  = match nth_error ps t with
    | None => Err IndexError
    | Some q => value fuel (update h p (TimeVaringProbability ps t)) q None
    end.
Proof. intros H. cbn [value]. now rewrite H. Qed.

(** Reading a flat source at an explicit cycle. *)
Lemma value_flat fuel h t p v :
  (2 <= fuel)%nat ->
  flat_value h t p = Some v ->
  exists h', value fuel h p (Some t) = Ok (v, h') /\ cursor_ext h h'.
Proof.
  intros Hf Hv. destruct fuel as [|[|fuel]]; try lia.
  unfold flat_value in Hv.
  destruct (nth_error h p) as [[x y z d | ps c | o]|] eqn:E; try discriminate.
  - inversion Hv; subst. exists h. split; [|apply cursor_ext_refl].
    apply value_constant. unfold constant_at. now rewrite E.
  - destruct (nth_error ps t) as [q|] eqn:Et; [|discriminate].
    exists (update h p (TimeVaringProbability ps t)).
    assert (Hext : cursor_ext h (update h p (TimeVaringProbability ps t)))
      by (eapply cursor_ext_update; eauto).
    split; [|exact Hext].
    rewrite (value_time_varying _ _ _ _ _ _ E), Et.
    apply value_constant. eapply cursor_ext_constant_at; eauto.
Qed.

Lemma value_of_flat fuel h t p v :
  (2 <= fuel)%nat -> flat_value h t p = Some v -> value_of fuel h t p = v.
Proof.
  intros Hf Hv. unfold value_of.
  destruct (value_flat fuel h t p v Hf Hv) as [h' [H _]]. now rewrite H.
Qed.

Lemma sum_values_flat fuel h t sibs vs :
  (2 <= fuel)%nat ->
  Forall2 (fun p v => flat_value h t p = Some v) sibs vs ->
  forall h1 acc,
    cursor_ext h h1 ->
    exists h2,
      sum_values fuel sibs h1 (Some t) acc = Ok (fold_left Qplus vs acc, h2)
      /\ cursor_ext h h2.
Proof.
  intros Hf Hall. induction Hall as [|p v sibs vs Hp Hall IH]; intros h1 acc Hext.
  - exists h1. split; [reflexivity | exact Hext].
  - cbn [sum_values].
    destruct (value_flat fuel h1 t p v Hf (cursor_ext_flat_value _ _ _ _ _ Hext Hp))
      as [h2 [Hv Hext2]].
    rewrite Hv. cbn [bind].
    destruct (IH h2 (acc + v) (cursor_ext_trans _ _ _ Hext Hext2)) as [h3 [Hs H3]].
    exists h3. split; [exact Hs | exact H3].
Qed.

Lemma value_complement fuel h c sibs time :
  nth_error h c = Some (ComplementProbability (Some sibs)) ->
  value (S fuel) h c time
  = ('(s, h') <- sum_values fuel sibs h time 0 ;; Ok (1 - s, h')).
Proof.
  intros Hc. cbn [value]. rewrite Hc. f_equal.
  clear Hc. generalize 0. generalize h.
  induction sibs as [|q sibs IH]; intros h0 acc; [reflexivity|].
  cbn [sum_values]. destruct (value fuel h0 q time) as [[v h1]|e]; cbn [bind]; auto.
Qed.

(** ** Probabilities: sampling keeps the kind of every cell *)

Lemma sample_ext_refl h : sample_ext h h.
Proof.
  split; [reflexivity|]. intros i a H. exists a. split; [exact H | now left].
Qed.

Lemma sample_ext_trans h1 h2 h3 :
  sample_ext h1 h2 -> sample_ext h2 h3 -> sample_ext h1 h3.
Proof.
  intros [L1 H1] [L2 H2]. split; [congruence|].
  intros i a Ha. destruct (H1 i a Ha) as [b [Hb Hab]].
  destruct (H2 i b Hb) as [c [Hc Hbc]].
  exists c. split; [exact Hc|].
  destruct Hab as [Hab|[v1 [v2 [x [y [d [Ha' Hb']]]]]]];
    destruct Hbc as [Hbc|[w1 [w2 [x' [y' [d' [Hb'' Hc']]]]]]]; subst.
  - now left.
  - right. now exists w1, w2, x', y', d'.
  - right. now exists v1, v2, x, y, d.
  - inversion Hb''; subst. right. now exists v1, w2, x', y', d'.
Qed.

Lemma sample_value_ext rng fuel h p seed h2 :
  sample_value rng fuel h p seed = Ok h2 -> sample_ext h h2.
Proof.
  revert h p h2. induction fuel as [|fuel IH]; intros h p h2; [discriminate|].
  cbn [sample_value].
  destruct (nth_error h p) as [[v x y d | ps c | o]|] eqn:E; try discriminate.
  - intros H. inversion H; subst. split; [now rewrite length_update|].
    intros i a Ha. destruct (Nat.eq_dec p i) as [->|Hne].
    + rewrite (nth_error_update_same h i _ _ E). eexists. split; [reflexivity|].
      rewrite E in Ha. inversion Ha; subst. right.
      now exists v, (rng seed d x y), x, y, d.
    + rewrite nth_error_update_other by exact Hne.
      exists a. split; [exact Ha | now left].
  - clear E. generalize h. induction ps as [|q ps IHps]; intros h0 H.
    + inversion H; subst. apply sample_ext_refl.
    + destruct (sample_value rng fuel h0 q seed) as [h1|e] eqn:E1;
        [|discriminate].
      cbn [bind] in H. eapply sample_ext_trans; [eapply IH; exact E1|].
      now apply IHps.
Qed.

Lemma sample_ext_flat h h' t p :
  sample_ext h h' -> flat h t p = true -> flat h' t p = true.
Proof.
  intros [_ H] Hf. unfold flat, flat_value, constant_at in *.
  destruct (nth_error h p) as [a|] eqn:E; [|discriminate].
  destruct (H p a E) as [b [Hb [Hab|[v1 [v2 [x [y [d [Ha Hb']]]]]]]]];
    rewrite Hb; subst; auto.
  destruct b as [x y z d | ps c | o]; try discriminate; auto.
  destruct (nth_error ps t) as [q|]; [|discriminate].
  destruct (nth_error h q) as [a|] eqn:Eq; [|discriminate].
  destruct (H q a Eq) as [b [Hb2 [Hab|[v1 [v2 [x [y [d [Ha Hb']]]]]]]]];
    rewrite Hb2; subst; auto.
Qed.

Lemma sample_ext_complement h h' c o :
  sample_ext h h' ->
  nth_error h c = Some (ComplementProbability o) ->
  nth_error h' c = Some (ComplementProbability o).
Proof.
  intros [_ H] Hc.
  destruct (H c _ Hc) as [b [Hb [Hab|[v1 [v2 [x [y [d [Ha Hb']]]]]]]]];
    subst; [exact Hb | discriminate].
Qed.

Lemma flat_values_exist h t sibs :
  (forall p, In p sibs -> flat h t p = true) ->
  exists vs, Forall2 (fun p v => flat_value h t p = Some v) sibs vs.
Proof.
  induction sibs as [|p sibs IH]; intros H.
  - exists []. constructor.
  - destruct IH as [vs Hvs]; [intros q Hq; apply H; now right|].
    specialize (H p (or_introl eq_refl)). unfold flat in H.
    destruct (flat_value h t p) as [v|] eqn:E; [|discriminate].
    exists (v :: vs). now constructor.
Qed.

Lemma map_value_of_flat fuel h t sibs vs :
  (2 <= fuel)%nat ->
  Forall2 (fun p v => flat_value h t p = Some v) sibs vs ->
  map (value_of fuel h t) sibs = vs.
Proof.
  intros Hf Hall. induction Hall as [|p v sibs vs Hp Hall IH]; simpl; auto.
  now rewrite IH, (value_of_flat fuel h t p v Hf Hp).
Qed.

(** The value of a populated complement over flat siblings. *)
Lemma complement_value_flat fuel h c sibs t :
  (3 <= fuel)%nat ->
  nth_error h c = Some (ComplementProbability (Some sibs)) ->
  (forall p, In p sibs -> flat h t p = true) ->
  exists h',
    value fuel h c (Some t)
    = Ok (1 - Qsum (map (value_of fuel h t) sibs), h')
    /\ cursor_ext h h'.
Proof.
  intros Hf Hc Hflat. destruct fuel as [|fuel]; [lia|].
  destruct (flat_values_exist h t sibs Hflat) as [vs Hvs].
  rewrite (value_complement fuel h c sibs (Some t) Hc).
  destruct (sum_values_flat fuel h t sibs vs ltac:(lia) Hvs h 0
              (cursor_ext_refl h)) as [h2 [Hs Hext]].
  rewrite Hs. cbn [bind].
  rewrite (map_value_of_flat (S fuel) h t sibs vs ltac:(lia) Hvs).
  exists h2. split; [reflexivity | exact Hext].
Qed.

(** C5.  Once [set_other_probabilities] has populated a complement, its value
    at any cycle [t] is 1 minus the sum of the values at [t] of the siblings
    it kept (all but itself), for siblings that are constants or time-varying
    sequences of constants; the same holds, with the new values, after any
    sibling is resampled. *)
Theorem complement_is_one_minus_siblings fuel h0 c other_probs h t :
  (3 <= fuel)%nat ->
  set_other_probabilities h0 c other_probs = Ok h ->
  (forall p, In p other_probs -> p <> c -> flat h t p = true) ->
  let siblings := filter (fun p => negb (Nat.eqb p c)) other_probs in
  (exists h',
      value fuel h c (Some t)
      = Ok (1 - Qsum (map (value_of fuel h t) siblings), h')) /\
  (forall rng seed p h2,
      In p siblings ->
      sample_value rng fuel h p seed = Ok h2 ->
      exists h',
        value fuel h2 c (Some t)
        = Ok (1 - Qsum (map (value_of fuel h2 t) siblings), h')).
Proof.
  intros Hf Hset Hflat siblings.
  assert (Hc : nth_error h c = Some (ComplementProbability (Some siblings))).
  { unfold set_other_probabilities in Hset.
    destruct (nth_error h0 c) as [[v x y d | ps cur | o]|] eqn:E;
      try discriminate.
    inversion Hset; subst. eapply nth_error_update_same; exact E. }
  assert (Hsib : forall p, In p siblings -> flat h t p = true).
  { intros p Hp. apply filter_In in Hp. destruct Hp as [Hin Hne].
    apply Hflat; [exact Hin|]. intros ->. now rewrite Nat.eqb_refl in Hne. }
  split.
  - destruct (complement_value_flat fuel h c siblings t Hf Hc Hsib)
      as [h' [H _]].
    now exists h'.
  - intros rng seed p h2 Hp Hs.
    pose proof (sample_value_ext rng fuel h p seed h2 Hs) as Hext.
    destruct (complement_value_flat fuel h2 c siblings t Hf
                (sample_ext_complement _ _ _ _ Hext Hc)
                (fun q Hq => sample_ext_flat _ _ _ _ Hext (Hsib q Hq)))
      as [h' [H _]].
    now exists h'.
Qed.

Lemma complement_is_one_minus_siblings_witness :
  (3 <= 3)%nat /\
  set_other_probabilities group_heap 2%nat [0%nat; 1%nat; 2%nat]
  = Ok [constant (1 # 5); constant (3 # 10);
        ComplementProbability (Some [0%nat; 1%nat])] /\
  (exists h',
      value 3 [constant (1 # 5); constant (3 # 10);
               ComplementProbability (Some [0%nat; 1%nat])] 2%nat (Some 7%nat)
      = Ok (1 - Qsum [1 # 5; 3 # 10], h')) /\
  (exists h',
      value 3 [ProbabilityWithRange ((1 # 5) / 2) (1 # 5) (1 # 5) uniform;
               constant (3 # 10);
               ComplementProbability (Some [0%nat; 1%nat])] 2%nat (Some 7%nat)
      = Ok (1 - Qsum [(1 # 5) / 2; 3 # 10], h')).
Proof.
  assert (Hflat : forall p, In p [0%nat; 1%nat; 2%nat] -> p <> 2%nat ->
                  flat [constant (1 # 5); constant (3 # 10);
                        ComplementProbability (Some [0%nat; 1%nat])] 7 p
                  = true).
  { simpl. intros p [<-|[<-|[<-|[]]]] H; try reflexivity. now elim H. }
  pose proof (complement_is_one_minus_siblings 3 group_heap 2%nat
                [0%nat; 1%nat; 2%nat] _ 7 (le_n 3) eq_refl Hflat) as [H1 H2].
  split; [apply le_n|]. split; [reflexivity|]. split.
  - exact H1.
  - exact (H2 group_rng 0%nat 0%nat _ (or_introl eq_refl) eq_refl).
Defined.

(** ** [verify] *)

Lemma isclose_one total :
  isclose total 1 rel_tol = true <-> close_to_one total.
Proof.
  unfold isclose, close_to_one.
  assert (Hr : 0 <= rel_tol) by (unfold rel_tol; discriminate).
  assert (H1 : Qabs (rel_tol * 1) == rel_tol).
  { rewrite Qmult_1_r. now apply Qabs_pos. }
  assert (H2 : Qabs (rel_tol * total) == rel_tol * Qabs total).
  { rewrite Qabs_Qmult. now rewrite (Qabs_pos rel_tol Hr). }
  assert (H3 : Qabs (1 - total) = Qabs (total - 1)) by apply Qabs_Qminus.
  rewrite !orb_true_iff, Qeq_bool_iff, !Qle_bool_iff, H1, H2, H3.
  split.
  - intros [[[H|H]|H]|H]; auto.
    + left. rewrite H. setoid_replace (1 - 1) with 0 by ring. exact Hr.
    + left. eapply Qle_trans; [exact H | exact Hr].
  - intros [H|H]; auto.
Qed.

Lemma value_None_heap fuel h p v h' :
  value fuel h p None = Ok (v, h') -> h' = h.
Proof.
  revert h p v h'. induction fuel as [|fuel IH]; intros h p v h'; [discriminate|].
  cbn [value].
  destruct (nth_error h p) as [[q x y d | ps cur | [sibs|]]|] eqn:E;
    try discriminate.
  - intros H. now inversion H.
  - destruct (nth_error ps cur) as [q|]; [|discriminate]. apply IH.
  - clear E. generalize 0.
    assert (Hgo : forall l acc s h1,
               (fix go (l : list pid) (h0 : heap) (acc : Q)
                  : result (Q * heap) :=
                  match l with
                  | [] => Ok (acc, h0)
                  | q :: l' =>
                      '(v, h1) <- value fuel h0 q None ;; go l' h1 (acc + v)
                  end) l h acc = Ok (s, h1) -> h1 = h).
    { induction l as [|q l IHl]; intros acc s h1 H.
      - now inversion H.
      - destruct (value fuel h q None) as [[v0 h0]|e] eqn:Ev; [|discriminate].
        apply IH in Ev. subst h0. cbn [bind] in H. eapply IHl; exact H. }
    intros acc H.
    match type of H with
    | bind ?X _ = _ => destruct X as [[s h1]|e] eqn:Es; [|discriminate]
    end.
    apply Hgo in Es. cbn [bind] in H. inversion H. congruence.
Qed.

Lemma sum_trans_probs_heap fuel ps h acc v h' :
  sum_trans_probs fuel ps h acc = Ok (v, h') -> h' = h.
Proof.
  revert h acc. induction ps as [|p ps IH]; intros h acc H.
  - now inversion H.
  - cbn [sum_trans_probs] in H.
    destruct (value fuel h p None) as [[v0 h0]|e] eqn:Ev; [|discriminate].
    apply value_None_heap in Ev. subst h0. eapply IH; exact H.
Qed.

Lemma check_children_ok fuel ps h h' :
  check_children fuel ps h = Ok h' <-> h' = h /\ group_ok fuel h ps.
Proof.
  unfold check_children, group_ok, total_prob.
  destruct (sum_trans_probs fuel ps h 0) as [[v h1]|e] eqn:E; cbn [bind].
  - apply sum_trans_probs_heap in E. subst h1.
    destruct (isclose v 1 rel_tol) eqn:Ec.
    + split.
      * intros H. inversion H. split; [reflexivity|].
        exists v. split; [reflexivity | now apply isclose_one].
      * intros [-> _]. reflexivity.
    + split; [discriminate|].
      intros [_ [total [Ht Hc]]]. inversion Ht; subst.
      apply isclose_one in Hc. congruence.
  - split; [discriminate|]. intros [_ [total [Ht _]]]. discriminate.
Qed.

(** Induction on nodes, with the hypothesis on every child. *)
Lemma Node_ind_children (P : Node -> Prop) :
  (forall nm p vs ch, Forall P ch -> P (ChanceNode nm p vs ch)) ->
  (forall nm p vs ch cum cumv, P (StateTransition nm p vs ch cum cumv)) ->
  forall n, P n.
Proof.
  intros Hc Ht. fix IH 1. intros [nm p vs ch | nm p vs ch cum cumv].
  - apply Hc. induction ch as [|n ch IHch]; constructor; [apply IH | exact IHch].
  - apply Ht.
Qed.

Lemma Node_verify_chance fuel nm p vs ch h :
  Node_verify fuel (ChanceNode nm p vs ch) h
  = match ch with
    | [] => Ok h
    | _ => h1 <- check_children fuel (map Node_trans_prob ch) h ;;
           verify_nodes fuel ch h1
    end.
Proof.
  destruct ch as [|n0 ch0]; [reflexivity|].
  cbn [Node_verify].
  destruct (check_children fuel _ h) as [h1|e]; cbn [bind]; [|reflexivity].
  cbn [verify_nodes].
  destruct (Node_verify fuel n0 h1) as [h2|e]; cbn [bind]; [|reflexivity].
  generalize ch0 h2. intros l.
  induction l as [|n1 l IH]; intros h0; [reflexivity|].
  cbn [verify_nodes]. destruct (Node_verify fuel n1 h0); cbn [bind]; auto.
Qed.

Lemma node_ok_chance fuel h nm p vs ch :
  node_ok fuel h (ChanceNode nm p vs ch)
  <-> match ch with
      | [] => True
      | _ => group_ok fuel h (map Node_trans_prob ch) /\ nodes_ok fuel h ch
      end.
Proof.
  destruct ch as [|n0 ch0]; [reflexivity|].
  cbn [node_ok].
  assert (H : forall l,
             (fix all (l0 : list Node) : Prop :=
                match l0 with
                | [] => True
                | n1 :: l' => node_ok fuel h n1 /\ all l'
                end) l <-> nodes_ok fuel h l).
  { induction l as [|n1 l IH]; [reflexivity|]. cbn [nodes_ok]. now rewrite IH. }
  now rewrite H.
Qed.

Lemma verify_nodes_ok fuel l :
  Forall (fun n => forall h h',
              Node_verify fuel n h = Ok h' <-> h' = h /\ node_ok fuel h n) l ->
  forall h h',
    verify_nodes fuel l h = Ok h' <-> h' = h /\ nodes_ok fuel h l.
Proof.
  induction 1 as [|n l Hn Hl IH]; intros h h'; cbn [verify_nodes nodes_ok].
  - split; [intros H; now inversion H | intros [-> _]; reflexivity].
  - destruct (Node_verify fuel n h) as [h1|e] eqn:E; cbn [bind].
    + apply Hn in E. destruct E as [-> Hok]. rewrite IH. tauto.
    + split; [discriminate|]. intros [_ [Hok _]].
      assert (Hx : Node_verify fuel n h = Ok h) by (apply Hn; auto).
      congruence.
Qed.

Lemma Node_verify_ok fuel n :
  forall h h', Node_verify fuel n h = Ok h' <-> h' = h /\ node_ok fuel h n.
Proof.
  induction n as [nm p vs ch IH | nm p vs ch cum cumv] using Node_ind_children;
    intros h h'.
  - rewrite Node_verify_chance, node_ok_chance.
    destruct ch as [|n0 ch0].
    + split; [intros H; now inversion H | intros [-> _]; reflexivity].
    + destruct (check_children fuel _ h) as [h1|e] eqn:E; cbn [bind].
      * apply check_children_ok in E. destruct E as [-> Hg].
        rewrite (verify_nodes_ok fuel _ IH). tauto.
      * split; [discriminate|]. intros [_ [Hg _]].
        assert (Hx : check_children fuel (map Node_trans_prob (n0 :: ch0)) h
                     = Ok h) by (apply check_children_ok; auto).
        congruence.
  - cbn [Node_verify node_ok].
    destruct ch as [|[d|] [|x ch]]; split;
      try discriminate;
      try (intros [_ [d0 Hd]]; discriminate).
    + intros H. inversion H. split; [reflexivity | now exists d].
    + intros [-> _]. reflexivity.
Qed.

Lemma verify_nodes_ok' fuel l h h' :
  verify_nodes fuel l h = Ok h' <-> h' = h /\ nodes_ok fuel h l.
Proof.
  apply verify_nodes_ok. apply Forall_forall. intros n _. apply Node_verify_ok.
Qed.

Lemma MarkovState_verify_ok fuel s h h' :
  MarkovState_verify fuel s h = Ok h' <-> h' = h /\ state_ok fuel h s.
Proof.
  unfold MarkovState_verify, state_ok.
  destruct (children s) as [|n0 ch0].
  - split; [intros H; now inversion H | intros [-> _]; reflexivity].
  - destruct (check_children fuel _ h) as [h1|e] eqn:E; cbn [bind].
    + apply check_children_ok in E. destruct E as [-> Hg].
      rewrite verify_nodes_ok'. tauto.
    + split; [discriminate|]. intros [_ [Hg _]].
      assert (Hx : check_children fuel (map Node_trans_prob (n0 :: ch0)) h
                   = Ok h) by (apply check_children_ok; auto).
      congruence.
Qed.

Lemma verify_states_ok fuel l h h' :
  verify_states fuel l h = Ok h' <-> h' = h /\ states_ok fuel h l.
Proof.
  revert h h'. induction l as [|s l IH]; intros h h';
    cbn [verify_states states_ok].
  - split; [intros H; now inversion H | intros [-> _]; reflexivity].
  - destruct (MarkovState_verify fuel s h) as [h1|e] eqn:E; cbn [bind].
    + apply MarkovState_verify_ok in E. destruct E as [-> Hok].
      rewrite IH. tauto.
    + split; [discriminate|]. intros [_ [Hok _]].
      assert (Hx : MarkovState_verify fuel s h = Ok h)
        by (apply MarkovState_verify_ok; auto).
      congruence.
Qed.

(** C6, as the code has it.  [verify] returns, leaving the probabilities as
    they were, exactly when the model passes its checks: every node with
    children (the controller, each state, each chance node) has a total
    within the relative tolerance of [math.isclose] of one, and every
    transition has exactly one child, a [MarkovState]; otherwise it raises. *)
Theorem verify_returns_iff_model_ok fuel c sts h :
  (forall h', verify fuel c sts h = Ok h' -> h' = h) /\
  (verify fuel c sts h = Ok h <-> model_ok fuel c sts h) /\
  (~ model_ok fuel c sts h <-> exists e, verify fuel c sts h = Err e).
Proof.
  assert (Hiff : forall h', verify fuel c sts h = Ok h'
                            <-> h' = h /\ model_ok fuel c sts h).
  { intros h'. unfold verify, model_ok.
    destruct (get_states (ctrl_children c) sts) as [ss|e]; cbn [bind].
    - destruct ss as [|s0 ss0].
      + split; [intros H; inversion H; split; [reflexivity|];
                exists []; split; [reflexivity | exact I]
               | intros [-> _]; reflexivity].
      + destruct (check_children fuel _ h) as [h1|e] eqn:E; cbn [bind].
        * apply check_children_ok in E. destruct E as [-> Hg].
          rewrite verify_states_ok. split.
          -- intros [-> Hs]. split; [reflexivity|].
             exists (s0 :: ss0). split; [reflexivity|]. split; assumption.
          -- intros [-> [ss [Hss Hs]]]. inversion Hss; subst.
             destruct Hs as [_ Hs]. split; [reflexivity | exact Hs].
        * split; [discriminate|]. intros [_ [ss [Hss Hs]]].
          inversion Hss; subst. destruct Hs as [Hg _].
          assert (Hx : check_children fuel (map trans_prob (s0 :: ss0)) h
                       = Ok h) by (apply check_children_ok; auto).
          congruence.
    - split; [discriminate|]. intros [_ [ss [Hss _]]]. discriminate. }
  split; [|split].
  - intros h' H. now apply Hiff in H.
  - rewrite Hiff. tauto.
  - split.
    + intros Hn. destruct (verify fuel c sts h) as [h'|e] eqn:E; [|eauto].
      destruct (proj1 (Hiff h') eq_refl) as [_ Hok]. contradiction.
    + intros [e He] Hok.
      assert (Hx : verify fuel c sts h = Ok h) by (apply Hiff; auto).
      congruence.
Qed.

(** C6 as stated fails: in this model every group of children sums to
    exactly one (the states, the children of A, and the two children of the
    transition), and [verify] raises, the transition having two children. *)
Lemma verify_raises_with_all_sums_one :
  verify 3 two_children_controller two_children_store two_children_heap
  = Err ValueError
  /\ exists t1 t2 t3,
      total_prob 3 two_children_heap [0%nat; 1%nat; 2%nat] = Ok t1 /\
      total_prob 3 two_children_heap [3%nat] = Ok t2 /\
      total_prob 3 two_children_heap [1%nat; 2%nat] = Ok t3 /\
      t1 == 1 /\ t2 == 1 /\ t3 == 1.
Proof.
  split; [reflexivity|].
  do 3 eexists. repeat split; reflexivity.
Qed.

(** ** [run] twice *)

(** C1, on the code.  In the two-state model, run for two cycles with the
    'half' method, [start] has replaced the initial occupancies 1 and 0 of A
    and B by the masses 1/2 and 1/2 delivered at the last cycle, and [reset]
    does not put them back: the second run is seeded with them, and its
    table differs from the first. *)
Theorem second_run_differs :
  exists p1 v1 c1 s1 h1 p2 v2 w2,
    run 3 (ab_controller 2 count_half) ab_store ab_heap
    = Ok (p1, v1, (c1, s1, h1)) /\
    run 3 c1 s1 h1 = Ok (p2, v2, w2) /\
    nth 0 (row p1 0) 0 == 3 # 4 /\
    nth 0 (row p2 0) 0 == 3 # 8 /\
    ~ nth 0 (row p1 0) 0 == nth 0 (row p2 0) 0.
Proof.
  do 8 eexists. split; [vm_compute; reflexivity|].
  split; [vm_compute; reflexivity|].
  repeat split; vm_compute; discriminate.
Qed.

(** ** Mass conservation: reading the probabilities *)

Lemma flat_values_Forall2 h t l vs :
  flat_values h t l = Some vs <->
  Forall2 (fun p v => flat_value h t p = Some v) l vs.
Proof.
  revert vs. induction l as [|p l IH]; intros vs; cbn [flat_values].
  - split; [intros H; inversion H; constructor | intros H; now inversion H].
  - split.
    + destruct (flat_value h t p) as [v|] eqn:E; [|discriminate].
      destruct (flat_values h t l) as [vs0|]; [|discriminate].
      intros H. inversion H; subst. constructor; [exact E | now apply IH].
    + intros H. inversion H as [|? v ? vs0 Hp Hl]; subst.
      rewrite Hp. apply IH in Hl. now rewrite Hl.
Qed.

Lemma cursor_ext_flat_values h h' t l vs :
  cursor_ext h h' -> flat_values h t l = Some vs -> flat_values h' t l = Some vs.
Proof.
  intros Hext. revert vs. induction l as [|p l IH]; intros vs; cbn [flat_values];
    auto.
  destruct (flat_value h t p) as [v|] eqn:E; [|discriminate].
  destruct (flat_values h t l) as [vs0|]; [|discriminate].
  intros H. rewrite (cursor_ext_flat_value _ _ _ _ _ Hext E), (IH vs0 eq_refl).
  exact H.
Qed.

Lemma cursor_ext_den h h' t p v :
  cursor_ext h h' -> den h t p = Some v -> den h' t p = Some v.
Proof.
  intros Hext Hd. pose proof Hext as [_ H]. unfold den in *.
  destruct (nth_error h p) as [a|] eqn:E.
  - destruct (H p a E) as [b [Hb [Hab|[ps [t1 [t2 [Ha Hb']]]]]]]; subst.
    + rewrite Hb. destruct b as [x y z d | ps c | [sibs|]].
      * eapply cursor_ext_flat_value; eauto.
      * eapply cursor_ext_flat_value; eauto.
      * destruct (flat_values h t sibs) as [vs|] eqn:Ev; [|discriminate].
        now rewrite (cursor_ext_flat_values _ _ _ _ _ Hext Ev).
      * unfold flat_value in Hd. rewrite E in Hd. discriminate.
    + rewrite Hb. eapply cursor_ext_flat_value; eauto.
  - unfold flat_value in Hd. rewrite E in Hd. discriminate.
Qed.

Lemma value_den fuel h t p v :
  (3 <= fuel)%nat ->
  den h t p = Some v ->
  exists h', value fuel h p (Some t) = Ok (v, h') /\ cursor_ext h h'.
Proof.
  intros Hf Hd. unfold den in Hd.
  destruct (nth_error h p) as [[x y z d | ps c | [sibs|]]|] eqn:E;
    try (apply value_flat; [lia | exact Hd]).
  destruct (flat_values h t sibs) as [vs|] eqn:Ev; [|discriminate].
  inversion Hd; subst v. destruct fuel as [|fuel]; [lia|].
  rewrite (value_complement fuel h p sibs (Some t) E).
  apply flat_values_Forall2 in Ev.
  destruct (sum_values_flat fuel h t sibs vs ltac:(lia) Ev h 0
              (cursor_ext_refl h)) as [h2 [Hs Hext]].
  rewrite Hs. cbn [bind]. exists h2. split; [reflexivity | exact Hext].
Qed.

(** Reading in a later heap what was denoted in an earlier one. *)
Lemma value_den_ext fuel h0 h t p v :
  (3 <= fuel)%nat ->
  cursor_ext h0 h ->
  den h0 t p = Some v ->
  exists h', value fuel h p (Some t) = Ok (v, h') /\ cursor_ext h0 h'
             /\ cursor_ext h h'.
Proof.
  intros Hf Hext Hd.
  destruct (value_den fuel h t p v Hf (cursor_ext_den _ _ _ _ _ Hext Hd))
    as [h' [Hv He]].
  exists h'. split; [exact Hv|].
  split; [eapply cursor_ext_trans; eauto | exact He].
Qed.

Lemma dens_cons h t p l vs :
  dens h t (p :: l) = Some vs ->
  exists v vs', vs = v :: vs' /\ den h t p = Some v /\ dens h t l = Some vs'.
Proof.
  cbn [dens]. destruct (den h t p) as [v|]; [|discriminate].
  destruct (dens h t l) as [vs'|]; [|discriminate].
  intros H. inversion H. now exists v, vs'.
Qed.

(** ** Mass conservation: the effect of reports *)

Lemma total_set {V} (f : V -> Q) (d : dict V) k v :
  Qsum (map (fun kv => f (snd kv)) (dict_set d k v))
  == Qsum (map (fun kv => f (snd kv)) d)
     - match dict_get d k with Some old => f old | None => 0 end
     + f v.
Proof.
  induction d as [|[k0 v0] d IH]; cbn [dict_set dict_get map].
  - rewrite Qsum_cons. unfold Qsum. simpl. ring.
  - destruct (String.eqb k0 k); cbn [map snd].
    + rewrite !Qsum_cons. ring.
    + rewrite !Qsum_cons, IH. ring.
Qed.

Lemma dict_total_append d k x :
  dict_total (dd_append d k x) == dict_total d + x.
Proof.
  unfold dict_total, dd_append.
  destruct (dict_get d k) as [l|] eqn:E; rewrite (total_set Qsum), E.
  - rewrite Qsum_snoc. ring.
  - assert (H : Qsum [x] == x) by (unfold Qsum; simpl; ring). rewrite H. ring.
Qed.

Lemma keys_set {V} (d : dict V) k v k' :
  In k' (dict_keys (dict_set d k v)) <-> In k' (dict_keys d) \/ k' = k.
Proof.
  destruct (dict_get d k) as [l|] eqn:E.
  - rewrite (dict_keys_set_mem d k v l E). split; [tauto|].
    intros [H | ->]; [exact H|].
    destruct (in_dec string_dec k (dict_keys d)) as [Hin|Hn]; [exact Hin|].
    apply dict_get_None_notin in Hn. congruence.
  - rewrite (dict_keys_set_new d k v E), in_app_iff. simpl. intuition.
Qed.

Lemma keys_append d k x k' :
  In k' (dict_keys (dd_append d k x)) <-> In k' (dict_keys d) \/ k' = k.
Proof. unfold dd_append. destruct (dict_get d k); apply keys_set. Qed.

Lemma keys_set_NoDup {V} (d : dict V) k v :
  NoDup (dict_keys d) -> NoDup (dict_keys (dict_set d k v)).
Proof.
  intros Hnd. destruct (dict_get d k) as [l|] eqn:E.
  - now rewrite (dict_keys_set_mem d k v l E).
  - rewrite (dict_keys_set_new d k v E).
    apply NoDup_app; [exact Hnd | constructor; [simpl; tauto | constructor] |].
    intros a Ha [Hb|[]]. subst a. now apply dict_get_None_notin in E.
Qed.

Lemma fold_append_keys {V} (g : V -> Q) items acc k :
  In k (dict_keys (fold_append g items acc))
  <-> In k (dict_keys acc) \/ In k (dict_keys items).
Proof.
  revert acc. induction items as [|[k0 v0] items IH]; intros acc.
  - simpl. tauto.
  - rewrite fold_append_cons, IH, keys_append. simpl. intuition.
Qed.

Lemma next_append_spec d k x :
  NoDup (dict_keys d) ->
  (forall k0, appendable d k0 = true) ->
  exists d',
    next_append d k x = Ok d' /\
    next_total d' == next_total d + x /\
    (forall k', In k' (dict_keys d') <-> In k' (dict_keys d) \/ k' = k) /\
    NoDup (dict_keys d') /\
    (forall k0, appendable d' k0 = true).
Proof.
  intros Hnd Happ. unfold next_append.
  pose proof (Happ k) as Hk. unfold appendable in Hk.
  destruct (dict_get d k) as [[q|l]|] eqn:E; [discriminate| |];
    eexists; (split; [reflexivity|]);
    (split; [|split; [intros k'; apply keys_set|
                      split; [now apply keys_set_NoDup|]]]).
  - unfold next_total. rewrite (total_set np_sum), E. cbn [np_sum].
    rewrite Qsum_snoc. ring.
  - intros k0. unfold appendable.
    destruct (string_dec k k0) as [->|Hne].
    + now rewrite dict_get_set_same.
    + rewrite dict_get_set_other by exact Hne. apply Happ.
  - unfold next_total. rewrite (total_set np_sum), E. cbn [np_sum].
    assert (H : Qsum [x] == x) by (unfold Qsum; simpl; ring). rewrite H. ring.
  - intros k0. unfold appendable.
    destruct (string_dec k k0) as [->|Hne].
    + now rewrite dict_get_set_same.
    + rewrite dict_get_set_other by exact Hne. apply Happ.
Qed.

Lemma keys_grow_refl {V} (d : dict V) : keys_grow d d [].
Proof. intros k. simpl. tauto. Qed.

Lemma keys_grow_trans {V} (d1 d2 d3 : dict V) K K' :
  keys_grow d1 d2 K -> keys_grow d2 d3 K' -> keys_grow d1 d3 (K ++ K').
Proof.
  intros H1 H2 k. rewrite (H2 k), (H1 k), in_app_iff. tauto.
Qed.

Lemma ctrl_step_refl c : ctrl_step c c 0 0 [] [] [].
Proof.
  constructor; try apply keys_grow_refl; try reflexivity; ring.
Qed.

Lemma ctrl_step_trans c1 c2 c3 dP dN Kp Kn Kv dP' dN' Kp' Kn' Kv' :
  ctrl_step c1 c2 dP dN Kp Kn Kv ->
  ctrl_step c2 c3 dP' dN' Kp' Kn' Kv' ->
  ctrl_step c1 c3 (dP + dP') (dN + dN') (Kp ++ Kp') (Kn ++ Kn') (Kv ++ Kv').
Proof.
  intros [A1 A2 A3 A4 A5 A6] [B1 B2 B3 B4 B5 B6]. constructor.
  - congruence.
  - rewrite B2, A2. ring.
  - rewrite B3, A3. ring.
  - eapply keys_grow_trans; eauto.
  - eapply keys_grow_trans; eauto.
  - eapply keys_grow_trans; eauto.
Qed.

Lemma ctrl_step_eq c c' dP dN dP' dN' Kp Kn Kv :
  ctrl_step c c' dP dN Kp Kn Kv -> dP == dP' -> dN == dN' ->
  ctrl_step c c' dP' dN' Kp Kn Kv.
Proof.
  intros [A1 A2 A3 A4 A5 A6] HP HN. constructor; auto.
  - now rewrite <- HP.
  - now rewrite <- HN.
Qed.

Lemma ctrl_step_config c c' dP dN Kp Kn Kv :
  ctrl_step c c' dP dN Kp Kn Kv ->
  count_method c' = count_method c /\ discount_rate c' = discount_rate c /\
  model_time c' = model_time c.
Proof.
  intros [A1 _ _ _ _ _]. unfold config in A1. inversion A1. auto.
Qed.

(** One handled report. *)
Lemma handle_step c node data key w0 w1 :
  report_key node data = Some key ->
  prob data = [w0; w1] ->
  ctrl_inv c ->
  exists c',
    handle_node_message c node data = Ok c' /\
    ctrl_step c c' (selected (count_method c) w0 w1)
      (if is_transition node then w1 else 0)
      [key] (if is_transition node then [key] else [])
      (dict_keys (vars data)) /\
    ctrl_inv c'.
Proof.
  intros Hkey Hw [I1 [I2 [I3 [I4 Hr]]]].
  destruct (handle_node_message_reporter c node data key w0 w1 Hkey Hw Hr
              (fun _ => I4 key)) as [p [nx [_ [Hsel [Hnx Hh]]]]].
  rewrite Hh. eexists. split; [reflexivity|].
  assert (Hn : next_total nx
               == next_total (next_cycle_start_prob c)
                  + (if is_transition node then w1 else 0)
               /\ keys_grow (next_cycle_start_prob c) nx
                    (if is_transition node then [key] else [])
               /\ NoDup (dict_keys nx)
               /\ (forall k0, appendable nx k0 = true)).
  { destruct (is_transition node).
    - destruct (next_append_spec (next_cycle_start_prob c) key w1 I2 I4)
        as [d' [Hd [Ht [Hk [Hnd Happ]]]]].
      rewrite Hd in Hnx. inversion Hnx; subst d'.
      split; [exact Ht|]. split; [|split; assumption].
      intros k'. rewrite Hk. simpl. intuition.
    - subst nx. split; [ring|]. split; [apply keys_grow_refl|].
      split; assumption. }
  destruct Hn as [Hn1 [Hn2 [Hn3 Hn4]]].
  split.
  - constructor;
      cbn [set_cycle set_next cycle_probs next_cycle_start_prob
           cycle_variables].
    + reflexivity.
    + rewrite dict_total_append, Hsel. reflexivity.
    + exact Hn1.
    + intros k. rewrite keys_append. simpl. intuition.
    + exact Hn2.
    + intros k.
      apply (fold_append_keys
               (fun v => v * p
                         / (1 + discount_rate c) ^ Z.of_nat (model_time c))
               (vars data) (cycle_variables c) k).
  - unfold ctrl_inv.
    cbn [set_cycle set_next cycle_probs next_cycle_start_prob
         cycle_variables discount_rate].
    split; [now apply dd_append_keys_NoDup|]. split; [exact Hn3|].
    split; [|split; [exact Hn4 | exact Hr]].
    now apply (fold_append_keys_NoDup _
                 (fun v => v * p
                           / (1 + discount_rate c) ^ Z.of_nat (model_time c))
                 (vars data) (cycle_variables c)).
Qed.

Lemma ctrl_step_keys c c' dP dN Kp Kn Kv Kp' Kn' Kv' :
  ctrl_step c c' dP dN Kp Kn Kv ->
  (forall k, In k Kp <-> In k Kp') ->
  (forall k, In k Kn <-> In k Kn') ->
  (forall k, In k Kv <-> In k Kv') ->
  ctrl_step c c' dP dN Kp' Kn' Kv'.
Proof.
  intros [A1 A2 A3 A4 A5 A6] Hp Hn Hv. constructor; auto.
  - intros k. rewrite (A4 k), (Hp k). tauto.
  - intros k. rewrite (A5 k), (Hn k). tauto.
  - intros k. rewrite (A6 k), (Hv k). tauto.
Qed.

Lemma selected_plus m a b a' b' :
  selected m (a + a') (b + b') == selected m a b + selected m a' b'.
Proof. destruct m; simpl; field. Qed.

Lemma selected_zero m : selected m 0 0 == 0.
Proof. destruct m; simpl; field. Qed.

Lemma selected_eq m a b a' b' :
  a == a' -> b == b' -> selected m a b == selected m a' b'.
Proof. intros Ha Hb. destruct m; simpl; rewrite ?Ha, ?Hb; reflexivity. Qed.

Lemma last_snoc {A} (l : list A) a d : last (l ++ [a]) d = a.
Proof.
  induction l as [|x l IH]; [reflexivity|].
  simpl. destruct (l ++ [a]) eqn:E; [|exact IH].
  destruct l; discriminate.
Qed.

Lemma list_snoc_inv {A} (l : list A) k :
  List.length l = S k ->
  exists l' a, l = l' ++ [a] /\ List.length l' = k.
Proof.
  intros H. destruct (exists_last (l := l)) as [l' [a Hl]].
  - intros ->. discriminate.
  - exists l', a. split; [exact Hl|].
    subst l. rewrite length_app in H. simpl in H. lia.
Qed.

Lemma skipn_app_exact {A} (l1 l2 : list A) :
  skipn (List.length l1) (l1 ++ l2) = l2.
Proof. induction l1; simpl; auto. Qed.

(** The window a transition reports, its history having the length of the
    cycles before. *)
Lemma transition_window cum t out :
  List.length cum = cum_len t ->
  slice ((if Nat.eqb t 0 then cum ++ [0] else cum) ++ [out]) t (t + 2)
  = [match t with O => 0 | S _ => last cum 0 end; out].
Proof.
  intros H. unfold slice. replace (t + 2 - t)%nat with 2%nat by lia.
  destruct t as [|t]; cbn [Nat.eqb cum_len] in *.
  - destruct cum; [reflexivity | discriminate].
  - destruct (list_snoc_inv cum (S t) H) as [l' [a [-> Hl]]].
    rewrite last_snoc, <- app_assoc, <- Hl, skipn_app_exact. reflexivity.
Qed.

Lemma merge_variables_dst_keys input own destination k :
  In k (dict_keys (merge_variables_dst input own destination))
  <-> In k (keys_union input own).
Proof.
  pose proof (merge_variables_dst_get input own destination k) as H.
  destruct (mem_string k (keys_union input own)) eqn:E.
  - apply mem_string_In in E. split; [auto|]. intros _.
    destruct (in_dec string_dec k
                (dict_keys (merge_variables_dst input own destination)))
      as [Hin|Hn]; [exact Hin|].
    apply dict_get_None_notin in Hn. congruence.
  - split.
    + intros Hin. apply dict_get_None_notin in H. contradiction.
    + intros Hin. apply mem_string_In in Hin. congruence.
Qed.

(** ** Mass conservation: [forward] *)

Lemma input_reads_ext h h' ip x :
  cursor_ext h h' -> input_reads h ip x -> input_reads h' ip x.
Proof.
  destruct ip as [q|p]; simpl; auto. apply cursor_ext_constant_at.
Qed.

Lemma input_value_reads fuel h ip x :
  (1 <= fuel)%nat -> input_reads h ip x -> input_value fuel h ip = Ok (x, h).
Proof.
  intros Hf. destruct ip as [q|p]; simpl.
  - now intros ->.
  - destruct fuel as [|fuel]; [lia|]. apply value_constant.
Qed.

Lemma forward_ok_transition fuel sts h0 t m nm p vs ch cum cumv :
  (3 <= fuel)%nat ->
  forward_ok fuel sts h0 t m (StateTransition nm p vs ch cum cumv).
Proof.
  intros Hf ip x iv h c v Hcl Hh Hd Hext Hin Hm Hinv.
  cbn [closed_node hist_ok Node_trans_prob] in Hcl, Hh, Hd.
  destruct ch as [|[d|] [|? ?]]; try discriminate.
  apply Nat.ltb_lt in Hcl. apply Nat.eqb_eq in Hh.
  destruct (nth_error sts d) as [ds|] eqn:Eds;
    [|apply nth_error_None in Eds; lia].
  destruct (value_den_ext fuel h0 h t p v Hf Hext Hd) as [h1 [Hv [He0 He1]]].
  cbn [Node_forward_core]. rewrite Hv. cbn [bind].
  rewrite (input_value_reads fuel h1 ip x ltac:(lia)
             (input_reads_ext _ _ _ _ He1 Hin)).
  cbn [bind destination_of]. rewrite Eds. cbn [bind].
  rewrite (transition_window cum t (x * v) Hh).
  set (n' := StateTransition nm p vs [ChildState d]
               ((if Nat.eqb t 0 then cum ++ [0] else cum) ++ [x * v]) cumv).
  set (data := mkPayload (Some (node_name ds))
                 [match t with O => 0 | S _ => last cum 0 end; x * v]
                 (merge_variables_dst iv vs (variables ds))).
  destruct (handle_step c (ANode n') data (node_name ds)
              (match t with O => 0 | S _ => last cum 0 end) (x * v)
              eq_refl eq_refl Hinv) as [c' [Hc [Hstep Hinv']]].
  rewrite Hc. cbn [bind]. exists n', h1, c'.
  split; [reflexivity|]. split; [exact He0|]. split; [exact He1|].
  split; [reflexivity|]. split.
  { cbn [hist_ok n']. apply Nat.eqb_eq. rewrite length_app.
    destruct t as [|t]; cbn [Nat.eqb cum_len] in *.
    - rewrite length_app, Hh. reflexivity.
    - rewrite Hh. simpl. lia. }
  split; [cbn [out_total n']; rewrite last_snoc; reflexivity|].
  split; [|exact Hinv'].
  rewrite Hm in Hstep. cbn [is_transition n'] in Hstep.
  assert (Hnm : nth_error (state_names sts) d = Some (node_name ds))
    by (unfold state_names; now rewrite nth_error_map, Eds).
  cbn [dst_names]. rewrite Hnm.
  eapply ctrl_step_keys; [| reflexivity | reflexivity |].
  - destruct t; exact Hstep.
  - intros k. cbn [vars data node_var_keys].
    apply merge_variables_dst_keys.
Qed.

Lemma Node_forward_chance fuel sts nm p vs ch t ip iv h c :
  Node_forward_core fuel sts (ChanceNode nm p vs ch) t ip iv h c
  = ('(v, h1) <- value fuel h p (Some t) ;;
     '(x, h2) <- input_value fuel h1 ip ;;
     '(ch', h3, c') <- forward_children_core fuel sts ch t (InFloat (x * v))
                         (merge_variables iv vs) h2 c ;;
     Ok (ChanceNode nm p vs ch', h3, c')).
Proof.
  cbn [Node_forward_core].
  destruct (value fuel h p (Some t)) as [[v h1]|e]; cbn [bind]; [|reflexivity].
  destruct (input_value fuel h1 ip) as [[x h2]|e]; cbn [bind]; [|reflexivity].
  f_equal. generalize h2 c. induction ch as [|n ch IH]; intros h0 c0.
  - reflexivity.
  - cbn [forward_children_core].
    destruct (Node_forward_core fuel sts n t (InFloat (x * v))
                (merge_variables iv vs) h0 c0) as [[[n1 h4] c1]|e];
      cbn [bind]; [|reflexivity].
    now rewrite IH.
Qed.

Lemma forward_children_spec fuel sts h0 t m ch :
  Forall (forward_ok fuel sts h0 t m) ch ->
  forall vs ip x iv h c,
    forallb (closed_node h0 (List.length sts) t) ch = true ->
    forallb (hist_ok t) ch = true ->
    dens h0 t (map Node_trans_prob ch) = Some vs ->
    cursor_ext h0 h ->
    input_reads h ip x ->
    count_method c = m ->
    ctrl_inv c ->
    exists ch' h' c',
      forward_children_core fuel sts ch t ip iv h c = Ok (ch', h', c') /\
      cursor_ext h0 h' /\ cursor_ext h h' /\
      map Node_reset ch' = map Node_reset ch /\
      forallb (hist_ok (S t)) ch' = true /\
      Qsum (map out_total ch') == x * Qsum vs /\
      ctrl_step c c'
        (selected m
           (match t with O => 0 | S _ => Qsum (map out_total ch) end)
           (x * Qsum vs))
        (x * Qsum vs)
        (flat_map (dst_names (state_names sts)) ch)
        (flat_map (dst_names (state_names sts)) ch)
        (flat_map (fun n => node_var_keys n iv) ch) /\
      ctrl_inv c'.
Proof.
  induction 1 as [|n ch Hn Hch IH];
    intros vs ip x iv h c Hcl Hh Hd Hext Hin Hm Hinv.
  - cbn [map dens] in Hd. inversion Hd; subst vs.
    exists [], h, c. split; [reflexivity|]. split; [exact Hext|].
    split; [apply cursor_ext_refl|]. split; [reflexivity|].
    split; [reflexivity|]. split; [unfold Qsum; simpl; ring|].
    split; [|exact Hinv].
    eapply ctrl_step_eq; [apply ctrl_step_refl | |].
    + assert (E : selected m match t with O => 0 | S _ => Qsum (map out_total [])
                                end (x * Qsum [])
                  == selected m 0 0).
      { apply selected_eq; [destruct t; reflexivity|].
        unfold Qsum; simpl; ring. }
      rewrite E. symmetry. apply selected_zero.
    + unfold Qsum; simpl; ring.
  - cbn [map] in Hd. destruct (dens_cons _ _ _ _ _ Hd) as [v [vs' [-> [Hv Hvs]]]].
    cbn [forallb] in Hcl, Hh.
    apply andb_true_iff in Hcl. destruct Hcl as [Hcl1 Hcl2].
    apply andb_true_iff in Hh. destruct Hh as [Hh1 Hh2].
    destruct (Hn ip x iv h c v Hcl1 Hh1 Hv Hext Hin Hm Hinv)
      as [n' [h1 [c1 [Hf [He0 [He1 [Hr [Hh' [Ho [Hs Hi]]]]]]]]]].
    pose proof (ctrl_step_config _ _ _ _ _ _ _ Hs) as [Hm1 _].
    destruct (IH vs' ip x iv h1 c1 Hcl2 Hh2 Hvs He0
                (input_reads_ext _ _ _ _ He1 Hin)
                ltac:(congruence) Hi)
      as [ch' [h2 [c2 [Hf2 [He0' [He1' [Hr2 [Hh2' [Ho2 [Hs2 Hi2]]]]]]]]]].
    cbn [forward_children_core]. rewrite Hf. cbn [bind]. rewrite Hf2. cbn [bind].
    exists (n' :: ch'), h2, c2.
    split; [reflexivity|]. split; [exact He0'|].
    split; [eapply cursor_ext_trans; eauto|].
    split; [cbn [map]; congruence|].
    split; [cbn [forallb]; now rewrite Hh', Hh2'|].
    split.
    { cbn [map]. rewrite !Qsum_cons, Ho, Ho2. ring. }
    split; [|exact Hi2].
    eapply ctrl_step_eq; [exact (ctrl_step_trans _ _ _ _ _ _ _ _ _ _ _ _ _ Hs Hs2)
                         | |].
    + rewrite <- selected_plus. apply selected_eq.
      * unfold prev_total. destruct t; [ring|].
        cbn [map]. rewrite Qsum_cons. reflexivity.
      * rewrite Qsum_cons. ring.
    + rewrite Qsum_cons. ring.
Qed.

Lemma group_closed_dens h t ps :
  group_closed h t ps = true ->
  exists vs, dens h t ps = Some vs /\ Qsum vs == 1.
Proof.
  unfold group_closed. destruct (dens h t ps) as [vs|]; [|discriminate].
  intros H. apply Qeq_bool_eq in H. now exists vs.
Qed.

Lemma forward_ok_all fuel sts h0 t m :
  (3 <= fuel)%nat -> forall n, forward_ok fuel sts h0 t m n.
Proof.
  intros Hf n.
  induction n as [nm p vs ch IH | nm p vs ch cum cumv] using Node_ind_children;
    [|now apply forward_ok_transition].
  intros ip x iv h c v Hcl Hh Hd Hext Hin Hm Hinv.
  cbn [closed_node hist_ok Node_trans_prob] in Hcl, Hh, Hd.
  apply andb_true_iff in Hcl. destruct Hcl as [Hg Hcl].
  destruct (group_closed_dens _ _ _ Hg) as [vs0 [Hvs Hone]].
  destruct (value_den_ext fuel h0 h t p v Hf Hext Hd) as [h1 [Hv [He0 He1]]].
  rewrite Node_forward_chance, Hv. cbn [bind].
  rewrite (input_value_reads fuel h1 ip x ltac:(lia)
             (input_reads_ext _ _ _ _ He1 Hin)).
  cbn [bind].
  destruct (forward_children_spec fuel sts h0 t m ch IH vs0
              (InFloat (x * v)) (x * v) (merge_variables iv vs) h1 c
              Hcl Hh Hvs He0 eq_refl Hm Hinv)
    as [ch' [h2 [c2 [Hf2 [He0' [He1' [Hr2 [Hh2' [Ho2 [Hs2 Hi2]]]]]]]]]].
  rewrite Hf2. cbn [bind].
  exists (ChanceNode nm p vs ch'), h2, c2.
  split; [reflexivity|]. split; [exact He0'|].
  split; [eapply cursor_ext_trans; eauto|].
  split; [cbn [Node_reset]; now rewrite Hr2|].
  split; [exact Hh2'|].
  split; [cbn [out_total]; rewrite Ho2, Hone; ring|].
  split; [|exact Hi2].
  cbn [dst_names node_var_keys].
  eapply ctrl_step_eq; [exact Hs2 | |].
  - apply selected_eq; [destruct t; reflexivity | rewrite Hone; ring].
  - rewrite Hone. ring.
Qed.

(** ** Mass conservation: [start] *)

Lemma MarkovState_start_spec fuel sts h0 t m s x m0 h c :
  (3 <= fuel)%nat ->
  closed_state h0 (List.length sts) t s = true ->
  forallb (hist_ok t) (children s) = true ->
  initial_prob s = history_before t m0 ->
  cursor_ext h0 h ->
  count_method c = m ->
  ctrl_inv c ->
  exists s' h' c',
    MarkovState_start_core fuel sts s t x h c = Ok (s', h', c') /\
    cursor_ext h0 h' /\
    node_name s' = node_name s /\
    variables s' = variables s /\
    map Node_reset (children s') = map Node_reset (children s) /\
    forallb (hist_ok (S t)) (children s') = true /\
    initial_prob s'
    = history_before (S t) (match t with O => x | S _ => m0 end) /\
    Qsum (map out_total (children s')) == x /\
    ctrl_step c c'
      (selected m
         (match t with O => x | S _ => Qsum (map out_total (children s)) end)
         x)
      x
      (node_name s :: flat_map (dst_names (state_names sts)) (children s))
      (flat_map (dst_names (state_names sts)) (children s))
      (state_var_keys s) /\
    ctrl_inv c'.
Proof.
  intros Hf Hcl Hh Hhist Hext Hm Hinv.
  unfold closed_state in Hcl. apply andb_true_iff in Hcl.
  destruct Hcl as [Hg Hcl].
  destruct (group_closed_dens _ _ _ Hg) as [vs [Hvs Hone]].
  destruct (start_shape s t x m0 Hhist) as [Hwin Hhis].
  unfold MarkovState_start_core.
  set (s1 := mkState (node_name s) (trans_prob s) (variables s) (children s)
               (start_history s t x)).
  set (w0 := match t with O => x | S _ => 0 end).
  assert (Hwin' : start_window s t x = [w0; 0]) by (destruct t; exact Hwin).
  destruct (handle_step c (AState s1)
              (mkPayload None (start_window s t x) (variables s1))
              (node_name s) w0 0 eq_refl Hwin' Hinv)
    as [c1 [Hc1 [Hs1 Hi1]]].
  rewrite Hc1. cbn [bind alloc].
  pose proof (ctrl_step_config _ _ _ _ _ _ _ Hs1) as [Hm1 _].
  assert (He1 : cursor_ext h0 (h ++ [constant x])).
  { eapply cursor_ext_trans; [exact Hext|].
    apply (cursor_ext_alloc h (constant x)). }
  assert (Hrd : input_reads (h ++ [constant x]) (InObject (List.length h)) x).
  { cbn [input_reads]. unfold constant_at.
    rewrite nth_error_app2 by lia. rewrite Nat.sub_diag. reflexivity. }
  unfold MarkovState_forward_core. cbn [children trans_prob variables s1].
  destruct (forward_children_spec fuel sts h0 t m (children s)
              ltac:(apply Forall_forall; intros n _; now apply forward_ok_all)
              vs (InObject (List.length h)) x (zero_variables (variables s))
              (h ++ [constant x]) c1 Hcl Hh Hvs He1 Hrd
              ltac:(congruence) Hi1)
    as [ch' [h2 [c2 [Hf2 [He0' [He1' [Hr2 [Hh2' [Ho2 [Hs2 Hi2]]]]]]]]]].
  rewrite Hf2. cbn [bind].
  eexists _, h2, c2. split; [reflexivity|].
  cbn [node_name variables children initial_prob s1].
  split; [exact He0'|]. split; [reflexivity|]. split; [reflexivity|].
  split; [exact Hr2|]. split; [exact Hh2'|]. split; [exact Hhis|].
  split; [rewrite Ho2, Hone; ring|].
  split; [|exact Hi2].
  rewrite Hm in Hs1. cbn [is_transition] in Hs1.
  pose proof (ctrl_step_trans _ _ _ _ _ _ _ _ _ _ _ _ _ Hs1 Hs2) as Hs.
  cbn [app variables s1 vars] in Hs.
  eapply ctrl_step_eq; [exact Hs | |].
  - rewrite <- selected_plus. apply selected_eq.
    + unfold w0. destruct t; ring.
    + rewrite Hone. ring.
  - rewrite Hone. ring.
Qed.

(** ** Mass conservation: what does not depend on the histories *)

Section Skeleton.

Variable B : Type.
Variable f : Node -> B.
Hypothesis f_reset : forall n, f (Node_reset n) = f n.

Lemma skeleton_map l l' :
  map Node_reset l = map Node_reset l' -> map f l = map f l'.
Proof.
  intros H.
  assert (E : forall l0, map f l0 = map f (map Node_reset l0)).
  { intros l0. rewrite map_map. apply map_ext. intros n. now rewrite f_reset. }
  now rewrite (E l), (E l'), H.
Qed.

End Skeleton.

Lemma Node_trans_prob_reset n : Node_trans_prob (Node_reset n) = Node_trans_prob n.
Proof. now destruct n. Qed.

Lemma forallb_map_reset (f : Node -> bool) ch :
  Forall (fun n => f (Node_reset n) = f n) ch ->
  forallb f (map Node_reset ch) = forallb f ch.
Proof. induction 1 as [|n ch Hn _ IH]; simpl; congruence. Qed.

Lemma existsb_map_reset (f : Node -> bool) ch :
  Forall (fun n => f (Node_reset n) = f n) ch ->
  existsb f (map Node_reset ch) = existsb f ch.
Proof. induction 1 as [|n ch Hn _ IH]; simpl; congruence. Qed.

Lemma flat_map_map_reset {B} (f : Node -> list B) ch :
  Forall (fun n => f (Node_reset n) = f n) ch ->
  flat_map f (map Node_reset ch) = flat_map f ch.
Proof. induction 1 as [|n ch Hn _ IH]; simpl; congruence. Qed.

Lemma closed_node_reset h ns t n :
  closed_node h ns t (Node_reset n) = closed_node h ns t n.
Proof.
  induction n as [nm p vs ch IH | nm p vs ch cum cumv] using Node_ind_children;
    [|reflexivity].
  cbn [Node_reset closed_node]. rewrite map_map.
  rewrite (map_ext _ _ Node_trans_prob_reset).
  now rewrite (forallb_map_reset _ ch IH).
Qed.

Lemma dst_names_reset names n :
  dst_names names (Node_reset n) = dst_names names n.
Proof.
  induction n as [nm p vs ch IH | nm p vs ch cum cumv] using Node_ind_children;
    [|reflexivity].
  cbn [Node_reset dst_names]. now apply flat_map_map_reset.
Qed.

Lemma node_var_keys_reset n :
  forall iv, node_var_keys (Node_reset n) iv = node_var_keys n iv.
Proof.
  induction n as [nm p vs ch IH | nm p vs ch cum cumv] using Node_ind_children;
    intros iv; [|reflexivity].
  cbn [Node_reset node_var_keys]. apply flat_map_map_reset.
  eapply Forall_impl; [|exact IH]. intros n H. apply H.
Qed.

Lemma Node_lookup_reset k n : Node_lookup (Node_reset n) k = Node_lookup n k.
Proof.
  induction n as [nm p vs ch IH | nm p vs ch cum cumv] using Node_ind_children;
    [|reflexivity].
  cbn [Node_reset Node_lookup]. f_equal.
  apply (existsb_map_reset (fun n => Node_lookup n k)). exact IH.
Qed.

Lemma skeleton_forallb (f : Node -> bool) l l' :
  (forall n, f (Node_reset n) = f n) ->
  map Node_reset l = map Node_reset l' -> forallb f l = forallb f l'.
Proof.
  intros Hf H.
  rewrite <- (forallb_map_reset f l), <- (forallb_map_reset f l'), H; auto;
    apply Forall_forall; intros; apply Hf.
Qed.

Lemma skeleton_existsb (f : Node -> bool) l l' :
  (forall n, f (Node_reset n) = f n) ->
  map Node_reset l = map Node_reset l' -> existsb f l = existsb f l'.
Proof.
  intros Hf H.
  rewrite <- (existsb_map_reset f l), <- (existsb_map_reset f l'), H; auto;
    apply Forall_forall; intros; apply Hf.
Qed.

Lemma skeleton_flat_map {B} (f : Node -> list B) l l' :
  (forall n, f (Node_reset n) = f n) ->
  map Node_reset l = map Node_reset l' -> flat_map f l = flat_map f l'.
Proof.
  intros Hf H.
  rewrite <- (flat_map_map_reset f l), <- (flat_map_map_reset f l'), H; auto;
    apply Forall_forall; intros; apply Hf.
Qed.

(** ** Mass conservation: delivering the start masses *)

Lemma same_skeleton_names sts0 sts :
  same_skeleton sts0 sts -> state_names sts = state_names sts0.
Proof.
  induction 1 as [|s0 s l0 l [Hn _] _ IH]; [reflexivity|].
  unfold state_names in *. simpl. now rewrite Hn, IH.
Qed.

Lemma same_skeleton_length sts0 sts :
  same_skeleton sts0 sts -> List.length sts = List.length sts0.
Proof. intros H. symmetry. eapply Forall2_length; eauto. Qed.

Lemma same_skeleton_nth sts0 sts i s :
  same_skeleton sts0 sts -> nth_error sts i = Some s ->
  exists s0, nth_error sts0 i = Some s0 /\ same_state s0 s.
Proof.
  intros H. revert i. induction H as [|s0 s1 l0 l Hs _ IH]; intros [|i] Hi;
    try discriminate.
  - inversion Hi; subst. now exists s0.
  - now apply IH.
Qed.

Lemma same_skeleton_refl sts : same_skeleton sts sts.
Proof.
  induction sts as [|s sts IH]; constructor; [|exact IH].
  repeat split.
Qed.

Lemma same_skeleton_update sts0 sts i s s' :
  same_skeleton sts0 sts ->
  nth_error sts i = Some s ->
  node_name s' = node_name s ->
  variables s' = variables s ->
  map Node_reset (children s') = map Node_reset (children s) ->
  same_skeleton sts0 (update sts i s').
Proof.
  intros H. revert i. induction H as [|s0 s1 l0 l Hs Hl IH]; intros [|i] Hi Hn Hv Hc;
    try discriminate.
  - inversion Hi; subst. constructor; [|exact Hl].
    destruct Hs as [A [B C]]. repeat split; congruence.
  - simpl. constructor; [exact Hs | now apply IH].
Qed.

Lemma unique_names_skeleton sts0 sts :
  same_skeleton sts0 sts -> unique_names sts0 -> unique_names sts.
Proof.
  intros Hsk [U1 [U2 U3]]. unfold unique_names.
  rewrite (same_skeleton_names _ _ Hsk). split; [exact U1|]. split; [exact U2|].
  intros s k Hs Hk. apply In_nth_error in Hs. destruct Hs as [i Hi].
  destruct (same_skeleton_nth _ _ _ _ Hsk Hi) as [s0 [Hi0 [_ [_ Hc]]]].
  rewrite (skeleton_existsb (fun n => Node_lookup n k) _ _
             (Node_lookup_reset k) Hc).
  apply U3; [eapply nth_error_In; eauto | exact Hk].
Qed.

Lemma state_names_nth sts i s :
  nth_error sts i = Some s -> nth_error (state_names sts) i = Some (node_name s).
Proof. intros H. unfold state_names. now rewrite nth_error_map, H. Qed.

Lemma lookup_children_found sts name i s :
  unique_names sts ->
  nth_error sts i = Some s ->
  node_name s = name ->
  forall k a,
    (a <= i)%nat -> (i < a + k)%nat ->
    lookup_children (seq a k) sts name = Ok (FoundState i).
Proof.
  intros [U1 [_ U3]] Hi Hname.
  induction k as [|k IH]; intros a Ha Hk; [lia|].
  cbn [seq lookup_children].
  destruct (Nat.eq_dec a i) as [->|Hne].
  - rewrite Hi. unfold MarkovState_lookup. rewrite Hname, String.eqb_refl.
    reflexivity.
  - destruct (nth_error sts a) as [sa|] eqn:Ea.
    + unfold MarkovState_lookup.
      destruct (String.eqb (node_name sa) name) eqn:E.
      * apply String.eqb_eq in E. exfalso. apply Hne.
        apply (proj1 (NoDup_nth_error (state_names sts)) U1).
        -- apply nth_error_Some. rewrite (state_names_nth _ _ _ Ea). discriminate.
        -- rewrite (state_names_nth _ _ _ Ea), (state_names_nth _ _ _ Hi).
           congruence.
      * rewrite (U3 sa name).
        -- apply IH; lia.
        -- eapply nth_error_In; eauto.
        -- subst name. unfold state_names. apply in_map.
           eapply nth_error_In; eauto.
    + apply nth_error_None in Ea.
      assert (i < List.length sts)%nat
        by (apply nth_error_Some; congruence).
      lia.
Qed.

Lemma lookup_found c sts name i s :
  ctrl_children c = seq 0 (List.length sts) ->
  unique_names sts ->
  nth_error sts i = Some s ->
  node_name s = name ->
  lookup c sts name = Ok (FoundState i).
Proof.
  intros Hc Hu Hi Hname. unfold lookup.
  destruct (String.eqb "controller" name) eqn:E.
  - apply String.eqb_eq in E. destruct Hu as [_ [U2 _]]. exfalso. apply U2.
    rewrite E, <- Hname. unfold state_names. apply in_map.
    eapply nth_error_In; eauto.
  - rewrite Hc. eapply lookup_children_found; eauto; [lia|].
    simpl. apply nth_error_Some. congruence.
Qed.

Lemma find_update_other {A} (f : A -> bool) (l : list A) i old new :
  nth_error l i = Some old -> f old = false -> f new = false ->
  find f (update l i new) = find f l.
Proof.
  revert i. induction l as [|a l IH]; intros [|i] Hi Ho Hn; try discriminate.
  - inversion Hi; subst. simpl. now rewrite Ho, Hn.
  - simpl. destruct (f a); [reflexivity|]. now apply IH.
Qed.

Lemma state_named_nth sts i s :
  NoDup (state_names sts) ->
  nth_error sts i = Some s ->
  state_named sts (node_name s) = Some s.
Proof.
  unfold state_named, state_names.
  revert i. induction sts as [|a sts IH]; intros i Hnd Hi; [now destruct i|].
  simpl in Hnd. inversion Hnd as [|? ? Hnotin Hnd']; subst.
  destruct i as [|i].
  - inversion Hi; subst. simpl. now rewrite String.eqb_refl.
  - simpl in Hi. simpl.
    destruct (String.eqb (node_name a) (node_name s)) eqn:E.
    + apply String.eqb_eq in E. exfalso. apply Hnotin. rewrite E.
      apply in_map. eapply nth_error_In; eauto.
    + eapply IH; eauto.
Qed.

Lemma state_names_find sts k :
  In k (state_names sts) ->
  exists i s, nth_error sts i = Some s /\ node_name s = k.
Proof.
  unfold state_names. intros H. apply in_map_iff in H.
  destruct H as [s [Hs Hin]]. apply In_nth_error in Hin.
  destruct Hin as [i Hi]. now exists i, s.
Qed.

Section Conservation.

Variable fuel : nat.
Variable sts0 : store.
Variable h0 : heap.
Variable m : CountMethod.
Variable t : nat.

Hypothesis Hfuel : (3 <= fuel)%nat.
Hypothesis Huniq : unique_names sts0.
Hypothesis Hclosed :
  forallb (closed_state h0 (List.length sts0) t) sts0 = true.

Lemma closed_state_current sts i s :
  same_skeleton sts0 sts ->
  nth_error sts i = Some s ->
  closed_state h0 (List.length sts) t s = true.
Proof.
  intros Hsk Hi.
  destruct (same_skeleton_nth _ _ _ _ Hsk Hi) as [s0 [Hi0 [_ [_ Hc]]]].
  rewrite (same_skeleton_length _ _ Hsk).
  assert (H0 : closed_state h0 (List.length sts0) t s0 = true).
  { rewrite forallb_forall in Hclosed. apply Hclosed.
    eapply nth_error_In; eauto. }
  unfold closed_state in *.
  rewrite (skeleton_forallb _ _ _ (closed_node_reset h0 _ t) Hc).
  rewrite (skeleton_map _ Node_trans_prob Node_trans_prob_reset _ _ Hc).
  exact H0.
Qed.

Lemma send_to_node_spec c sts h i s x m0 :
  ctrl_children c = seq 0 (List.length sts0) ->
  same_skeleton sts0 sts ->
  cursor_ext h0 h ->
  count_method c = m ->
  ctrl_inv c ->
  nth_error sts i = Some s ->
  forallb (hist_ok t) (children s) = true ->
  initial_prob s = history_before t m0 ->
  exists s' h' c',
    send_to_node_core fuel (node_name s) t (Scalar x) c sts h
    = Ok (c', update sts i s', h') /\
    cursor_ext h0 h' /\
    same_skeleton sts0 (update sts i s') /\
    node_name s' = node_name s /\
    forallb (hist_ok (S t)) (children s') = true /\
    (exists m1, initial_prob s' = history_before (S t) m1) /\
    state_out s' == x /\
    ctrl_step c c'
      (selected m (match t with O => x | S _ => state_out s end) x) x
      (node_name s :: dsts_of sts0 (node_name s))
      (dsts_of sts0 (node_name s))
      (vkeys_of sts0 (node_name s)) /\
    ctrl_inv c'.
Proof.
  intros Hc Hsk Hext Hm Hinv Hi Hh Hhist.
  pose proof (unique_names_skeleton _ _ Hsk Huniq) as Hu.
  unfold send_to_node_core.
  rewrite (lookup_found c sts (node_name s) i s); auto;
    [|now rewrite (same_skeleton_length _ _ Hsk)].
  cbn [bind]. rewrite Hi.
  destruct (MarkovState_start_spec fuel sts h0 t m s x m0 h c Hfuel
              (closed_state_current sts i s Hsk Hi) Hh Hhist Hext Hm Hinv)
    as [s' [h' [c' [Hst [He [Hn [Hv [Hr [Hh' [Hhis [Ho [Hs Hi']]]]]]]]]]]].
  rewrite Hst. cbn [bind]. exists s', h', c'.
  split; [reflexivity|]. split; [exact He|].
  split; [eapply same_skeleton_update; eauto|].
  split; [exact Hn|]. split; [exact Hh'|]. split; [eauto|].
  split; [exact Ho|]. split; [|exact Hi'].
  destruct (same_skeleton_nth _ _ _ _ Hsk Hi) as [s0 [Hi0 [Hn0 [Hv0 Hc0]]]].
  destruct Huniq as [U1 _].
  assert (Hnamed : state_named sts0 (node_name s) = Some s0)
    by (rewrite Hn0; eapply state_named_nth; eauto).
  unfold dsts_of, vkeys_of. rewrite Hnamed.
  unfold state_dsts, state_var_keys.
  rewrite <- (same_skeleton_names _ _ Hsk).
  rewrite <- (skeleton_flat_map _ _ _
                (dst_names_reset (state_names sts)) Hc0).
  rewrite <- Hv0.
  rewrite <- (skeleton_flat_map
                (fun n => node_var_keys n (zero_variables (variables s))) _ _
                (fun n => node_var_keys_reset n _) Hc0).
  exact Hs.
Qed.

Lemma send_all_spec items :
  forall c sts h,
    NoDup (dict_keys items) ->
    (forall k, In k (dict_keys items) -> In k (state_names sts0)) ->
    all_scalar items ->
    ctrl_children c = seq 0 (List.length sts0) ->
    same_skeleton sts0 sts ->
    cursor_ext h0 h ->
    count_method c = m ->
    model_time c = t ->
    ctrl_inv c ->
    (forall i s, nth_error sts i = Some s ->
                 In (node_name s) (dict_keys items) ->
                 forallb (hist_ok t) (children s) = true /\
                 exists m0, initial_prob s = history_before t m0) ->
    exists c' sts' h',
      send_all_core fuel items c sts h = Ok (c', sts', h') /\
      cursor_ext h0 h' /\
      same_skeleton sts0 sts' /\
      (forall i s', nth_error sts' i = Some s' ->
                    In (node_name s') (dict_keys items) ->
                    forallb (hist_ok (S t)) (children s') = true /\
                    (exists m1, initial_prob s' = history_before (S t) m1) /\
                    exists x, dict_get items (node_name s') = Some (Scalar x)
                              /\ state_out s' == x) /\
      (forall i s, nth_error sts i = Some s ->
                   ~ In (node_name s) (dict_keys items) ->
                   nth_error sts' i = Some s) /\
      ctrl_step c c'
        (selected m (Qsum (map (item_prev t sts) items)) (next_total items))
        (next_total items)
        (flat_map (fun kv => fst kv :: dsts_of sts0 (fst kv)) items)
        (flat_map (fun kv => dsts_of sts0 (fst kv)) items)
        (flat_map (fun kv => vkeys_of sts0 (fst kv)) items) /\
      ctrl_inv c'.
Proof.
  induction items as [|[k v] items IH];
    intros c sts h Hnd Hnames Hsc Hc Hsk Hext Hm Ht Hinv Hpre.
  - exists c, sts, h. split; [reflexivity|]. split; [exact Hext|].
    split; [exact Hsk|]. split; [intros i s' _ []|].
    split; [auto|]. split; [|exact Hinv].
    eapply ctrl_step_eq; [apply ctrl_step_refl | |].
    + unfold next_total, Qsum. simpl. symmetry. apply selected_zero.
    + unfold next_total, Qsum. simpl. reflexivity.
  - cbn [dict_keys map fst] in Hnd, Hnames, Hpre.
    apply NoDup_cons_iff in Hnd. destruct Hnd as [Hnotin Hnd'].
    destruct (Hsc (k, v) (or_introl eq_refl)) as [x Hx]. cbn [snd] in Hx.
    subst v.
    destruct (state_names_find sts k) as [i [s [Hi Hn]]].
    { rewrite (same_skeleton_names _ _ Hsk). apply Hnames. now left. }
    destruct (Hpre i s Hi ltac:(left; now rewrite Hn)) as [Hh [m0 Hhist]].
    destruct (send_to_node_spec c sts h i s x m0 Hc Hsk Hext Hm Hinv Hi Hh Hhist)
      as [s' [h1 [c1 [Hsend [He1 [Hsk1 [Hn1 [Hh1 [Hhis1 [Ho1 [Hs1 Hi1]]]]]]]]]]].
    pose proof (ctrl_step_config _ _ _ _ _ _ _ Hs1) as [Hm1 [_ Ht1]].
    assert (Hcc : ctrl_children c1 = ctrl_children c).
    { destruct Hs1 as [A _ _ _ _ _]. unfold config in A. now inversion A. }
    assert (Hother : forall j sj, nth_error (update sts i s') j = Some sj ->
                                  In (node_name sj) (dict_keys items) ->
                                  nth_error sts j = Some sj).
    { intros j sj Hj Hin. destruct (Nat.eq_dec i j) as [<-|Hne].
      - rewrite (nth_error_update_same _ _ _ _ Hi) in Hj. inversion Hj; subst sj.
        exfalso. apply Hnotin. now rewrite <- Hn, <- Hn1.
      - now rewrite nth_error_update_other in Hj by exact Hne. }
    destruct (IH c1 (update sts i s') h1 Hnd'
                (fun k0 H => Hnames k0 (or_intror H))
                (fun kv H => Hsc kv (or_intror H))
                ltac:(congruence) Hsk1 He1 ltac:(congruence)
                ltac:(congruence) Hi1)
      as [c2 [sts2 [h2 [Hsend2 [He2 [Hsk2 [Hpost [Hframe [Hs2 Hi2]]]]]]]]].
    { intros j sj Hj Hin. apply (Hpre j sj); [now apply Hother | now right]. }
    cbn [send_all_core]. rewrite Ht, <- Hn, Hsend. cbn [bind].
    rewrite Hsend2, Hn.
    exists c2, sts2, h2. split; [reflexivity|]. split; [exact He2|].
    split; [exact Hsk2|]. split; [|split; [|split; [|exact Hi2]]].
    + intros j sj Hj [Hin|Hin]; cbn [fst] in Hin.
      * (* the state started first *)
        assert (Hsj : nth_error sts2 i = Some s').
        { apply Hframe; [eapply nth_error_update_same; eauto|].
          now rewrite Hn1, Hn. }
        assert (j = i).
        { destruct Huniq as [U1 _].
          rewrite <- (same_skeleton_names _ _ Hsk2) in U1.
          apply (proj1 (NoDup_nth_error (state_names sts2)) U1).
          - apply nth_error_Some. rewrite (state_names_nth _ _ _ Hj).
            discriminate.
          - rewrite (state_names_nth _ _ _ Hj), (state_names_nth _ _ _ Hsj).
            congruence. }
        subst j. rewrite Hsj in Hj. inversion Hj; subst sj.
        split; [exact Hh1|]. split; [exact Hhis1|].
        exists x. split; [|exact Ho1].
        cbn [dict_get]. now rewrite Hn1, Hn, String.eqb_refl.
      * destruct (Hpost j sj Hj Hin) as [A [B [y [Hy Hoy]]]].
        split; [exact A|]. split; [exact B|]. exists y. split; [|exact Hoy].
        cbn [dict_get].
        destruct (String.eqb k (node_name sj)) eqn:E; [|exact Hy].
        apply String.eqb_eq in E. exfalso. apply Hnotin. now rewrite E.
    + intros j sj Hj Hnin. apply Hframe.
      * rewrite nth_error_update_other; [exact Hj|].
        intros <-. rewrite Hi in Hj. inversion Hj; subst sj.
        apply Hnin. left. now rewrite Hn.
      * intros Hin. apply Hnin. now right.
    + pose proof (ctrl_step_trans _ _ _ _ _ _ _ _ _ _ _ _ _ Hs1 Hs2) as Hs.
      rewrite Hn in Hs. cbn [flat_map fst].
      assert (Hnt : next_total ((k, Scalar x) :: items)
                    == x + next_total items).
      { unfold next_total. cbn [map snd np_sum]. apply Qsum_cons. }
      assert (Hprev : Qsum (map (item_prev t sts) ((k, Scalar x) :: items))
                      == match t with O => x | S _ => state_out s end
                         + Qsum (map (item_prev t (update sts i s')) items)).
      { cbn [map]. rewrite Qsum_cons.
        assert (E1 : item_prev t sts (k, Scalar x)
                     = match t with O => x | S _ => state_out s end).
        { unfold item_prev. cbn [fst snd np_sum]. destruct t; [reflexivity|].
          destruct Huniq as [U1 _].
          rewrite <- (same_skeleton_names _ _ Hsk) in U1.
          now rewrite <- Hn, (state_named_nth sts i s U1 Hi). }
        rewrite E1.
        assert (E2 : map (item_prev t (update sts i s')) items
                     = map (item_prev t sts) items).
        { apply map_ext_in. intros [k' v'] Hin. unfold item_prev.
          destruct t; [reflexivity|]. cbn [fst]. unfold state_named.
          rewrite (find_update_other _ sts i s s' Hi); [reflexivity| |].
          - apply String.eqb_neq. intros E. apply Hnotin. rewrite <- Hn, E.
            apply in_map_iff. now exists (k', v').
          - apply String.eqb_neq. intros E. apply Hnotin.
            rewrite <- Hn, <- Hn1, E. apply in_map_iff. now exists (k', v'). }
        now rewrite E2. }
      eapply ctrl_step_eq; [exact Hs | |].
      * rewrite <- selected_plus. apply selected_eq.
        -- now rewrite Hprev.
        -- now rewrite Hnt.
      * now rewrite Hnt.
Qed.

End Conservation.

(** ** Mass conservation: sums over the states *)

Lemma Qsum_map_eq {A} (f g : A -> Q) l :
  (forall a, In a l -> f a == g a) -> Qsum (map f l) == Qsum (map g l).
Proof.
  induction l as [|a l IH]; intros H; [reflexivity|].
  cbn [map]. rewrite !Qsum_cons, IH.
  - now rewrite (H a (or_introl eq_refl)).
  - intros b Hb. apply H. now right.
Qed.

Lemma Qsum_Permutation l l' :
  Permutation l l' -> Qsum l == Qsum l'.
Proof.
  induction 1 as [|x l l' _ IH|x y l|l1 l2 l3 _ IH1 _ IH2].
  - reflexivity.
  - now rewrite !Qsum_cons, IH.
  - rewrite !Qsum_cons. ring.
  - now rewrite IH1.
Qed.

(** Summing over the keys of a dictionary that are the names of the states
    is summing over the states. *)
Lemma Qsum_keys_names {V} (items : dict V) (names : list string)
  (g : string -> Q) :
  NoDup (dict_keys items) -> NoDup names ->
  (forall k, In k (dict_keys items) <-> In k names) ->
  Qsum (map (fun kv => g (fst kv)) items) == Qsum (map g names).
Proof.
  intros H1 H2 H3.
  assert (E : map (fun kv : string * V => g (fst kv)) items
              = map g (dict_keys items))
    by (unfold dict_keys; now rewrite map_map).
  rewrite E. apply Qsum_Permutation. apply Permutation_map.
  now apply NoDup_Permutation.
Qed.

Lemma dict_get_In {V} (d : dict V) k v :
  NoDup (dict_keys d) -> In (k, v) d -> dict_get d k = Some v.
Proof.
  induction d as [|[k0 v0] d IH]; intros Hnd Hin; [contradiction|].
  cbn [dict_keys map fst] in Hnd. apply NoDup_cons_iff in Hnd.
  destruct Hnd as [Hnotin Hnd]. cbn [dict_get].
  destruct Hin as [Hin|Hin].
  - inversion Hin; subst. now rewrite String.eqb_refl.
  - destruct (String.eqb k0 k) eqn:E; [|now apply IH].
    apply String.eqb_eq in E. subst k0. exfalso. apply Hnotin.
    apply in_map_iff. now exists (k, v).
Qed.

Lemma dict_get_Some_In {V} (d : dict V) k v :
  dict_get d k = Some v -> In (k, v) d.
Proof.
  induction d as [|[k0 v0] d IH]; cbn [dict_get]; [discriminate|].
  destruct (String.eqb k0 k) eqn:E.
  - apply String.eqb_eq in E. intros H. inversion H; subst. now left.
  - intros H. right. now apply IH.
Qed.

(** In a flat map over the keys of such a dictionary. *)
Lemma flat_map_keys_names {V} (items : dict V) (sts : store)
  (f : MarkovState -> list string) k' :
  NoDup (state_names sts) ->
  (forall k, In k (dict_keys items) <-> In k (state_names sts)) ->
  In k' (flat_map
           (fun kv => match state_named sts (fst kv) with
                      | Some s => f s
                      | None => []
                      end) items)
  <-> In k' (flat_map f sts).
Proof.
  intros Hnd Hk. rewrite !in_flat_map. split.
  - intros [[k v] [Hin Hf]]. cbn [fst] in Hf.
    destruct (state_named sts k) as [s|] eqn:E; [|contradiction].
    exists s. split; [|exact Hf]. unfold state_named in E.
    apply find_some in E. tauto.
  - intros [s [Hin Hf]]. apply In_nth_error in Hin. destruct Hin as [i Hi].
    assert (Hkey : In (node_name s) (dict_keys items)).
    { apply Hk. unfold state_names. apply in_map. eapply nth_error_In; eauto. }
    apply in_map_iff in Hkey. destruct Hkey as [[k v] [Hfst Hin]].
    cbn [fst] in Hfst. subst k. exists (node_name s, v). split; [exact Hin|].
    cbn [fst]. now rewrite (state_named_nth sts i s Hnd Hi).
Qed.

Lemma dst_names_in names n k : In k (dst_names names n) -> In k names.
Proof.
  induction n as [nm p vs ch IH | nm p vs ch cum cumv] using Node_ind_children.
  - cbn [dst_names]. rewrite in_flat_map. intros [n0 [Hin Hk]].
    rewrite Forall_forall in IH. now apply (IH n0).
  - cbn [dst_names]. destruct ch as [|[d|] ch]; try contradiction.
    destruct (nth_error names d) as [nm0|] eqn:E; [|contradiction].
    intros [<-|[]]. eapply nth_error_In; eauto.
Qed.

(** ** Mass conservation: one cycle *)

Lemma selected_one m : selected m 1 1 == 1.
Proof. destruct m; simpl; field. Qed.

Lemma state_out_sum sts (items : dict StartProb) :
  NoDup (state_names sts) ->
  NoDup (dict_keys items) ->
  (forall k, In k (dict_keys items) <-> In k (state_names sts)) ->
  Qsum (map (fun kv => match state_named sts (fst kv) with
                       | Some s => state_out s
                       | None => 0
                       end) items)
  == Qsum (map state_out sts).
Proof.
  intros Hnd Hndi Hk.
  rewrite (Qsum_keys_names items (state_names sts)
             (fun k => match state_named sts k with
                       | Some s => state_out s
                       | None => 0
                       end) Hndi Hnd Hk).
  unfold state_names. rewrite map_map. apply Qsum_map_eq.
  intros s Hs. apply In_nth_error in Hs. destruct Hs as [i Hi].
  now rewrite (state_named_nth sts i s Hnd Hi).
Qed.

Lemma start_one_cycle_spec fuel sts0 h0 t c sts h :
  (3 <= fuel)%nat ->
  unique_names sts0 ->
  forallb (closed_state h0 (List.length sts0) t) sts0 = true ->
  cycle_pre sts0 h0 t c sts h ->
  exists c1 sts1 h1,
    start_one_cycle_core fuel c sts h = Ok (c1, sts1, h1) /\
    cycle_mid sts0 c c1 /\
    same_skeleton sts0 sts1 /\
    (forall i s, nth_error sts1 i = Some s ->
                 forallb (hist_ok (S t)) (children s) = true /\
                 exists m0, initial_prob s = history_before (S t) m0) /\
    Qsum (map state_out sts1) == 1 /\
    cursor_ext h0 h1.
Proof.
  intros Hfuel Huniq Hclosed [P1 P2 P3 P4 P5 P6 P7 P8 P9 P10 P11 P12 P13].
  pose proof Huniq as [U1 _].
  set (items := next_cycle_start_prob c) in *.
  assert (Hinv : ctrl_inv (set_next c [])).
  { unfold ctrl_inv. cbn [set_next cycle_probs next_cycle_start_prob
                            cycle_variables discount_rate].
    rewrite P4, P5. repeat split; try constructor; auto. }
  destruct (send_all_spec fuel sts0 h0 (count_method c) t Hfuel Huniq Hclosed
              items (set_next c []) sts h P6
              (fun k H => proj1 (P7 k) H) P8 P1 P10 P13 eq_refl P2 Hinv
              (fun i s Hi _ => P11 i s Hi))
    as [c1 [sts1 [h1 [Hsend [He [Hsk [Hpost [_ [Hs Hi1]]]]]]]]].
  unfold start_one_cycle_core. fold items. rewrite Hsend.
  exists c1, sts1, h1. split; [reflexivity|].
  assert (Hnames1 : state_names sts1 = state_names sts0)
    by now apply same_skeleton_names.
  assert (Hnames : state_names sts = state_names sts0)
    by now apply same_skeleton_names.
  assert (Hallin : forall i s, nth_error sts1 i = Some s ->
                               In (node_name s) (dict_keys items)).
  { intros i s Hi. apply P7. rewrite <- Hnames1. unfold state_names.
    apply in_map. eapply nth_error_In; eauto. }
  destruct Hs as [A1 A2 A3 A4 A5 A6].
  destruct Hi1 as [I1 [I2 [I3 _]]].
  cbn [set_next cycle_probs next_cycle_start_prob cycle_variables] in *.
  rewrite P4 in A2, A4. rewrite P5 in A6.
  assert (HW0 : Qsum (map (item_prev t sts) items) == 1).
  { destruct t as [|t'].
    - unfold item_prev. exact P9.
    - unfold item_prev. rewrite state_out_sum.
      + apply P12. discriminate.
      + now rewrite Hnames.
      + exact P6.
      + now rewrite Hnames. }
  split; [|split; [exact Hsk|split; [|split; [|exact He]]]].
  - constructor.
    + exact A1.
    + exact I1.
    + intros k. rewrite (A4 k). cbn [dict_keys map]. split.
      * intros [[]|H]. apply in_flat_map in H.
        destruct H as [[k0 v0] [Hin [<-|Hd]]]; cbn [fst] in *.
        -- apply P7. apply in_map_iff. now exists (k0, v0).
        -- unfold dsts_of in Hd.
           destruct (state_named sts0 k0) as [s0|]; [|contradiction].
           unfold state_dsts in Hd. apply in_flat_map in Hd.
           destruct Hd as [n [_ Hn]]. eapply dst_names_in; eauto.
      * intros H. right. apply P7 in H. apply in_map_iff in H.
        destruct H as [[k0 v0] [Hk0 Hin]]. cbn [fst] in Hk0. subst k0.
        apply in_flat_map. exists (k, v0). split; [exact Hin | now left].
    + rewrite A2. unfold dict_total at 1. cbn [map].
      assert (E : selected (count_method c)
                    (Qsum (map (item_prev t sts) items)) (next_total items)
                  == 1).
      { rewrite <- (selected_one (count_method c)).
        apply selected_eq; [exact HW0 | exact P9]. }
      rewrite E. unfold Qsum. simpl. ring.
    + exact I3.
    + intros k. rewrite (A6 k). cbn [dict_keys map]. unfold all_var_keys.
      rewrite <- (flat_map_keys_names items sts0 state_var_keys k U1 P7).
      unfold vkeys_of.
      split; [intros [[]|H]; exact H | intros H; right; exact H].
    + exact I2.
    + intros k. rewrite (A5 k). cbn [dict_keys map]. unfold all_dst_names.
      rewrite <- (flat_map_keys_names items sts0
                    (fun s => flat_map (dst_names (state_names sts0))
                                (children s)) k U1 P7).
      unfold dsts_of, state_dsts.
      split; [intros [[]|H]; exact H | intros H; right; exact H].
    + rewrite A3. unfold next_total at 1. cbn [map]. rewrite P9.
      unfold Qsum. simpl. ring.
  - intros i s Hi. destruct (Hpost i s Hi (Hallin i s Hi)) as [B1 [B2 _]].
    split; assumption.
  - assert (Hnd1 : NoDup (state_names sts1)) by now rewrite Hnames1.
    assert (Hk1 : forall k, In k (dict_keys items) <-> In k (state_names sts1))
      by (intros k; now rewrite Hnames1).
    rewrite <- P9. unfold next_total.
    rewrite <- (Qsum_map_eq
                  (fun kv => match state_named sts1 (fst kv) with
                             | Some s => state_out s
                             | None => 0
                             end)
                  (fun kv => np_sum (snd kv)) items).
    + symmetry. now apply state_out_sum.
    + intros [k v] Hin. cbn [fst snd].
      assert (Hkin : In k (state_names sts1)).
      { apply Hk1. apply in_map_iff. now exists (k, v). }
      destruct (state_names_find sts1 k Hkin) as [i [s [Hi Hn]]].
      rewrite <- Hn, (state_named_nth sts1 i s Hnd1 Hi).
      destruct (Hpost i s Hi (Hallin i s Hi)) as [_ [_ [x [Hx Hox]]]].
      rewrite Hn in Hx. rewrite (dict_get_In items k v P6 Hin) in Hx.
      inversion Hx; subst v. exact Hox.
Qed.

(** ** Mass conservation: the tables *)

Lemma dict_set_new {V} (d : dict V) k v :
  dict_get d k = None -> dict_set d k v = d ++ [(k, v)].
Proof.
  induction d as [|[k0 v0] d IH]; cbn [dict_get dict_set]; [reflexivity|].
  destruct (String.eqb k0 k); [discriminate|].
  intros H. simpl. now rewrite IH.
Qed.

Lemma fold_append_fresh {V} (g : V -> Q) items :
  forall acc,
    NoDup (dict_keys items) ->
    (forall k, In k (dict_keys items) -> ~ In k (dict_keys acc)) ->
    fold_append g items acc
    = acc ++ map (fun kv => (fst kv, [g (snd kv)])) items.
Proof.
  induction items as [|[k v] items IH]; intros acc Hnd Hdis.
  - simpl. now rewrite app_nil_r.
  - rewrite fold_append_cons. cbn [dict_keys map fst] in Hnd, Hdis.
    apply NoDup_cons_iff in Hnd. destruct Hnd as [Hnotin Hnd].
    assert (Hk : dict_get acc k = None)
      by (apply dict_get_None_notin; apply Hdis; now left).
    unfold dd_append. rewrite Hk, (dict_set_new acc k _ Hk).
    rewrite IH; [now rewrite <- app_assoc | exact Hnd |].
    intros k0 Hin. unfold dict_keys. rewrite map_app, in_app_iff.
    cbn [map fst]. intros [H|[H|[]]].
    + apply (Hdis k0); [now right | exact H].
    + subst k0. contradiction.
Qed.

Lemma dd_append_keys_same d k x :
  In k (dict_keys d) -> dict_keys (dd_append d k x) = dict_keys d.
Proof.
  intros Hin. unfold dd_append.
  destruct (dict_get d k) as [l|] eqn:E.
  - eapply dict_keys_set_mem; eauto.
  - apply dict_get_None_notin in E. contradiction.
Qed.

Lemma fold_append_keys_same {V} (g : V -> Q) items :
  forall acc,
    (forall k, In k (dict_keys items) -> In k (dict_keys acc)) ->
    dict_keys (fold_append g items acc) = dict_keys acc.
Proof.
  induction items as [|[k v] items IH]; intros acc Hsub; [reflexivity|].
  rewrite fold_append_cons, IH.
  - apply dd_append_keys_same. apply Hsub. now left.
  - intros k0 H. rewrite dd_append_keys_same by (apply Hsub; now left).
    apply Hsub. now right.
Qed.

Lemma row_by_keys df t :
  NoDup (dict_keys df) ->
  row df t = map (fun k => nth t (dd_get df k) 0) (dict_keys df).
Proof.
  intros Hnd. unfold row, dict_keys. rewrite map_map. apply map_ext_in.
  intros [k l] Hin. cbn [fst snd]. unfold dd_get.
  now rewrite (dict_get_In df k l Hnd Hin).
Qed.

Lemma dict_total_by_keys d :
  NoDup (dict_keys d) ->
  dict_total d = Qsum (map (fun k => Qsum (dd_get d k)) (dict_keys d)).
Proof.
  intros Hnd. unfold dict_total, dict_keys. rewrite map_map. f_equal.
  apply map_ext_in. intros [k l] Hin. cbn [fst snd]. unfold dd_get.
  now rewrite (dict_get_In d k l Hnd Hin).
Qed.

Lemma dict_get_keys_Some {V} (d : dict V) k :
  In k (dict_keys d) -> exists v, dict_get d k = Some v.
Proof.
  intros H. destruct (dict_get d k) as [v|] eqn:E; [eauto|].
  apply dict_get_None_notin in E. contradiction.
Qed.

(** Appending the sums of a cycle adds one entry to every column. *)
Lemma append_sums_table K t tp cp :
  table_ok K t tp ->
  NoDup (dict_keys cp) ->
  (forall k, In k (dict_keys cp) <-> In k K) ->
  table_ok K (S t) (append_sums tp cp) /\
  (forall t', (t' < t)%nat ->
              row (append_sums tp cp) t' = row tp t') /\
  row_sum (append_sums tp cp) t == dict_total cp.
Proof.
  intros [T1 T2 T3 T4] Hnd Hk.
  change (append_sums tp cp) with (fold_append Qsum cp tp).
  destruct (Nat.eq_dec t 0) as [->|Hne].
  - rewrite (T4 eq_refl) in *.
    rewrite (fold_append_fresh Qsum cp []) by (auto; intros k _ []).
    cbn [app].
    assert (Hkeys : dict_keys (map (fun kv : string * list Q =>
                                      (fst kv, [Qsum (snd kv)])) cp)
                    = dict_keys cp).
    { unfold dict_keys. rewrite map_map. reflexivity. }
    split; [constructor|split].
    + now rewrite Hkeys.
    + intros k l Hg. apply dict_get_Some_In in Hg. apply in_map_iff in Hg.
      destruct Hg as [[k0 l0] [E _]]. inversion E; subst. reflexivity.
    + intros _ k. now rewrite Hkeys.
    + discriminate.
    + intros t' Ht'. lia.
    + unfold row_sum, row, dict_total. rewrite map_map. reflexivity.
  - pose proof (T3 Hne) as Hkt.
    assert (Hsub : forall k, In k (dict_keys cp) -> In k (dict_keys tp))
      by (intros k H; apply Hkt; now apply Hk).
    assert (Hkeys : dict_keys (fold_append Qsum cp tp) = dict_keys tp)
      by now apply fold_append_keys_same.
    assert (Hget : forall k, In k (dict_keys tp) ->
                     dd_get (fold_append Qsum cp tp) k
                     = dd_get tp k ++ [Qsum (dd_get cp k)]).
    { intros k Hin. assert (Hc : In k (dict_keys cp)) by (apply Hk; now apply Hkt).
      destruct (dict_get_keys_Some cp k Hc) as [l Hl].
      unfold dd_get at 1. rewrite (fold_append_get _ Qsum cp tp k l Hnd Hl).
      replace (dd_get cp k) with l by (unfold dd_get; now rewrite Hl).
      reflexivity. }
    assert (Hlen : forall k, In k (dict_keys tp) ->
                             List.length (dd_get tp k) = t).
    { intros k Hin. destruct (dict_get_keys_Some tp k Hin) as [l Hl].
      unfold dd_get. rewrite Hl. eapply T2; eauto. }
    assert (Hnd' : NoDup (dict_keys (fold_append Qsum cp tp)))
      by now rewrite Hkeys.
    split; [constructor|split].
    + exact Hnd'.
    + intros k l Hg.
      assert (Hin : In k (dict_keys tp)).
      { rewrite <- Hkeys. apply dict_get_Some_In in Hg.
        apply in_map_iff. now exists (k, l). }
      pose proof (Hget k Hin) as E. unfold dd_get at 1 in E. rewrite Hg in E.
      subst l. rewrite length_app, (Hlen k Hin). simpl. lia.
    + intros _ k. rewrite Hkeys. now apply Hkt.
    + discriminate.
    + intros t' Ht'. rewrite (row_by_keys _ t' Hnd'), (row_by_keys _ t' T1), Hkeys.
      apply map_ext_in. intros k Hin. rewrite (Hget k Hin).
      apply app_nth1. now rewrite (Hlen k Hin).
    + unfold row_sum. rewrite (row_by_keys _ t Hnd'), Hkeys.
      rewrite (dict_total_by_keys cp Hnd).
      rewrite (Qsum_map_eq _ (fun k => Qsum (dd_get cp k)) (dict_keys tp)).
      * apply Qsum_Permutation. apply Permutation_map.
        apply NoDup_Permutation; auto.
        intros k. rewrite (Hkt k), (Hk k). tauto.
      * intros k Hin. rewrite (Hget k Hin), app_nth2 by (rewrite (Hlen k Hin); lia).
        rewrite (Hlen k Hin), Nat.sub_diag. reflexivity.
Qed.

Lemma table_ok_from_dict K t d :
  table_ok K t d -> DataFrame_from_dict d = Ok d.
Proof.
  intros [T1 T2 _ _]. unfold DataFrame_from_dict.
  destruct d as [|[k l] d]; [reflexivity|].
  assert (Hl : List.length l = t).
  { apply (T2 k). cbn [dict_get]. now rewrite String.eqb_refl. }
  assert (H : same_lengths (List.length l) d = true).
  { rewrite Hl.
    assert (Hall : forall k0 l0, In (k0, l0) d -> List.length l0 = t).
    { intros k0 l0 Hin. apply (T2 k0).
      apply dict_get_In; [exact T1 | now right]. }
    clear -Hall. induction d as [|[k0 l0] d IH]; [reflexivity|].
    cbn [same_lengths]. rewrite (Hall k0 l0 (or_introl eq_refl)), Nat.eqb_refl.
    apply IH. intros k1 l1 H. apply (Hall k1 l1). now right. }
  now rewrite H.
Qed.

Lemma end_one_cycle_totals sts0 t c c1 :
  totals_ok sts0 t c ->
  cycle_mid sts0 c c1 ->
  totals_ok sts0 (S t) (end_one_cycle c1).
Proof.
  intros [T1 T2 T3] [M1 M2 M3 M4 M5 M6 _ _ _].
  unfold config in M1. inversion M1 as [[E1 E2 E3 E4 E5 E6 E7 E8]].
  destruct (append_sums_table _ t (total_probs c) (cycle_probs c1) T1 M2 M3)
    as [A1 [A2 A3]].
  destruct (append_sums_table _ t (total_variables c) (cycle_variables c1)
              T2 M5 M6) as [B1 _].
  constructor; cbn [end_one_cycle total_probs total_variables];
    rewrite ?E7, ?E8; auto.
  intros t' Ht'. destruct (Nat.eq_dec t' t) as [->|Hne].
  - rewrite A3. exact M4.
  - unfold row_sum. rewrite A2 by lia. apply T3. lia.
Qed.

Lemma end_one_cycle_pre sts0 h0 t c sts h c1 sts1 h1 :
  cycle_pre sts0 h0 t c sts h ->
  cycle_mid sts0 c c1 ->
  (forall k, In k (state_names sts0) -> In k (all_dst_names sts0)) ->
  same_skeleton sts0 sts1 ->
  (forall i s, nth_error sts1 i = Some s ->
               forallb (hist_ok (S t)) (children s) = true /\
               exists m0, initial_prob s = history_before (S t) m0) ->
  Qsum (map state_out sts1) == 1 ->
  cursor_ext h0 h1 ->
  cycle_pre sts0 h0 (S t) (end_one_cycle c1) sts1 h1.
Proof.
  intros [P1 P2 P3 _ _ _ _ _ _ _ _ _ _] [M1 _ _ _ _ _ M7 M8 M9] HR Hsk Hh Ho He.
  unfold config in M1. inversion M1 as [[E1 E2 E3 E4 E5 E6 E7 E8]].
  assert (Hkeys : dict_keys (map (fun kv : string * StartProb =>
                                    (fst kv, Scalar (np_sum (snd kv))))
                               (next_cycle_start_prob c1))
                  = dict_keys (next_cycle_start_prob c1)).
  { unfold dict_keys. rewrite map_map. reflexivity. }
  constructor;
    cbn [end_one_cycle ctrl_children model_time discount_rate cycle_probs
         cycle_variables next_cycle_start_prob].
  - congruence.
  - congruence.
  - now rewrite E5.
  - reflexivity.
  - reflexivity.
  - now rewrite Hkeys.
  - intros k. rewrite Hkeys, (M8 k). split; [|apply HR].
    unfold all_dst_names. rewrite in_flat_map. intros [s [_ Hin]].
    apply in_flat_map in Hin. destruct Hin as [n [_ Hn]].
    eapply dst_names_in; eauto.
  - intros kv Hin. apply in_map_iff in Hin. destruct Hin as [kv0 [<- _]].
    cbn [snd]. eauto.
  - rewrite <- M9. unfold next_total. rewrite map_map. reflexivity.
  - exact Hsk.
  - exact Hh.
  - intros _. exact Ho.
  - exact He.
Qed.

(** [n] cycles from cycle [t] on. *)
Lemma cycles_spec fuel sts0 h0 :
  (3 <= fuel)%nat ->
  unique_names sts0 ->
  forall n t c sts h,
    (forall t', (t <= t' < t + n)%nat ->
                forallb (closed_state h0 (List.length sts0) t') sts0 = true) ->
    ((n <= 1)%nat \/
     forall k, In k (state_names sts0) -> In k (all_dst_names sts0)) ->
    cycle_pre sts0 h0 t c sts h ->
    totals_ok sts0 t c ->
    exists c' sts' h',
      cycles_core fuel n c sts h = Ok (c', sts', h') /\
      totals_ok sts0 (t + n) c'.
Proof.
  intros Hfuel Huniq.
  induction n as [|n IH]; intros t c sts h Hcl HR Hpre Htot.
  - exists c, sts, h. split; [reflexivity|]. now rewrite Nat.add_0_r.
  - destruct (start_one_cycle_spec fuel sts0 h0 t c sts h Hfuel Huniq
                (Hcl t ltac:(lia)) Hpre)
      as [c1 [sts1 [h1 [Hstart [Hmid [Hsk [Hh [Ho He]]]]]]]].
    cbn [cycles_core]. rewrite Hstart. cbn [bind].
    pose proof (end_one_cycle_totals _ _ _ _ Htot Hmid) as Htot1.
    destruct n as [|n].
    + exists (end_one_cycle c1), sts1, h1. split; [reflexivity|].
      now replace (t + 1)%nat with (S t) by lia.
    + assert (HR' : forall k, In k (state_names sts0) ->
                              In k (all_dst_names sts0))
        by (destruct HR as [HR|HR]; [lia | exact HR]).
      assert (Hpre1 : cycle_pre sts0 h0 (S t) (end_one_cycle c1) sts1 h1).
      { apply (end_one_cycle_pre sts0 h0 t c sts h c1 sts1 h1); auto. }
      destruct (IH (S t) (end_one_cycle c1) sts1 h1
                  ltac:(intros t' Ht'; apply Hcl; lia)
                  (or_intror HR') Hpre1 Htot1)
        as [c' [sts' [h' [Hc Ht]]]].
      exists c', sts', h'. split; [exact Hc|].
      now replace (t + S (S n))%nat with (S t + S n)%nat by lia.
Qed.

(** ** Mass conservation: the run *)

Lemma update_app_exact {A} (pre post : list A) x y :
  update (pre ++ x :: post) (List.length pre) y = pre ++ y :: post.
Proof. induction pre as [|a pre IH]; simpl; [reflexivity | now rewrite IH]. Qed.

Lemma nth_error_app_exact {A} (pre post : list A) x :
  nth_error (pre ++ x :: post) (List.length pre) = Some x.
Proof. induction pre as [|a pre IH]; simpl; auto. Qed.

Lemma reset_children_seq post :
  forall pre,
    reset_children (seq (List.length pre) (List.length post)) (pre ++ post)
    = Ok (pre ++ map MarkovState_reset post).
Proof.
  induction post as [|s post IH]; intros pre; [reflexivity|].
  cbn [List.length seq reset_children]. unfold reset_state_at.
  rewrite nth_error_app_exact. cbn [bind]. rewrite update_app_exact.
  specialize (IH (pre ++ [MarkovState_reset s])).
  rewrite length_app, Nat.add_1_r, <- app_assoc in IH. cbn [app] in IH.
  rewrite IH, <- app_assoc. reflexivity.
Qed.

Lemma get_states_seq post :
  forall pre,
    get_states (seq (List.length pre) (List.length post)) (pre ++ post)
    = Ok post.
Proof.
  induction post as [|s post IH]; intros pre; [reflexivity|].
  cbn [List.length seq get_states]. rewrite nth_error_app_exact.
  specialize (IH (pre ++ [s])).
  rewrite length_app, Nat.add_1_r, <- app_assoc in IH. cbn [app] in IH.
  now rewrite IH.
Qed.

Lemma Node_reset_idem n : Node_reset (Node_reset n) = Node_reset n.
Proof.
  induction n as [nm p vs ch IH | nm p vs ch cum cumv] using Node_ind_children;
    [|reflexivity].
  cbn [Node_reset]. f_equal. rewrite map_map. apply map_ext_in.
  intros n Hn. rewrite Forall_forall in IH. now apply IH.
Qed.

Lemma hist_ok_reset n : hist_ok 0 (Node_reset n) = true.
Proof.
  induction n as [nm p vs ch IH | nm p vs ch cum cumv] using Node_ind_children;
    [|reflexivity].
  cbn [Node_reset hist_ok]. apply forallb_forall. intros n Hn.
  apply in_map_iff in Hn. destruct Hn as [n0 [<- Hin]].
  rewrite Forall_forall in IH. now apply IH.
Qed.

Lemma same_skeleton_reset sts : same_skeleton sts (map MarkovState_reset sts).
Proof.
  induction sts as [|s sts IH]; constructor; [|exact IH].
  unfold same_state. cbn. repeat split.
  rewrite map_map. apply map_ext. apply Node_reset_idem.
Qed.

Lemma seed_start_probs_spec fuel h0 l :
  (3 <= fuel)%nat ->
  forall vs h nx,
    dens h0 0 (map trans_prob l) = Some vs ->
    cursor_ext h0 h ->
    NoDup (map node_name l) ->
    (forall s, In s l -> dict_get nx (node_name s) = None) ->
    exists h',
      seed_start_probs fuel l h nx = Ok (nx ++ seeded l vs, h') /\
      cursor_ext h0 h'.
Proof.
  intros Hf. induction l as [|s l IH]; intros vs h nx Hd Hext Hnd Hfresh.
  - cbn [map dens] in Hd. inversion Hd; subst. exists h.
    split; [|exact Hext]. cbn. now rewrite app_nil_r.
  - cbn [map] in Hd. destruct (dens_cons _ _ _ _ _ Hd) as [v [vs' [-> [Hv Hvs]]]].
    cbn [map] in Hnd. apply NoDup_cons_iff in Hnd. destruct Hnd as [Hnotin Hnd].
    destruct (value_den_ext fuel h0 h 0 (trans_prob s) v Hf Hext Hv)
      as [h1 [Hval [He0 _]]].
    cbn [seed_start_probs]. rewrite Hval. cbn [bind].
    rewrite (dict_set_new nx (node_name s) _ (Hfresh s (or_introl eq_refl))).
    destruct (IH vs' h1 (nx ++ [(node_name s, Scalar v)]) Hvs He0 Hnd)
      as [h' [Hs He']].
    + intros s' Hin. apply dict_get_None_notin. unfold dict_keys.
      rewrite map_app, in_app_iff. cbn [map fst]. intros [H|[H|[]]].
      * pose proof (Hfresh s' (or_intror Hin)) as Hn.
        apply dict_get_None_notin in Hn. contradiction.
      * apply Hnotin. rewrite H. now apply in_map.
    + exists h'. split; [|exact He']. rewrite Hs, <- app_assoc. reflexivity.
Qed.

Lemma seeded_keys l vs :
  List.length vs = List.length l -> dict_keys (seeded l vs) = map node_name l.
Proof.
  revert vs. induction l as [|s l IH]; intros [|v vs] H; try discriminate;
    [reflexivity|].
  unfold seeded, dict_keys in *. cbn. f_equal. apply IH. now inversion H.
Qed.

Lemma seeded_total l vs :
  List.length vs = List.length l -> next_total (seeded l vs) = Qsum vs.
Proof.
  intros H. unfold next_total, seeded. rewrite map_map. cbn [snd np_sum].
  f_equal. revert vs H. induction l as [|s l IH]; intros [|v vs] H;
    try discriminate; [reflexivity|].
  cbn. f_equal. apply IH. now inversion H.
Qed.

Lemma dens_length h t l vs : dens h t l = Some vs -> List.length vs = List.length l.
Proof.
  revert vs. induction l as [|p l IH]; intros vs H.
  - inversion H. reflexivity.
  - destruct (dens_cons _ _ _ _ _ H) as [v [vs' [-> [_ Hvs]]]].
    simpl. f_equal. now apply IH.
Qed.

Lemma table_ok_nil K : table_ok K 0 [].
Proof.
  constructor; auto.
  - constructor.
  - intros k l H. discriminate.
  - intros H. now elim H.
Qed.

(** The start of [run]: the reset, and the seeding of the start masses. *)
Lemma run_prefix fuel c sts h :
  (3 <= fuel)%nat ->
  ctrl_children c = seq 0 (List.length sts) ->
  unique_names sts ->
  group_closed h 0 (map trans_prob sts) = true ->
  ~ 1 + discount_rate c == 0 ->
  exists c0 sts1 h1,
    run_core fuel c sts h
    = ('(c2, sts2, h2) <- cycles_core fuel (total_cycles c) c0 sts1 h1 ;;
       prob_df <- DataFrame_from_dict (total_probs c2) ;;
       variable_df <- DataFrame_from_dict (total_variables c2) ;;
       Ok (prob_df, variable_df, (c2, sts2, h2))) /\
    cycle_pre sts h 0 c0 sts1 h1 /\
    totals_ok sts 0 c0.
Proof.
  intros Hfuel Hch Huniq Hinit Hrate.
  destruct (group_closed_dens _ _ _ Hinit) as [vs [Hvs Hone]].
  set (sts1 := map MarkovState_reset sts).
  assert (Hlen1 : List.length sts1 = List.length sts)
    by (unfold sts1; apply length_map).
  assert (Hreset : reset c sts = Ok (reset_memory c, sts1)).
  { unfold reset. cbn [reset_memory ctrl_children]. rewrite Hch.
    pose proof (reset_children_seq sts []) as H.
    cbn [List.length app] in H. rewrite H. reflexivity. }
  assert (Hget : get_states (ctrl_children (reset_memory c)) sts1 = Ok sts1).
  { cbn [reset_memory ctrl_children]. rewrite Hch, <- Hlen1.
    exact (get_states_seq sts1 []). }
  assert (Hprobs : map trans_prob sts1 = map trans_prob sts)
    by (unfold sts1; rewrite map_map; reflexivity).
  assert (Hnames : map node_name sts1 = state_names sts)
    by (unfold sts1, state_names; rewrite map_map; reflexivity).
  pose proof Huniq as [U1 _].
  destruct (seed_start_probs_spec fuel h sts1 Hfuel vs h []
              ltac:(now rewrite Hprobs) (cursor_ext_refl h)
              ltac:(now rewrite Hnames) ltac:(reflexivity))
    as [h1 [Hseed He1]].
  cbn [app] in Hseed.
  assert (Hvl : List.length vs = List.length sts1)
    by (rewrite Hlen1, (dens_length _ _ _ _ Hvs); apply length_map).
  set (c0 := set_next (reset_memory c) (seeded sts1 vs)).
  exists c0, sts1, h1. split; [|split].
  - unfold run_core. rewrite Hreset. cbn [bind]. rewrite Hget. cbn [bind].
    cbn [reset_memory next_cycle_start_prob]. rewrite Hseed. cbn [bind].
    reflexivity.
  - constructor;
      cbn [c0 set_next reset_memory ctrl_children model_time discount_rate
           cycle_probs cycle_variables next_cycle_start_prob]; auto.
    + rewrite (seeded_keys _ _ Hvl), Hnames. exact U1.
    + intros k. now rewrite (seeded_keys _ _ Hvl), Hnames.
    + intros kv Hin. unfold seeded in Hin. apply in_map_iff in Hin.
      destruct Hin as [sv [<- _]]. cbn [snd]. eauto.
    + now rewrite (seeded_total _ _ Hvl).
    + apply same_skeleton_reset.
    + intros i s Hi. unfold sts1 in Hi. rewrite nth_error_map in Hi.
      destruct (nth_error sts i) as [s0|]; [|discriminate].
      inversion Hi; subst s. cbn. split; [|now exists 0].
      apply forallb_forall. intros n Hn. apply in_map_iff in Hn.
      destruct Hn as [n0 [<- _]]. apply hist_ok_reset.
    + intros H. now elim H.
  - constructor; cbn [c0 set_next reset_memory total_probs total_variables].
    + apply table_ok_nil.
    + apply table_ok_nil.
    + intros t' Ht'. lia.
Qed.

(** Where every state is re-entered, [run] returns its tables and every row
    of the probability table sums to one. *)
Lemma run_conserves fuel c sts h :
  (3 <= fuel)%nat ->
  ctrl_children c = seq 0 (List.length sts) ->
  unique_names sts ->
  closed_model c sts h = true ->
  reentered c sts ->
  ~ 1 + discount_rate c == 0 ->
  exists prob_df variable_df w,
    run_core fuel c sts h = Ok (prob_df, variable_df, w) /\
    (forall t, (t < total_cycles c)%nat -> row_sum prob_df t == 1) /\
    (total_cycles c <> O ->
     forall k, In k (dict_keys prob_df) <-> In k (state_names sts)).
Proof.
  intros Hfuel Hch Huniq Hclosed Hre Hrate.
  unfold closed_model in Hclosed. apply andb_true_iff in Hclosed.
  destruct Hclosed as [Hinit Hcl].
  destruct (run_prefix fuel c sts h Hfuel Hch Huniq Hinit Hrate)
    as [c0 [sts1 [h1 [Hrun [Hpre Htot]]]]].
  destruct (cycles_spec fuel sts h Hfuel Huniq (total_cycles c) 0 c0 sts1 h1)
    as [c2 [sts2 [h2 [Hcyc [T1 T2 T3]]]]]; auto.
  { intros t' Ht'. rewrite forallb_forall in Hcl. apply Hcl.
    apply in_seq. lia. }
  rewrite Hrun, Hcyc. cbn [bind].
  rewrite (table_ok_from_dict _ _ _ T1), (table_ok_from_dict _ _ _ T2).
  cbn [bind]. do 3 eexists. split; [reflexivity|].
  split; [exact T3|]. intros Hne. destruct T1 as [_ _ K _]. now apply K.
Qed.

Lemma ab_unique_names : unique_names ab_store.
Proof.
  split; [|split].
  - repeat constructor; simpl; intuition discriminate.
  - simpl. intuition discriminate.
  - intros s k [<-|[<-|[]]] [<-|[<-|[]]]; reflexivity.
Qed.

Lemma ab_reentered n m : reentered (ab_controller n m) ab_store.
Proof.
  right. intros k [<-|[<-|[]]]; simpl; auto.
Qed.

(** ** When [run] does not return a table *)

Lemma ctrl_keys_refl c : ctrl_keys c c [] [].
Proof. constructor; auto. Qed.

Lemma ctrl_keys_trans c1 c2 c3 Kp Kn Kp' Kn' :
  ctrl_keys c1 c2 Kp Kn -> ctrl_keys c2 c3 Kp' Kn' ->
  ctrl_keys c1 c3 (Kp ++ Kp') (Kn ++ Kn').
Proof.
  intros [A1 A2 A3 A4] [B1 B2 B3 B4]. constructor.
  - congruence.
  - auto.
  - intros k H. rewrite in_app_iff. destruct (B3 k H) as [H1|H1]; [|tauto].
    destruct (A3 k H1); tauto.
  - intros k H. rewrite in_app_iff. destruct (B4 k H) as [H1|H1]; [|tauto].
    destruct (A4 k H1); tauto.
Qed.

Lemma ctrl_keys_incl c c' Kp Kn Kp' Kn' :
  ctrl_keys c c' Kp Kn -> incl Kp Kp' -> incl Kn Kn' -> ctrl_keys c c' Kp' Kn'.
Proof.
  intros [A1 A2 A3 A4] Hp Hn. constructor; auto.
  - intros k H. destruct (A3 k H); [tauto | right; now apply Hp].
  - intros k H. destruct (A4 k H); [tauto | right; now apply Hn].
Qed.

Lemma next_append_keys d k x d' :
  next_append d k x = Ok d' ->
  forall k', In k' (dict_keys d') -> In k' (dict_keys d) \/ k' = k.
Proof.
  unfold next_append.
  destruct (dict_get d k) as [[q|l]|]; intros H; inversion H; subst;
    intros k'; apply keys_set.
Qed.

(** Any handled report of a state or a transition. *)
Lemma handle_keys c node data c' key :
  handle_node_message c node data = Ok c' ->
  report_key node data = Some key ->
  ctrl_keys c c' [key] (if is_transition node then [key] else []) /\
  In key (dict_keys (cycle_probs c')).
Proof.
  unfold handle_node_message. intros H Hkey.
  assert (Hgen : forall c1,
             config c1 = config c ->
             cycle_probs c1 = cycle_probs c ->
             (p <- select_prob (count_method c1) (prob data) ;;
              cv <- discount_items (vars data) p
                      ((1 + discount_rate c1) ^ Z.of_nat (model_time c1))
                      (cycle_variables c1) ;;
              Ok (set_cycle c1 (dd_append (cycle_probs c1) key p) cv))
             = Ok c' ->
             config c' = config c /\
             (forall k, In k (dict_keys (cycle_probs c)) ->
                        In k (dict_keys (cycle_probs c'))) /\
             (forall k, In k (dict_keys (cycle_probs c')) ->
                        In k (dict_keys (cycle_probs c)) \/ In k [key]) /\
             next_cycle_start_prob c' = next_cycle_start_prob c1 /\
             In key (dict_keys (cycle_probs c'))).
  { intros c1 Hc Hcp Hb.
    destruct (select_prob (count_method c1) (prob data)) as [p|e];
      [|discriminate].
    cbn [bind] in Hb.
    destruct (discount_items _ _ _ _) as [cv|e]; [|discriminate].
    cbn [bind] in Hb. inversion Hb; subst c'.
    cbn [set_cycle cycle_probs next_cycle_start_prob]. rewrite Hcp.
    split; [exact Hc|]. split; [|split; [|split; [reflexivity|]]].
    - intros k Hk. apply keys_append. now left.
    - intros k Hk. apply keys_append in Hk.
      destruct Hk as [Hk | ->]; [now left | right; now left].
    - apply keys_append. now right. }
  destruct node as [s | [nm q vs ch | nm q vs ch cum cumv] | c0];
    cbn [report_key] in Hkey; try discriminate.
  - inversion Hkey; subst key. cbn [bind] in H.
    destruct (Hgen c eq_refl eq_refl H) as [A [B [C [D E]]]].
    split; [|exact E]. constructor; auto.
    intros k Hk. rewrite D in Hk. now left.
  - rewrite Hkey in H.
    destruct (nth_error (prob data) 1) as [w1|]; [|discriminate].
    destruct (next_append (next_cycle_start_prob c) key w1) as [nx|e] eqn:En;
      [|discriminate].
    cbn [bind] in H.
    destruct (Hgen (set_next c nx) eq_refl eq_refl H) as [A [B [C [D E]]]].
    split; [|exact E]. constructor; auto.
    intros k Hk. rewrite D in Hk. cbn [set_next next_cycle_start_prob] in Hk.
    destruct (next_append_keys _ _ _ _ En k Hk) as [Hk1 | ->];
      [now left | right; now left].
Qed.

Lemma destination_of_Ok sts ch d :
  destination_of sts ch = Ok d ->
  exists i rest, ch = ChildState i :: rest /\ nth_error sts i = Some d.
Proof.
  destruct ch as [|[i|] rest]; cbn [destination_of]; try discriminate.
  destruct (nth_error sts i) as [d0|] eqn:E; [|discriminate].
  intros H. inversion H; subst. now exists i, rest.
Qed.

Lemma forward_keys_transition fuel sts nm p vs ch cum cumv :
  forward_keys fuel sts (StateTransition nm p vs ch cum cumv).
Proof.
  intros t ip iv h c n' h' c' H. cbn [Node_forward_core] in H.
  destruct (value fuel h p (Some t)) as [[v h1]|e]; [|discriminate].
  cbn [bind] in H.
  destruct (input_value fuel h1 ip) as [[x h2]|e]; [|discriminate].
  cbn [bind] in H.
  destruct (destination_of sts ch) as [d|e] eqn:Ed; [|discriminate].
  cbn [bind] in H.
  destruct (handle_node_message c _ _) as [c1|e] eqn:Eh; [|discriminate].
  cbn [bind] in H. inversion H; subst n' h' c'. split; [|reflexivity].
  destruct (destination_of_Ok _ _ _ Ed) as [i [rest [-> Hi]]].
  cbn [dst_names]. rewrite (state_names_nth _ _ _ Hi).
  destruct (handle_keys _ _ _ _ (node_name d) Eh eq_refl) as [Hk _].
  exact Hk.
Qed.

Lemma forward_children_keys fuel sts ch :
  Forall (forward_keys fuel sts) ch ->
  forall t ip iv h c ch' h' c',
    forward_children_core fuel sts ch t ip iv h c = Ok (ch', h', c') ->
    ctrl_keys c c' (flat_map (dst_names (state_names sts)) ch)
      (flat_map (dst_names (state_names sts)) ch) /\
    map Node_reset ch' = map Node_reset ch.
Proof.
  induction 1 as [|n ch Hn _ IH]; intros t ip iv h c ch' h' c' H.
  - inversion H; subst. split; [apply ctrl_keys_refl | reflexivity].
  - cbn [forward_children_core] in H.
    destruct (Node_forward_core fuel sts n t ip iv h c) as [[[n1 h1] c1]|e] eqn:E1;
      [|discriminate].
    cbn [bind] in H.
    destruct (forward_children_core fuel sts ch t ip iv h1 c1)
      as [[[l1 h2] c2]|e] eqn:E2; [|discriminate].
    cbn [bind] in H. inversion H; subst ch' h' c'.
    destruct (Hn _ _ _ _ _ _ _ _ E1) as [K1 R1].
    destruct (IH _ _ _ _ _ _ _ _ E2) as [K2 R2].
    split; [|cbn [map]; congruence].
    cbn [flat_map]. eapply ctrl_keys_trans; eauto.
Qed.

Lemma forward_keys_all fuel sts n : forward_keys fuel sts n.
Proof.
  induction n as [nm p vs ch IH | nm p vs ch cum cumv] using Node_ind_children;
    [|apply forward_keys_transition].
  intros t ip iv h c n' h' c' H. rewrite Node_forward_chance in H.
  destruct (value fuel h p (Some t)) as [[v h1]|e]; [|discriminate].
  cbn [bind] in H.
  destruct (input_value fuel h1 ip) as [[x h2]|e]; [|discriminate].
  cbn [bind] in H.
  destruct (forward_children_core fuel sts ch t _ _ h2 c)
    as [[[l1 h3] c1]|e] eqn:E; [|discriminate].
  cbn [bind] in H. inversion H; subst n' h' c'.
  destruct (forward_children_keys fuel sts ch IH _ _ _ _ _ _ _ _ E) as [K R].
  split; [exact K|]. cbn [Node_reset]. now rewrite R.
Qed.

(** Whenever [start] returns. *)
Lemma MarkovState_start_keys fuel sts s t x h c s' h' c' :
  MarkovState_start_core fuel sts s t x h c = Ok (s', h', c') ->
  ctrl_keys c c' (node_name s :: state_dsts (state_names sts) s)
    (state_dsts (state_names sts) s) /\
  In (node_name s) (dict_keys (cycle_probs c')) /\
  node_name s' = node_name s /\ variables s' = variables s /\
  map Node_reset (children s') = map Node_reset (children s).
Proof.
  unfold MarkovState_start_core. intros H.
  destruct (handle_node_message c _ _) as [c1|e] eqn:Eh; [|discriminate].
  cbn [bind alloc] in H. unfold MarkovState_forward_core in H.
  cbn [children trans_prob variables node_name initial_prob] in H.
  destruct (forward_children_core fuel sts (children s) t _ _ _ c1)
    as [[[ch' h1] c2]|e] eqn:E; [|discriminate].
  cbn [bind] in H. inversion H; subst s' h' c'.
  destruct (handle_keys _ _ _ _ (node_name s) Eh eq_refl) as [K1 Hin].
  cbn [is_transition] in K1.
  destruct (forward_children_keys fuel sts (children s)
              ltac:(apply Forall_forall; intros n _; apply forward_keys_all)
              _ _ _ _ _ _ _ _ E) as [K2 R].
  split; [|split; [|auto]].
  - exact (ctrl_keys_trans _ _ _ _ _ _ _ K1 K2).
  - destruct K2 as [_ Kept _ _]. now apply Kept.
Qed.

Lemma lookup_children_FoundState ids sts name i :
  lookup_children ids sts name = Ok (FoundState i) ->
  exists s, nth_error sts i = Some s /\ node_name s = name.
Proof.
  induction ids as [|j ids IH]; cbn [lookup_children]; [discriminate|].
  destruct (nth_error sts j) as [s|] eqn:E; [|discriminate].
  unfold MarkovState_lookup.
  destruct (String.eqb (node_name s) name) eqn:En.
  - intros H. inversion H; subst. exists s. split; [exact E|].
    now apply String.eqb_eq.
  - destruct (existsb _ (children s)); [discriminate | exact IH].
Qed.

Lemma send_to_node_Ok fuel node t m c sts h c' sts' h' :
  send_to_node_core fuel node t m c sts h = Ok (c', sts', h') ->
  exists i s s' x,
    m = Scalar x /\ nth_error sts i = Some s /\ node_name s = node /\
    sts' = update sts i s' /\
    MarkovState_start_core fuel sts s t x h c = Ok (s', h', c').
Proof.
  unfold send_to_node_core, lookup.
  destruct (String.eqb "controller" node); [discriminate|].
  destruct (lookup_children (ctrl_children c) sts node) as [f|e] eqn:El;
    [|discriminate].
  cbn [bind]. destruct f as [i| | |]; try discriminate.
  destruct (lookup_children_FoundState _ _ _ _ El) as [s [Hi Hn]].
  rewrite Hi. destruct m as [x|l]; [|discriminate].
  destruct (MarkovState_start_core fuel sts s t x h c) as [[[s' h1] c1]|e] eqn:Es;
    [|discriminate].
  cbn [bind]. intros H. inversion H; subst.
  now exists i, s, s', x.
Qed.

Lemma state_dsts_incl sts0 sts i s :
  same_skeleton sts0 sts ->
  nth_error sts i = Some s ->
  incl (state_dsts (state_names sts) s) (all_dst_names sts0).
Proof.
  intros Hsk Hi k Hk.
  destruct (same_skeleton_nth _ _ _ _ Hsk Hi) as [s0 [Hi0 [_ [_ Hc]]]].
  rewrite (same_skeleton_names _ _ Hsk) in Hk. unfold state_dsts in Hk.
  rewrite (skeleton_flat_map _ _ _ (dst_names_reset (state_names sts0)) Hc)
    in Hk.
  unfold all_dst_names. apply in_flat_map. exists s0.
  split; [eapply nth_error_In; eauto | exact Hk].
Qed.

(** Whenever the start masses are all delivered. *)
Lemma send_all_keys fuel sts0 items :
  forall c sts h c' sts' h',
    same_skeleton sts0 sts ->
    send_all_core fuel items c sts h = Ok (c', sts', h') ->
    ctrl_keys c c' (dict_keys items ++ all_dst_names sts0)
      (all_dst_names sts0) /\
    same_skeleton sts0 sts' /\
    (forall k, hd_error (dict_keys items) = Some k ->
               In k (dict_keys (cycle_probs c'))).
Proof.
  induction items as [|[k v] items IH]; intros c sts h c' sts' h' Hsk H.
  - inversion H; subst. split; [|split; [exact Hsk | discriminate]].
    eapply ctrl_keys_incl; [apply ctrl_keys_refl | |]; intros x [].
  - cbn [send_all_core] in H.
    destruct (send_to_node_core fuel k (model_time c) v c sts h)
      as [[[c1 sts1] h1]|e] eqn:E1; [|discriminate].
    cbn [bind] in H.
    destruct (send_to_node_Ok _ _ _ _ _ _ _ _ _ _ E1)
      as [i [s [s' [x [-> [Hi [Hn [-> Hst]]]]]]]].
    destruct (MarkovState_start_keys _ _ _ _ _ _ _ _ _ _ Hst)
      as [K1 [Hin [Hn' [Hv' Hc']]]].
    assert (Hsk1 : same_skeleton sts0 (update sts i s'))
      by (eapply same_skeleton_update; eauto).
    destruct (IH _ _ _ _ _ _ Hsk1 H) as [K2 [Hsk2 _]].
    split; [|split; [exact Hsk2|]].
    + eapply ctrl_keys_incl;
        [exact (ctrl_keys_trans _ _ _ _ _ _ _ K1 K2) | |].
      * intros k0 Hk0. cbn [dict_keys map fst app]. cbn [In].
        rewrite in_app_iff in Hk0. cbn [In] in Hk0.
        destruct Hk0 as [[Hk0|Hk0]|Hk0].
        -- left. congruence.
        -- right. apply in_or_app. right.
           exact (state_dsts_incl sts0 sts i s Hsk Hi k0 Hk0).
        -- right. exact Hk0.
      * intros k0 Hk0. rewrite in_app_iff in Hk0. destruct Hk0 as [Hk0|Hk0];
          [exact (state_dsts_incl sts0 sts i s Hsk Hi k0 Hk0) | exact Hk0].
    + intros k0 Hk0. cbn in Hk0. inversion Hk0; subst k0.
      destruct K2 as [_ Kept _ _]. apply Kept. now rewrite <- Hn.
Qed.

Lemma dd_append_len d k x k' :
  (col_len d k' <= col_len (dd_append d k x) k')%nat /\
  (k' = k -> (col_len d k' < col_len (dd_append d k x) k')%nat).
Proof.
  unfold col_len. destruct (string_dec k k') as [->|Hne].
  - rewrite dd_get_append_same, length_app. simpl. split; [lia | intros _; lia].
  - rewrite dd_get_append_other by exact Hne. split; [lia | congruence].
Qed.

Lemma fold_append_len {V} (g : V -> Q) items k :
  forall acc,
    (col_len acc k <= col_len (fold_append g items acc) k)%nat /\
    (In k (dict_keys items) ->
     (col_len acc k < col_len (fold_append g items acc) k)%nat).
Proof.
  induction items as [|[k0 v0] items IH]; intros acc.
  - split; [cbn; lia | intros []].
  - rewrite fold_append_cons.
    destruct (IH (dd_append acc k0 (g v0))) as [I1 I2].
    destruct (dd_append_len acc k0 (g v0) k) as [D1 D2].
    split; [lia|]. cbn [dict_keys map fst]. intros [->|Hin].
    + specialize (D2 eq_refl). lia.
    + specialize (I2 Hin). lia.
Qed.

Lemma fold_append_keys_kept {V} (g : V -> Q) items acc k :
  In k (dict_keys acc) -> In k (dict_keys (fold_append g items acc)).
Proof. intros H. apply fold_append_keys. now left. Qed.

Lemma same_lengths_col n d :
  same_lengths n d = true ->
  forall k, In k (dict_keys d) -> col_len d k = n.
Proof.
  induction d as [|[k0 l0] d IH]; intros H k Hin; [contradiction|].
  cbn [same_lengths] in H. apply andb_true_iff in H. destruct H as [H0 H1].
  apply Nat.eqb_eq in H0. unfold col_len, dd_get. cbn [dict_get].
  destruct (String.eqb k0 k) eqn:E; [exact H0|].
  apply String.eqb_neq in E. destruct Hin as [Hin|Hin]; [contradiction|].
  apply (IH H1 k Hin).
Qed.

Lemma from_dict_col d d' :
  DataFrame_from_dict d = Ok d' ->
  forall k k', In k (dict_keys d) -> In k' (dict_keys d) ->
               col_len d k = col_len d k'.
Proof.
  unfold DataFrame_from_dict. destruct d as [|[k0 l0] d]; [intros _ k k' []|].
  destruct (same_lengths (List.length l0) d) eqn:E; [|discriminate].
  intros _ k k' Hk Hk'.
  assert (Hall : same_lengths (List.length l0) ((k0, l0) :: d) = true)
    by (cbn [same_lengths]; now rewrite Nat.eqb_refl, E).
  now rewrite (same_lengths_col _ _ Hall k Hk), (same_lengths_col _ _ Hall k' Hk').
Qed.

Lemma append_sums_fold totals cycle :
  append_sums totals cycle = fold_append Qsum cycle totals.
Proof. reflexivity. Qed.

(** A cycle of a run that is stuck on [k0]. *)
Lemma stuck_cycle fuel sts0 k0 c sts h c1 sts1 h1 :
  ~ In k0 (all_dst_names sts0) ->
  stuck sts0 k0 c sts ->
  start_one_cycle_core fuel c sts h = Ok (c1, sts1, h1) ->
  stuck sts0 k0 (end_one_cycle c1) sts1 /\
  (forall k, (col_len (total_probs c) k
              <= col_len (total_probs (end_one_cycle c1)) k)%nat) /\
  (forall k, In k (dict_keys (total_probs c)) ->
             In k (dict_keys (total_probs (end_one_cycle c1)))) /\
  (forall k, hd_error (dict_keys (next_cycle_start_prob c)) = Some k ->
             (col_len (total_probs c) k
              < col_len (total_probs (end_one_cycle c1)) k)%nat).
Proof.
  intros Hk0 [S1 S2 S3 S4 S5] H. unfold start_one_cycle_core in H.
  destruct (send_all_keys fuel sts0 _ _ _ _ _ _ _ S1 H) as [K [Hsk Hhd]].
  destruct K as [K1 K2 K3 K4].
  cbn [set_next cycle_probs next_cycle_start_prob] in K2, K3, K4.
  rewrite S3 in K3.
  assert (E7 : total_probs c1 = total_probs c)
    by exact (f_equal (fun x => snd (fst x)) K1).
  assert (Hcp : forall k, In k (dict_keys (cycle_probs c1)) ->
                          In k (all_dst_names sts0)).
  { intros k Hk. destruct (K3 k Hk) as [[]|Hk'].
    apply in_app_iff in Hk'. destruct Hk'; auto. }
  assert (Hkeys : dict_keys (map (fun kv : string * StartProb =>
                                    (fst kv, Scalar (np_sum (snd kv))))
                               (next_cycle_start_prob c1))
                  = dict_keys (next_cycle_start_prob c1)).
  { unfold dict_keys. rewrite map_map. reflexivity. }
  assert (Htot : total_probs (end_one_cycle c1)
                 = fold_append Qsum (cycle_probs c1) (total_probs c))
    by (cbn [end_one_cycle total_probs]; now rewrite E7, append_sums_fold).
  rewrite Htot.
  split; [constructor|split; [|split]].
  - exact Hsk.
  - intros k Hk. cbn [end_one_cycle next_cycle_start_prob] in Hk.
    rewrite Hkeys in Hk. destruct (K4 k Hk) as [[]|Hk']. exact Hk'.
  - reflexivity.
  - rewrite Htot. now apply fold_append_keys_kept.
  - rewrite Htot. unfold col_len, dd_get.
    rewrite fold_append_other; [exact S5|].
    intros Hin. apply Hk0. now apply Hcp.
  - intros k.
    apply (proj1 (fold_append_len Qsum (cycle_probs c1) k (total_probs c))).
  - intros k Hk. now apply fold_append_keys_kept.
  - intros k Hk.
    apply (proj2 (fold_append_len Qsum (cycle_probs c1) k (total_probs c))).
    now apply Hhd.
Qed.

Lemma stuck_cycles fuel sts0 k0 :
  ~ In k0 (all_dst_names sts0) ->
  forall n c sts h c' sts' h',
    stuck sts0 k0 c sts ->
    cycles_core fuel n c sts h = Ok (c', sts', h') ->
    stuck sts0 k0 c' sts' /\
    (forall k, (col_len (total_probs c) k <= col_len (total_probs c') k)%nat) /\
    (forall k, In k (dict_keys (total_probs c)) ->
               In k (dict_keys (total_probs c'))) /\
    (n <> O ->
     forall k, hd_error (dict_keys (next_cycle_start_prob c)) = Some k ->
               (col_len (total_probs c) k < col_len (total_probs c') k)%nat).
Proof.
  intros Hk0. induction n as [|n IH]; intros c sts h c' sts' h' Hs H.
  - inversion H; subst. split; [exact Hs|]. split; [intros; lia|].
    split; [auto|]. intros Hn. now elim Hn.
  - cbn [cycles_core] in H.
    destruct (start_one_cycle_core fuel c sts h) as [[[c1 sts1] h1]|e] eqn:E;
      [|discriminate].
    cbn [bind] in H.
    destruct (stuck_cycle fuel sts0 k0 c sts h c1 sts1 h1 Hk0 Hs E)
      as [Hs1 [L1 [I1 G1]]].
    destruct (IH _ _ _ _ _ _ Hs1 H) as [Hs2 [L2 [I2 _]]].
    split; [exact Hs2|]. split; [|split].
    + intros k. specialize (L1 k). specialize (L2 k). lia.
    + auto.
    + intros _ k Hk. specialize (G1 k Hk). specialize (L2 k). lia.
Qed.

Lemma group_closed_nonempty h t ps : group_closed h t ps = true -> ps <> [].
Proof.
  intros H ->. destruct (group_closed_dens _ _ _ H) as [vs [Hvs Hone]].
  inversion Hvs; subst. discriminate Hone.
Qed.

Lemma closed_node_dst h names t n :
  closed_node h (List.length names) t n = true -> dst_names names n <> [].
Proof.
  induction n as [nm p vs ch IH | nm p vs ch cum cumv] using Node_ind_children;
    cbn [closed_node dst_names]; intros H.
  - apply andb_true_iff in H. destruct H as [Hg Hc].
    apply group_closed_nonempty in Hg.
    destruct ch as [|n ch]; [now elim Hg|].
    cbn [forallb] in Hc. apply andb_true_iff in Hc. destruct Hc as [Hn _].
    inversion IH as [|? ? IHn _]; subst. specialize (IHn Hn).
    cbn [flat_map]. intros E. apply app_eq_nil in E. tauto.
  - destruct ch as [|[d|] [|? ?]]; try discriminate.
    apply Nat.ltb_lt in H.
    destruct (nth_error names d) eqn:E; [discriminate|].
    apply nth_error_None in E. lia.
Qed.

Lemma closed_state_dst h sts t s :
  closed_state h (List.length sts) t s = true ->
  state_dsts (state_names sts) s <> [].
Proof.
  unfold closed_state, state_dsts. intros H.
  apply andb_true_iff in H. destruct H as [Hg Hc].
  apply group_closed_nonempty in Hg.
  destruct (children s) as [|n ch]; [now elim Hg|].
  cbn [forallb] in Hc. apply andb_true_iff in Hc. destruct Hc as [Hn _].
  cbn [flat_map]. intros E. apply app_eq_nil in E. destruct E as [E _].
  assert (Hl : List.length (state_names sts) = List.length sts)
    by (unfold state_names; apply length_map).
  rewrite <- Hl in Hn. exact (closed_node_dst h _ t n Hn E).
Qed.

Lemma names_in_dec (names dsts : list string) :
  (forall k, In k names -> In k dsts) \/
  (exists k, In k names /\ ~ In k dsts).
Proof.
  induction names as [|k names IH].
  - left. intros k [].
  - destruct (in_dec string_dec k dsts) as [Hin|Hn].
    + destruct IH as [IH|[k0 [H1 H2]]].
      * left. intros k0 [<-|H]; auto.
      * right. exists k0. split; [now right | exact H2].
    + right. exists k. split; [now left | exact Hn].
Qed.

Lemma cycles_S fuel n c sts h :
  cycles_core fuel (S n) c sts h
  = ('(c1, sts1, h1) <- start_one_cycle_core fuel c sts h ;;
     cycles_core fuel n (end_one_cycle c1) sts1 h1).
Proof. reflexivity. Qed.

(** Where some state is never re-entered and two cycles or more are run,
    the columns of the probability table differ in length and [run] raises. *)
Lemma run_raises fuel c sts h k0 :
  (3 <= fuel)%nat ->
  ctrl_children c = seq 0 (List.length sts) ->
  unique_names sts ->
  closed_model c sts h = true ->
  ~ 1 + discount_rate c == 0 ->
  (2 <= total_cycles c)%nat ->
  In k0 (state_names sts) ->
  ~ In k0 (all_dst_names sts) ->
  forall r, run_core fuel c sts h <> Ok r.
Proof.
  intros Hfuel Hch Huniq Hclosed Hrate HT Hk0 Hnk0 r Hrun.
  unfold closed_model in Hclosed. apply andb_true_iff in Hclosed.
  destruct Hclosed as [Hinit Hcl].
  assert (Hcl0 : forallb (closed_state h (List.length sts) 0) sts = true).
  { rewrite forallb_forall in Hcl. apply Hcl. apply in_seq. lia. }
  destruct (run_prefix fuel c sts h Hfuel Hch Huniq Hinit Hrate)
    as [c0 [sts1 [h1 [Hpre0 [Hpre Htot]]]]].
  rewrite Hpre0 in Hrun.
  destruct (total_cycles c) as [|[|n]] eqn:ET; try lia.
  rewrite cycles_S in Hrun.
  destruct (start_one_cycle_spec fuel sts h 0 c0 sts1 h1 Hfuel Huniq Hcl0 Hpre)
    as [c1 [sts2 [h2 [Hstart [Hmid [Hsk [_ [_ _]]]]]]]].
  rewrite Hstart in Hrun. cbn [bind] in Hrun.
  pose proof (end_one_cycle_totals _ _ _ _ Htot Hmid) as [[T1 T2 T3 _] _ _].
  destruct Hmid as [_ _ _ _ _ _ _ M8 _].
  set (c1' := end_one_cycle c1) in *.
  assert (Hnk : dict_keys (next_cycle_start_prob c1')
                = dict_keys (next_cycle_start_prob c1)).
  { unfold c1', dict_keys. cbn [end_one_cycle next_cycle_start_prob].
    rewrite map_map. reflexivity. }
  assert (Hlen1 : forall k, In k (state_names sts) ->
                            In k (dict_keys (total_probs c1')) /\
                            col_len (total_probs c1') k = 1%nat).
  { intros k Hk. assert (Hin : In k (dict_keys (total_probs c1')))
      by (apply T3; [discriminate | exact Hk]).
    split; [exact Hin|].
    destruct (dict_get_keys_Some _ _ Hin) as [l Hl].
    unfold col_len, dd_get. rewrite Hl. eapply T2; eauto. }
  assert (Hstuck : stuck sts k0 c1' sts2).
  { constructor.
    - exact Hsk.
    - intros k Hk. rewrite Hnk in Hk. now apply M8.
    - reflexivity.
    - now apply Hlen1.
    - now apply Hlen1. }
  (* some start mass is delivered at cycle 1 *)
  assert (Hfirst : exists k1, hd_error (dict_keys (next_cycle_start_prob c1'))
                              = Some k1).
  { rewrite Hnk.
    destruct (dict_keys (next_cycle_start_prob c1)) as [|k1 ks] eqn:E;
      [|now exists k1].
    exfalso. apply state_names_find in Hk0. destruct Hk0 as [i [s [Hi _]]].
    assert (Hs : closed_state h (List.length sts) 0 s = true).
    { rewrite forallb_forall in Hcl0. apply Hcl0.
      eapply nth_error_In; eauto. }
    apply closed_state_dst in Hs.
    destruct (state_dsts (state_names sts) s) as [|k2 ks2] eqn:Ed;
      [now elim Hs|].
    assert (Hin : In k2 (all_dst_names sts)).
    { unfold all_dst_names. apply in_flat_map. exists s.
      split; [eapply nth_error_In; eauto|].
      unfold state_dsts in Ed. rewrite Ed. now left. }
    apply M8 in Hin. first [exact Hin | rewrite E in Hin; exact Hin]. }
  destruct Hfirst as [k1 Hk1].
  destruct (cycles_core fuel (S n) c1' sts2 h2) as [[[c2 sts3] h3]|e] eqn:Ec;
    [|cbn [bind] in Hrun; discriminate].
  cbn [bind] in Hrun.
  destruct (stuck_cycles fuel sts k0 Hnk0 (S n) c1' sts2 h2 c2 sts3 h3
              Hstuck Ec) as [[_ _ _ S4 S5] [_ [Hkept Hgrow]]].
  specialize (Hgrow ltac:(discriminate) k1 Hk1).
  assert (Hk1n : In k1 (state_names sts)).
  { assert (Hin : In k1 (dict_keys (next_cycle_start_prob c1'))).
    { destruct (dict_keys (next_cycle_start_prob c1')); [discriminate|].
      inversion Hk1. now left. }
    rewrite Hnk in Hin. apply M8 in Hin.
    unfold all_dst_names in Hin. apply in_flat_map in Hin.
    destruct Hin as [s [_ Hin]]. apply in_flat_map in Hin.
    destruct Hin as [n0 [_ Hin]]. eapply dst_names_in; eauto. }
  destruct (Hlen1 k1 Hk1n) as [Hin1 Hl1].
  destruct (DataFrame_from_dict (total_probs c2)) as [df|e] eqn:Ed;
    [|cbn [bind] in Hrun; discriminate].
  pose proof (from_dict_col _ _ Ed k0 k1 S4 (Hkept k1 Hin1)) as Heq.
  lia.
Qed.

(** Mass conservation, for the computation of the proofs. *)
Lemma run_core_conserves_mass fuel c sts h :
  (3 <= fuel)%nat ->
  ctrl_children c = seq 0 (List.length sts) ->
  unique_names sts ->
  closed_model c sts h = true ->
  ~ 1 + discount_rate c == 0 ->
  (forall prob_df variable_df w,
      run_core fuel c sts h = Ok (prob_df, variable_df, w) ->
      forall t, (t < total_cycles c)%nat -> row_sum prob_df t == 1) /\
  (reentered c sts ->
   exists prob_df variable_df w, run_core fuel c sts h = Ok (prob_df, variable_df, w)).
Proof.
  intros Hfuel Hch Huniq Hclosed Hrate. split.
  - intros prob_df variable_df w Hrun.
    assert (Hre : reentered c sts).
    { unfold reentered.
      destruct (le_lt_dec (total_cycles c) 1) as [Hle|Hgt]; [now left|].
      destruct (names_in_dec (state_names sts) (all_dst_names sts))
        as [HR|[k0 [H1 H2]]]; [now right|].
      exfalso.
      exact (run_raises fuel c sts h k0 Hfuel Hch Huniq Hclosed Hrate
               ltac:(lia) H1 H2 _ Hrun). }
    destruct (run_conserves fuel c sts h Hfuel Hch Huniq Hclosed Hre Hrate)
      as [p [v [w' [Hrun' [Hrows _]]]]].
    rewrite Hrun in Hrun'. inversion Hrun'; subst. exact Hrows.
  - intros Hre.
    destruct (run_conserves fuel c sts h Hfuel Hch Huniq Hclosed Hre Hrate)
      as [p [v [w' [Hrun' _]]]].
    now exists p, v, w'.
Qed.

(** ** The demo model *)

(** The embedding reproduces the first rows of the reference run documented
    in [demo-build_from_code.py] (0.899950, 0.749524, 0.673450 for state_a,
    and so on), here in millionths rounded down. *)
Lemma demo_reference_rows :
  demo_tables
  = Ok ([("state_a", [899950; 749524; 673450]%Z);
         ("state_b", [100000; 249276; 322608]%Z);
         ("state_c", [50; 1199; 3941]%Z)],
        [("cost", [55597550; 67760843; 77731424]%Z);
         ("utility", [959945; 846415; 747720]%Z)]).
Proof. vm_compute. reflexivity. Qed.

(** * Further properties *)

(** ** Time-varying probabilities: the cursor *)

Lemma update_same {A} (l : list A) i x :
  nth_error l i = Some x -> update l i x = l.
Proof.
  revert i. induction l as [|a l IH]; intros [|i]; simpl; try discriminate.
  - intros [= ->]. reflexivity.
  - intros H. now rewrite IH.
Qed.

Lemma value_time_varying_cursor fuel h p ps c :
  nth_error h p = Some (TimeVaringProbability ps c) ->
  value (S fuel) h p None
  = match nth_error ps c with
    | None => Err IndexError
    | Some q => value fuel h q None
    end.
Proof. intros H. cbn [value]. now rewrite H. Qed.

(** [TimeVaringProbability.value(time=t)] stores [t] in the object: it returns
    the element at index [t], and a following [value()] without a cycle
    returns the same number and leaves every object as it is. *)
Theorem time_varying_value_remembers_cycle fuel h p probs cur t q v :
  (2 <= fuel)%nat ->
  nth_error h p = Some (TimeVaringProbability probs cur) ->
  nth_error probs t = Some q ->
  constant_at h q = Some v ->
  exists h1,
    value fuel h p (Some t) = Ok (v, h1) /\
    h1 = update h p (TimeVaringProbability probs t) /\
    value fuel h1 p None = Ok (v, h1).
Proof.
  intros Hf Hp Hq Hv.
  destruct fuel as [|[|fuel]]; try lia.
  assert (Hne : p <> q).
  { intros ->. unfold constant_at in Hv. rewrite Hp in Hv. discriminate. }
  assert (Hv1 : constant_at (update h p (TimeVaringProbability probs t)) q = Some v).
  { unfold constant_at. rewrite nth_error_update_other by exact Hne. exact Hv. }
  exists (update h p (TimeVaringProbability probs t)).
  split; [|split; [reflexivity|]].
  - rewrite (value_time_varying _ _ _ _ _ _ Hp), Hq.
    apply value_constant. exact Hv1.
  - assert (Hp1 : nth_error (update h p (TimeVaringProbability probs t)) p
                  = Some (TimeVaringProbability probs t))
      by (eapply nth_error_update_same; exact Hp).
    rewrite (value_time_varying_cursor _ _ _ _ _ Hp1), Hq.
    apply value_constant. exact Hv1.
Qed.

Lemma time_varying_value_remembers_cycle_witness :
  (2 <= 2)%nat /\
  nth_error tv_heap 2%nat = Some (TimeVaringProbability [0%nat; 1%nat] 0%nat) /\
  nth_error [0%nat; 1%nat] 1%nat = Some 1%nat /\
  constant_at tv_heap 1%nat = Some (2 # 10) /\
  exists h1,
    value 2 tv_heap 2%nat (Some 1%nat) = Ok (2 # 10, h1) /\
    h1 = update tv_heap 2%nat (TimeVaringProbability [0%nat; 1%nat] 1%nat) /\
    value 2 h1 2%nat None = Ok (2 # 10, h1).
Proof.
  split; [apply le_n|]. split; [reflexivity|]. split; [reflexivity|].
  split; [reflexivity|].
  exact (time_varying_value_remembers_cycle 2 tv_heap 2%nat [0%nat; 1%nat] 0%nat
           1%nat 1%nat (2 # 10) (le_n 2) eq_refl eq_refl eq_refl).
Defined.

(** A node whose probability is a time-varying sequence cannot be run past
    the end of the sequence: at a cycle [time >= len(probs)], [forward] raises
    [IndexError], whatever the mass and the variables it is entered with. *)
Theorem forward_beyond_time_varying_sequence fuel sts n time ip iv h c probs cur :
  nth_error h (Node_trans_prob n) = Some (TimeVaringProbability probs cur) ->
  (List.length probs <= time)%nat ->
  Node_forward (S fuel) sts n time ip iv h c = Err IndexError.
Proof.
  intros Hp Hlen.
  assert (Hv : value (S fuel) h (Node_trans_prob n) (Some time) = Err IndexError).
  { rewrite (value_time_varying _ _ _ _ _ _ Hp).
    apply nth_error_None in Hlen. now rewrite Hlen. }
  destruct n as [nm p vs ch | nm p vs ch cum cumv]; cbn [Node_trans_prob] in Hv;
    cbn [Node_forward]; rewrite Hv; reflexivity.
Qed.

Lemma forward_beyond_time_varying_sequence_witness :
  nth_error tv_heap
    (Node_trans_prob (StateTransition "t" 2%nat [] [ChildState 0%nat] [] []))
  = Some (TimeVaringProbability [0%nat; 1%nat] 0%nat) /\
  (List.length [0%nat; 1%nat] <= 2)%nat /\
  Node_forward 1 ab_store (StateTransition "t" 2%nat [] [ChildState 0%nat] [] [])
    2%nat (InFloat 1) [] tv_heap (ab_controller 3 count_half)
  = Err IndexError.
Proof.
  split; [reflexivity|]. split; [apply le_n|].
  exact (forward_beyond_time_varying_sequence 0 ab_store
           (StateTransition "t" 2%nat [] [ChildState 0%nat] [] []) 2%nat
           (InFloat 1) [] tv_heap (ab_controller 3 count_half)
           [0%nat; 1%nat] 0%nat eq_refl (le_n 2)).
Defined.

(** ** Sampling a probability without a range *)

Lemma sampling_keeps_constants_heap rng fuel h p seed h' :
  (forall s a, rng s uniform a a = a) ->
  Forall without_range h ->
  sample_value rng fuel h p seed = Ok h' ->
  h' = h.
Proof.
  intros Hrng Hall. revert p h'.
  induction fuel as [|fuel IH]; intros p h'; [discriminate|].
  cbn [sample_value].
  destruct (nth_error h p) as [[v a b d | probs cur | o]|] eqn:Hp;
    try discriminate.
  - intros [= <-].
    pose proof (proj1 (Forall_forall _ _) Hall _ (nth_error_In _ _ Hp)) as W.
    cbn in W. destruct W as (-> & -> & ->). rewrite Hrng.
    apply update_same. exact Hp.
  - clear Hp. induction probs as [|q l IHl]; [intros [= <-]; reflexivity|].
    destruct (sample_value rng fuel h q seed) as [h1|e] eqn:E; cbn [bind];
      [|discriminate].
    apply IH in E. subst h1. exact IHl.
Qed.

(** A [ProbabilityWithRange] built without a range behaves as a constant
    (the docstring of its constructor): where a uniform draw between [a] and
    [a] is [a], as numpy's is, [sample_value] leaves a heap of such objects,
    of sequences of them and of complements as it is; on such an object it
    returns. *)
Theorem sampling_keeps_constants rng fuel h p seed :
  (forall s a, rng s uniform a a = a) ->
  Forall without_range h ->
  (forall h', sample_value rng fuel h p seed = Ok h' -> h' = h) /\
  (forall v, constant_at h p = Some v ->
             sample_value rng (S fuel) h p seed = Ok h).
Proof.
  intros Hrng Hall. split.
  - intros h'. now apply sampling_keeps_constants_heap.
  - intros v Hv.
    destruct (sample_value rng (S fuel) h p seed) as [h'|e] eqn:E.
    + f_equal. eapply sampling_keeps_constants_heap; eauto.
    + exfalso. cbn [sample_value] in E. unfold constant_at in Hv.
      destruct (nth_error h p) as [[x a b d | probs cur | o]|]; discriminate.
Qed.

Lemma sampling_keeps_constants_witness :
  (forall (s : nat) (a : Q), (fun _ _ x _ => x) s uniform a a = a) /\
  Forall without_range tv_heap /\
  (forall h', sample_value (fun _ _ x _ => x) 2 tv_heap 2%nat 7%nat = Ok h' ->
              h' = tv_heap) /\
  (forall v, constant_at tv_heap 2%nat = Some v ->
             sample_value (fun _ _ x _ => x) 3 tv_heap 2%nat 7%nat = Ok tv_heap).
Proof.
  assert (H1 : forall (s : nat) (a : Q),
             (fun (_ : nat) (_ : distribution) (x _ : Q) => x) s uniform a a = a)
    by reflexivity.
  assert (H2 : Forall without_range tv_heap)
    by (repeat constructor).
  split; [exact H1|]. split; [exact H2|].
  exact (sampling_keeps_constants (fun _ _ x _ => x) 2 tv_heap 2%nat 7%nat H1 H2).
Defined.

(** ** [lookup] and [send_to_node]: which node answers to a name *)

Lemma dict_get_app {V} (a b : dict V) k :
  dict_get (a ++ b) k
  = match dict_get a k with Some v => Some v | None => dict_get b k end.
Proof.
  induction a as [|[k' v] a IH]; simpl; [reflexivity|].
  destruct (String.eqb k' k); auto.
Qed.

Lemma dict_get_map_const {V} (f : V) l k :
  dict_get (map (fun nm => (nm, f)) l) k
  = if existsb (fun nm => String.eqb nm k) l then Some f else None.
Proof.
  induction l as [|a l IH]; simpl; [reflexivity|].
  destruct (String.eqb a k); simpl; auto.
Qed.

Lemma existsb_flat_map {A B} (f : B -> bool) (g : A -> list B) l :
  existsb f (flat_map g l) = existsb (fun a => existsb f (g a)) l.
Proof.
  induction l as [|a l IH]; simpl; [reflexivity|].
  now rewrite existsb_app, IH.
Qed.

Lemma Node_lookup_names n name :
  Node_lookup n name = existsb (fun nm => String.eqb nm name) (Node_names n).
Proof.
  induction n as [nm p vs ch IH | nm p vs ch cum cumv] using Node_ind_children.
  - cbn [Node_lookup Node_names existsb]. f_equal.
    rewrite existsb_flat_map.
    induction ch as [|n0 ch IHch]; [reflexivity|].
    cbn [existsb]. inversion IH as [|? ? H1 H2]; subst.
    rewrite H1. f_equal. apply IHch. exact H2.
  - cbn. now rewrite orb_false_r.
Qed.

Lemma MarkovState_lookup_entries i s name :
  MarkovState_lookup i s name
  = match dict_get (state_entries i s) name with
    | Some f => f
    | None => NotFound
    end.
Proof.
  unfold MarkovState_lookup, state_entries. cbn [dict_get].
  destruct (String.eqb (node_name s) name); [reflexivity|].
  rewrite dict_get_map_const, existsb_flat_map.
  replace (existsb (fun ch0 => Node_lookup ch0 name) (children s))
    with (existsb (fun a => existsb (fun nm => String.eqb nm name) (Node_names a))
            (children s)).
  - destruct (existsb _ (children s)); reflexivity.
  - induction (children s) as [|a l IH]; [reflexivity|].
    cbn [existsb]. now rewrite IH, Node_lookup_names.
Qed.

Lemma state_entries_found i s name :
  dict_get (state_entries i s) name <> Some NotFound.
Proof.
  unfold state_entries. cbn [dict_get].
  destruct (String.eqb (node_name s) name); [discriminate|].
  rewrite dict_get_map_const. destruct (existsb _ _); discriminate.
Qed.

Lemma lookup_children_entries ids sts ss name :
  get_states ids sts = Ok ss ->
  lookup_children ids sts name
  = Ok match dict_get (states_entries ids ss) name with
       | Some f => f
       | None => NotFound
       end.
Proof.
  revert ss. induction ids as [|i ids IH]; intros ss; cbn [get_states].
  - intros [= <-]. reflexivity.
  - cbn [lookup_children].
    destruct (nth_error sts i) as [s|]; [|discriminate].
    destruct (get_states ids sts) as [l|e]; cbn [bind]; [|discriminate].
    intros [= <-]. cbn [states_entries]. rewrite dict_get_app.
    rewrite MarkovState_lookup_entries.
    pose proof (state_entries_found i s name) as Hnf.
    destruct (dict_get (state_entries i s) name) as [[j| | |]|];
      try reflexivity; [congruence|].
    apply IH. reflexivity.
Qed.

(** [lookup] returns the first node bearing the name in the order controller,
    then each state followed by the nodes below it, depth first; the
    destination of a transition is not searched through the transition.  It
    returns [None] exactly when no such node bears the name. *)
Theorem lookup_returns_first_match c sts ss name :
  get_states (ctrl_children c) sts = Ok ss ->
  lookup c sts name
  = Ok match dict_get (tree_entries c ss) name with
       | Some f => f
       | None => NotFound
       end.
Proof.
  intros Hss. unfold lookup, tree_entries. cbn [dict_get].
  destruct (String.eqb "controller" name); [reflexivity|].
  apply lookup_children_entries. exact Hss.
Qed.

Lemma lookup_returns_first_match_witness :
  get_states (ctrl_children (ab_controller 2 count_half)) ab_store = Ok ab_store /\
  lookup (ab_controller 2 count_half) ab_store "B"
  = Ok match dict_get (tree_entries (ab_controller 2 count_half) ab_store) "B"
       with
       | Some f => f
       | None => NotFound
       end.
Proof.
  split; [reflexivity|].
  exact (lookup_returns_first_match (ab_controller 2 count_half) ab_store
           ab_store "B" eq_refl).
Defined.

Lemma states_entries_found ids ss name :
  dict_get (states_entries ids ss) name <> Some NotFound.
Proof.
  revert ss. induction ids as [|i ids IH]; intros [|s ss]; cbn [states_entries];
    try discriminate.
  rewrite dict_get_app.
  pose proof (state_entries_found i s name) as Hnf.
  destruct (dict_get (state_entries i s) name); [congruence|apply IH].
Qed.

(** [send_to_node] delivers only to a [MarkovState]: a name that no node of
    the tree bears raises [ValueError]; a name whose first bearer is the
    controller, a chance node or a transition raises [NotImplementedError],
    even if a state further on has the same name. *)
Theorem send_to_node_rejects_other_names fuel name t m c sts h ss :
  get_states (ctrl_children c) sts = Ok ss ->
  match dict_get (tree_entries c ss) name with
  | None => send_to_node fuel name t m c sts h = Err ValueError
  | Some (FoundState _) => True
  | Some _ => send_to_node fuel name t m c sts h = Err NotImplementedError
  end.
Proof.
  intros Hss. unfold send_to_node, lookup, tree_entries. cbn [dict_get].
  destruct (String.eqb "controller" name); [reflexivity|].
  rewrite (lookup_children_entries _ _ _ name Hss).
  pose proof (states_entries_found (ctrl_children c) ss name) as Hnf.
  destruct (dict_get (states_entries (ctrl_children c) ss) name) as [[j| | |]|];
    cbn [bind]; auto.
  congruence.
Qed.

Lemma send_to_node_rejects_other_names_witness :
  get_states (ctrl_children (ab_controller 2 count_half)) ab_store = Ok ab_store /\
  match dict_get (tree_entries (ab_controller 2 count_half) ab_store) "a_to_b"
  with
  | None =>
      send_to_node 3 "a_to_b" 0%nat (Scalar 1) (ab_controller 2 count_half)
        ab_store ab_heap = Err ValueError
  | Some (FoundState _) => True
  | Some _ =>
      send_to_node 3 "a_to_b" 0%nat (Scalar 1) (ab_controller 2 count_half)
        ab_store ab_heap = Err NotImplementedError
  end.
Proof.
  split; [reflexivity|].
  exact (send_to_node_rejects_other_names 3 "a_to_b" 0%nat (Scalar 1)
           (ab_controller 2 count_half) ab_store ab_heap ab_store eq_refl).
Defined.

(** ** [init_prob] then [verify]: groups of siblings with complements *)

Lemma value_cursor fuel h p v :
  (2 <= fuel)%nat ->
  cursor_value h p = Some v ->
  value fuel h p None = Ok (v, h).
Proof.
  intros Hf. destruct fuel as [|[|fuel]]; try lia. unfold cursor_value.
  destruct (nth_error h p) as [[x a b d | probs cur | o]|] eqn:Hp;
    try discriminate.
  - intros [= <-]. apply value_constant. unfold constant_at. now rewrite Hp.
  - rewrite (value_time_varying_cursor _ _ _ _ _ Hp).
    destruct (nth_error probs cur) as [q|]; [|discriminate].
    apply value_constant.
Qed.

Lemma constant_at_update_complement h c o o' q :
  nth_error h c = Some (ComplementProbability o) ->
  constant_at (update h c (ComplementProbability o')) q = constant_at h q.
Proof.
  intros Hc. unfold constant_at. destruct (Nat.eq_dec c q) as [<-|Hne].
  - rewrite (nth_error_update_same _ _ _ _ Hc), Hc. reflexivity.
  - now rewrite nth_error_update_other.
Qed.

Lemma cursor_value_update_complement h c o o' p :
  nth_error h c = Some (ComplementProbability o) ->
  cursor_value (update h c (ComplementProbability o')) p = cursor_value h p.
Proof.
  intros Hc. unfold cursor_value. destruct (Nat.eq_dec c p) as [<-|Hne].
  - rewrite (nth_error_update_same _ _ _ _ Hc), Hc. reflexivity.
  - rewrite nth_error_update_other by exact Hne.
    destruct (nth_error h p) as [[x a b d | probs cur | o1]|]; try reflexivity.
    destruct (nth_error probs cur); [|reflexivity].
    apply (constant_at_update_complement _ _ _ _ _ Hc).
Qed.

Lemma cursor_values_exist h l :
  (forall p, In p l -> cursor_value h p <> None) ->
  exists vs, Forall2 (fun p v => cursor_value h p = Some v) l vs.
Proof.
  induction l as [|p l IH]; intros H; [exists []; constructor|].
  destruct IH as [vs Hvs]; [intros q Hq; apply H; now right|].
  destruct (cursor_value h p) as [v|] eqn:E; [|exfalso; apply (H p); simpl; auto].
  exists (v :: vs). constructor; assumption.
Qed.

Lemma sum_trans_probs_app fuel a b h acc :
  sum_trans_probs fuel (a ++ b) h acc
  = ('(v, h1) <- sum_trans_probs fuel a h acc ;; sum_trans_probs fuel b h1 v).
Proof.
  revert h acc. induction a as [|p a IH]; intros h acc; [reflexivity|].
  cbn [app sum_trans_probs].
  destruct (value fuel h p None) as [[v h1]|e]; cbn [bind]; [apply IH|reflexivity].
Qed.

Lemma sum_values_app fuel a b h time acc :
  sum_values fuel (a ++ b) h time acc
  = ('(v, h1) <- sum_values fuel a h time acc ;; sum_values fuel b h1 time v).
Proof.
  revert h acc. induction a as [|p a IH]; intros h acc; [reflexivity|].
  cbn [app sum_values].
  destruct (value fuel h p time) as [[v h1]|e]; cbn [bind]; [apply IH|reflexivity].
Qed.

Lemma sum_trans_probs_cursor fuel h l vs :
  (2 <= fuel)%nat ->
  Forall2 (fun p v => cursor_value h p = Some v) l vs ->
  forall acc,
    sum_trans_probs fuel l h acc = Ok (fold_left (fun a v => v + a) vs acc, h).
Proof.
  intros Hf. induction 1 as [|p v l vs Hp _ IH]; intros acc; [reflexivity|].
  cbn [sum_trans_probs]. rewrite (value_cursor _ _ _ _ Hf Hp). cbn [bind].
  apply IH.
Qed.

Lemma sum_values_cursor fuel h l vs :
  (2 <= fuel)%nat ->
  Forall2 (fun p v => cursor_value h p = Some v) l vs ->
  forall acc,
    sum_values fuel l h None acc = Ok (fold_left Qplus vs acc, h).
Proof.
  intros Hf. induction 1 as [|p v l vs Hp _ IH]; intros acc; [reflexivity|].
  cbn [sum_values]. rewrite (value_cursor _ _ _ _ Hf Hp). cbn [bind].
  apply IH.
Qed.

Lemma fold_radd vs acc :
  fold_left (fun a v => v + a) vs acc == acc + Qsum vs.
Proof.
  revert acc. induction vs as [|v vs IH]; intros acc; cbn [fold_left].
  - unfold Qsum. simpl. ring.
  - rewrite IH, Qsum_cons. ring.
Qed.

Lemma filter_not_self c l :
  ~ In c l -> filter (fun p => negb (Nat.eqb p c)) l = l.
Proof.
  induction l as [|p l IH]; intros H; [reflexivity|].
  cbn [filter]. destruct (Nat.eqb_spec p c) as [->|Hne].
  - exfalso. apply H. now left.
  - cbn [negb]. f_equal. apply IH. intros Hc. apply H. now right.
Qed.

Lemma find_first_complement h pre c o post :
  nth_error h c = Some (ComplementProbability o) ->
  (forall p, In p pre -> cursor_value h p <> None) ->
  find (is_complement h) (pre ++ c :: post) = Some c.
Proof.
  intros Hc. induction pre as [|p pre IH]; intros H; cbn [app find].
  - unfold is_complement. now rewrite Hc.
  - assert (Hp : is_complement h p = false).
    { specialize (H p (or_introl eq_refl)). unfold cursor_value in H.
      unfold is_complement.
      destruct (nth_error h p) as [[x a b d | probs cur | o1]|]; try reflexivity.
      now contradiction H. }
    rewrite Hp. apply IH. intros q Hq. apply H. now right.
Qed.

Lemma cursor_value_not_complement h c o p :
  nth_error h c = Some (ComplementProbability o) ->
  cursor_value h p <> None -> p <> c.
Proof.
  intros Hc Hp ->. apply Hp. unfold cursor_value. now rewrite Hc.
Qed.

Lemma resolve_first_complement h pre c o post :
  nth_error h c = Some (ComplementProbability o) ->
  (forall p, In p pre -> cursor_value h p <> None) ->
  resolve_complement (pre ++ c :: post) h
  = Ok (update h c
          (ComplementProbability
             (Some (pre ++ filter (fun p => negb (Nat.eqb p c)) post)))).
Proof.
  intros Hc Hpre. unfold resolve_complement.
  rewrite (find_first_complement _ _ _ _ _ Hc Hpre).
  unfold set_other_probabilities. rewrite Hc.
  rewrite filter_app. cbn [filter]. rewrite Nat.eqb_refl. cbn [negb].
  rewrite filter_not_self; [reflexivity|].
  intros Hin. exact (cursor_value_not_complement _ _ _ _ Hc (Hpre _ Hin) eq_refl).
Qed.

(** A group of siblings with one complement always passes the sum check of
    [verify]: once [init_prob] has told the complement its siblings (all the
    others of the group), the sum [verify] computes is exactly one, whatever
    the values of the others, and the check returns. *)
Theorem complement_group_passes_sum_check fuel h pre c o post :
  (3 <= fuel)%nat ->
  nth_error h c = Some (ComplementProbability o) ->
  (forall p, In p (pre ++ post) -> cursor_value h p <> None) ->
  exists h',
    resolve_complement (pre ++ c :: post) h = Ok h' /\
    nth_error h' c = Some (ComplementProbability (Some (pre ++ post))) /\
    (exists total, total_prob fuel h' (pre ++ c :: post) = Ok total /\ total == 1) /\
    check_children fuel (pre ++ c :: post) h' = Ok h'.
Proof.
  intros Hf Hc Hall.
  assert (Hpre : forall p, In p pre -> cursor_value h p <> None)
    by (intros p Hp; apply Hall, in_or_app; now left).
  assert (Hpost : forall p, In p post -> cursor_value h p <> None)
    by (intros p Hp; apply Hall, in_or_app; now right).
  rewrite (resolve_first_complement _ _ _ _ _ Hc Hpre).
  rewrite filter_not_self
    by (intros Hin;
        exact (cursor_value_not_complement _ _ _ _ Hc (Hpost _ Hin) eq_refl)).
  set (h' := update h c (ComplementProbability (Some (pre ++ post)))).
  assert (Hc' : nth_error h' c = Some (ComplementProbability (Some (pre ++ post))))
    by (eapply nth_error_update_same; exact Hc).
  assert (Hcv : forall p, cursor_value h' p = cursor_value h p)
    by (intros p; apply (cursor_value_update_complement _ _ _ _ _ Hc)).
  destruct (cursor_values_exist h' pre) as [vpre Hvpre];
    [intros p Hp; rewrite Hcv; auto|].
  destruct (cursor_values_exist h' post) as [vpost Hvpost];
    [intros p Hp; rewrite Hcv; auto|].
  assert (Hf2 : (2 <= fuel)%nat) by lia.
  assert (Hsum : sum_trans_probs fuel (pre ++ c :: post) h' 0
                 = Ok (fold_left (fun a v => v + a) vpost
                         (1 - fold_left Qplus (vpre ++ vpost) 0
                          + fold_left (fun a v => v + a) vpre 0), h')).
  { rewrite sum_trans_probs_app, (sum_trans_probs_cursor _ _ _ _ Hf2 Hvpre).
    cbn [bind sum_trans_probs].
    destruct fuel as [|fuel]; [lia|].
    rewrite (value_complement _ _ _ _ _ Hc').
    rewrite (sum_values_cursor fuel h' (pre ++ post) (vpre ++ vpost));
      [|lia|apply Forall2_app; assumption].
    cbn [bind].
    apply (sum_trans_probs_cursor _ _ _ _ Hf2 Hvpost). }
  assert (Hone : fold_left (fun a v => v + a) vpost
                   (1 - fold_left Qplus (vpre ++ vpost) 0
                    + fold_left (fun a v => v + a) vpre 0) == 1).
  { rewrite fold_radd, fold_radd. fold (Qsum (vpre ++ vpost)).
    rewrite Qsum_app. ring. }
  exists h'. split; [reflexivity|]. split; [exact Hc'|]. split.
  - eexists. split; [unfold total_prob; rewrite Hsum; reflexivity|exact Hone].
  - unfold check_children. rewrite Hsum. cbn [bind].
    unfold isclose. apply Qeq_bool_iff in Hone. rewrite Hone. reflexivity.
Qed.

Lemma complement_group_passes_sum_check_witness :
  (3 <= 3)%nat /\
  nth_error group_heap 2%nat = Some (ComplementProbability None) /\
  (forall p, In p ([0%nat; 1%nat] ++ []) -> cursor_value group_heap p <> None) /\
  exists h',
    resolve_complement ([0%nat; 1%nat] ++ 2%nat :: []) group_heap = Ok h' /\
    nth_error h' 2%nat
    = Some (ComplementProbability (Some ([0%nat; 1%nat] ++ []))) /\
    (exists total,
        total_prob 3 h' ([0%nat; 1%nat] ++ 2%nat :: []) = Ok total /\
        total == 1) /\
    check_children 3 ([0%nat; 1%nat] ++ 2%nat :: []) h' = Ok h'.
Proof.
  assert (H : forall p, In p ([0%nat; 1%nat] ++ []) ->
                        cursor_value group_heap p <> None).
  { simpl. intros p [<-|[<-|[]]]; discriminate. }
  split; [apply le_n|]. split; [reflexivity|]. split; [exact H|].
  exact (complement_group_passes_sum_check 3 group_heap [0%nat; 1%nat] 2%nat
           None [] (le_n 3) eq_refl H).
Defined.

(** [init_prob] tells only the first complement of a group its siblings (the
    loop breaks there).  With a second complement in the group, which stays
    unset, the sum check of [verify] raises [TypeError]: the first complement
    sums its siblings and the second has none to iterate over. *)
Theorem second_complement_raises_type_error fuel h pre c1 o1 mid c2 post :
  (3 <= fuel)%nat ->
  nth_error h c1 = Some (ComplementProbability o1) ->
  nth_error h c2 = Some (ComplementProbability None) ->
  c1 <> c2 ->
  (forall p, In p (pre ++ mid) -> cursor_value h p <> None) ->
  exists h',
    resolve_complement (pre ++ c1 :: mid ++ c2 :: post) h = Ok h' /\
    nth_error h' c2 = Some (ComplementProbability None) /\
    check_children fuel (pre ++ c1 :: mid ++ c2 :: post) h' = Err TypeError.
Proof.
  intros Hf Hc1 Hc2 Hne Hall.
  assert (Hpre : forall p, In p pre -> cursor_value h p <> None)
    by (intros p Hp; apply Hall, in_or_app; now left).
  assert (Hmid : forall p, In p mid -> cursor_value h p <> None)
    by (intros p Hp; apply Hall, in_or_app; now right).
  rewrite (resolve_first_complement _ _ _ _ _ Hc1 Hpre).
  rewrite filter_app. cbn [filter].
  destruct (Nat.eqb_spec c2 c1) as [E|_]; [congruence|]. cbn [negb].
  rewrite filter_not_self
    by (intros Hin;
        exact (cursor_value_not_complement _ _ _ _ Hc1 (Hmid _ Hin) eq_refl)).
  set (others := pre ++ mid ++ c2 :: filter (fun p => negb (Nat.eqb p c1)) post).
  set (h' := update h c1 (ComplementProbability (Some others))).
  assert (Hc1' : nth_error h' c1 = Some (ComplementProbability (Some others)))
    by (eapply nth_error_update_same; exact Hc1).
  assert (Hc2' : nth_error h' c2 = Some (ComplementProbability None))
    by (unfold h'; rewrite nth_error_update_other by exact Hne; exact Hc2).
  assert (Hcv : forall p, cursor_value h' p = cursor_value h p)
    by (intros p; apply (cursor_value_update_complement _ _ _ _ _ Hc1)).
  destruct (cursor_values_exist h' pre) as [vpre Hvpre];
    [intros p Hp; rewrite Hcv; auto|].
  destruct (cursor_values_exist h' mid) as [vmid Hvmid];
    [intros p Hp; rewrite Hcv; auto|].
  exists h'. split; [reflexivity|]. split; [exact Hc2'|].
  unfold check_children.
  rewrite sum_trans_probs_app,
    (sum_trans_probs_cursor fuel _ _ _ ltac:(lia) Hvpre).
  cbn [bind sum_trans_probs].
  destruct fuel as [|[|fuel]]; try lia.
  rewrite (value_complement _ _ _ _ _ Hc1').
  unfold others.
  rewrite sum_values_app, (sum_values_cursor (S fuel) _ _ _ ltac:(lia) Hvpre).
  cbn [bind].
  rewrite sum_values_app, (sum_values_cursor (S fuel) _ _ _ ltac:(lia) Hvmid).
  cbn [bind sum_values].
  assert (Hv2 : value (S fuel) h' c2 None = Err TypeError)
    by (cbn [value]; now rewrite Hc2').
  rewrite Hv2. reflexivity.
Qed.

Lemma second_complement_raises_type_error_witness :
  (3 <= 3)%nat /\
  nth_error two_complements_heap 1%nat = Some (ComplementProbability None) /\
  nth_error two_complements_heap 2%nat = Some (ComplementProbability None) /\
  1%nat <> 2%nat /\
  (forall p, In p ([0%nat] ++ []) -> cursor_value two_complements_heap p <> None) /\
  exists h',
    resolve_complement ([0%nat] ++ 1%nat :: [] ++ 2%nat :: [])
      two_complements_heap = Ok h' /\
    nth_error h' 2%nat = Some (ComplementProbability None) /\
    check_children 3 ([0%nat] ++ 1%nat :: [] ++ 2%nat :: []) h' = Err TypeError.
Proof.
  assert (H : forall p, In p ([0%nat] ++ []) ->
                        cursor_value two_complements_heap p <> None).
  { simpl. intros p [<-|[]]; discriminate. }
  assert (Hne : 1%nat <> 2%nat) by discriminate.
  split; [apply le_n|]. split; [reflexivity|]. split; [reflexivity|].
  split; [exact Hne|]. split; [exact H|].
  exact (second_complement_raises_type_error 3 two_complements_heap [0%nat]
           1%nat None [] 2%nat [] (le_n 3) eq_refl eq_refl Hne H).
Defined.

(** ** [forward]: the variables passed down and reported *)

Lemma dict_mem_In {V} (d : dict V) k : dict_mem d k = true <-> In k (dict_keys d).
Proof.
  unfold dict_mem. pose proof (dict_get_None_notin d k) as H.
  destruct (dict_get d k) as [v|]; split; intros H1; try discriminate.
  - destruct (in_dec string_dec k (dict_keys d)) as [Hin|Hn]; [exact Hin|].
    apply H in Hn. discriminate.
  - reflexivity.
  - exfalso. now apply (proj1 H).
Qed.

Lemma keys_union_In {V W} (a : dict V) (b : dict W) k :
  In k (keys_union a b) <-> In k (dict_keys a) \/ In k (dict_keys b).
Proof.
  unfold keys_union. rewrite in_app_iff, filter_In. split.
  - intros [H|[H _]]; auto.
  - intros [H|H]; auto.
    destruct (mem_string k (dict_keys a)) eqn:E.
    + left. now apply mem_string_In.
    + right. split; [exact H|reflexivity].
Qed.

Lemma mem_keys_union {V W} (a : dict V) (b : dict W) k :
  mem_string k (keys_union a b) = dict_mem a k || dict_mem b k.
Proof.
  apply eq_true_iff_eq.
  rewrite mem_string_In, keys_union_In, orb_true_iff, !dict_mem_In. tauto.
Qed.

Lemma zero_variables_get vs k :
  dict_get (zero_variables vs) k = if dict_mem vs k then Some 0 else None.
Proof.
  unfold zero_variables. rewrite (fold_dict_set_get (fun _ => 0)).
  replace (mem_string k (dict_keys vs)) with (dict_mem vs k); [reflexivity|].
  apply eq_true_iff_eq. now rewrite mem_string_In, dict_mem_In.
Qed.

(** ** [MarkovState.start] outside a run *)

Lemma slice_short {A} (l : list A) a b :
  (List.length l <= S a)%nat ->
  slice l a b = [] \/ exists x, slice l a b = [x].
Proof.
  intros H. unfold slice.
  assert (Hl : (List.length (skipn a l) <= 1)%nat) by (rewrite length_skipn; lia).
  destruct (skipn a l) as [|x [|y r]]; cbn in Hl; try lia.
  - left. now rewrite firstn_nil.
  - destruct (b - a)%nat as [|[|n]]; cbn; eauto.
Qed.

(** ** [reset] twice *)

Lemma MarkovState_reset_idem s :
  MarkovState_reset (MarkovState_reset s) = MarkovState_reset s.
Proof.
  unfold MarkovState_reset, MarkovState_reset_memory. cbn. f_equal.
  rewrite map_map. apply map_ext. intros n. apply Node_reset_idem.
Qed.

Lemma reset_children_nth ids :
  forall sts sts1,
    reset_children ids sts = Ok sts1 ->
    forall i,
      nth_error sts1 i
      = match nth_error sts i with
        | Some s => Some (if existsb (Nat.eqb i) ids then MarkovState_reset s else s)
        | None => None
        end.
Proof.
  induction ids as [|j ids IH]; intros sts sts1; cbn [reset_children].
  - intros [= <-] i. cbn. now destruct (nth_error sts i).
  - unfold reset_state_at. destruct (nth_error sts j) as [sj|] eqn:Ej;
      [|discriminate]. cbn [bind]. intros H i.
    rewrite (IH _ _ H i). cbn [existsb].
    destruct (Nat.eqb_spec i j) as [->|Hne].
    + rewrite (nth_error_update_same _ _ _ _ Ej), Ej. cbn [orb].
      destruct (existsb (Nat.eqb j) ids); [|reflexivity].
      now rewrite MarkovState_reset_idem.
    + rewrite nth_error_update_other by congruence. reflexivity.
Qed.

Lemma reset_children_fixed ids sts :
  (forall i, In i ids ->
             exists s, nth_error sts i = Some (MarkovState_reset s)) ->
  reset_children ids sts = Ok sts.
Proof.
  induction ids as [|j ids IH]; intros H; [reflexivity|].
  cbn [reset_children]. unfold reset_state_at.
  destruct (H j (or_introl eq_refl)) as [s Hs]. rewrite Hs. cbn [bind].
  rewrite MarkovState_reset_idem, (update_same _ _ _ Hs).
  apply IH. intros i Hi. apply H. now right.
Qed.

Lemma reset_children_in ids sts sts1 i :
  reset_children ids sts = Ok sts1 -> In i ids ->
  exists s, nth_error sts i = Some s.
Proof.
  revert sts. induction ids as [|j ids IH]; intros sts; [contradiction|].
  cbn [reset_children]. unfold reset_state_at.
  destruct (nth_error sts j) as [sj|] eqn:Ej; [|discriminate]. cbn [bind].
  intros H [->|Hi]; [eauto|].
  destruct (IH _ H Hi) as [s Hs].
  destruct (Nat.eq_dec j i) as [->|Hne]; [eauto|].
  rewrite nth_error_update_other in Hs by exact Hne. eauto.
Qed.

(** [reset] on the controller is idempotent: it resets every state the
    controller owns (its history and those of the transitions below it) and
    leaves the other state objects alone, and a second [reset] changes
    nothing more. *)
Theorem reset_twice_is_reset c sts c1 sts1 :
  reset c sts = Ok (c1, sts1) ->
  reset c1 sts1 = Ok (c1, sts1) /\
  forall i s,
    nth_error sts i = Some s ->
    nth_error sts1 i
    = Some (if existsb (Nat.eqb i) (ctrl_children c)
            then MarkovState_reset s else s).
Proof.
  unfold reset. cbn [reset_memory ctrl_children].
  destruct (reset_children (ctrl_children c) sts) as [sts'|e] eqn:E;
    cbn [bind]; [|discriminate].
  intros [= <- <-]. split.
  - cbn [ctrl_children]. rewrite reset_children_fixed; [reflexivity|].
    intros i Hi. destruct (reset_children_in _ _ _ _ E Hi) as [s Hs].
    exists s. rewrite (reset_children_nth _ _ _ E i), Hs.
    assert (Hx : existsb (Nat.eqb i) (ctrl_children c) = true)
      by (apply existsb_exists; exists i; split; [exact Hi|apply Nat.eqb_refl]).
    now rewrite Hx.
  - intros i s Hs. now rewrite (reset_children_nth _ _ _ E i), Hs.
Qed.

Lemma reset_twice_is_reset_witness :
  reset (mkController 5%nat [0%nat] 2 count_half 0 1%nat
           [("A", [1])] [] [] [] [("A", Scalar 1)]) running_store
  = Ok (mkController 5%nat [0%nat] 2 count_half 0 0%nat [] [] [] [] [],
        [mkState "A" 0%nat []
           [StateTransition "a_to_a" 4%nat [] [ChildState 0%nat] [] []] []]) /\
  reset (mkController 5%nat [0%nat] 2 count_half 0 0%nat [] [] [] [] [])
    [mkState "A" 0%nat []
       [StateTransition "a_to_a" 4%nat [] [ChildState 0%nat] [] []] []]
  = Ok (mkController 5%nat [0%nat] 2 count_half 0 0%nat [] [] [] [] [],
        [mkState "A" 0%nat []
           [StateTransition "a_to_a" 4%nat [] [ChildState 0%nat] [] []] []]).
Proof.
  split; [reflexivity|].
  exact (proj1 (reset_twice_is_reset
                  (mkController 5%nat [0%nat] 2 count_half 0 1%nat
                     [("A", [1])] [] [] [] [("A", Scalar 1)])
                  running_store _ _ eq_refl)).
Defined.

(** Where every state is re-entered, [run] returns the tables the controller
    has accumulated, each with one entry per cycle in every column. *)
(** ** The tables [run] returns *)

Lemma run_tables fuel c sts h :
  (3 <= fuel)%nat ->
  ctrl_children c = seq 0 (List.length sts) ->
  unique_names sts ->
  closed_model c sts h = true ->
  reentered c sts ->
  ~ 1 + discount_rate c == 0 ->
  exists c2 sts2 h2,
    run_core fuel c sts h
    = Ok (total_probs c2, total_variables c2, (c2, sts2, h2)) /\
    totals_ok sts (total_cycles c) c2.
Proof.
  intros Hfuel Hch Huniq Hclosed Hre Hrate.
  unfold closed_model in Hclosed. apply andb_true_iff in Hclosed.
  destruct Hclosed as [Hinit Hcl].
  destruct (run_prefix fuel c sts h Hfuel Hch Huniq Hinit Hrate)
    as [c0 [sts1 [h1 [Hrun [Hpre Htot]]]]].
  destruct (cycles_spec fuel sts h Hfuel Huniq (total_cycles c) 0 c0 sts1 h1)
    as [c2 [sts2 [h2 [Hcyc T]]]]; auto.
  { intros t' Ht'. rewrite forallb_forall in Hcl. apply Hcl.
    apply in_seq. lia. }
  exists c2, sts2, h2. split; [|exact T].
  destruct T as [T1 T2 _].
  rewrite Hrun, Hcyc. cbn [bind].
  rewrite (table_ok_from_dict _ _ _ T1), (table_ok_from_dict _ _ _ T2).
  reflexivity.
Qed.

(** The shape of the tables, for the computation of the proofs. *)
Lemma run_core_rows_per_cycle fuel c sts h :
  (3 <= fuel)%nat ->
  ctrl_children c = seq 0 (List.length sts) ->
  unique_names sts ->
  closed_model c sts h = true ->
  reentered c sts ->
  ~ 1 + discount_rate c == 0 ->
  total_cycles c <> O ->
  exists prob_df variable_df w,
    run_core fuel c sts h = Ok (prob_df, variable_df, w) /\
    Permutation (dict_keys prob_df) (state_names sts) /\
    (forall k l, dict_get prob_df k = Some l ->
                 List.length l = total_cycles c) /\
    NoDup (dict_keys variable_df) /\
    (forall k, In k (dict_keys variable_df) <-> In k (all_var_keys sts)) /\
    (forall k l, dict_get variable_df k = Some l ->
                 List.length l = total_cycles c).
Proof.
  intros Hfuel Hch Huniq Hclosed Hre Hrate Hn.
  destruct (run_tables fuel c sts h Hfuel Hch Huniq Hclosed Hre Hrate)
    as [c2 [sts2 [h2 [Hrun [[P1 P2 P3 _] [V1 V2 V3 _] _]]]]].
  exists (total_probs c2), (total_variables c2), (c2, sts2, h2).
  split; [exact Hrun|]. split; [|split; [exact P2|]].
  - apply NoDup_Permutation; [exact P1|exact (proj1 Huniq)|exact (P3 Hn)].
  - split; [exact V1|]. split; [exact (V3 Hn)|exact V2].
Qed.

Lemma landing_unique_names : unique_names landing_store.
Proof.
  split; [|split].
  - repeat constructor; simpl; intuition discriminate.
  - simpl. intuition discriminate.
  - intros s k [<-|[<-|[]]] [<-|[<-|[]]]; reflexivity.
Qed.

(** ** The controller after [run] *)

Lemma start_one_cycle_config fuel sts0 c sts h c1 sts1 h1 :
  same_skeleton sts0 sts ->
  start_one_cycle_core fuel c sts h = Ok (c1, sts1, h1) ->
  config c1 = config c /\ same_skeleton sts0 sts1.
Proof.
  intros Hsk H. unfold start_one_cycle_core in H.
  destruct (send_all_keys fuel sts0 _ _ _ _ _ _ _ Hsk H) as [[K _ _ _] [Hsk1 _]].
  split; [exact K|exact Hsk1].
Qed.

Lemma cycles_clock fuel sts0 n :
  forall c sts h c' sts' h',
    same_skeleton sts0 sts ->
    cycles_core fuel n c sts h = Ok (c', sts', h') ->
    model_time c' = (model_time c + n)%nat /\
    (ctrl_trans_prob c', ctrl_children c', total_cycles c', count_method c',
     discount_rate c')
    = (ctrl_trans_prob c, ctrl_children c, total_cycles c, count_method c,
       discount_rate c) /\
    (cycle_probs c = [] -> cycle_probs c' = []) /\
    (cycle_variables c = [] -> cycle_variables c' = []) /\
    (all_scalar (next_cycle_start_prob c) ->
     all_scalar (next_cycle_start_prob c')) /\
    same_skeleton sts0 sts'.
Proof.
  induction n as [|n IH]; intros c sts h c' sts' h' Hsk H.
  - inversion H; subst. rewrite Nat.add_0_r. repeat split; auto.
  - cbn [cycles_core] in H.
    destruct (start_one_cycle_core fuel c sts h) as [[[c1 sts1] h1]|e] eqn:E;
      [|discriminate].
    cbn [bind] in H.
    destruct (start_one_cycle_config _ _ _ _ _ _ _ _ Hsk E) as [K Hsk1].
    destruct (IH _ _ _ _ _ _ Hsk1 H) as [T [S [P [V [N Hsk2]]]]].
    cbn [end_one_cycle model_time ctrl_trans_prob ctrl_children total_cycles
         count_method discount_rate cycle_probs cycle_variables
         next_cycle_start_prob] in T, S, P, V, N.
    unfold config in K. inversion K as [[K1 K2 K3 K4 K5 K6 K7 K8]].
    split; [rewrite T, K6; lia|].
    split; [rewrite S, K1, K2, K3, K4, K5; reflexivity|].
    split; [intros _; now apply P|]. split; [intros _; now apply V|].
    split; [|exact Hsk2].
    intros _. apply N. intros kv Hin. apply in_map_iff in Hin.
    destruct Hin as [kv0 [<- _]]. cbn [snd]. eauto.
Qed.

Lemma seed_start_probs_scalar fuel l :
  forall h nx nx' h',
    all_scalar nx ->
    seed_start_probs fuel l h nx = Ok (nx', h') ->
    all_scalar nx'.
Proof.
  induction l as [|s l IH]; intros h nx nx' h' Hnx H; cbn [seed_start_probs] in H.
  - now inversion H; subst.
  - destruct (value fuel h (trans_prob s) (Some 0%nat)) as [[v h1]|e];
      [|discriminate].
    cbn [bind] in H. refine (IH _ _ _ _ _ H).
    clear -Hnx. intros kv Hin.
    induction nx as [|[k0 v0] nx IHnx]; cbn [dict_set] in Hin.
    + destruct Hin as [<-|[]]. cbn. eauto.
    + destruct (String.eqb k0 (node_name s)).
      * destruct Hin as [<-|Hin]; [cbn; eauto|].
        apply Hnx. now right.
      * destruct Hin as [<-|Hin]; [apply Hnx; now left|].
        apply IHnx; [|exact Hin]. intros kv' H'. apply Hnx. now right.
Qed.

Lemma DataFrame_from_dict_Ok d df : DataFrame_from_dict d = Ok df -> df = d.
Proof.
  unfold DataFrame_from_dict. destruct d as [|[k l] d]; [now intros [= <-]|].
  destruct (same_lengths _ _); [now intros [= <-]|discriminate].
Qed.

(** The controller after the computation of the proofs. *)
Lemma run_core_ends_at_total_cycles fuel c sts h prob_df variable_df c2 sts2 h2 :
  run_core fuel c sts h = Ok (prob_df, variable_df, (c2, sts2, h2)) ->
  model_time c2 = total_cycles c /\
  (ctrl_children c2, total_cycles c2, count_method c2, discount_rate c2)
  = (ctrl_children c, total_cycles c, count_method c, discount_rate c) /\
  cycle_probs c2 = [] /\ cycle_variables c2 = [] /\
  all_scalar (next_cycle_start_prob c2) /\
  prob_df = total_probs c2 /\ variable_df = total_variables c2.
Proof.
  unfold run_core, reset. intros H.
  destruct (reset_children (ctrl_children (reset_memory c)) sts) as [sts1|e];
    cbn [bind] in H; [|discriminate].
  destruct (get_states (ctrl_children (reset_memory c)) sts1) as [ss|e];
    cbn [bind] in H; [|discriminate].
  destruct (seed_start_probs fuel ss h (next_cycle_start_prob (reset_memory c)))
    as [[nx h1]|e] eqn:Eseed; cbn [bind] in H; [|discriminate].
  destruct (cycles_core fuel (total_cycles (reset_memory c))
              (set_next (reset_memory c) nx) sts1 h1)
    as [[[c3 sts3] h3]|e] eqn:Ecyc; cbn [bind] in H; [|discriminate].
  destruct (DataFrame_from_dict (total_probs c3)) as [p|e] eqn:Ep;
    cbn [bind] in H; [|discriminate].
  destruct (DataFrame_from_dict (total_variables c3)) as [v|e] eqn:Ev;
    cbn [bind] in H; [|discriminate].
  inversion H; subst.
  apply DataFrame_from_dict_Ok in Ep, Ev. subst.
  destruct (cycles_clock fuel sts1 _ _ _ _ _ _ _ (same_skeleton_refl sts1) Ecyc)
    as [T [S [P [V [N _]]]]].
  cbn [set_next reset_memory model_time ctrl_trans_prob ctrl_children
       total_cycles count_method discount_rate cycle_probs cycle_variables
       next_cycle_start_prob] in T, S, P, V, N.
  split; [exact T|]. split; [now inversion S|].
  split; [now apply P|]. split; [now apply V|].
  split; [|split; reflexivity].
  apply N. refine (seed_start_probs_scalar _ _ _ _ _ _ _ Eseed).
  intros kv [].
Qed.

(** ** The probability table is the Markov trace *)

Lemma key_step_refl c k : key_step c c k 0 0.
Proof. constructor; ring. Qed.

Lemma key_step_trans c1 c2 c3 k dP dN dP' dN' :
  key_step c1 c2 k dP dN -> key_step c2 c3 k dP' dN' ->
  key_step c1 c3 k (dP + dP') (dN + dN').
Proof.
  intros [A1 A2] [B1 B2]. constructor.
  - rewrite B1, A1. ring.
  - rewrite B2, A2. ring.
Qed.

Lemma key_step_eq c c' k dP dN dP' dN' :
  key_step c c' k dP dN -> dP == dP' -> dN == dN' ->
  key_step c c' k dP' dN'.
Proof.
  intros [A1 A2] HP HN. constructor.
  - now rewrite <- HP.
  - now rewrite <- HN.
Qed.

Lemma Qsum_one x : Qsum [x] == x.
Proof. unfold Qsum. simpl. ring. Qed.

(** One handled report, under the key [k]. *)
Lemma handle_key c node data key w0 w1 c' k :
  report_key node data = Some key ->
  prob data = [w0; w1] ->
  ctrl_inv c ->
  handle_node_message c node data = Ok c' ->
  key_step c c' k
    (if String.eqb key k then selected (count_method c) w0 w1 else 0)
    (if is_transition node && String.eqb key k then w1 else 0).
Proof.
  intros Hkey Hw [I1 [I2 [I3 [I4 Hr]]]] Hc.
  destruct (handle_node_message_reporter c node data key w0 w1 Hkey Hw Hr
              (fun _ => I4 key)) as [p [nx [_ [Hsel [Hnx Hh]]]]].
  rewrite Hh in Hc. inversion Hc; subst c'. clear Hc Hh.
  constructor; unfold cycle_sum, next_sum;
    cbn [set_cycle set_next cycle_probs next_cycle_start_prob].
  - destruct (String.eqb key k) eqn:E.
    + apply String.eqb_eq in E. subst k.
      rewrite dd_get_append_same, Qsum_snoc, Hsel. reflexivity.
    + apply String.eqb_neq in E. rewrite dd_get_append_other by exact E. ring.
  - destruct (is_transition node); cbn [andb].
    + unfold next_append in Hnx.
      destruct (String.eqb key k) eqn:E.
      * apply String.eqb_eq in E. subst k.
        destruct (dict_get (next_cycle_start_prob c) key) as [[q|l]|];
          inversion Hnx; subst nx; rewrite dict_get_set_same; cbn [np_sum].
        -- rewrite Qsum_snoc. reflexivity.
        -- rewrite Qsum_one. ring.
      * apply String.eqb_neq in E.
        destruct (dict_get (next_cycle_start_prob c) key) as [[q|l]|];
          inversion Hnx; subst nx; rewrite dict_get_set_other by exact E; ring.
    + subst nx. ring.
Qed.

Lemma prob_at_den h t p v : den h t p = Some v -> prob_at h t p = v.
Proof. unfold prob_at. now intros ->. Qed.

Lemma forward_key_transition fuel sts h0 t m k nm p vs ch cum cumv :
  (3 <= fuel)%nat ->
  forward_key fuel sts h0 t m k (StateTransition nm p vs ch cum cumv).
Proof.
  intros Hf ip x iv h c v n' h' c' Hcl Hh Hd Hext Hin Hm Hinv Hfw.
  cbn [closed_node hist_ok Node_trans_prob] in Hcl, Hh, Hd.
  destruct ch as [|[d|] [|? ?]]; try discriminate.
  apply Nat.ltb_lt in Hcl. apply Nat.eqb_eq in Hh.
  destruct (nth_error sts d) as [ds|] eqn:Eds;
    [|apply nth_error_None in Eds; lia].
  destruct (value_den_ext fuel h0 h t p v Hf Hext Hd) as [h1 [Hv [He0 He1]]].
  cbn [Node_forward_core] in Hfw. rewrite Hv in Hfw. cbn [bind] in Hfw.
  rewrite (input_value_reads fuel h1 ip x ltac:(lia)
             (input_reads_ext _ _ _ _ He1 Hin)) in Hfw.
  cbn [bind destination_of] in Hfw. rewrite Eds in Hfw. cbn [bind] in Hfw.
  rewrite (transition_window cum t (x * v) Hh) in Hfw.
  set (n1 := StateTransition nm p vs [ChildState d]
               ((if Nat.eqb t 0 then cum ++ [0] else cum) ++ [x * v]) cumv) in *.
  set (data := mkPayload (Some (node_name ds))
                 [match t with O => 0 | S _ => last cum 0 end; x * v]
                 (merge_variables_dst iv vs (variables ds))) in *.
  destruct (handle_node_message c (ANode n1) data) as [c1|e] eqn:Hc;
    cbn [bind] in Hfw; [|discriminate].
  inversion Hfw; subst n' h' c'. clear Hfw.
  pose proof (handle_key c (ANode n1) data (node_name ds)
                (match t with O => 0 | S _ => last cum 0 end) (x * v) c1 k
                eq_refl eq_refl Hinv Hc) as Hk.
  rewrite Hm in Hk. cbn [is_transition n1 andb] in Hk.
  assert (Hnm : nth_error (state_names sts) d = Some (node_name ds))
    by (unfold state_names; now rewrite nth_error_map, Eds).
  unfold prev_to. cbn [out_to reach n1 leads_to].
  rewrite !Hnm, (prob_at_den _ _ _ _ Hd), last_snoc.
  destruct (String.eqb (node_name ds) k).
  - split; [reflexivity|].
    eapply key_step_eq; [exact Hk| |reflexivity].
    destruct t; reflexivity.
  - split; [ring|].
    eapply key_step_eq; [exact Hk| |ring].
    transitivity (selected m 0 0); [symmetry; apply selected_zero|].
    apply selected_eq; [destruct t; reflexivity|ring].
Qed.

Lemma forward_children_key fuel sts h0 t m k ch :
  (3 <= fuel)%nat ->
  Forall (forward_key fuel sts h0 t m k) ch ->
  forall vs ip x iv h c ch' h' c',
    forallb (closed_node h0 (List.length sts) t) ch = true ->
    forallb (hist_ok t) ch = true ->
    dens h0 t (map Node_trans_prob ch) = Some vs ->
    cursor_ext h0 h ->
    input_reads h ip x ->
    count_method c = m ->
    ctrl_inv c ->
    forward_children_core fuel sts ch t ip iv h c = Ok (ch', h', c') ->
    Qsum (map (out_to (state_names sts) k) ch')
    == x * Qsum (map (reach (state_names sts) h0 t k) ch) /\
    key_step c c' k
      (selected m
         (match t with
          | O => 0
          | S _ => Qsum (map (out_to (state_names sts) k) ch)
          end)
         (x * Qsum (map (reach (state_names sts) h0 t k) ch)))
      (x * Qsum (map (reach (state_names sts) h0 t k) ch)).
Proof.
  intros Hf. induction 1 as [|n ch Hn Hch IH];
    intros vs ip x iv h c ch' h' c' Hcl Hh Hd Hext Hin Hm Hinv Hfw.
  - cbn [forward_children_core] in Hfw. inversion Hfw; subst ch' h' c'.
    cbn [map]. split; [unfold Qsum; simpl; ring|].
    eapply key_step_eq; [apply key_step_refl| |unfold Qsum; simpl; ring].
    transitivity (selected m 0 0); [symmetry; apply selected_zero|].
    apply selected_eq; [destruct t; reflexivity|unfold Qsum; simpl; ring].
  - cbn [map] in Hd. destruct (dens_cons _ _ _ _ _ Hd) as [v [vs' [-> [Hv Hvs]]]].
    cbn [forallb] in Hcl, Hh.
    apply andb_true_iff in Hcl. destruct Hcl as [Hcl1 Hcl2].
    apply andb_true_iff in Hh. destruct Hh as [Hh1 Hh2].
    destruct (forward_ok_all fuel sts h0 t m Hf n ip x iv h c v
                Hcl1 Hh1 Hv Hext Hin Hm Hinv)
      as [n1 [h1 [c1 [Hf1 [He0 [He1 [_ [_ [_ [Hs Hi]]]]]]]]]].
    pose proof (ctrl_step_config _ _ _ _ _ _ _ Hs) as [Hm1 _].
    cbn [forward_children_core] in Hfw. rewrite Hf1 in Hfw. cbn [bind] in Hfw.
    destruct (forward_children_core fuel sts ch t ip iv h1 c1)
      as [[[l1 h2] c2]|e] eqn:Hf2; cbn [bind] in Hfw; [|discriminate].
    inversion Hfw; subst ch' h' c'. clear Hfw.
    destruct (Hn ip x iv h c v n1 h1 c1 Hcl1 Hh1 Hv Hext Hin Hm Hinv Hf1)
      as [Ho1 Hk1].
    destruct (IH vs' ip x iv h1 c1 l1 h2 c2 Hcl2 Hh2 Hvs He0
                (input_reads_ext _ _ _ _ He1 Hin) ltac:(congruence) Hi Hf2)
      as [Ho2 Hk2].
    cbn [map]. split; [rewrite !Qsum_cons, Ho1, Ho2; ring|].
    eapply key_step_eq; [exact (key_step_trans _ _ _ _ _ _ _ _ Hk1 Hk2)| |].
    + rewrite <- selected_plus. apply selected_eq.
      * unfold prev_to. destruct t; [ring|]. rewrite Qsum_cons. reflexivity.
      * rewrite Qsum_cons. ring.
    + rewrite Qsum_cons. ring.
Qed.

Lemma forward_key_all fuel sts h0 t m k :
  (3 <= fuel)%nat -> forall n, forward_key fuel sts h0 t m k n.
Proof.
  intros Hf n.
  induction n as [nm p vs ch IH | nm p vs ch cum cumv] using Node_ind_children;
    [|now apply forward_key_transition].
  intros ip x iv h c v n' h' c' Hcl Hh Hd Hext Hin Hm Hinv Hfw.
  cbn [closed_node hist_ok Node_trans_prob] in Hcl, Hh, Hd.
  apply andb_true_iff in Hcl. destruct Hcl as [Hg Hcl].
  destruct (group_closed_dens _ _ _ Hg) as [vs0 [Hvs Hone]].
  destruct (value_den_ext fuel h0 h t p v Hf Hext Hd) as [h1 [Hv [He0 He1]]].
  rewrite Node_forward_chance, Hv in Hfw. cbn [bind] in Hfw.
  rewrite (input_value_reads fuel h1 ip x ltac:(lia)
             (input_reads_ext _ _ _ _ He1 Hin)) in Hfw.
  cbn [bind] in Hfw.
  destruct (forward_children_core fuel sts ch t (InFloat (x * v))
              (merge_variables iv vs) h1 c) as [[[ch' h2] c2]|e] eqn:Hf2;
    cbn [bind] in Hfw; [|discriminate].
  inversion Hfw; subst n' h' c'. clear Hfw.
  destruct (forward_children_key fuel sts h0 t m k ch Hf IH vs0
              (InFloat (x * v)) (x * v) (merge_variables iv vs) h1 c ch' h2 c2
              Hcl Hh Hvs He0 eq_refl Hm Hinv Hf2) as [Ho Hk].
  unfold prev_to. cbn [out_to reach]. rewrite (prob_at_den _ _ _ _ Hd).
  split; [rewrite Ho; ring|].
  eapply key_step_eq; [exact Hk| |ring].
  apply selected_eq; [destruct t; reflexivity|ring].
Qed.

Lemma reach_reset names h t k n :
  reach names h t k (Node_reset n) = reach names h t k n.
Proof.
  induction n as [nm p vs ch IH | nm p vs ch cum cumv] using Node_ind_children;
    [|reflexivity].
  cbn [Node_reset reach]. f_equal. f_equal. rewrite map_map.
  apply map_ext_in. intros n Hn. rewrite Forall_forall in IH. now apply IH.
Qed.

Lemma MarkovState_start_key fuel sts h0 t m k s x m0 h c s' h' c' :
  (3 <= fuel)%nat ->
  closed_state h0 (List.length sts) t s = true ->
  forallb (hist_ok t) (children s) = true ->
  initial_prob s = history_before t m0 ->
  cursor_ext h0 h ->
  count_method c = m ->
  ctrl_inv c ->
  MarkovState_start_core fuel sts s t x h c = Ok (s', h', c') ->
  state_out_to (state_names sts) k s' == x * transition_prob sts h0 t s k /\
  key_step c c' k
    (selected m
       (match t with
        | O => if String.eqb (node_name s) k then x else 0
        | S _ => state_out_to (state_names sts) k s
        end)
       (x * transition_prob sts h0 t s k))
    (x * transition_prob sts h0 t s k).
Proof.
  intros Hf Hcl Hh Hhist Hext Hm Hinv Hst.
  unfold closed_state in Hcl. apply andb_true_iff in Hcl.
  destruct Hcl as [Hg Hcl].
  destruct (group_closed_dens _ _ _ Hg) as [vs [Hvs Hone]].
  destruct (start_shape s t x m0 Hhist) as [Hwin Hhis].
  unfold MarkovState_start_core in Hst.
  set (s1 := mkState (node_name s) (trans_prob s) (variables s) (children s)
               (start_history s t x)) in *.
  set (w0 := match t with O => x | S _ => 0 end).
  assert (Hwin' : start_window s t x = [w0; 0]) by (destruct t; exact Hwin).
  destruct (handle_step c (AState s1)
              (mkPayload None (start_window s t x) (variables s1))
              (node_name s) w0 0 eq_refl Hwin' Hinv)
    as [c1 [Hc1 [Hs1 Hi1]]].
  pose proof (handle_key c (AState s1)
                (mkPayload None (start_window s t x) (variables s1))
                (node_name s) w0 0 c1 k eq_refl Hwin' Hinv Hc1) as Hk1.
  rewrite Hc1 in Hst. cbn [bind alloc] in Hst.
  pose proof (ctrl_step_config _ _ _ _ _ _ _ Hs1) as [Hm1 _].
  assert (He1 : cursor_ext h0 (h ++ [constant x])).
  { eapply cursor_ext_trans; [exact Hext|].
    apply (cursor_ext_alloc h (constant x)). }
  assert (Hrd : input_reads (h ++ [constant x]) (InObject (List.length h)) x).
  { cbn [input_reads]. unfold constant_at.
    rewrite nth_error_app2 by lia. rewrite Nat.sub_diag. reflexivity. }
  unfold MarkovState_forward_core in Hst. cbn [children trans_prob variables s1] in Hst.
  destruct (forward_children_core fuel sts (children s) t (InObject (List.length h))
              (zero_variables (variables s)) (h ++ [constant x]) c1)
    as [[[ch' h2] c2]|e] eqn:Hf2; cbn [bind] in Hst; [|discriminate].
  inversion Hst; subst s' h' c'. clear Hst.
  destruct (forward_children_key fuel sts h0 t m k (children s) Hf
              ltac:(apply Forall_forall; intros n _; now apply forward_key_all)
              vs (InObject (List.length h)) x (zero_variables (variables s))
              (h ++ [constant x]) c1 ch' h2 c2 Hcl Hh Hvs He1 Hrd
              ltac:(congruence) Hi1 Hf2) as [Ho Hk2].
  unfold state_out_to, transition_prob. cbn [children].
  split; [exact Ho|].
  rewrite Hm in Hk1. cbn [is_transition andb] in Hk1.
  eapply key_step_eq; [exact (key_step_trans _ _ _ _ _ _ _ _ Hk1 Hk2)| |ring].
  set (TP := Qsum (map (reach (state_names sts) h0 t k) (children s))).
  assert (E1 : (if String.eqb (node_name s) k then selected m w0 0 else 0)
               == selected m (if String.eqb (node_name s) k then w0 else 0) 0).
  { destruct (String.eqb (node_name s) k); [reflexivity|].
    symmetry. apply selected_zero. }
  rewrite E1, <- selected_plus. apply selected_eq; [|ring].
  unfold w0. destruct t; [|destruct (String.eqb (node_name s) k)]; ring.
Qed.

Section Trace.

Variable fuel : nat.
Variable sts0 : store.
Variable h0 : heap.
Variable m : CountMethod.
Variable t : nat.
Variable k : string.

Hypothesis Hfuel : (3 <= fuel)%nat.
Hypothesis Huniq : unique_names sts0.
Hypothesis Hclosed :
  forallb (closed_state h0 (List.length sts0) t) sts0 = true.

Lemma transition_prob_skeleton sts s0 s :
  same_skeleton sts0 sts ->
  same_state s0 s ->
  transition_prob sts h0 t s k = transition_prob sts0 h0 t s0 k.
Proof.
  intros Hsk [_ [_ Hc]]. unfold transition_prob.
  rewrite (same_skeleton_names _ _ Hsk).
  now rewrite (skeleton_map _ _ (reach_reset (state_names sts0) h0 t k) _ _ Hc).
Qed.

Lemma send_to_node_key c sts h i s s0 x m0 c' sts' h' :
  ctrl_children c = seq 0 (List.length sts0) ->
  same_skeleton sts0 sts ->
  cursor_ext h0 h ->
  count_method c = m ->
  ctrl_inv c ->
  nth_error sts i = Some s ->
  nth_error sts0 i = Some s0 ->
  forallb (hist_ok t) (children s) = true ->
  initial_prob s = history_before t m0 ->
  send_to_node_core fuel (node_name s) t (Scalar x) c sts h = Ok (c', sts', h') ->
  exists s',
    sts' = update sts i s' /\
    state_out_to (state_names sts0) k s'
    == x * transition_prob sts0 h0 t s0 k /\
    key_step c c' k
      (selected m
         (match t with
          | O => if String.eqb (node_name s) k then x else 0
          | S _ => state_out_to (state_names sts0) k s
          end)
         (x * transition_prob sts0 h0 t s0 k))
      (x * transition_prob sts0 h0 t s0 k).
Proof.
  intros Hc Hsk Hext Hm Hinv Hi Hi0 Hh Hhist Hsend.
  pose proof (unique_names_skeleton _ _ Hsk Huniq) as Hu.
  unfold send_to_node_core in Hsend.
  rewrite (lookup_found c sts (node_name s) i s) in Hsend; auto;
    [|now rewrite (same_skeleton_length _ _ Hsk)].
  cbn [bind] in Hsend. rewrite Hi in Hsend.
  destruct (MarkovState_start_core fuel sts s t x h c) as [[[s' h1] c1]|e] eqn:Hst;
    cbn [bind] in Hsend; [|discriminate].
  inversion Hsend; subst c' sts' h'. clear Hsend.
  destruct (MarkovState_start_key fuel sts h0 t m k s x m0 h c s' h1 c1 Hfuel
              (closed_state_current sts0 h0 t Hclosed sts i s Hsk Hi)
              Hh Hhist Hext Hm Hinv Hst) as [Ho Hk].
  assert (Hss : same_state s0 s).
  { destruct (same_skeleton_nth _ _ _ _ Hsk Hi) as [s0' [Hi0' Hs]].
    rewrite Hi0 in Hi0'. now inversion Hi0'; subst. }
  rewrite (transition_prob_skeleton sts s0 s Hsk Hss) in Ho, Hk.
  rewrite (same_skeleton_names _ _ Hsk) in Ho, Hk.
  exists s'. split; [reflexivity|]. split; [exact Ho|exact Hk].
Qed.

Lemma send_all_key items :
  forall c sts h c' sts' h',
    NoDup (dict_keys items) ->
    (forall k0, In k0 (dict_keys items) -> In k0 (state_names sts0)) ->
    all_scalar items ->
    ctrl_children c = seq 0 (List.length sts0) ->
    same_skeleton sts0 sts ->
    cursor_ext h0 h ->
    count_method c = m ->
    model_time c = t ->
    ctrl_inv c ->
    (forall i s, nth_error sts i = Some s ->
                 In (node_name s) (dict_keys items) ->
                 forallb (hist_ok t) (children s) = true /\
                 exists m0, initial_prob s = history_before t m0) ->
    send_all_core fuel items c sts h = Ok (c', sts', h') ->
    key_step c c' k
      (selected m
         (Qsum (map (item_prev_to t (state_names sts0) sts k) items))
         (Qsum (map (item_flow sts0 h0 t k) items)))
      (Qsum (map (item_flow sts0 h0 t k) items)) /\
    (forall i s', nth_error sts' i = Some s' ->
                  In (node_name s') (dict_keys items) ->
                  exists x,
                    dict_get items (node_name s') = Some (Scalar x) /\
                    state_out_to (state_names sts0) k s'
                    == item_flow sts0 h0 t k (node_name s', Scalar x)).
Proof.
  induction items as [|[k1 v] items IH];
    intros c sts h c' sts' h' Hnd Hnames Hsc Hc Hsk Hext Hm Ht Hinv Hpre H.
  - cbn [send_all_core] in H. inversion H; subst c' sts' h'. split.
    + eapply key_step_eq; [apply key_step_refl| |reflexivity].
      cbn [map]. symmetry. apply selected_zero.
    + intros i s' _ [].
  - cbn [dict_keys map fst] in Hnd, Hnames, Hpre.
    apply NoDup_cons_iff in Hnd. destruct Hnd as [Hnotin Hnd'].
    destruct (Hsc (k1, v) (or_introl eq_refl)) as [x Hx]. cbn [snd] in Hx.
    subst v.
    destruct (state_names_find sts k1) as [i [s [Hi Hn]]].
    { rewrite (same_skeleton_names _ _ Hsk). apply Hnames. now left. }
    destruct (Hpre i s Hi ltac:(left; now rewrite Hn)) as [Hh [m0 Hhist]].
    destruct (same_skeleton_nth _ _ _ _ Hsk Hi) as [s0 [Hi0 Hss]].
    destruct (send_to_node_spec fuel sts0 h0 m t Hfuel Huniq Hclosed
                c sts h i s x m0 Hc Hsk Hext Hm Hinv Hi Hh Hhist)
      as [s' [h1 [c1 [Hsend [He1 [Hsk1 [Hn1 [Hh1 [Hhis1 [Ho1 [Hs1 Hi1]]]]]]]]]]].
    pose proof (ctrl_step_config _ _ _ _ _ _ _ Hs1) as [Hm1 [_ Ht1]].
    assert (Hcc : ctrl_children c1 = ctrl_children c).
    { destruct Hs1 as [A _ _ _ _ _]. unfold config in A. now inversion A. }
    destruct (send_to_node_key c sts h i s s0 x m0 c1 (update sts i s') h1
                Hc Hsk Hext Hm Hinv Hi Hi0 Hh Hhist Hsend)
      as [s'' [Hupd [Hout Hk1]]].
    assert (s'' = s').
    { pose proof (nth_error_update_same sts i s' s Hi) as A.
      rewrite Hupd, (nth_error_update_same sts i s'' s Hi) in A.
      now inversion A. }
    subst s''. clear Hupd.
    cbn [send_all_core] in H. rewrite Ht, <- Hn, Hsend in H. cbn [bind] in H.
    assert (Hother : forall j sj, nth_error (update sts i s') j = Some sj ->
                                  In (node_name sj) (dict_keys items) ->
                                  nth_error sts j = Some sj).
    { intros j sj Hj Hin. destruct (Nat.eq_dec i j) as [<-|Hne].
      - rewrite (nth_error_update_same _ _ _ _ Hi) in Hj. inversion Hj; subst sj.
        exfalso. apply Hnotin. now rewrite <- Hn, <- Hn1.
      - now rewrite nth_error_update_other in Hj by exact Hne. }
    assert (Hpre1 : forall j sj, nth_error (update sts i s') j = Some sj ->
                                 In (node_name sj) (dict_keys items) ->
                                 forallb (hist_ok t) (children sj) = true /\
                                 exists m1, initial_prob sj = history_before t m1).
    { intros j sj Hj Hin. apply (Hpre j sj); [now apply Hother | now right]. }
    destruct (send_all_spec fuel sts0 h0 m t Hfuel Huniq Hclosed items
                c1 (update sts i s') h1 Hnd'
                (fun k0 H => Hnames k0 (or_intror H))
                (fun kv H => Hsc kv (or_intror H))
                ltac:(congruence) Hsk1 He1 ltac:(congruence)
                ltac:(congruence) Hi1 Hpre1)
      as [c2 [sts2 [h2 [Hsend2 [_ [Hsk2 [_ [Hframe _]]]]]]]].
    rewrite Hsend2 in H. inversion H; subst c' sts' h'. clear H.
    destruct (IH c1 (update sts i s') h1 c2 sts2 h2 Hnd'
                (fun k0 H => Hnames k0 (or_intror H))
                (fun kv H => Hsc kv (or_intror H))
                ltac:(congruence) Hsk1 He1 ltac:(congruence)
                ltac:(congruence) Hi1 Hpre1 Hsend2) as [Hk2 Hpost].
    destruct Huniq as [U1 _].
    assert (Hnamed0 : state_named sts0 k1 = Some s0).
    { destruct Hss as [Hn0 _]. rewrite <- Hn, Hn0.
      eapply state_named_nth; eauto. }
    assert (Hflow : item_flow sts0 h0 t k (k1, Scalar x)
                    = x * transition_prob sts0 h0 t s0 k).
    { unfold item_flow. cbn [fst snd np_sum]. now rewrite Hnamed0. }
    split.
    + eapply key_step_eq; [exact (key_step_trans _ _ _ _ _ _ _ _ Hk1 Hk2)| |].
      * assert (E1 : item_prev_to t (state_names sts0) sts k (k1, Scalar x)
                     = match t with
                       | O => if String.eqb (node_name s) k then x else 0
                       | S _ => state_out_to (state_names sts0) k s
                       end).
        { unfold item_prev_to. cbn [fst snd np_sum]. rewrite Hn.
          destruct t; [reflexivity|].
          rewrite <- (same_skeleton_names _ _ Hsk) in U1.
          now rewrite <- Hn, (state_named_nth sts i s U1 Hi). }
        assert (E2 : map (item_prev_to t (state_names sts0) (update sts i s') k)
                       items
                     = map (item_prev_to t (state_names sts0) sts k) items).
        { apply map_ext_in. intros [k' v'] Hin. unfold item_prev_to.
          destruct t; [reflexivity|]. cbn [fst]. unfold state_named.
          rewrite (find_update_other _ sts i s s' Hi); [reflexivity| |].
          - apply String.eqb_neq. intros E. apply Hnotin. rewrite <- Hn, E.
            apply in_map_iff. now exists (k', v').
          - apply String.eqb_neq. intros E. apply Hnotin.
            rewrite <- Hn, <- Hn1, E. apply in_map_iff. now exists (k', v'). }
        rewrite <- selected_plus. cbn [map]. apply selected_eq.
        -- rewrite Qsum_cons, E1, E2. reflexivity.
        -- rewrite Qsum_cons, Hflow. reflexivity.
      * cbn [map]. rewrite Qsum_cons, Hflow. reflexivity.
    + intros j sj Hj [Hin|Hin]; cbn [fst] in Hin.
      * assert (Hsj : nth_error sts2 i = Some s').
        { apply Hframe; [eapply nth_error_update_same; eauto|].
          now rewrite Hn1, Hn. }
        assert (j = i).
        { rewrite <- (same_skeleton_names _ _ Hsk2) in U1.
          apply (proj1 (NoDup_nth_error (state_names sts2)) U1).
          - apply nth_error_Some. rewrite (state_names_nth _ _ _ Hj).
            discriminate.
          - rewrite (state_names_nth _ _ _ Hj), (state_names_nth _ _ _ Hsj).
            congruence. }
        subst j. rewrite Hsj in Hj. inversion Hj; subst sj.
        exists x. split.
        -- cbn [dict_get]. now rewrite Hn1, Hn, String.eqb_refl.
        -- rewrite Hn1, Hn, Hflow. exact Hout.
      * destruct (Hpost j sj Hj Hin) as [y [Hy Hoy]].
        exists y. split; [|exact Hoy].
        cbn [dict_get].
        destruct (String.eqb k1 (node_name sj)) eqn:E; [|exact Hy].
        apply String.eqb_eq in E. exfalso. apply Hnotin. now rewrite E.
Qed.

End Trace.

Lemma Qsum_zero {A} (f : A -> Q) l :
  (forall a, In a l -> f a == 0) -> Qsum (map f l) == 0.
Proof.
  induction l as [|a l IH]; intros H; [reflexivity|].
  cbn [map]. rewrite Qsum_cons, IH, (H a (or_introl eq_refl)); [ring|].
  intros b Hb. apply H. now right.
Qed.

(** Summing what is filed under one key. *)
Lemma Qsum_pick (items : dict StartProb) k :
  NoDup (dict_keys items) ->
  Qsum (map (fun kv => if String.eqb (fst kv) k then np_sum (snd kv) else 0)
          items)
  == match dict_get items k with
     | Some v => np_sum v
     | None => 0
     end.
Proof.
  induction items as [|[k1 v] items IH]; intros Hnd; [reflexivity|].
  cbn [dict_keys map fst] in Hnd. apply NoDup_cons_iff in Hnd.
  destruct Hnd as [Hnotin Hnd].
  cbn [map fst snd dict_get]. rewrite Qsum_cons.
  destruct (String.eqb k1 k) eqn:E.
  - apply String.eqb_eq in E. subst k1.
    rewrite IH by exact Hnd.
    assert (Hg : dict_get items k = None) by now apply dict_get_None_notin.
    rewrite Hg. ring.
  - rewrite IH by exact Hnd. ring.
Qed.

(** Summing over the start masses, one per state, is summing over the
    states. *)
Lemma state_sum_by_items sts (items : dict StartProb) (f : MarkovState -> Q) :
  NoDup (state_names sts) ->
  NoDup (dict_keys items) ->
  (forall k, In k (dict_keys items) <-> In k (state_names sts)) ->
  Qsum (map (fun kv => match state_named sts (fst kv) with
                       | Some s => f s
                       | None => 0
                       end) items)
  == Qsum (map f sts).
Proof.
  intros Hnd Hndi Hk.
  rewrite (Qsum_keys_names items (state_names sts)
             (fun k => match state_named sts k with
                       | Some s => f s
                       | None => 0
                       end) Hndi Hnd Hk).
  unfold state_names. rewrite map_map. apply Qsum_map_eq.
  intros s Hs. apply In_nth_error in Hs. destruct Hs as [i Hi].
  now rewrite (state_named_nth sts i s Hnd Hi).
Qed.

Lemma start_one_cycle_key fuel sts0 h0 t c sts h c1 sts1 h1 :
  (3 <= fuel)%nat ->
  unique_names sts0 ->
  forallb (closed_state h0 (List.length sts0) t) sts0 = true ->
  cycle_pre sts0 h0 t c sts h ->
  trace_pre sts0 h0 t c sts ->
  start_one_cycle_core fuel c sts h = Ok (c1, sts1, h1) ->
  forall k, In k (state_names sts0) ->
    cycle_sum c1 k
    == selected (count_method c) (occupancy sts0 h0 t k)
         (occupancy sts0 h0 (S t) k) /\
    next_sum c1 k == occupancy sts0 h0 (S t) k /\
    Qsum (map (state_out_to (state_names sts0) k) sts1)
    == occupancy sts0 h0 (S t) k.
Proof.
  intros Hfuel Huniq Hclosed [P1 P2 P3 P4 P5 P6 P7 P8 P9 P10 P11 P12 P13]
    [Q1 Q2] Hstart k Hk.
  pose proof Huniq as [U1 _].
  set (items := next_cycle_start_prob c) in *.
  assert (Hinv : ctrl_inv (set_next c [])).
  { unfold ctrl_inv. cbn [set_next cycle_probs next_cycle_start_prob
                            cycle_variables discount_rate].
    rewrite P4, P5. repeat split; try constructor; auto. }
  unfold start_one_cycle_core in Hstart. fold items in Hstart.
  destruct (send_all_spec fuel sts0 h0 (count_method c) t Hfuel Huniq Hclosed
              items (set_next c []) sts h P6
              (fun k H => proj1 (P7 k) H) P8 P1 P10 P13 eq_refl P2 Hinv
              (fun i s Hi _ => P11 i s Hi))
    as [c1' [sts1' [h1' [Hsend [_ [Hsk _]]]]]].
  rewrite Hstart in Hsend. inversion Hsend; subst c1' sts1' h1'. clear Hsend.
  destruct (send_all_key fuel sts0 h0 (count_method c) t k Hfuel Huniq Hclosed
              items (set_next c []) sts h c1 sts1 h1 P6
              (fun k H => proj1 (P7 k) H) P8 P1 P10 P13 eq_refl P2 Hinv
              (fun i s Hi _ => P11 i s Hi) Hstart) as [[K1 K2] Hpost].
  unfold cycle_sum, next_sum in K1, K2.
  cbn [set_next cycle_probs next_cycle_start_prob] in K1, K2.
  rewrite P4 in K1. cbn [dd_get dict_get] in K1, K2.
  assert (Hnames : state_names sts = state_names sts0)
    by now apply same_skeleton_names.
  assert (Hnames1 : state_names sts1 = state_names sts0)
    by now apply same_skeleton_names.
  (* the flow into [k] *)
  assert (HB : Qsum (map (item_flow sts0 h0 t k) items)
               == occupancy sts0 h0 (S t) k).
  { cbn [occupancy].
    rewrite <- (state_sum_by_items sts0 items
                  (fun s => occupancy sts0 h0 t (node_name s)
                            * transition_prob sts0 h0 t s k) U1 P6 P7).
    apply Qsum_map_eq. intros [k1 v] Hin. unfold item_flow. cbn [fst snd].
    assert (Hk1 : In k1 (state_names sts0)).
    { apply P7. apply in_map_iff. now exists (k1, v). }
    destruct (state_names_find sts0 k1 Hk1) as [i [s [Hi Hn]]].
    rewrite <- Hn, (state_named_nth sts0 i s U1 Hi), Hn.
    rewrite (Q1 (k1, v) Hin). reflexivity. }
  (* the occupancy at the start of the cycle *)
  assert (HA : Qsum (map (item_prev_to t (state_names sts0) sts k) items)
               == occupancy sts0 h0 t k).
  { destruct t as [|t'].
    - unfold item_prev_to. rewrite (Qsum_pick items k P6).
      assert (Hin : In k (dict_keys items)) by now apply P7.
      destruct (dict_get_keys_Some items k Hin) as [v Hv]. rewrite Hv.
      apply (Q1 (k, v)). now apply dict_get_Some_In.
    - unfold item_prev_to.
      rewrite (state_sum_by_items sts items
                 (state_out_to (state_names sts0) k)).
      + apply Q2; [discriminate|exact Hk].
      + now rewrite Hnames.
      + exact P6.
      + intros k0. now rewrite Hnames. }
  split; [|split].
  - unfold cycle_sum. rewrite K1.
    assert (E : Qsum [] == 0) by reflexivity. rewrite E, Qplus_0_l.
    apply selected_eq; assumption.
  - unfold next_sum. rewrite K2, HB. ring.
  - rewrite <- HB.
    assert (Hnd1 : NoDup (state_names sts1)) by now rewrite Hnames1.
    assert (Hk1 : forall k0, In k0 (dict_keys items) <-> In k0 (state_names sts1))
      by (intros k0; now rewrite Hnames1).
    rewrite <- (state_sum_by_items sts1 items
                  (state_out_to (state_names sts0) k) Hnd1 P6 Hk1).
    apply Qsum_map_eq. intros [k1 v] Hin. cbn [fst].
    assert (Hkin : In k1 (state_names sts1)).
    { apply Hk1. apply in_map_iff. now exists (k1, v). }
    destruct (state_names_find sts1 k1 Hkin) as [i [s [Hi Hn]]].
    rewrite <- Hn, (state_named_nth sts1 i s Hnd1 Hi).
    destruct (Hpost i s Hi ltac:(rewrite Hn; apply in_map_iff; now exists (k1, v)))
      as [x [Hx Hox]].
    rewrite Hn in Hx, Hox. rewrite (dict_get_In items k1 v P6 Hin) in Hx.
    inversion Hx; subst v. rewrite Hn. exact Hox.
Qed.

Lemma all_dst_names_in sts k :
  In k (all_dst_names sts) -> In k (state_names sts).
Proof.
  unfold all_dst_names. rewrite in_flat_map. intros [s [_ Hin]].
  apply in_flat_map in Hin. destruct Hin as [n [_ Hn]].
  eapply dst_names_in; eauto.
Qed.

Lemma end_one_cycle_trace sts0 h0 m t c c1 :
  trace_table sts0 h0 m t c ->
  cycle_mid sts0 c c1 ->
  (forall k, In k (state_names sts0) ->
             cycle_sum c1 k
             == selected m (occupancy sts0 h0 t k) (occupancy sts0 h0 (S t) k)) ->
  trace_table sts0 h0 m (S t) (end_one_cycle c1).
Proof.
  intros Htab [M1 M2 M3 _ _ _ _ _ _] Hsum k Hk.
  unfold config in M1.
  assert (E7 : total_probs c1 = total_probs c)
    by exact (f_equal (fun x => snd (fst x)) M1).
  destruct (Htab k Hk) as [Hlen Hrows].
  destruct (dict_get_keys_Some (cycle_probs c1) k (proj2 (M3 k) Hk)) as [l Hl].
  cbn [end_one_cycle total_probs].
  rewrite (append_sums_get (total_probs c1) (cycle_probs c1) k l M2 Hl), E7.
  split; [rewrite length_app, Hlen; simpl; lia|].
  intros t' Ht'. destruct (Nat.eq_dec t' t) as [->|Hne].
  - rewrite app_nth2 by lia. rewrite Hlen, Nat.sub_diag. cbn [nth].
    rewrite <- (Hsum k Hk). unfold cycle_sum, dd_get. now rewrite Hl.
  - rewrite app_nth1 by lia. apply Hrows. lia.
Qed.

Lemma end_one_cycle_trace_pre sts0 h0 t c c1 sts1 :
  cycle_mid sts0 c c1 ->
  (forall k, In k (state_names sts0) ->
             next_sum c1 k == occupancy sts0 h0 (S t) k) ->
  (forall k, In k (state_names sts0) ->
             Qsum (map (state_out_to (state_names sts0) k) sts1)
             == occupancy sts0 h0 (S t) k) ->
  trace_pre sts0 h0 (S t) (end_one_cycle c1) sts1.
Proof.
  intros [_ _ _ _ _ _ M7 M8 _] Hnext Hout. split.
  - intros kv Hin. cbn [end_one_cycle next_cycle_start_prob] in Hin.
    apply in_map_iff in Hin. destruct Hin as [[k1 v] [<- Hin]].
    cbn [fst snd np_sum].
    assert (Hk1 : In k1 (state_names sts0)).
    { apply all_dst_names_in. apply M8. apply in_map_iff. now exists (k1, v). }
    rewrite <- (Hnext k1 Hk1). unfold next_sum.
    now rewrite (dict_get_In _ k1 v M7 Hin).
  - intros _. exact Hout.
Qed.

(** [n] cycles from cycle [t] on, along the Markov trace. *)
Lemma cycles_trace fuel sts0 h0 m :
  (3 <= fuel)%nat ->
  unique_names sts0 ->
  forall n t c sts h c' sts' h',
    (forall t', (t <= t' < t + n)%nat ->
                forallb (closed_state h0 (List.length sts0) t') sts0 = true) ->
    ((n <= 1)%nat \/
     forall k, In k (state_names sts0) -> In k (all_dst_names sts0)) ->
    cycle_pre sts0 h0 t c sts h ->
    trace_pre sts0 h0 t c sts ->
    count_method c = m ->
    trace_table sts0 h0 m t c ->
    cycles_core fuel n c sts h = Ok (c', sts', h') ->
    trace_table sts0 h0 m (t + n) c'.
Proof.
  intros Hfuel Huniq.
  induction n as [|n IH];
    intros t c sts h c' sts' h' Hcl HR Hpre Htr Hm Htab Hcyc.
  - cbn [cycles_core] in Hcyc. inversion Hcyc; subst. now rewrite Nat.add_0_r.
  - destruct (start_one_cycle_spec fuel sts0 h0 t c sts h Hfuel Huniq
                (Hcl t ltac:(lia)) Hpre)
      as [c1 [sts1 [h1 [Hstart [Hmid [Hsk [Hh [Ho He]]]]]]]].
    cbn [cycles_core] in Hcyc. rewrite Hstart in Hcyc. cbn [bind] in Hcyc.
    pose proof (start_one_cycle_key fuel sts0 h0 t c sts h c1 sts1 h1 Hfuel
                  Huniq (Hcl t ltac:(lia)) Hpre Htr Hstart) as Hkey.
    rewrite Hm in Hkey.
    assert (Htab1 : trace_table sts0 h0 m (S t) (end_one_cycle c1)).
    { apply (end_one_cycle_trace sts0 h0 m t c c1 Htab Hmid).
      intros k Hk. exact (proj1 (Hkey k Hk)). }
    assert (Hm1 : count_method (end_one_cycle c1) = m).
    { destruct Hmid as [M1 _ _ _ _ _ _ _ _]. unfold config in M1.
      cbn [end_one_cycle count_method]. rewrite <- Hm.
      exact (f_equal (fun x => snd (fst (fst (fst (fst x))))) M1). }
    destruct n as [|n].
    + cbn [cycles_core] in Hcyc. inversion Hcyc; subst.
      now replace (t + 1)%nat with (S t) by lia.
    + assert (HR' : forall k, In k (state_names sts0) ->
                              In k (all_dst_names sts0))
        by (destruct HR as [HR|HR]; [lia | exact HR]).
      assert (Hpre1 : cycle_pre sts0 h0 (S t) (end_one_cycle c1) sts1 h1).
      { apply (end_one_cycle_pre sts0 h0 t c sts h c1 sts1 h1); auto. }
      assert (Htr1 : trace_pre sts0 h0 (S t) (end_one_cycle c1) sts1).
      { apply (end_one_cycle_trace_pre sts0 h0 t c c1 sts1 Hmid).
        - intros k Hk. exact (proj1 (proj2 (Hkey k Hk))).
        - intros k Hk. exact (proj2 (proj2 (Hkey k Hk))). }
      replace (t + S (S n))%nat with (S t + S n)%nat by lia.
      apply (IH (S t) (end_one_cycle c1) sts1 h1 c' sts' h'
               ltac:(intros t' Ht'; apply Hcl; lia)
               (or_intror HR') Hpre1 Htr1 Hm1 Htab1 Hcyc).
Qed.

Lemma seeded_values h l :
  forall vs,
    dens h 0 (map trans_prob l) = Some vs ->
    forall sv, In sv (combine (map MarkovState_reset l) vs) ->
               exists s, In s l /\ fst sv = MarkovState_reset s /\
                         snd sv = prob_at h 0 (trans_prob s).
Proof.
  induction l as [|s l IH]; intros vs Hd sv Hin; [contradiction|].
  cbn [map] in Hd. destruct (dens_cons _ _ _ _ _ Hd) as [v [vs' [-> [Hv Hvs]]]].
  cbn [map combine] in Hin. destruct Hin as [<-|Hin].
  - exists s. split; [now left|]. split; [reflexivity|].
    cbn [snd]. now rewrite (prob_at_den _ _ _ _ Hv).
  - destruct (IH vs' Hvs sv Hin) as [s1 [H1 H2]].
    exists s1. split; [now right|exact H2].
Qed.

(** The start of [run], along the Markov trace. *)
Lemma run_prefix_trace fuel c sts h :
  (3 <= fuel)%nat ->
  ctrl_children c = seq 0 (List.length sts) ->
  unique_names sts ->
  group_closed h 0 (map trans_prob sts) = true ->
  ~ 1 + discount_rate c == 0 ->
  exists c0 sts1 h1,
    run_core fuel c sts h
    = ('(c2, sts2, h2) <- cycles_core fuel (total_cycles c) c0 sts1 h1 ;;
       prob_df <- DataFrame_from_dict (total_probs c2) ;;
       variable_df <- DataFrame_from_dict (total_variables c2) ;;
       Ok (prob_df, variable_df, (c2, sts2, h2))) /\
    cycle_pre sts h 0 c0 sts1 h1 /\
    trace_pre sts h 0 c0 sts1 /\
    count_method c0 = count_method c /\
    total_probs c0 = [].
Proof.
  intros Hfuel Hch Huniq Hinit Hrate.
  destruct (group_closed_dens _ _ _ Hinit) as [vs [Hvs Hone]].
  set (sts1 := map MarkovState_reset sts).
  assert (Hlen1 : List.length sts1 = List.length sts)
    by (unfold sts1; apply length_map).
  assert (Hreset : reset c sts = Ok (reset_memory c, sts1)).
  { unfold reset. cbn [reset_memory ctrl_children]. rewrite Hch.
    pose proof (reset_children_seq sts []) as H.
    cbn [List.length app] in H. rewrite H. reflexivity. }
  assert (Hget : get_states (ctrl_children (reset_memory c)) sts1 = Ok sts1).
  { cbn [reset_memory ctrl_children]. rewrite Hch, <- Hlen1.
    exact (get_states_seq sts1 []). }
  assert (Hprobs : map trans_prob sts1 = map trans_prob sts)
    by (unfold sts1; rewrite map_map; reflexivity).
  assert (Hnames : map node_name sts1 = state_names sts)
    by (unfold sts1, state_names; rewrite map_map; reflexivity).
  pose proof Huniq as [U1 _].
  destruct (seed_start_probs_spec fuel h sts1 Hfuel vs h []
              ltac:(now rewrite Hprobs) (cursor_ext_refl h)
              ltac:(now rewrite Hnames) ltac:(reflexivity))
    as [h1 [Hseed He1]].
  cbn [app] in Hseed.
  assert (Hvl : List.length vs = List.length sts1)
    by (rewrite Hlen1, (dens_length _ _ _ _ Hvs); apply length_map).
  set (c0 := set_next (reset_memory c) (seeded sts1 vs)).
  exists c0, sts1, h1. split; [|split; [|split; [|split; reflexivity]]].
  - unfold run_core. rewrite Hreset. cbn [bind]. rewrite Hget. cbn [bind].
    cbn [reset_memory next_cycle_start_prob]. rewrite Hseed. cbn [bind].
    reflexivity.
  - constructor;
      cbn [c0 set_next reset_memory ctrl_children model_time discount_rate
           cycle_probs cycle_variables next_cycle_start_prob]; auto.
    + rewrite (seeded_keys _ _ Hvl), Hnames. exact U1.
    + intros k. now rewrite (seeded_keys _ _ Hvl), Hnames.
    + intros kv Hin. unfold seeded in Hin. apply in_map_iff in Hin.
      destruct Hin as [sv [<- _]]. cbn [snd]. eauto.
    + now rewrite (seeded_total _ _ Hvl).
    + apply same_skeleton_reset.
    + intros i s Hi. unfold sts1 in Hi. rewrite nth_error_map in Hi.
      destruct (nth_error sts i) as [s0|]; [|discriminate].
      inversion Hi; subst s. cbn. split; [|now exists 0].
      apply forallb_forall. intros n Hn. apply in_map_iff in Hn.
      destruct Hn as [n0 [<- _]]. apply hist_ok_reset.
    + intros H. now elim H.
  - split; [|intros H; now elim H].
    intros kv Hin. cbn [c0 set_next next_cycle_start_prob] in Hin.
    unfold seeded in Hin. apply in_map_iff in Hin.
    destruct Hin as [sv [<- Hsv]]. cbn [fst snd np_sum].
    destruct (seeded_values h sts vs Hvs sv Hsv) as [s [Hs [E1 E2]]].
    rewrite E1, E2. cbn [MarkovState_reset MarkovState_reset_memory node_name].
    cbn [occupancy]. apply In_nth_error in Hs. destruct Hs as [i Hi].
    rewrite (state_named_nth sts i s U1 Hi). reflexivity.
Qed.

(** The Markov trace, for the computation of the proofs. *)
Lemma run_core_markov_trace fuel c sts h :
  (3 <= fuel)%nat ->
  ctrl_children c = seq 0 (List.length sts) ->
  unique_names sts ->
  closed_model c sts h = true ->
  reentered c sts ->
  ~ 1 + discount_rate c == 0 ->
  exists prob_df variable_df w,
    run_core fuel c sts h = Ok (prob_df, variable_df, w) /\
    forall k t,
      In k (state_names sts) -> (t < total_cycles c)%nat ->
      nth t (dd_get prob_df k) 0
      == selected (count_method c) (occupancy sts h t k)
           (occupancy sts h (S t) k).
Proof.
  intros Hfuel Hch Huniq Hclosed Hre Hrate.
  destruct (run_tables fuel c sts h Hfuel Hch Huniq Hclosed Hre Hrate)
    as [c2 [sts2 [h2 [Hrun _]]]].
  exists (total_probs c2), (total_variables c2), (c2, sts2, h2).
  split; [exact Hrun|].
  unfold closed_model in Hclosed. apply andb_true_iff in Hclosed.
  destruct Hclosed as [Hinit Hcl].
  destruct (run_prefix_trace fuel c sts h Hfuel Hch Huniq Hinit Hrate)
    as [c0 [sts1 [h1 [Hrun' [Hpre [Htr [Hm Htp]]]]]]].
  rewrite Hrun' in Hrun.
  destruct (cycles_core fuel (total_cycles c) c0 sts1 h1)
    as [[[c3 sts3] h3]|e] eqn:Hcyc; cbn [bind] in Hrun; [|discriminate].
  destruct (DataFrame_from_dict (total_probs c3)) as [p|e];
    cbn [bind] in Hrun; [|discriminate].
  destruct (DataFrame_from_dict (total_variables c3)) as [v|e];
    cbn [bind] in Hrun; [|discriminate].
  inversion Hrun; subst. clear Hrun.
  assert (Htab0 : trace_table sts h (count_method c) 0 c0).
  { intros k Hk. rewrite Htp. split; [reflexivity|]. intros t' Ht'. lia. }
  pose proof (cycles_trace fuel sts h (count_method c) Hfuel Huniq
                (total_cycles c) 0 c0 sts1 h1 c2 sts2 h2
                ltac:(intros t' Ht'; rewrite forallb_forall in Hcl; apply Hcl;
                      apply in_seq; lia)
                Hre Hpre Htr Hm Htab0 Hcyc) as Htab.
  intros k t Hk Ht. exact (proj2 (Htab k Hk) t Ht).
Qed.

(** ** The table of variables is the discounted expected value *)

Lemma selected_scale m a b k : selected m (a * k) (b * k) == selected m a b * k.
Proof. destruct m; simpl; field. Qed.

Lemma fold_dict_set_NoDup {V} (f : string -> V) keys acc :
  NoDup (dict_keys acc) ->
  NoDup (dict_keys (fold_left (fun out k0 => dict_set out k0 (f k0)) keys acc)).
Proof.
  revert acc. induction keys as [|k keys IH]; intros acc H; [exact H|].
  cbn [fold_left]. apply IH. now apply keys_set_NoDup.
Qed.

Lemma merge_variables_dst_NoDup input own destination :
  NoDup (dict_keys (merge_variables_dst input own destination)).
Proof. unfold merge_variables_dst. apply fold_dict_set_NoDup. constructor. Qed.

Lemma merge_variables_dst_payoff input own destination v :
  dict_get0 (merge_variables_dst input own destination) v
  = payoff v input own destination.
Proof.
  unfold dict_get0, payoff.
  rewrite merge_variables_dst_get, mem_keys_union.
  now destruct (dict_mem input v || dict_mem own v).
Qed.

Lemma var_step_refl D c v : var_step D c c v 0.
Proof. unfold var_step, Qdiv. ring. Qed.

Lemma var_step_trans D c1 c2 c3 v dV dV' :
  var_step D c1 c2 v dV -> var_step D c2 c3 v dV' ->
  var_step D c1 c3 v (dV + dV').
Proof. unfold var_step, Qdiv. intros A B. rewrite B, A. ring. Qed.

Lemma var_step_eq D c c' v dV dV' :
  var_step D c c' v dV -> dV == dV' -> var_step D c c' v dV'.
Proof. unfold var_step. intros A E. now rewrite <- E. Qed.

(** One handled report, under the variable [v]. *)
Lemma handle_var c node data key w0 w1 c' v :
  report_key node data = Some key ->
  prob data = [w0; w1] ->
  ctrl_inv c ->
  NoDup (dict_keys (vars data)) ->
  handle_node_message c node data = Ok c' ->
  var_step (discount_factor c) c c' v
    (dict_get0 (vars data) v * selected (count_method c) w0 w1).
Proof.
  intros Hkey Hw [I1 [I2 [I3 [I4 Hr]]]] Hnd Hc.
  destruct (handle_node_message_reporter c node data key w0 w1 Hkey Hw Hr
              (fun _ => I4 key)) as [p [nx [_ [Hsel [_ Hh]]]]].
  rewrite Hh in Hc. inversion Hc; subst c'. clear Hc Hh.
  unfold var_step, var_sum, discount_factor.
  cbn [set_cycle set_next cycle_variables].
  set (D := (1 + discount_rate c) ^ Z.of_nat (model_time c)).
  change (fold_left _ (vars data) (cycle_variables c))
    with (fold_append (fun x => (x * p) / D) (vars data) (cycle_variables c)).
  unfold dict_get0, dd_get at 1.
  destruct (dict_get (vars data) v) as [x|] eqn:E.
  - rewrite (fold_append_get _ _ _ _ _ _ Hnd E), Qsum_snoc, Hsel. reflexivity.
  - rewrite fold_append_other by (now apply dict_get_None_notin).
    fold (dd_get (cycle_variables c) v). unfold Qdiv. ring.
Qed.

Lemma forward_var_transition fuel sts h0 t m D v nm p vs ch cum cumv :
  (3 <= fuel)%nat ->
  forward_var fuel sts h0 t m D v (StateTransition nm p vs ch cum cumv).
Proof.
  intros Hf ip x iv h c pv n' h' c' Hcl Hh Hd Hext Hin Hm HD Hinv Hfw.
  cbn [closed_node hist_ok Node_trans_prob] in Hcl, Hh, Hd.
  destruct ch as [|[d|] [|? ?]]; try discriminate.
  apply Nat.ltb_lt in Hcl. apply Nat.eqb_eq in Hh.
  destruct (nth_error sts d) as [ds|] eqn:Eds;
    [|apply nth_error_None in Eds; lia].
  destruct (value_den_ext fuel h0 h t p pv Hf Hext Hd) as [h1 [Hv [He0 He1]]].
  cbn [Node_forward_core] in Hfw. rewrite Hv in Hfw. cbn [bind] in Hfw.
  rewrite (input_value_reads fuel h1 ip x ltac:(lia)
             (input_reads_ext _ _ _ _ He1 Hin)) in Hfw.
  cbn [bind destination_of] in Hfw. rewrite Eds in Hfw. cbn [bind] in Hfw.
  rewrite (transition_window cum t (x * pv) Hh) in Hfw.
  set (n1 := StateTransition nm p vs [ChildState d]
               ((if Nat.eqb t 0 then cum ++ [0] else cum) ++ [x * pv]) cumv) in *.
  set (data := mkPayload (Some (node_name ds))
                 [match t with O => 0 | S _ => last cum 0 end; x * pv]
                 (merge_variables_dst iv vs (variables ds))) in *.
  destruct (handle_node_message c (ANode n1) data) as [c1|e] eqn:Hc;
    cbn [bind] in Hfw; [|discriminate].
  inversion Hfw; subst n' h' c'. clear Hfw.
  pose proof (handle_var c (ANode n1) data (node_name ds)
                (match t with O => 0 | S _ => last cum 0 end) (x * pv) c1 v
                eq_refl eq_refl Hinv
                (merge_variables_dst_NoDup iv vs (variables ds)) Hc) as Hk.
  rewrite Hm, HD in Hk. cbn [data vars] in Hk.
  rewrite merge_variables_dst_payoff in Hk.
  assert (Hdv : destination_variables sts [ChildState d] = variables ds).
  { unfold destination_variables. cbn [destination_of]. now rewrite Eds. }
  cbn [out_reward reward n1]. rewrite Hdv, (prob_at_den _ _ _ _ Hd), last_snoc.
  set (P := payoff v iv vs (variables ds)) in *.
  split; [ring|].
  eapply var_step_eq; [exact Hk|].
  rewrite Qmult_comm, <- selected_scale.
  apply selected_eq; [destruct t; ring|ring].
Qed.

Lemma forward_children_var fuel sts h0 t m D v ch :
  (3 <= fuel)%nat ->
  Forall (forward_var fuel sts h0 t m D v) ch ->
  forall vs ip x iv h c ch' h' c',
    forallb (closed_node h0 (List.length sts) t) ch = true ->
    forallb (hist_ok t) ch = true ->
    dens h0 t (map Node_trans_prob ch) = Some vs ->
    cursor_ext h0 h ->
    input_reads h ip x ->
    count_method c = m ->
    discount_factor c = D ->
    ctrl_inv c ->
    forward_children_core fuel sts ch t ip iv h c = Ok (ch', h', c') ->
    Qsum (map (out_reward sts v iv) ch')
    == x * Qsum (map (reward sts h0 t v iv) ch) /\
    var_step D c c' v
      (selected m
         (match t with
          | O => 0
          | S _ => Qsum (map (out_reward sts v iv) ch)
          end)
         (x * Qsum (map (reward sts h0 t v iv) ch))).
Proof.
  intros Hf. induction 1 as [|n ch Hn Hch IH];
    intros vs ip x iv h c ch' h' c' Hcl Hh Hd Hext Hin Hm HD Hinv Hfw.
  - cbn [forward_children_core] in Hfw. inversion Hfw; subst ch' h' c'.
    cbn [map]. split; [unfold Qsum; simpl; ring|].
    eapply var_step_eq; [apply var_step_refl|].
    transitivity (selected m 0 0); [symmetry; apply selected_zero|].
    apply selected_eq; [destruct t; reflexivity|unfold Qsum; simpl; ring].
  - cbn [map] in Hd. destruct (dens_cons _ _ _ _ _ Hd) as [pv [vs' [-> [Hv Hvs]]]].
    cbn [forallb] in Hcl, Hh.
    apply andb_true_iff in Hcl. destruct Hcl as [Hcl1 Hcl2].
    apply andb_true_iff in Hh. destruct Hh as [Hh1 Hh2].
    destruct (forward_ok_all fuel sts h0 t m Hf n ip x iv h c pv
                Hcl1 Hh1 Hv Hext Hin Hm Hinv)
      as [n1 [h1 [c1 [Hf1 [He0 [He1 [_ [_ [_ [Hs Hi]]]]]]]]]].
    pose proof (ctrl_step_config _ _ _ _ _ _ _ Hs) as [Hm1 [Hr1 Ht1]].
    assert (HD1 : discount_factor c1 = D)
      by (unfold discount_factor; rewrite Hr1, Ht1; exact HD).
    cbn [forward_children_core] in Hfw. rewrite Hf1 in Hfw. cbn [bind] in Hfw.
    destruct (forward_children_core fuel sts ch t ip iv h1 c1)
      as [[[l1 h2] c2]|e] eqn:Hf2; cbn [bind] in Hfw; [|discriminate].
    inversion Hfw; subst ch' h' c'. clear Hfw.
    destruct (Hn ip x iv h c pv n1 h1 c1 Hcl1 Hh1 Hv Hext Hin Hm HD Hinv Hf1)
      as [Ho1 Hk1].
    destruct (IH vs' ip x iv h1 c1 l1 h2 c2 Hcl2 Hh2 Hvs He0
                (input_reads_ext _ _ _ _ He1 Hin) ltac:(congruence) HD1 Hi Hf2)
      as [Ho2 Hk2].
    cbn [map]. split; [rewrite !Qsum_cons, Ho1, Ho2; ring|].
    eapply var_step_eq; [exact (var_step_trans _ _ _ _ _ _ _ Hk1 Hk2)|].
    rewrite <- selected_plus. apply selected_eq.
    + destruct t; [ring|]. rewrite Qsum_cons. reflexivity.
    + rewrite Qsum_cons. ring.
Qed.

Lemma forward_var_all fuel sts h0 t m D v :
  (3 <= fuel)%nat -> forall n, forward_var fuel sts h0 t m D v n.
Proof.
  intros Hf n.
  induction n as [nm p vs ch IH | nm p vs ch cum cumv] using Node_ind_children;
    [|now apply forward_var_transition].
  intros ip x iv h c pv n' h' c' Hcl Hh Hd Hext Hin Hm HD Hinv Hfw.
  cbn [closed_node hist_ok Node_trans_prob] in Hcl, Hh, Hd.
  apply andb_true_iff in Hcl. destruct Hcl as [Hg Hcl].
  destruct (group_closed_dens _ _ _ Hg) as [vs0 [Hvs Hone]].
  destruct (value_den_ext fuel h0 h t p pv Hf Hext Hd) as [h1 [Hv [He0 He1]]].
  rewrite Node_forward_chance, Hv in Hfw. cbn [bind] in Hfw.
  rewrite (input_value_reads fuel h1 ip x ltac:(lia)
             (input_reads_ext _ _ _ _ He1 Hin)) in Hfw.
  cbn [bind] in Hfw.
  destruct (forward_children_core fuel sts ch t (InFloat (x * pv))
              (merge_variables iv vs) h1 c) as [[[ch' h2] c2]|e] eqn:Hf2;
    cbn [bind] in Hfw; [|discriminate].
  inversion Hfw; subst n' h' c'. clear Hfw.
  destruct (forward_children_var fuel sts h0 t m D v ch Hf IH vs0
              (InFloat (x * pv)) (x * pv) (merge_variables iv vs) h1 c ch' h2 c2
              Hcl Hh Hvs He0 eq_refl Hm HD Hinv Hf2) as [Ho Hk].
  cbn [out_reward reward]. rewrite (prob_at_den _ _ _ _ Hd).
  split; [rewrite Ho; ring|].
  eapply var_step_eq; [exact Hk|].
  apply selected_eq; [destruct t; reflexivity|ring].
Qed.

Lemma destination_variables_skeleton sts0 sts ch :
  same_skeleton sts0 sts ->
  destination_variables sts ch = destination_variables sts0 ch.
Proof.
  intros Hsk. unfold destination_variables.
  destruct ch as [|[d|] ch]; try reflexivity. cbn [destination_of].
  destruct (nth_error sts d) as [s|] eqn:E.
  - destruct (same_skeleton_nth _ _ _ _ Hsk E) as [s0 [-> [_ [Hv _]]]].
    exact Hv.
  - apply nth_error_None in E. rewrite (same_skeleton_length _ _ Hsk) in E.
    apply nth_error_None in E. now rewrite E.
Qed.

Lemma reward_skeleton sts0 sts h t v n :
  same_skeleton sts0 sts ->
  forall iv, reward sts h t v iv n = reward sts0 h t v iv n.
Proof.
  intros Hsk.
  induction n as [nm p vs ch IH | nm p vs ch cum cumv] using Node_ind_children;
    intros iv; cbn [reward].
  - f_equal. f_equal. apply map_ext_in. intros n Hn.
    rewrite Forall_forall in IH. now apply IH.
  - now rewrite (destination_variables_skeleton _ _ _ Hsk).
Qed.

Lemma out_reward_skeleton sts0 sts v n :
  same_skeleton sts0 sts ->
  forall iv, out_reward sts v iv n = out_reward sts0 v iv n.
Proof.
  intros Hsk.
  induction n as [nm p vs ch IH | nm p vs ch cum cumv] using Node_ind_children;
    intros iv; cbn [out_reward].
  - f_equal. apply map_ext_in. intros n Hn.
    rewrite Forall_forall in IH. now apply IH.
  - now rewrite (destination_variables_skeleton _ _ _ Hsk).
Qed.

Lemma reward_reset sts h t v n :
  forall iv, reward sts h t v iv (Node_reset n) = reward sts h t v iv n.
Proof.
  induction n as [nm p vs ch IH | nm p vs ch cum cumv] using Node_ind_children;
    intros iv; [|reflexivity].
  cbn [Node_reset reward]. f_equal. f_equal. rewrite map_map.
  apply map_ext_in. intros n Hn. rewrite Forall_forall in IH. now apply IH.
Qed.

Lemma state_reward_skeleton sts0 sts h t v s0 s :
  same_skeleton sts0 sts ->
  same_state s0 s ->
  state_reward sts h t v s = state_reward sts0 h t v s0.
Proof.
  intros Hsk [_ [Hv Hc]]. unfold state_reward. rewrite Hv.
  rewrite (skeleton_map _ _ (fun n => reward_reset sts h t v n
                                        (zero_variables (variables s0)))
             _ _ Hc).
  f_equal. apply map_ext. intros n. now apply reward_skeleton.
Qed.

Lemma state_out_reward_skeleton sts0 sts v s :
  same_skeleton sts0 sts ->
  state_out_reward sts v s = state_out_reward sts0 v s.
Proof.
  intros Hsk. unfold state_out_reward. f_equal. apply map_ext. intros n.
  now apply out_reward_skeleton.
Qed.

Lemma MarkovState_start_var fuel sts h0 t m D v s x m0 h c s' h' c' :
  (3 <= fuel)%nat ->
  closed_state h0 (List.length sts) t s = true ->
  forallb (hist_ok t) (children s) = true ->
  initial_prob s = history_before t m0 ->
  NoDup (dict_keys (variables s)) ->
  cursor_ext h0 h ->
  count_method c = m ->
  discount_factor c = D ->
  ctrl_inv c ->
  MarkovState_start_core fuel sts s t x h c = Ok (s', h', c') ->
  variables s' = variables s /\
  state_out_reward sts v s' == x * state_reward sts h0 t v s /\
  var_step D c c' v
    (selected m
       (match t with
        | O => x * dict_get0 (variables s) v
        | S _ => state_out_reward sts v s
        end)
       (x * state_reward sts h0 t v s)).
Proof.
  intros Hf Hcl Hh Hhist Hnd Hext Hm HD Hinv Hst.
  unfold closed_state in Hcl. apply andb_true_iff in Hcl.
  destruct Hcl as [Hg Hcl].
  destruct (group_closed_dens _ _ _ Hg) as [vs [Hvs Hone]].
  destruct (start_shape s t x m0 Hhist) as [Hwin Hhis].
  unfold MarkovState_start_core in Hst.
  set (s1 := mkState (node_name s) (trans_prob s) (variables s) (children s)
               (start_history s t x)) in *.
  set (w0 := match t with O => x | S _ => 0 end).
  assert (Hwin' : start_window s t x = [w0; 0]) by (destruct t; exact Hwin).
  destruct (handle_step c (AState s1)
              (mkPayload None (start_window s t x) (variables s1))
              (node_name s) w0 0 eq_refl Hwin' Hinv)
    as [c1 [Hc1 [Hs1 Hi1]]].
  pose proof (handle_var c (AState s1)
                (mkPayload None (start_window s t x) (variables s1))
                (node_name s) w0 0 c1 v eq_refl Hwin' Hinv Hnd Hc1) as Hk1.
  rewrite Hc1 in Hst. cbn [bind alloc] in Hst.
  pose proof (ctrl_step_config _ _ _ _ _ _ _ Hs1) as [Hm1 [Hr1 Ht1]].
  assert (HD1 : discount_factor c1 = D)
    by (unfold discount_factor; rewrite Hr1, Ht1; exact HD).
  assert (He1 : cursor_ext h0 (h ++ [constant x])).
  { eapply cursor_ext_trans; [exact Hext|].
    apply (cursor_ext_alloc h (constant x)). }
  assert (Hrd : input_reads (h ++ [constant x]) (InObject (List.length h)) x).
  { cbn [input_reads]. unfold constant_at.
    rewrite nth_error_app2 by lia. rewrite Nat.sub_diag. reflexivity. }
  unfold MarkovState_forward_core in Hst. cbn [children trans_prob variables s1] in Hst.
  destruct (forward_children_core fuel sts (children s) t (InObject (List.length h))
              (zero_variables (variables s)) (h ++ [constant x]) c1)
    as [[[ch' h2] c2]|e] eqn:Hf2; cbn [bind] in Hst; [|discriminate].
  inversion Hst; subst s' h' c'. clear Hst.
  destruct (forward_children_var fuel sts h0 t m D v (children s) Hf
              ltac:(apply Forall_forall; intros n _; now apply forward_var_all)
              vs (InObject (List.length h)) x (zero_variables (variables s))
              (h ++ [constant x]) c1 ch' h2 c2 Hcl Hh Hvs He1 Hrd
              ltac:(congruence) HD1 Hi1 Hf2) as [Ho Hk2].
  unfold state_out_reward, state_reward. cbn [children variables].
  split; [reflexivity|]. split; [exact Ho|].
  rewrite Hm, HD in Hk1. cbn [vars s1 variables] in Hk1.
  eapply var_step_eq; [exact (var_step_trans _ _ _ _ _ _ _ Hk1 Hk2)|].
  unfold w0. destruct t, m; simpl; field.
Qed.

Section Rewards.

Variable fuel : nat.
Variable sts0 : store.
Variable h0 : heap.
Variable m : CountMethod.
Variable D : Q.
Variable t : nat.
Variable v : string.

Hypothesis Hfuel : (3 <= fuel)%nat.
Hypothesis Huniq : unique_names sts0.
Hypothesis Hdistinct : distinct_variables sts0.
Hypothesis Hclosed :
  forallb (closed_state h0 (List.length sts0) t) sts0 = true.

Lemma send_to_node_var c sts h i s s0 x m0 c' sts' h' :
  ctrl_children c = seq 0 (List.length sts0) ->
  same_skeleton sts0 sts ->
  cursor_ext h0 h ->
  count_method c = m ->
  discount_factor c = D ->
  ctrl_inv c ->
  nth_error sts i = Some s ->
  nth_error sts0 i = Some s0 ->
  forallb (hist_ok t) (children s) = true ->
  initial_prob s = history_before t m0 ->
  send_to_node_core fuel (node_name s) t (Scalar x) c sts h = Ok (c', sts', h') ->
  exists s',
    sts' = update sts i s' /\
    state_out_reward sts0 v s' == x * state_reward sts0 h0 t v s0 /\
    var_step D c c' v
      (selected m
         (match t with
          | O => x * dict_get0 (variables s) v
          | S _ => state_out_reward sts0 v s
          end)
         (x * state_reward sts0 h0 t v s0)).
Proof.
  intros Hc Hsk Hext Hm HD Hinv Hi Hi0 Hh Hhist Hsend.
  pose proof (unique_names_skeleton _ _ Hsk Huniq) as Hu.
  unfold send_to_node_core in Hsend.
  rewrite (lookup_found c sts (node_name s) i s) in Hsend; auto;
    [|now rewrite (same_skeleton_length _ _ Hsk)].
  cbn [bind] in Hsend. rewrite Hi in Hsend.
  destruct (MarkovState_start_core fuel sts s t x h c) as [[[s' h1] c1]|e] eqn:Hst;
    cbn [bind] in Hsend; [|discriminate].
  inversion Hsend; subst c' sts' h'. clear Hsend.
  assert (Hss : same_state s0 s).
  { destruct (same_skeleton_nth _ _ _ _ Hsk Hi) as [s0' [Hi0' Hs]].
    rewrite Hi0 in Hi0'. now inversion Hi0'; subst. }
  assert (Hnd : NoDup (dict_keys (variables s))).
  { destruct Hss as [_ [Hv _]]. rewrite Hv. apply Hdistinct.
    eapply nth_error_In; eauto. }
  destruct (MarkovState_start_var fuel sts h0 t m D v s x m0 h c s' h1 c1 Hfuel
              (closed_state_current sts0 h0 t Hclosed sts i s Hsk Hi)
              Hh Hhist Hnd Hext Hm HD Hinv Hst) as [_ [Ho Hk]].
  rewrite (state_reward_skeleton sts0 sts h0 t v s0 s Hsk Hss) in Ho, Hk.
  rewrite (state_out_reward_skeleton sts0 sts v s' Hsk) in Ho.
  rewrite (state_out_reward_skeleton sts0 sts v s Hsk) in Hk.
  exists s'. split; [reflexivity|]. split; [exact Ho|exact Hk].
Qed.

Lemma send_all_var items :
  forall c sts h c' sts' h',
    NoDup (dict_keys items) ->
    (forall k0, In k0 (dict_keys items) -> In k0 (state_names sts0)) ->
    all_scalar items ->
    ctrl_children c = seq 0 (List.length sts0) ->
    same_skeleton sts0 sts ->
    cursor_ext h0 h ->
    count_method c = m ->
    discount_factor c = D ->
    model_time c = t ->
    ctrl_inv c ->
    (forall i s, nth_error sts i = Some s ->
                 In (node_name s) (dict_keys items) ->
                 forallb (hist_ok t) (children s) = true /\
                 exists m0, initial_prob s = history_before t m0) ->
    send_all_core fuel items c sts h = Ok (c', sts', h') ->
    var_step D c c' v
      (selected m
         (Qsum (map (item_entry_reward t sts0 sts v) items))
         (Qsum (map (item_reward sts0 h0 t v) items))) /\
    (forall i s', nth_error sts' i = Some s' ->
                  In (node_name s') (dict_keys items) ->
                  exists x,
                    dict_get items (node_name s') = Some (Scalar x) /\
                    state_out_reward sts0 v s'
                    == item_reward sts0 h0 t v (node_name s', Scalar x)).
Proof.
  induction items as [|[k1 w] items IH];
    intros c sts h c' sts' h' Hnd Hnames Hsc Hc Hsk Hext Hm HD Ht Hinv Hpre H.
  - cbn [send_all_core] in H. inversion H; subst c' sts' h'. split.
    + eapply var_step_eq; [apply var_step_refl|].
      cbn [map]. symmetry. apply selected_zero.
    + intros i s' _ [].
  - cbn [dict_keys map fst] in Hnd, Hnames, Hpre.
    apply NoDup_cons_iff in Hnd. destruct Hnd as [Hnotin Hnd'].
    destruct (Hsc (k1, w) (or_introl eq_refl)) as [x Hx]. cbn [snd] in Hx.
    subst w.
    destruct (state_names_find sts k1) as [i [s [Hi Hn]]].
    { rewrite (same_skeleton_names _ _ Hsk). apply Hnames. now left. }
    destruct (Hpre i s Hi ltac:(left; now rewrite Hn)) as [Hh [m0 Hhist]].
    destruct (same_skeleton_nth _ _ _ _ Hsk Hi) as [s0 [Hi0 Hss]].
    destruct (send_to_node_spec fuel sts0 h0 m t Hfuel Huniq Hclosed
                c sts h i s x m0 Hc Hsk Hext Hm Hinv Hi Hh Hhist)
      as [s' [h1 [c1 [Hsend [He1 [Hsk1 [Hn1 [Hh1 [Hhis1 [Ho1 [Hs1 Hi1]]]]]]]]]]].
    pose proof (ctrl_step_config _ _ _ _ _ _ _ Hs1) as [Hm1 [Hr1 Ht1]].
    assert (HD1 : discount_factor c1 = D)
      by (unfold discount_factor; rewrite Hr1, Ht1; exact HD).
    assert (Hcc : ctrl_children c1 = ctrl_children c).
    { destruct Hs1 as [A _ _ _ _ _]. unfold config in A. now inversion A. }
    destruct (send_to_node_var c sts h i s s0 x m0 c1 (update sts i s') h1
                Hc Hsk Hext Hm HD Hinv Hi Hi0 Hh Hhist Hsend)
      as [s'' [Hupd [Hout Hk1]]].
    assert (s'' = s').
    { pose proof (nth_error_update_same sts i s' s Hi) as A.
      rewrite Hupd, (nth_error_update_same sts i s'' s Hi) in A.
      now inversion A. }
    subst s''. clear Hupd.
    cbn [send_all_core] in H. rewrite Ht, <- Hn, Hsend in H. cbn [bind] in H.
    assert (Hother : forall j sj, nth_error (update sts i s') j = Some sj ->
                                  In (node_name sj) (dict_keys items) ->
                                  nth_error sts j = Some sj).
    { intros j sj Hj Hin. destruct (Nat.eq_dec i j) as [<-|Hne].
      - rewrite (nth_error_update_same _ _ _ _ Hi) in Hj. inversion Hj; subst sj.
        exfalso. apply Hnotin. now rewrite <- Hn, <- Hn1.
      - now rewrite nth_error_update_other in Hj by exact Hne. }
    assert (Hpre1 : forall j sj, nth_error (update sts i s') j = Some sj ->
                                 In (node_name sj) (dict_keys items) ->
                                 forallb (hist_ok t) (children sj) = true /\
                                 exists m1, initial_prob sj = history_before t m1).
    { intros j sj Hj Hin. apply (Hpre j sj); [now apply Hother | now right]. }
    destruct (send_all_spec fuel sts0 h0 m t Hfuel Huniq Hclosed items
                c1 (update sts i s') h1 Hnd'
                (fun k0 H => Hnames k0 (or_intror H))
                (fun kv H => Hsc kv (or_intror H))
                ltac:(congruence) Hsk1 He1 ltac:(congruence)
                ltac:(congruence) Hi1 Hpre1)
      as [c2 [sts2 [h2 [Hsend2 [_ [Hsk2 [_ [Hframe _]]]]]]]].
    rewrite Hsend2 in H. inversion H; subst c' sts' h'. clear H.
    destruct (IH c1 (update sts i s') h1 c2 sts2 h2 Hnd'
                (fun k0 H => Hnames k0 (or_intror H))
                (fun kv H => Hsc kv (or_intror H))
                ltac:(congruence) Hsk1 He1 ltac:(congruence) HD1
                ltac:(congruence) Hi1 Hpre1 Hsend2) as [Hk2 Hpost].
    destruct Huniq as [U1 _].
    assert (Hnamed0 : state_named sts0 k1 = Some s0).
    { destruct Hss as [Hn0 _]. rewrite <- Hn, Hn0.
      eapply state_named_nth; eauto. }
    assert (Hflow : item_reward sts0 h0 t v (k1, Scalar x)
                    = x * state_reward sts0 h0 t v s0).
    { unfold item_reward. cbn [fst snd np_sum]. now rewrite Hnamed0. }
    split.
    + eapply var_step_eq; [exact (var_step_trans _ _ _ _ _ _ _ Hk1 Hk2)|].
      assert (E1 : item_entry_reward t sts0 sts v (k1, Scalar x)
                   = match t with
                     | O => x * dict_get0 (variables s) v
                     | S _ => state_out_reward sts0 v s
                     end).
      { unfold item_entry_reward. cbn [fst snd np_sum].
        rewrite <- (same_skeleton_names _ _ Hsk) in U1.
        now rewrite <- Hn, (state_named_nth sts i s U1 Hi). }
      assert (E2 : map (item_entry_reward t sts0 (update sts i s') v) items
                   = map (item_entry_reward t sts0 sts v) items).
      { apply map_ext_in. intros [k' w'] Hin. unfold item_entry_reward.
        cbn [fst]. unfold state_named.
        rewrite (find_update_other _ sts i s s' Hi); [reflexivity| |].
        - apply String.eqb_neq. intros E. apply Hnotin. rewrite <- Hn, E.
          apply in_map_iff. now exists (k', w').
        - apply String.eqb_neq. intros E. apply Hnotin.
          rewrite <- Hn, <- Hn1, E. apply in_map_iff. now exists (k', w'). }
      rewrite <- selected_plus. cbn [map]. apply selected_eq.
      * rewrite Qsum_cons, E1, E2. reflexivity.
      * rewrite Qsum_cons, Hflow. reflexivity.
    + intros j sj Hj [Hin|Hin]; cbn [fst] in Hin.
      * assert (Hsj : nth_error sts2 i = Some s').
        { apply Hframe; [eapply nth_error_update_same; eauto|].
          now rewrite Hn1, Hn. }
        assert (j = i).
        { rewrite <- (same_skeleton_names _ _ Hsk2) in U1.
          apply (proj1 (NoDup_nth_error (state_names sts2)) U1).
          - apply nth_error_Some. rewrite (state_names_nth _ _ _ Hj).
            discriminate.
          - rewrite (state_names_nth _ _ _ Hj), (state_names_nth _ _ _ Hsj).
            congruence. }
        subst j. rewrite Hsj in Hj. inversion Hj; subst sj.
        exists x. split.
        -- cbn [dict_get]. now rewrite Hn1, Hn, String.eqb_refl.
        -- rewrite Hn1, Hn, Hflow. exact Hout.
      * destruct (Hpost j sj Hj Hin) as [y [Hy Hoy]].
        exists y. split; [|exact Hoy].
        cbn [dict_get].
        destruct (String.eqb k1 (node_name sj)) eqn:E; [|exact Hy].
        apply String.eqb_eq in E. exfalso. apply Hnotin. now rewrite E.
Qed.

End Rewards.

Lemma start_one_cycle_var fuel sts0 h0 t c sts h c1 sts1 h1 v :
  (3 <= fuel)%nat ->
  unique_names sts0 ->
  distinct_variables sts0 ->
  forallb (closed_state h0 (List.length sts0) t) sts0 = true ->
  cycle_pre sts0 h0 t c sts h ->
  trace_pre sts0 h0 t c sts ->
  reward_pre sts0 h0 t v sts ->
  start_one_cycle_core fuel c sts h = Ok (c1, sts1, h1) ->
  var_sum c1 v
  == selected (count_method c) (entry_reward sts0 h0 t v)
       (cycle_reward sts0 h0 t v)
     / (1 + discount_rate c) ^ Z.of_nat t /\
  Qsum (map (state_out_reward sts0 v) sts1) == cycle_reward sts0 h0 t v.
Proof.
  intros Hfuel Huniq Hdist Hclosed
    [P1 P2 P3 P4 P5 P6 P7 P8 P9 P10 P11 P12 P13] [Q1 Q2] HR Hstart.
  pose proof Huniq as [U1 _].
  set (items := next_cycle_start_prob c) in *.
  assert (Hinv : ctrl_inv (set_next c [])).
  { unfold ctrl_inv. cbn [set_next cycle_probs next_cycle_start_prob
                            cycle_variables discount_rate].
    rewrite P4, P5. repeat split; try constructor; auto. }
  assert (HD : discount_factor (set_next c [])
               = (1 + discount_rate c) ^ Z.of_nat t).
  { unfold discount_factor. cbn [set_next discount_rate model_time].
    now rewrite P2. }
  unfold start_one_cycle_core in Hstart. fold items in Hstart.
  destruct (send_all_spec fuel sts0 h0 (count_method c) t Hfuel Huniq Hclosed
              items (set_next c []) sts h P6
              (fun k H => proj1 (P7 k) H) P8 P1 P10 P13 eq_refl P2 Hinv
              (fun i s Hi _ => P11 i s Hi))
    as [c1' [sts1' [h1' [Hsend [_ [Hsk _]]]]]].
  rewrite Hstart in Hsend. inversion Hsend; subst c1' sts1' h1'. clear Hsend.
  destruct (send_all_var fuel sts0 h0 (count_method c)
              ((1 + discount_rate c) ^ Z.of_nat t) t v Hfuel Huniq Hdist
              Hclosed items (set_next c []) sts h c1 sts1 h1 P6
              (fun k H => proj1 (P7 k) H) P8 P1 P10 P13 eq_refl HD P2 Hinv
              (fun i s Hi _ => P11 i s Hi) Hstart) as [K Hpost].
  unfold var_step, var_sum in K. cbn [set_next cycle_variables] in K.
  rewrite P5 in K. cbn [dd_get dict_get] in K.
  assert (Hnames : state_names sts = state_names sts0)
    by now apply same_skeleton_names.
  assert (Hnames1 : state_names sts1 = state_names sts0)
    by now apply same_skeleton_names.
  (* what the transitions of the cycle report *)
  assert (HB : Qsum (map (item_reward sts0 h0 t v) items)
               == cycle_reward sts0 h0 t v).
  { unfold cycle_reward.
    rewrite <- (state_sum_by_items sts0 items
                  (fun s => occupancy sts0 h0 t (node_name s)
                            * state_reward sts0 h0 t v s) U1 P6 P7).
    apply Qsum_map_eq. intros [k1 w] Hin. unfold item_reward. cbn [fst snd].
    assert (Hk1 : In k1 (state_names sts0)).
    { apply P7. apply in_map_iff. now exists (k1, w). }
    destruct (state_names_find sts0 k1 Hk1) as [i [s [Hi Hn]]].
    rewrite <- Hn, (state_named_nth sts0 i s U1 Hi), Hn.
    rewrite (Q1 (k1, w) Hin). reflexivity. }
  (* the value at the start of the cycle *)
  assert (HA : Qsum (map (item_entry_reward t sts0 sts v) items)
               == entry_reward sts0 h0 t v).
  { destruct t as [|t'].
    - cbn [entry_reward].
      rewrite <- (state_sum_by_items sts0 items
                    (fun s => occupancy sts0 h0 0 (node_name s)
                              * dict_get0 (variables s) v) U1 P6 P7).
      apply Qsum_map_eq. intros [k1 w] Hin. unfold item_entry_reward.
      cbn [fst snd].
      assert (Hk1 : In k1 (state_names sts)).
      { rewrite Hnames. apply P7. apply in_map_iff. now exists (k1, w). }
      destruct (state_names_find sts k1 Hk1) as [i [s [Hi Hn]]].
      destruct (same_skeleton_nth _ _ _ _ P10 Hi) as [s0 [Hi0 [Hn0 [Hv0 _]]]].
      assert (U : NoDup (state_names sts)) by now rewrite Hnames.
      rewrite <- Hn at 1. rewrite (state_named_nth sts i s U Hi).
      rewrite <- Hn, Hn0, (state_named_nth sts0 i s0 U1 Hi0), Hv0.
      rewrite (Q1 (k1, w) Hin). cbn [fst]. now rewrite <- Hn, Hn0.
    - unfold item_entry_reward.
      rewrite (state_sum_by_items sts items (state_out_reward sts0 v)).
      + apply HR. discriminate.
      + now rewrite Hnames.
      + exact P6.
      + intros k0. now rewrite Hnames. }
  split.
  - unfold var_sum. rewrite K.
    assert (E : Qsum [] == 0) by reflexivity. rewrite E, Qplus_0_l.
    unfold Qdiv. apply Qmult_comp; [|reflexivity].
    apply selected_eq; assumption.
  - rewrite <- HB.
    assert (Hnd1 : NoDup (state_names sts1)) by now rewrite Hnames1.
    assert (Hk1 : forall k0, In k0 (dict_keys items) <-> In k0 (state_names sts1))
      by (intros k0; now rewrite Hnames1).
    rewrite <- (state_sum_by_items sts1 items
                  (state_out_reward sts0 v) Hnd1 P6 Hk1).
    apply Qsum_map_eq. intros [k1 w] Hin. cbn [fst].
    assert (Hkin : In k1 (state_names sts1)).
    { apply Hk1. apply in_map_iff. now exists (k1, w). }
    destruct (state_names_find sts1 k1 Hkin) as [i [s [Hi Hn]]].
    rewrite <- Hn, (state_named_nth sts1 i s Hnd1 Hi).
    destruct (Hpost i s Hi ltac:(rewrite Hn; apply in_map_iff; now exists (k1, w)))
      as [x [Hx Hox]].
    rewrite Hn in Hx, Hox. rewrite (dict_get_In items k1 w P6 Hin) in Hx.
    inversion Hx; subst w. rewrite Hn. exact Hox.
Qed.

Lemma end_one_cycle_rewards sts0 h0 m r t c c1 :
  reward_table sts0 h0 m r t c ->
  cycle_mid sts0 c c1 ->
  (forall v, In v (all_var_keys sts0) ->
             var_sum c1 v
             == selected m (entry_reward sts0 h0 t v)
                  (cycle_reward sts0 h0 t v)
                / (1 + r) ^ Z.of_nat t) ->
  reward_table sts0 h0 m r (S t) (end_one_cycle c1).
Proof.
  intros Htab [M1 _ _ _ M5 M6 _ _ _] Hsum v Hv.
  unfold config in M1.
  assert (E8 : total_variables c1 = total_variables c)
    by exact (f_equal (fun x => snd x) M1).
  destruct (Htab v Hv) as [Hlen Hrows].
  destruct (dict_get_keys_Some (cycle_variables c1) v (proj2 (M6 v) Hv))
    as [l Hl].
  cbn [end_one_cycle total_variables].
  rewrite (append_sums_get (total_variables c1) (cycle_variables c1) v l M5 Hl),
    E8.
  split; [rewrite length_app, Hlen; simpl; lia|].
  intros t' Ht'. destruct (Nat.eq_dec t' t) as [->|Hne].
  - rewrite app_nth2 by lia. rewrite Hlen, Nat.sub_diag. cbn [nth].
    rewrite <- (Hsum v Hv). unfold var_sum, dd_get. now rewrite Hl.
  - rewrite app_nth1 by lia. apply Hrows. lia.
Qed.

(** [n] cycles from cycle [t] on: the table of variables. *)
Lemma cycles_rewards fuel sts0 h0 m r :
  (3 <= fuel)%nat ->
  unique_names sts0 ->
  distinct_variables sts0 ->
  forall n t c sts h c' sts' h',
    (forall t', (t <= t' < t + n)%nat ->
                forallb (closed_state h0 (List.length sts0) t') sts0 = true) ->
    ((n <= 1)%nat \/
     forall k, In k (state_names sts0) -> In k (all_dst_names sts0)) ->
    cycle_pre sts0 h0 t c sts h ->
    trace_pre sts0 h0 t c sts ->
    (forall v, reward_pre sts0 h0 t v sts) ->
    count_method c = m ->
    discount_rate c = r ->
    reward_table sts0 h0 m r t c ->
    cycles_core fuel n c sts h = Ok (c', sts', h') ->
    reward_table sts0 h0 m r (t + n) c'.
Proof.
  intros Hfuel Huniq Hdist.
  induction n as [|n IH];
    intros t c sts h c' sts' h' Hcl HR Hpre Htr Hrw Hm Hr Htab Hcyc.
  - cbn [cycles_core] in Hcyc. inversion Hcyc; subst. now rewrite Nat.add_0_r.
  - destruct (start_one_cycle_spec fuel sts0 h0 t c sts h Hfuel Huniq
                (Hcl t ltac:(lia)) Hpre)
      as [c1 [sts1 [h1 [Hstart [Hmid [Hsk [Hh [Ho He]]]]]]]].
    cbn [cycles_core] in Hcyc. rewrite Hstart in Hcyc. cbn [bind] in Hcyc.
    pose proof (start_one_cycle_key fuel sts0 h0 t c sts h c1 sts1 h1 Hfuel
                  Huniq (Hcl t ltac:(lia)) Hpre Htr Hstart) as Hkey.
    assert (Hvar : forall v,
               var_sum c1 v
               == selected m (entry_reward sts0 h0 t v)
                    (cycle_reward sts0 h0 t v)
                  / (1 + r) ^ Z.of_nat t /\
               Qsum (map (state_out_reward sts0 v) sts1)
               == cycle_reward sts0 h0 t v).
    { intros v. rewrite <- Hm, <- Hr.
      exact (start_one_cycle_var fuel sts0 h0 t c sts h c1 sts1 h1 v Hfuel
               Huniq Hdist (Hcl t ltac:(lia)) Hpre Htr (Hrw v) Hstart). }
    assert (Htab1 : reward_table sts0 h0 m r (S t) (end_one_cycle c1)).
    { apply (end_one_cycle_rewards sts0 h0 m r t c c1 Htab Hmid).
      intros v _. exact (proj1 (Hvar v)). }
    pose proof Hmid as [M1 _ _ _ _ _ _ _ _]. unfold config in M1.
    assert (Hm1 : count_method (end_one_cycle c1) = m).
    { cbn [end_one_cycle count_method]. rewrite <- Hm.
      exact (f_equal (fun x => snd (fst (fst (fst (fst x))))) M1). }
    assert (Hr1 : discount_rate (end_one_cycle c1) = r).
    { cbn [end_one_cycle discount_rate]. rewrite <- Hr.
      exact (f_equal (fun x => snd (fst (fst (fst x)))) M1). }
    destruct n as [|n].
    + cbn [cycles_core] in Hcyc. inversion Hcyc; subst.
      now replace (t + 1)%nat with (S t) by lia.
    + assert (HR' : forall k, In k (state_names sts0) ->
                              In k (all_dst_names sts0))
        by (destruct HR as [HR|HR]; [lia | exact HR]).
      assert (Hpre1 : cycle_pre sts0 h0 (S t) (end_one_cycle c1) sts1 h1).
      { apply (end_one_cycle_pre sts0 h0 t c sts h c1 sts1 h1); auto. }
      assert (Htr1 : trace_pre sts0 h0 (S t) (end_one_cycle c1) sts1).
      { apply (end_one_cycle_trace_pre sts0 h0 t c c1 sts1 Hmid).
        - intros k Hk. exact (proj1 (proj2 (Hkey k Hk))).
        - intros k Hk. exact (proj2 (proj2 (Hkey k Hk))). }
      assert (Hrw1 : forall v, reward_pre sts0 h0 (S t) v sts1).
      { intros v _. cbn [entry_reward]. exact (proj2 (Hvar v)). }
      replace (t + S (S n))%nat with (S t + S n)%nat by lia.
      apply (IH (S t) (end_one_cycle c1) sts1 h1 c' sts' h'
               ltac:(intros t' Ht'; apply Hcl; lia)
               (or_intror HR') Hpre1 Htr1 Hrw1 Hm1 Hr1 Htab1 Hcyc).
Qed.

(** The start of [run], with what the table of variables needs. *)
Lemma run_prefix_rewards fuel c sts h :
  (3 <= fuel)%nat ->
  ctrl_children c = seq 0 (List.length sts) ->
  unique_names sts ->
  group_closed h 0 (map trans_prob sts) = true ->
  ~ 1 + discount_rate c == 0 ->
  exists c0 sts1 h1,
    run_core fuel c sts h
    = ('(c2, sts2, h2) <- cycles_core fuel (total_cycles c) c0 sts1 h1 ;;
       prob_df <- DataFrame_from_dict (total_probs c2) ;;
       variable_df <- DataFrame_from_dict (total_variables c2) ;;
       Ok (prob_df, variable_df, (c2, sts2, h2))) /\
    cycle_pre sts h 0 c0 sts1 h1 /\
    trace_pre sts h 0 c0 sts1 /\
    count_method c0 = count_method c /\
    discount_rate c0 = discount_rate c /\
    total_variables c0 = [].
Proof.
  intros Hfuel Hch Huniq Hinit Hrate.
  destruct (group_closed_dens _ _ _ Hinit) as [vs [Hvs Hone]].
  set (sts1 := map MarkovState_reset sts).
  assert (Hlen1 : List.length sts1 = List.length sts)
    by (unfold sts1; apply length_map).
  assert (Hreset : reset c sts = Ok (reset_memory c, sts1)).
  { unfold reset. cbn [reset_memory ctrl_children]. rewrite Hch.
    pose proof (reset_children_seq sts []) as H.
    cbn [List.length app] in H. rewrite H. reflexivity. }
  assert (Hget : get_states (ctrl_children (reset_memory c)) sts1 = Ok sts1).
  { cbn [reset_memory ctrl_children]. rewrite Hch, <- Hlen1.
    exact (get_states_seq sts1 []). }
  assert (Hprobs : map trans_prob sts1 = map trans_prob sts)
    by (unfold sts1; rewrite map_map; reflexivity).
  assert (Hnames : map node_name sts1 = state_names sts)
    by (unfold sts1, state_names; rewrite map_map; reflexivity).
  pose proof Huniq as [U1 _].
  destruct (seed_start_probs_spec fuel h sts1 Hfuel vs h []
              ltac:(now rewrite Hprobs) (cursor_ext_refl h)
              ltac:(now rewrite Hnames) ltac:(reflexivity))
    as [h1 [Hseed He1]].
  cbn [app] in Hseed.
  assert (Hvl : List.length vs = List.length sts1)
    by (rewrite Hlen1, (dens_length _ _ _ _ Hvs); apply length_map).
  set (c0 := set_next (reset_memory c) (seeded sts1 vs)).
  exists c0, sts1, h1.
  split; [|split; [|split; [|split; [|split; reflexivity]]]].
  - unfold run_core. rewrite Hreset. cbn [bind]. rewrite Hget. cbn [bind].
    cbn [reset_memory next_cycle_start_prob]. rewrite Hseed. cbn [bind].
    reflexivity.
  - constructor;
      cbn [c0 set_next reset_memory ctrl_children model_time discount_rate
           cycle_probs cycle_variables next_cycle_start_prob]; auto.
    + rewrite (seeded_keys _ _ Hvl), Hnames. exact U1.
    + intros k. now rewrite (seeded_keys _ _ Hvl), Hnames.
    + intros kv Hin. unfold seeded in Hin. apply in_map_iff in Hin.
      destruct Hin as [sv [<- _]]. cbn [snd]. eauto.
    + now rewrite (seeded_total _ _ Hvl).
    + apply same_skeleton_reset.
    + intros i s Hi. unfold sts1 in Hi. rewrite nth_error_map in Hi.
      destruct (nth_error sts i) as [s0|]; [|discriminate].
      inversion Hi; subst s. cbn. split; [|now exists 0].
      apply forallb_forall. intros n Hn. apply in_map_iff in Hn.
      destruct Hn as [n0 [<- _]]. apply hist_ok_reset.
    + intros H. now elim H.
  - split; [|intros H; now elim H].
    intros kv Hin. cbn [c0 set_next next_cycle_start_prob] in Hin.
    unfold seeded in Hin. apply in_map_iff in Hin.
    destruct Hin as [sv [<- Hsv]]. cbn [fst snd np_sum].
    destruct (seeded_values h sts vs Hvs sv Hsv) as [s [Hs [E1 E2]]].
    rewrite E1, E2. cbn [MarkovState_reset MarkovState_reset_memory node_name].
    cbn [occupancy]. apply In_nth_error in Hs. destruct Hs as [i Hi].
    rewrite (state_named_nth sts i s U1 Hi). reflexivity.
  - reflexivity.
Qed.

(** The table of variables, for the computation of the proofs. *)
Lemma run_core_discounted_reward fuel c sts h :
  (3 <= fuel)%nat ->
  ctrl_children c = seq 0 (List.length sts) ->
  unique_names sts ->
  distinct_variables sts ->
  closed_model c sts h = true ->
  reentered c sts ->
  ~ 1 + discount_rate c == 0 ->
  exists prob_df variable_df w,
    run_core fuel c sts h = Ok (prob_df, variable_df, w) /\
    forall v t,
      In v (all_var_keys sts) -> (t < total_cycles c)%nat ->
      nth t (dd_get variable_df v) 0
      == selected (count_method c) (entry_reward sts h t v)
           (cycle_reward sts h t v)
         / (1 + discount_rate c) ^ Z.of_nat t.
Proof.
  intros Hfuel Hch Huniq Hdist Hclosed Hre Hrate.
  destruct (run_tables fuel c sts h Hfuel Hch Huniq Hclosed Hre Hrate)
    as [c2 [sts2 [h2 [Hrun _]]]].
  exists (total_probs c2), (total_variables c2), (c2, sts2, h2).
  split; [exact Hrun|].
  unfold closed_model in Hclosed. apply andb_true_iff in Hclosed.
  destruct Hclosed as [Hinit Hcl].
  destruct (run_prefix_rewards fuel c sts h Hfuel Hch Huniq Hinit Hrate)
    as [c0 [sts1 [h1 [Hrun' [Hpre [Htr [Hm [Hr Htv]]]]]]]].
  rewrite Hrun' in Hrun.
  destruct (cycles_core fuel (total_cycles c) c0 sts1 h1)
    as [[[c3 sts3] h3]|e] eqn:Hcyc; cbn [bind] in Hrun; [|discriminate].
  destruct (DataFrame_from_dict (total_probs c3)) as [p|e];
    cbn [bind] in Hrun; [|discriminate].
  destruct (DataFrame_from_dict (total_variables c3)) as [vd|e];
    cbn [bind] in Hrun; [|discriminate].
  inversion Hrun; subst. clear Hrun.
  assert (Htab0 : reward_table sts h (count_method c) (discount_rate c) 0 c0).
  { intros v Hv. rewrite Htv. split; [reflexivity|]. intros t' Ht'. lia. }
  pose proof (cycles_rewards fuel sts h (count_method c) (discount_rate c)
                Hfuel Huniq Hdist
                (total_cycles c) 0 c0 sts1 h1 c2 sts2 h2
                ltac:(intros t' Ht'; rewrite forallb_forall in Hcl; apply Hcl;
                      apply in_seq; lia)
                Hre Hpre Htr ltac:(intros v H; now elim H) Hm Hr Htab0 Hcyc)
    as Htab.
  intros v t Hv Ht. exact (proj2 (Htab v Hv) t Ht).
Qed.

Lemma priced_unique_names : unique_names priced_store.
Proof.
  split; [|split].
  - repeat constructor; simpl; intuition discriminate.
  - simpl. intuition discriminate.
  - intros s k [<-|[<-|[]]] [<-|[<-|[]]]; reflexivity.
Qed.

Lemma priced_reentered n m : reentered (priced_controller n m) priced_store.
Proof.
  right. intros k [<-|[<-|[]]]; simpl; auto.
Qed.

Lemma priced_distinct_variables : distinct_variables priced_store.
Proof.
  intros s [<-|[<-|[]]]; cbn; repeat constructor; intros [].
Qed.

(** ** Building the tree: who gets the controller *)

Lemma with_controller_idem o c :
  with_controller (with_controller o c) c = with_controller o c.
Proof. reflexivity. Qed.

Lemma attaches_refl ctl g : attaches ctl g g.
Proof. split; [reflexivity|]. intros m o H. now left. Qed.

Lemma attaches_trans ctl g1 g2 g3 :
  attaches ctl g1 g2 -> attaches ctl g2 g3 -> attaches ctl g1 g3.
Proof.
  intros [L1 H1] [L2 H2]. split; [congruence|].
  intros m o Hm. destruct (H1 m o Hm) as [A|A];
    destruct (H2 m _ A) as [B|B]; auto.
Qed.

Lemma attaches_update ctl g n o :
  nth_error g n = Some o ->
  attaches ctl g (update g n (with_controller o (Some ctl))).
Proof.
  intros Hn. split; [apply length_update|].
  intros m o' Hm. destruct (Nat.eq_dec n m) as [<-|Hne].
  - right. rewrite Hn in Hm. inversion Hm; subst o'.
    eapply nth_error_update_same; eauto.
  - left. now rewrite nth_error_update_other.
Qed.

(** The shape of the tree is kept. *)
Lemma attaches_shape ctl g g' m o' :
  attaches ctl g g' ->
  nth_error g' m = Some o' ->
  exists o, nth_error g m = Some o /\
            obj_kind o' = obj_kind o /\ obj_name o' = obj_name o /\
            obj_children o' = obj_children o /\
            (obj_controller o' = obj_controller o \/
             obj_controller o' = Some ctl).
Proof.
  intros [L H] Hm.
  destruct (nth_error g m) as [o|] eqn:E.
  - exists o. split; [reflexivity|].
    destruct (H m o E) as [A|A]; rewrite A in Hm; inversion Hm; subst o';
      cbn; auto.
  - apply nth_error_None in E.
    assert (m < List.length g')%nat by (apply nth_error_Some; congruence). lia.
Qed.

Lemma below_attaches ctl g g' a b :
  attaches ctl g g' -> (below g a b <-> below g' a b).
Proof.
  intros Hat. split.
  - induction 1 as [n|n o c m Hn Hk Hc _ IH]; [constructor|].
    destruct (proj2 Hat n o Hn) as [A|A].
    + eapply below_child; eauto.
    + eapply below_child; [exact A| | |exact IH]; cbn; auto.
  - induction 1 as [n|n o' c m Hn Hk Hc _ IH]; [constructor|].
    destruct (attaches_shape _ _ _ _ _ Hat Hn) as [o [Ho [K [_ [C _]]]]].
    eapply below_child; [exact Ho| | |exact IH]; congruence.
Qed.

Lemma below_trans g a b c : below g a b -> below g b c -> below g a c.
Proof.
  induction 1 as [n|n o c0 m Hn Hk Hc _ IH]; [auto|].
  intros H. eapply below_child; eauto.
Qed.

Lemma has_controller_attaches ctl g g' m :
  attaches ctl g g' -> has_controller g ctl m -> has_controller g' ctl m.
Proof.
  intros [_ H] [o [Hm Hc]]. destruct (H m o Hm) as [A|A].
  - now exists o.
  - eexists. split; [exact A|reflexivity].
Qed.

Lemma has_controller_attached ctl g g' m :
  attaches ctl g g' -> has_controller g' ctl m ->
  has_controller g ctl m \/
  exists o, nth_error g m = Some o /\
            nth_error g' m = Some (with_controller o (Some ctl)).
Proof.
  intros Hat [o' [Hm Hc]].
  destruct (attaches_shape _ _ _ _ _ Hat Hm) as [o [Ho _]].
  destruct (proj2 Hat m o Ho) as [A|A].
  - left. exists o. split; [exact Ho|]. rewrite A in Hm. now inversion Hm; subst.
  - right. now exists o.
Qed.

Lemma set_controller_S fuel g n ctl :
  set_controller (S fuel) g n ctl
  = match nth_error g n with
    | None => Err DanglingRef
    | Some o =>
        match obj_kind o with
        | KStateTransition => Ok (update g n (with_controller o (Some ctl)))
        | _ => set_controller_children fuel (obj_children o)
                 (update g n (with_controller o (Some ctl))) ctl
        end
    end.
Proof.
  cbn [set_controller]. destruct (nth_error g n) as [o|]; [|reflexivity].
  assert (E : forall l g0,
             (fix go (l : list (option oid)) (g0 : graph) : result graph :=
                match l with
                | [] => Ok g0
                | None :: _ => Err AttributeError
                | Some ch :: l' =>
                    g2 <- set_controller fuel g0 ch ctl ;; go l' g2
                end) l g0
             = set_controller_children fuel l g0 ctl).
  { induction l as [|[c|] l IH]; intros g0; cbn [set_controller_children];
      try reflexivity.
    destruct (set_controller fuel g0 c ctl); cbn [bind]; auto. }
  destruct (obj_kind o); try reflexivity; apply E.
Qed.

(** What [set_controller] does: the objects it changes are at or below the
    node, and all of these get the controller. *)
Definition sets_below (ctl : oid) (g g' : graph) (R : oid -> Prop) : Prop :=
  attaches ctl g g' /\
  (forall m, R m -> has_controller g' ctl m) /\
  (forall m o, nth_error g m = Some o -> nth_error g' m <> Some o -> R m).

Lemma set_controller_children_spec fuel ctl :
  (forall g n g', set_controller fuel g n ctl = Ok g' ->
                  sets_below ctl g g' (below g n)) ->
  forall l g g',
    set_controller_children fuel l g ctl = Ok g' ->
    sets_below ctl g g' (fun m => exists c, In (Some c) l /\ below g c m).
Proof.
  intros IHf. induction l as [|[c|] l IH]; intros g g' H;
    cbn [set_controller_children] in H; try discriminate.
  - inversion H; subst g'. split; [apply attaches_refl|]. split.
    + intros m [c [[] _]].
    + intros m o Hm Hne. contradiction.
  - destruct (set_controller fuel g c ctl) as [g1|e] eqn:E; cbn [bind] in H;
      [|discriminate].
    destruct (IHf g c g1 E) as [A1 [B1 C1]].
    destruct (IH g1 g' H) as [A2 [B2 C2]].
    split; [eapply attaches_trans; eauto|]. split.
    + intros m [c0 [[Hc|Hc] Hb]].
      * inversion Hc; subst c0.
        eapply has_controller_attaches; [exact A2|]. now apply B1.
      * apply B2. exists c0. split; [exact Hc|].
        now apply (below_attaches ctl g g1).
    + intros m o Hm Hne.
      destruct (proj2 A1 m o Hm) as [K|K].
      * destruct (C2 m o K Hne) as [c0 [Hc Hb]].
        exists c0. split; [now right|].
        now apply (below_attaches ctl g g1).
      * exists c. split; [now left|]. apply (C1 m o Hm).
        rewrite K. intros E'. inversion E' as [E''].
        apply Hne. destruct (proj2 A2 m _ K) as [K2|K2]; rewrite K2;
          [now rewrite E''|].
        cbn. now rewrite <- E'' at 2.
Qed.

Lemma set_controller_sets_below fuel ctl :
  forall g n g',
    set_controller fuel g n ctl = Ok g' -> sets_below ctl g g' (below g n).
Proof.
  induction fuel as [|fuel IH]; intros g n g' H; [discriminate|].
  rewrite set_controller_S in H.
  destruct (nth_error g n) as [o|] eqn:Hn; [|discriminate].
  set (g1 := update g n (with_controller o (Some ctl))) in *.
  assert (A1 : attaches ctl g g1) by now apply attaches_update.
  assert (Hn1 : has_controller g1 ctl n).
  { eexists. split; [eapply nth_error_update_same; exact Hn|reflexivity]. }
  assert (C1 : forall m o0, nth_error g m = Some o0 ->
                            nth_error g1 m <> Some o0 -> m = n).
  { intros m o0 Hm Hne. destruct (Nat.eq_dec n m) as [E|E]; [auto|].
    exfalso. apply Hne. unfold g1. now rewrite nth_error_update_other. }
  assert (Hloop : forall g2,
             set_controller_children fuel (obj_children o) g1 ctl = Ok g2 ->
             obj_kind o <> KStateTransition ->
             sets_below ctl g g2 (below g n)).
  { intros g2 H2 Hk.
    destruct (set_controller_children_spec fuel ctl IH _ _ _ H2)
      as [A2 [B2 C2]].
    split; [eapply attaches_trans; eauto|]. split.
    - intros m Hb. inversion Hb as [|? o0 c ? Hn0 _ Hc Hb']; subst.
      + eapply has_controller_attaches; eauto.
      + rewrite Hn in Hn0. inversion Hn0; subst o0.
        apply B2. exists c. split; [exact Hc|].
        now apply (below_attaches ctl g g1).
    - intros m o0 Hm Hne. destruct (proj2 A1 m o0 Hm) as [K|K].
      + destruct (C2 m o0 K Hne) as [c [Hc Hb]].
        eapply below_child; [exact Hn|exact Hk|exact Hc|].
        now apply (below_attaches ctl g g1).
      + destruct (Nat.eq_dec n m) as [<-|E]; [constructor|].
        exfalso. unfold g1 in K. rewrite nth_error_update_other in K by exact E.
        rewrite Hm in K. inversion K as [K'].
        apply Hne. destruct (proj2 A2 m o0) as [K2|K2].
        * unfold g1. now rewrite nth_error_update_other.
        * exact K2.
        * rewrite K2. now rewrite <- K'. }
  destruct (obj_kind o) eqn:Hk;
    try (apply Hloop; [exact H|discriminate]).
  inversion H; subst g'. split; [exact A1|]. split.
  - intros m Hb. inversion Hb as [|? o0 c ? Hn0 Hk0 _ _]; subst; [exact Hn1|].
    rewrite Hn in Hn0. inversion Hn0; subst o0. congruence.
  - intros m o0 Hm Hne. rewrite (C1 m o0 Hm Hne). constructor.
Qed.

(** Whenever [set_controller] returns: who has the controller. *)
Lemma set_controller_attached fuel g n ctl g' :
  set_controller fuel g n ctl = Ok g' ->
  (forall m, below g n m -> has_controller g' ctl m) /\
  (forall m o, nth_error g m = Some o -> ~ below g n m ->
               nth_error g' m = Some o) /\
  (forall m o, nth_error g m = Some o ->
               exists o', nth_error g' m = Some o' /\
                          obj_kind o' = obj_kind o /\
                          obj_name o' = obj_name o /\
                          obj_children o' = obj_children o).
Proof.
  intros H. destruct (set_controller_sets_below fuel ctl g n g' H)
    as [A [B C]].
  split; [exact B|]. split.
  - intros m o Hm Hnb.
    destruct (proj2 A m o Hm) as [K|K]; [exact K|].
    assert (D : {obj_controller o = Some ctl} + {obj_controller o <> Some ctl})
      by (decide equality; apply Nat.eq_dec).
    destruct D as [D|D].
    + rewrite K. f_equal. destruct o as [k1 n1 c1 l1]. cbn in *. now subst.
    + exfalso. apply Hnb. apply (C m o Hm). rewrite K. intros E.
      inversion E as [E']. apply D. now rewrite <- E'.
  - intros m o Hm. destruct (proj2 A m o Hm) as [K|K]; eexists;
      (split; [exact K|]); cbn; auto.
Qed.

Lemma below_add_edge_mono g parent po child a b :
  nth_error g parent = Some po ->
  below g a b ->
  below (update g parent
           (with_children po (obj_children po ++ [Some child]))) a b.
Proof.
  intros Hp. induction 1 as [n|n o c m Hn Hk Hc _ IH]; [constructor|].
  destruct (Nat.eq_dec parent n) as [<-|Hne].
  - rewrite Hp in Hn. inversion Hn; subst o.
    eapply below_child;
      [eapply nth_error_update_same; exact Hp| | |exact IH]; cbn; auto.
    apply in_or_app. now left.
  - eapply below_child; [|exact Hk|exact Hc|exact IH].
    now rewrite nth_error_update_other.
Qed.

(** A path in the tree with one more child either does without the new
    child, or reaches the parent and goes on from the child. *)
Lemma below_add_edge g parent po child n m :
  nth_error g parent = Some po ->
  below (update g parent
           (with_children po (obj_children po ++ [Some child]))) n m ->
  below g n m \/
  (below g n parent /\ obj_kind po <> KStateTransition /\ below g child m).
Proof.
  intros Hp. induction 1 as [n|n o c m Hn Hk Hc _ IH]; [left; constructor|].
  destruct (Nat.eq_dec parent n) as [<-|Hne].
  - rewrite (nth_error_update_same _ _ _ _ Hp) in Hn. inversion Hn; subst o.
    cbn in Hk, Hc. apply in_app_or in Hc. destruct Hc as [Hc|[Hc|[]]].
    + destruct IH as [L|[R1 [R2 R3]]].
      * left. eapply below_child; eauto.
      * right. split; [constructor|]. split; assumption.
    + inversion Hc; subst c. right. split; [constructor|]. split; [exact Hk|].
      destruct IH as [L|[_ [_ R3]]]; assumption.
  - rewrite nth_error_update_other in Hn by exact Hne.
    destruct IH as [L|[R1 [R2 R3]]].
    + left. eapply below_child; eauto.
    + right. split; [eapply below_child; eauto|]. split; assumption.
Qed.

Lemma has_controller_add_edge g parent po ch ctl m :
  nth_error g parent = Some po ->
  (has_controller (update g parent (with_children po ch)) ctl m
   <-> has_controller g ctl m).
Proof.
  intros Hp. unfold has_controller. destruct (Nat.eq_dec parent m) as [<-|Hne].
  - rewrite (nth_error_update_same _ _ _ _ Hp), Hp. split.
    + intros [o [E Hc]]. inversion E; subst o. now exists po.
    + intros [o [E Hc]]. inversion E; subst o. eexists. split; [reflexivity|].
      exact Hc.
  - now rewrite nth_error_update_other.
Qed.

Lemma has_after_attach ctl g g' R m :
  sets_below ctl g g' R ->
  has_controller g' ctl m ->
  has_controller g ctl m \/ R m.
Proof.
  intros [A [_ C]] Hm.
  destruct (has_controller_attached _ _ _ _ A Hm) as [H|[o [Ho Ho']]];
    [now left|].
  assert (D : {obj_controller o = Some ctl} + {obj_controller o <> Some ctl})
    by (decide equality; apply Nat.eq_dec).
  destruct D as [D|D]; [left; now exists o|].
  right. apply (C m o Ho). rewrite Ho'. intros E. inversion E as [E'].
  apply D. now rewrite <- E'.
Qed.

Lemma one_controller_attaches ctl g g' :
  attaches ctl g g' ->
  (forall n o, nth_error g n = Some o ->
               obj_controller o = None \/ obj_controller o = Some ctl) ->
  forall n o, nth_error g' n = Some o ->
              obj_controller o = None \/ obj_controller o = Some ctl.
Proof.
  intros A H n o' Hn.
  destruct (attaches_shape _ _ _ _ _ A Hn) as [o [Ho [_ [_ [_ [E|E]]]]]];
    [rewrite E; eauto|now right].
Qed.

(** Giving a child that has the controller to a parent. *)
Lemma tree_inv_add_edge_attached g ctl parent po child :
  tree_inv g ctl ->
  nth_error g parent = Some po ->
  has_controller g ctl child ->
  tree_inv (update g parent
              (with_children po (obj_children po ++ [Some child]))) ctl.
Proof.
  intros [T0 T1 T2 T3] Hp Hc. constructor.
  - intros co Hco. destruct (Nat.eq_dec parent ctl) as [<-|Hne].
    + rewrite (nth_error_update_same _ _ _ _ Hp) in Hco. inversion Hco; subst.
      cbn. now apply T0.
    + rewrite nth_error_update_other in Hco by exact Hne. now apply T0.
  - intros n o Hn. destruct (Nat.eq_dec parent n) as [<-|Hne].
    + rewrite (nth_error_update_same _ _ _ _ Hp) in Hn. inversion Hn; subst.
      cbn. eapply T1; eauto.
    + rewrite nth_error_update_other in Hn by exact Hne. eapply T1; eauto.
  - intros n m Hn Hb. apply (has_controller_add_edge _ _ _ _ _ _ Hp) in Hn.
    apply (has_controller_add_edge _ _ _ _ _ _ Hp).
    destruct (below_add_edge _ _ _ _ _ _ Hp Hb) as [L|[_ [_ R]]].
    + exact (T2 n m Hn L).
    + exact (T2 child m Hc R).
  - intros co c Hco Hin. apply (has_controller_add_edge _ _ _ _ _ _ Hp).
    destruct (Nat.eq_dec parent ctl) as [<-|Hne].
    + rewrite (nth_error_update_same _ _ _ _ Hp) in Hco. inversion Hco; subst.
      cbn in Hin. apply in_app_or in Hin. destruct Hin as [Hin|[Hin|[]]].
      * eapply T3; eauto.
      * now inversion Hin; subst.
    + rewrite nth_error_update_other in Hco by exact Hne. eapply T3; eauto.
Qed.

(** Giving a child to a parent that has no controller. *)
Lemma tree_inv_add_edge_unattached g ctl parent po child :
  tree_inv g ctl ->
  nth_error g parent = Some po ->
  obj_controller po = None ->
  parent <> ctl ->
  tree_inv (update g parent
              (with_children po (obj_children po ++ [Some child]))) ctl.
Proof.
  intros [T0 T1 T2 T3] Hp Hnone Hne. constructor.
  - intros co Hco. rewrite nth_error_update_other in Hco by exact Hne.
    now apply T0.
  - intros n o Hn. destruct (Nat.eq_dec parent n) as [<-|Hn'].
    + rewrite (nth_error_update_same _ _ _ _ Hp) in Hn. inversion Hn; subst.
      cbn. eapply T1; eauto.
    + rewrite nth_error_update_other in Hn by exact Hn'. eapply T1; eauto.
  - intros n m Hn Hb. apply (has_controller_add_edge _ _ _ _ _ _ Hp) in Hn.
    apply (has_controller_add_edge _ _ _ _ _ _ Hp).
    destruct (below_add_edge _ _ _ _ _ _ Hp Hb) as [L|[R [_ _]]].
    + exact (T2 n m Hn L).
    + exfalso. destruct (T2 n parent Hn R) as [o [Ho Hc]].
      rewrite Hp in Ho. inversion Ho; subst o. congruence.
  - intros co c Hco Hin. apply (has_controller_add_edge _ _ _ _ _ _ Hp).
    rewrite nth_error_update_other in Hco by exact Hne. eapply T3; eauto.
Qed.

(** Giving the controller to a node and everything below it. *)
Lemma tree_inv_set_controller fuel g ctl n g' :
  tree_inv g ctl ->
  set_controller fuel g n ctl = Ok g' ->
  tree_inv g' ctl /\ has_controller g' ctl n.
Proof.
  intros [T0 T1 T2 T3] H.
  pose proof (set_controller_sets_below fuel ctl g n g' H) as S.
  pose proof S as [A [B C]].
  split; [|apply B; constructor]. constructor.
  - intros co Hco.
    destruct (attaches_shape _ _ _ _ _ A Hco) as [o [Ho [K _]]].
    rewrite K. now apply T0.
  - now apply (one_controller_attaches ctl g g' A).
  - intros a m Ha Hb. apply (below_attaches ctl g g' _ _ A) in Hb.
    destruct (has_after_attach _ _ _ _ _ S Ha) as [Ha'|Ha'].
    + eapply has_controller_attaches; [exact A|]. eapply T2; eauto.
    + apply B. eapply below_trans; eauto.
  - intros co c Hco Hin.
    destruct (attaches_shape _ _ _ _ _ A Hco) as [o [Ho [_ [_ [Hch _]]]]].
    rewrite Hch in Hin.
    eapply has_controller_attaches; [exact A|]. eapply T3; eauto.
Qed.

Lemma tree_inv_fresh g ctl :
  (forall n o, nth_error g n = Some o -> obj_controller o = None) ->
  (forall co, nth_error g ctl = Some co ->
              obj_kind co = KMarkovController /\ obj_children co = []) ->
  tree_inv g ctl.
Proof.
  intros Hnone Hctl. constructor.
  - intros co Hco. now apply Hctl.
  - intros n o Hn. left. eapply Hnone; eauto.
  - intros n m [o [Hn Hc]] _. rewrite (Hnone n o Hn) in Hc. discriminate.
  - intros co c Hco Hin. destruct (Hctl co Hco) as [_ E]. rewrite E in Hin.
    contradiction.
Qed.

(** [add_child] keeps the tree attached, on whichever node, in whichever
    order. *)
Lemma add_child_tree_inv fuel g ctl parent child g' :
  tree_inv g ctl ->
  (forall po, nth_error g parent = Some po ->
              obj_kind po = KMarkovController -> parent = ctl) ->
  add_child fuel g parent child = Ok g' ->
  tree_inv g' ctl.
Proof.
  intros T Hctl H. unfold add_child in H.
  destruct (nth_error g parent) as [po|] eqn:Hp; [|discriminate].
  destruct (nth_error g child) as [co|] eqn:Hc; [|discriminate].
  assert (Hother : obj_kind po <> KMarkovController ->
                   match obj_controller po with
                   | Some c0 =>
                       set_controller fuel
                         (update g parent
                            (with_children po (obj_children po ++ [Some child])))
                         child c0
                   | None =>
                       Ok (update g parent
                             (with_children po (obj_children po ++ [Some child])))
                   end = Ok g' ->
                   tree_inv g' ctl).
  { clear H. intros Hk H.
    assert (Hne : parent <> ctl).
    { intros ->. apply Hk. exact (ti_kind g ctl T po Hp). }
    destruct (obj_controller po) as [c0|] eqn:Hpc.
    - assert (c0 = ctl).
      { destruct (ti_one g ctl T parent po Hp) as [E|E]; congruence. }
      subst c0.
      set (g1 := update g parent
                   (with_children po (obj_children po ++ [Some child]))) in *.
      pose proof (set_controller_sets_below fuel ctl g1 child g' H) as S.
      pose proof S as [A [B C]].
      destruct T as [T0 T1 T2 T3]. constructor.
      + intros co' Hco.
        destruct (attaches_shape _ _ _ _ _ A Hco) as [o [Ho [K _]]].
        rewrite K. unfold g1 in Ho.
        rewrite nth_error_update_other in Ho by exact Hne. now apply T0.
      + apply (one_controller_attaches ctl g1 g' A).
        intros n o Hn. unfold g1 in Hn.
        destruct (Nat.eq_dec parent n) as [<-|Hn'].
        * rewrite (nth_error_update_same _ _ _ _ Hp) in Hn. inversion Hn; subst.
          cbn. eapply T1; eauto.
        * rewrite nth_error_update_other in Hn by exact Hn'. eapply T1; eauto.
      + intros a m Ha Hb. apply (below_attaches ctl g1 g' _ _ A) in Hb.
        destruct (has_after_attach _ _ _ _ _ S Ha) as [Ha'|Ha'].
        * apply (has_controller_add_edge _ _ _ _ _ _ Hp) in Ha'.
          destruct (below_add_edge _ _ _ _ _ _ Hp Hb) as [L|[_ [_ R]]].
          -- eapply has_controller_attaches; [exact A|].
             apply (has_controller_add_edge _ _ _ _ _ _ Hp).
             exact (T2 a m Ha' L).
          -- apply B. now apply below_add_edge_mono.
        * apply B. eapply below_trans; eauto.
      + intros co' c Hco Hin.
        destruct (attaches_shape _ _ _ _ _ A Hco) as [o [Ho [_ [_ [Hch _]]]]].
        rewrite Hch in Hin. unfold g1 in Ho.
        rewrite nth_error_update_other in Ho by exact Hne.
        eapply has_controller_attaches; [exact A|].
        apply (has_controller_add_edge _ _ _ _ _ _ Hp).
        exact (T3 o c Ho Hin).
    - inversion H; subst g'.
      now apply tree_inv_add_edge_unattached. }
  destruct (obj_kind po) eqn:Hk; try (apply Hother; [discriminate|exact H]).
  assert (parent = ctl) by (apply (Hctl po); auto). subst parent.
  destruct (obj_kind co); try discriminate.
  destruct (set_controller fuel g child ctl) as [g1|e] eqn:E; cbn [bind] in H;
    [|discriminate].
  destruct (nth_error g1 ctl) as [po1|] eqn:Hp1; [|discriminate].
  inversion H; subst g'.
  destruct (tree_inv_set_controller fuel g ctl child g1 T E) as [T1 Hchild].
  now apply tree_inv_add_edge_attached.
Qed.

(** Whatever the order in which a tree is put together with [add_child],
    the controller reaches every node: with one controller, if below every
    node that has the controller all nodes have it, and the children of the
    controller have it, then the same holds after any [add_child] that
    returns, on the controller or on any node.  The child is appended to the
    parent's children, and the controller accepts only a [MarkovState]. *)
Theorem add_child_keeps_tree_attached fuel g ctl parent child g' :
  tree_inv g ctl ->
  (forall po, nth_error g parent = Some po ->
              obj_kind po = KMarkovController -> parent = ctl) ->
  add_child fuel g parent child = Ok g' ->
  tree_inv g' ctl /\
  exists po co po',
    nth_error g parent = Some po /\
    nth_error g child = Some co /\
    nth_error g' parent = Some po' /\
    obj_children po' = obj_children po ++ [Some child] /\
    (obj_kind po = KMarkovController -> obj_kind co = KMarkovState).
Proof.
  intros T Hctl H. split; [eapply add_child_tree_inv; eauto|].
  unfold add_child in H.
  destruct (nth_error g parent) as [po|] eqn:Hp; [|discriminate].
  destruct (nth_error g child) as [co|] eqn:Hc; [|discriminate].
  assert (Hin : forall g1 ctl0 fuel0,
             set_controller fuel0
               (update g parent
                  (with_children po (obj_children po ++ [Some child])))
               child ctl0 = Ok g1 ->
             exists po', nth_error g1 parent = Some po' /\
                         obj_children po'
                         = obj_children po ++ [Some child]).
  { intros g1 ctl0 fuel0 E.
    destruct (set_controller_sets_below fuel0 ctl0 _ _ _ E) as [A _].
    destruct (proj2 A parent _ (nth_error_update_same _ _ _ _ Hp)) as [K|K];
      eexists; (split; [exact K|reflexivity]). }
  exists po, co.
  destruct (obj_kind po) eqn:Hk.
  1-3: destruct (obj_controller po) as [c0|];
    [destruct (Hin _ _ _ H) as [po' [A B]]; exists po';
     repeat split; auto; discriminate
    |inversion H; subst g'; eexists;
     split; [reflexivity|]; split; [reflexivity|];
     split; [eapply nth_error_update_same; eauto|];
     split; [reflexivity|discriminate]].
  destruct (obj_kind co) eqn:Hkc; try discriminate.
  destruct (set_controller fuel g child parent) as [g1|e] eqn:E;
    cbn [bind] in H; [|discriminate].
  destruct (nth_error g1 parent) as [po1|] eqn:Hp1; [|discriminate].
  inversion H; subst g'.
  destruct (set_controller_sets_below fuel parent _ _ _ E) as [A _].
  eexists. split; [reflexivity|]. split; [reflexivity|].
  split; [eapply nth_error_update_same; eauto|]. split; [|reflexivity].
  cbn. destruct (proj2 A parent po Hp) as [K|K]; rewrite K in Hp1;
    inversion Hp1; reflexivity.
Qed.

Lemma parts_tree_inv : tree_inv parts 0%nat.
Proof.
  apply tree_inv_fresh.
  - intros [|[|[|[|n]]]] o H; cbn in H; try (inversion H; reflexivity).
    destruct n; discriminate.
  - intros co H. cbn in H. inversion H. split; reflexivity.
Qed.

Lemma built_from_parts :
  (g1 <- add_child 4 parts 1%nat 2%nat ;;
   g2 <- add_child 4 g1 2%nat 3%nat ;;
   add_child 4 g2 0%nat 1%nat) = Ok built.
Proof. reflexivity. Qed.

Lemma built_tree_inv : tree_inv built 0%nat.
Proof.
  pose proof built_from_parts as H.
  destruct (add_child 4 parts 1%nat 2%nat) as [g1|e] eqn:E1; [|discriminate].
  cbn [bind] in H.
  destruct (add_child 4 g1 2%nat 3%nat) as [g2|e] eqn:E2; [|discriminate].
  cbn [bind] in H.
  assert (T1 : tree_inv g1 0%nat).
  { apply (add_child_tree_inv 4 parts 0%nat 1%nat 2%nat g1 parts_tree_inv);
      [|exact E1].
    intros po Hp Hk. cbn in Hp. inversion Hp; subst po. discriminate. }
  assert (T2 : tree_inv g2 0%nat).
  { apply (add_child_tree_inv 4 g1 0%nat 2%nat 3%nat g2 T1); [|exact E2].
    intros po Hp Hk. vm_compute in E1. inversion E1; subst g1.
    cbn in Hp. inversion Hp; subst po. discriminate. }
  apply (add_child_tree_inv 4 g2 0%nat 0%nat 1%nat built T2); [|exact H].
  reflexivity.
Qed.

Lemma add_child_keeps_tree_attached_witness :
  tree_inv parts 0%nat /\
  (forall po, nth_error parts 1%nat = Some po ->
              obj_kind po = KMarkovController -> 1%nat = 0%nat) /\
  exists g',
    add_child 3 parts 1%nat 2%nat = Ok g' /\
    tree_inv g' 0%nat.
Proof.
  assert (H2 : forall po, nth_error parts 1%nat = Some po ->
                          obj_kind po = KMarkovController -> 1%nat = 0%nat).
  { intros po Hp Hk. cbn in Hp. inversion Hp; subst po. discriminate. }
  split; [exact parts_tree_inv|]. split; [exact H2|].
  destruct (add_child 3 parts 1%nat 2%nat) as [g'|e] eqn:E;
    [|vm_compute in E; discriminate E].
  exists g'. split; [reflexivity|].
  exact (proj1 (add_child_keeps_tree_attached 3 parts 0%nat 1%nat 2%nat g'
                  parts_tree_inv H2 E)).
Defined.

(** In a tree put together with [add_child], [notify_controller] never
    raises "no controller": every node below the controller, other than the
    controller itself, reports to that controller. *)
Theorem attached_nodes_report_to_controller g ctl m :
  tree_inv g ctl ->
  below g ctl m ->
  m <> ctl ->
  notify_controller g m = Ok ctl.
Proof.
  intros [T0 T1 T2 T3] Hb Hne.
  inversion Hb as [|? co c ? Hco Hk Hin Hb']; subst; [now elim Hne|].
  destruct (T2 c m (T3 co c Hco Hin) Hb') as [o [Hm Hc]].
  unfold notify_controller. now rewrite Hm, Hc.
Qed.

Lemma attached_nodes_report_to_controller_witness :
  tree_inv built 0%nat /\
  below built 0%nat 3%nat /\
  3%nat <> 0%nat /\
  notify_controller built 3%nat = Ok 0%nat.
Proof.
  assert (H2 : below built 0%nat 3%nat).
  { eapply below_child; [reflexivity|discriminate|left; reflexivity|].
    eapply below_child; [reflexivity|discriminate|left; reflexivity|].
    eapply below_child; [reflexivity|discriminate|left; reflexivity|].
    constructor. }
  assert (H3 : 3%nat <> 0%nat) by discriminate.
  split; [exact built_tree_inv|]. split; [exact H2|]. split; [exact H3|].
  exact (attached_nodes_report_to_controller built 0%nat 3%nat built_tree_inv
           H2 H3).
Defined.

(** ** Reading parameter values: [parse_value_from_str] *)

Lemma split_on_nonempty sep s : split_on sep s <> [].
Proof.
  destruct s as [|c s]; cbn; [discriminate|].
  destruct (Ascii.eqb c sep); [discriminate|].
  destruct (split_on sep s); discriminate.
Qed.

Lemma split_on_free sep s : free_of sep s = true -> split_on sep s = [s].
Proof.
  induction s as [|c s IH]; cbn; [reflexivity|].
  destruct (Ascii.eqb c sep); [discriminate|]. cbn. intros H.
  now rewrite (IH H).
Qed.

Lemma split_on_app sep s r :
  free_of sep s = true ->
  split_on sep (s ++ String sep r) = s :: split_on sep r.
Proof.
  induction s as [|c s IH]; cbn.
  - intros _. now rewrite Ascii.eqb_refl.
  - destruct (Ascii.eqb c sep); [discriminate|]. cbn. intros H.
    now rewrite (IH H).
Qed.

(** [sep.join(l).split(sep)] gives [l] back, for pieces without [sep]. *)
Lemma split_on_concat sep l :
  l <> [] ->
  (forall f, In f l -> free_of sep f = true) ->
  split_on sep (String.concat (String sep EmptyString) l) = l.
Proof.
  induction l as [|f l IH]; intros Hne Hfree; [now elim Hne|].
  destruct l as [|f' l].
  - cbn [String.concat]. apply split_on_free. apply Hfree. now left.
  - change (String.concat (String sep EmptyString) (f :: f' :: l))
      with (f ++ String sep (String.concat (String sep EmptyString) (f' :: l)))%string.
    rewrite split_on_app by (apply Hfree; now left).
    f_equal. apply IH; [discriminate|]. intros f0 H. apply Hfree. now right.
Qed.

Lemma free_of_app sep a b :
  free_of sep (a ++ b) = free_of sep a && free_of sep b.
Proof.
  induction a as [|c a IH]; cbn; [reflexivity|].
  now rewrite IH, andb_assoc.
Qed.

Lemma free_of_concat sep sep' l :
  Ascii.eqb sep' sep = false ->
  (forall f, In f l -> free_of sep f = true) ->
  free_of sep (String.concat (String sep' EmptyString) l) = true.
Proof.
  intros Hs. induction l as [|f l IH]; intros Hfree; [reflexivity|].
  destruct l as [|f' l].
  - cbn [String.concat]. apply Hfree. now left.
  - change (String.concat (String sep' EmptyString) (f :: f' :: l))
      with (f ++ String sep' (String.concat (String sep' EmptyString) (f' :: l)))%string.
    rewrite free_of_app. cbn [free_of]. rewrite Hs. cbn [negb andb].
    rewrite (Hfree f (or_introl eq_refl)). cbn [andb].
    apply IH. intros f0 H. apply Hfree. now right.
Qed.

Lemma parse_row_concat F (float : string -> option F) r :
  (forall f, In f r -> free_of comma f = true) ->
  parse_row F float (String.concat "," r) = parse_cells F float r.
Proof.
  intros Hfree. unfold parse_row. destruct r as [|f r]; [reflexivity|].
  change ","%string with (String comma EmptyString).
  now rewrite split_on_concat.
Qed.

(** [parse_value_from_str] undoes the writing of rows of values with [','] and
    [';']: for one or more rows of texts without these two characters, the
    values joined with [','] and the rows with [';'] parse to the rows of
    their cells (the blank texts skipped, the others stripped and turned
    into floats where [float] accepts them), as a flat list if there is one
    row. *)
Theorem parse_inverts_join F (float : string -> option F) rows :
  rows <> [] ->
  (forall r f, In r rows -> In f r ->
               free_of comma f = true /\ free_of semicolon f = true) ->
  parse_value_from_str F float
    (String.concat ";" (map (String.concat ",") rows))
  = shape F (map (parse_cells F float) rows).
Proof.
  intros Hne Hfree. unfold parse_value_from_str. f_equal.
  change ";"%string with (String semicolon EmptyString).
  rewrite split_on_concat.
  - rewrite map_map. apply map_ext_in. intros r Hr.
    apply parse_row_concat. intros f Hf. exact (proj1 (Hfree r f Hr Hf)).
  - destruct rows; [now elim Hne|discriminate].
  - intros s Hs. apply in_map_iff in Hs. destruct Hs as [r [<- Hr]].
    change ","%string with (String comma EmptyString).
    apply free_of_concat; [reflexivity|].
    intros f Hf. exact (proj2 (Hfree r f Hr Hf)).
Qed.

Lemma parse_inverts_join_witness :
  [["1"; " abc "]; ["0"]] <> [] /\
  (forall r f, In r [["1"; " abc "]; ["0"]] -> In f r ->
               free_of comma f = true /\ free_of semicolon f = true) /\
  parse_value_from_str Q toy_float "1, abc ;0"
  = Rows [[CFloat 1; CStr "abc"]; [CFloat 0]].
Proof.
  assert (H1 : [["1"; " abc "]; ["0"]] <> []) by discriminate.
  assert (H2 : forall r f, In r [["1"; " abc "]; ["0"]] -> In f r ->
                           free_of comma f = true /\ free_of semicolon f = true).
  { intros r f [<-|[<-|[]]] Hf; cbn in Hf;
      repeat (destruct Hf as [<-|Hf]; [split; reflexivity|]); contradiction. }
  split; [exact H1|]. split; [exact H2|].
  exact (parse_inverts_join Q toy_float [["1"; " abc "]; ["0"]] H1 H2).
Defined.

Lemma lstrip_head s : head_space (lstrip s) = false.
Proof.
  induction s as [|c s IH]; [reflexivity|].
  cbn [lstrip]. destruct (is_space c) eqn:E; [exact IH|].
  cbn [head_space]. exact E.
Qed.

Lemma lstrip_id s : head_space s = false -> lstrip s = s.
Proof. destruct s as [|c s]; cbn; [reflexivity|]. now intros ->. Qed.

Lemma rstrip_cons c s :
  rstrip (String c s)
  = match rstrip s with
    | EmptyString => if is_space c then EmptyString else String c EmptyString
    | r => String c r
    end.
Proof. reflexivity. Qed.

Lemma rstrip_idem s : rstrip (rstrip s) = rstrip s.
Proof.
  induction s as [|c s IH]; [reflexivity|].
  rewrite rstrip_cons. destruct (rstrip s) as [|c' r] eqn:E.
  - destruct (is_space c) eqn:Ec; [reflexivity|].
    rewrite rstrip_cons. cbn [rstrip]. now rewrite Ec.
  - rewrite rstrip_cons, IH. reflexivity.
Qed.

Lemma rstrip_head s : head_space s = false -> head_space (rstrip s) = false.
Proof.
  destruct s as [|c s]; [reflexivity|]. rewrite rstrip_cons.
  cbn [head_space]. intros E.
  destruct (rstrip s); [now rewrite E|exact E].
Qed.

Lemma strip_idem s : strip (strip s) = strip s.
Proof.
  unfold strip.
  rewrite (lstrip_id (rstrip (lstrip s)))
    by (apply rstrip_head, lstrip_head).
  apply rstrip_idem.
Qed.

Lemma split_on_two sep s :
  free_of sep s = false -> exists a b l, split_on sep s = a :: b :: l.
Proof.
  induction s as [|c s IH]; cbn; [discriminate|].
  destruct (Ascii.eqb c sep); cbn.
  - intros _. destruct (split_on sep s) as [|w ws] eqn:E.
    + now elim (split_on_nonempty sep s).
    + now exists EmptyString, w, ws.
  - intros H. destruct (IH H) as [a [b [l ->]]]. now exists (String c a), b, l.
Qed.

Section ParseClean.

Variable F : Type.
Variable float : string -> option F.

Lemma parse_cell_clean v c :
  parse_cell F float v = Some c -> clean_cell float c.
Proof.
  unfold parse_cell. pose proof (strip_idem v) as Hs.
  destruct (strip v) as [|a r] eqn:E; [discriminate|].
  intros [= <-]. destruct (float (String a r)) as [x|] eqn:Ef; cbn.
  - exists (String a r). repeat split; [discriminate|exact Hs|exact Ef].
  - repeat split; [discriminate|exact Hs|exact Ef].
Qed.

Lemma parse_cells_clean l : Forall (clean_cell float) (parse_cells F float l).
Proof.
  induction l as [|v l IH]; [constructor|].
  cbn [parse_cells]. destruct (parse_cell F float v) as [c|] eqn:E; [|exact IH].
  constructor; [eapply parse_cell_clean; eauto|exact IH].
Qed.

Lemma cells_of_shape rows :
  cells_of (shape F rows) = List.concat rows.
Proof.
  destruct rows as [|r [|r' rows]]; cbn; auto. now rewrite app_nil_r.
Qed.

(** What [parse_value_from_str] returns, whatever the text: no cell is
    blank or has whitespace around it; a cell is a float exactly where
    [float] accepts its text, and the text itself otherwise; and the result
    is a flat list exactly when the text has no [';'], a list of rows
    otherwise. *)
Theorem parse_result_is_clean value_str :
  Forall (clean_cell float)
    (cells_of (parse_value_from_str F float value_str)) /\
  ((exists row, parse_value_from_str F float value_str = Flat row)
   <-> free_of semicolon value_str = true).
Proof.
  unfold parse_value_from_str. split.
  - rewrite cells_of_shape. apply Forall_concat. apply Forall_map.
    apply Forall_forall. intros row _. apply parse_cells_clean.
  - split.
    + intros [row H].
      destruct (free_of semicolon value_str) eqn:E; [reflexivity|].
      destruct (split_on_two _ _ E) as [a [b [l Hl]]].
      rewrite Hl in H. discriminate.
    + intros E. rewrite (split_on_free _ _ E). cbn. eauto.
Qed.

End ParseClean.

(** * The functions of the code and the computations of the proofs *)

(** ** What the functions of the code return *)

Lemma refines_refl {A} (a : result A) : refines a a.
Proof. intros r H. exact H. Qed.

Lemma refines_Err {A} e (b : result A) : refines (Err e) b.
Proof. intros r H. discriminate H. Qed.

Lemma refines_bind {A B} (a a' : result A) (f f' : A -> result B) :
  refines a a' ->
  (forall x, refines (f x) (f' x)) ->
  refines (bind a f) (bind a' f').
Proof.
  intros Ha Hf r H. destruct a as [x|e]; [|discriminate H].
  rewrite (Ha x eq_refl). cbn [bind] in *. now apply Hf.
Qed.

(** The loop of [Node.forward] over the children, named. *)
Lemma Node_forward_children fuel sts nm p vs ch t ip iv h c :
  Node_forward fuel sts (ChanceNode nm p vs ch) t ip iv h c
  = ('(v, h1) <- value fuel h p (Some t) ;;
     '(x, h2) <- input_value fuel h1 ip ;;
     '(ch', h3, c') <- forward_children fuel sts ch t (InFloat (x * v))
                         (merge_variables iv vs) h2 c ;;
     Ok (ChanceNode nm p vs ch', h3, c')).
Proof.
  cbn [Node_forward].
  destruct (value fuel h p (Some t)) as [[v h1]|e]; cbn [bind]; [|reflexivity].
  destruct (input_value fuel h1 ip) as [[x h2]|e]; cbn [bind]; [|reflexivity].
  f_equal. generalize h2 c. induction ch as [|n ch IH]; intros h0 c0.
  - reflexivity.
  - cbn [forward_children].
    destruct (has_parameter_name (merge_variables iv vs)); [reflexivity|].
    destruct (Node_forward fuel sts n t (InFloat (x * v))
                (merge_variables iv vs) h0 c0) as [[[n1 h4] c1]|e];
      cbn [bind]; [|reflexivity].
    now rewrite IH.
Qed.

Lemma forward_children_refines fuel sts ch :
  Forall (fun n => forall t ip iv h c,
              refines (Node_forward fuel sts n t ip iv h c)
                (Node_forward_core fuel sts n t ip iv h c)) ch ->
  forall t ip iv h c,
    refines (forward_children fuel sts ch t ip iv h c)
      (forward_children_core fuel sts ch t ip iv h c).
Proof.
  induction 1 as [|n ch Hn _ IH]; intros t ip iv h c.
  - apply refines_refl.
  - cbn [forward_children forward_children_core].
    destruct (has_parameter_name iv); [apply refines_Err|].
    apply refines_bind; [apply Hn|]. intros [[n1 h1] c1].
    apply refines_bind; [apply IH|]. intros x. apply refines_refl.
Qed.

Lemma Node_forward_refines fuel sts n :
  forall t ip iv h c,
    refines (Node_forward fuel sts n t ip iv h c)
      (Node_forward_core fuel sts n t ip iv h c).
Proof.
  induction n as [nm p vs ch IH | nm p vs ch cum cumv] using Node_ind_children;
    intros t ip iv h c.
  - rewrite Node_forward_children, Node_forward_chance.
    apply refines_bind; [apply refines_refl|]. intros [v h1].
    apply refines_bind; [apply refines_refl|]. intros [x h2].
    apply refines_bind; [now apply forward_children_refines|].
    intros y. apply refines_refl.
  - cbn [Node_forward Node_forward_core].
    apply refines_bind; [apply refines_refl|]. intros [v h1].
    apply refines_bind; [apply refines_refl|]. intros [x h2].
    apply refines_bind; [apply refines_refl|]. intros d.
    cbv zeta. unfold transition_report.
    destruct (dict_mem _ "prob").
    + destruct (dict_mem _ "dst"); [apply refines_Err|].
      destruct (dict_get _ _) as [[q|l]|]; apply refines_Err.
    + destruct (dict_mem _ "dst"); [apply refines_Err|].
      cbn [bind]. apply refines_refl.
Qed.

Lemma MarkovState_forward_refines fuel sts s t h c :
  refines (MarkovState_forward fuel sts s t h c)
    (MarkovState_forward_core fuel sts s t h c).
Proof.
  unfold MarkovState_forward, MarkovState_forward_core.
  apply refines_bind; [|intros x; apply refines_refl].
  apply forward_children_refines. apply Forall_forall.
  intros n _. apply Node_forward_refines.
Qed.

Lemma MarkovState_start_refines fuel sts s t m h c :
  refines (MarkovState_start fuel sts s t m h c)
    (MarkovState_start_core fuel sts s t m h c).
Proof.
  unfold MarkovState_start, MarkovState_start_core, state_report.
  cbn [variables].
  destruct (dict_mem (variables s) "prob"); [apply refines_Err|].
  cbn [bind]. apply refines_bind; [apply refines_refl|]. intros c1.
  cbn [alloc]. apply MarkovState_forward_refines.
Qed.

Lemma send_to_node_refines fuel node t m c sts h :
  refines (send_to_node fuel node t m c sts h)
    (send_to_node_core fuel node t m c sts h).
Proof.
  unfold send_to_node, send_to_node_core.
  apply refines_bind; [apply refines_refl|]. intros [i| | |];
    try apply refines_refl.
  destruct (nth_error sts i) as [s|]; [|apply refines_refl].
  destruct m as [x|l]; [|apply refines_refl].
  apply refines_bind; [apply MarkovState_start_refines|].
  intros y. apply refines_refl.
Qed.

Lemma send_all_refines fuel items :
  forall c sts h,
    refines (send_all fuel items c sts h) (send_all_core fuel items c sts h).
Proof.
  induction items as [|[node m] items IH]; intros c sts h.
  - apply refines_refl.
  - cbn [send_all send_all_core].
    apply refines_bind; [apply send_to_node_refines|].
    intros [[c1 sts1] h1]. apply IH.
Qed.

Lemma start_one_cycle_refines fuel c sts h :
  refines (start_one_cycle fuel c sts h) (start_one_cycle_core fuel c sts h).
Proof. apply send_all_refines. Qed.

Lemma cycles_refines fuel n :
  forall c sts h,
    refines (cycles fuel n c sts h) (cycles_core fuel n c sts h).
Proof.
  induction n as [|n IH]; intros c sts h; [apply refines_refl|].
  cbn [cycles cycles_core].
  apply refines_bind; [apply start_one_cycle_refines|].
  intros [[c1 sts1] h1]. apply IH.
Qed.

(** Whenever [run] returns, the computation of the proofs returns the
    same. *)
Lemma run_refines fuel c sts h :
  refines (run fuel c sts h) (run_core fuel c sts h).
Proof.
  unfold run, run_core.
  apply refines_bind; [apply refines_refl|]. intros [c1 sts1].
  apply refines_bind; [apply refines_refl|]. intros ss.
  apply refines_bind; [apply refines_refl|]. intros [nx h1].
  apply refines_bind; [apply cycles_refines|]. intros [[c2 sts2] h2].
  apply refines_refl.
Qed.

(** ** Where no variable bears a reserved name *)

Lemma plain_variables_spec vs :
  plain_variables vs = true
  <-> dict_mem vs "self" = false /\ dict_mem vs "time" = false /\
      dict_mem vs "input_prob" = false /\ dict_mem vs "prob" = false /\
      dict_mem vs "dst" = false.
Proof.
  unfold plain_variables, has_parameter_name.
  destruct (dict_mem vs "self"), (dict_mem vs "time"),
    (dict_mem vs "input_prob"), (dict_mem vs "prob"), (dict_mem vs "dst");
    cbn; intuition discriminate.
Qed.

Lemma dict_mem_merge_variables input own k :
  dict_mem (merge_variables input own) k = dict_mem input k || dict_mem own k.
Proof.
  unfold dict_mem at 1, merge_variables.
  rewrite (fold_dict_set_get (fun k => dict_get0 input k + dict_get0 own k)).
  rewrite mem_keys_union. now destruct (dict_mem input k || dict_mem own k).
Qed.

Lemma dict_mem_merge_variables_dst input own destination k :
  dict_mem (merge_variables_dst input own destination) k
  = dict_mem input k || dict_mem own k.
Proof.
  unfold dict_mem at 1. rewrite merge_variables_dst_get, mem_keys_union.
  now destruct (dict_mem input k || dict_mem own k).
Qed.

Lemma dict_mem_zero_variables vs k :
  dict_mem (zero_variables vs) k = dict_mem vs k.
Proof.
  unfold dict_mem at 1. rewrite zero_variables_get.
  now destruct (dict_mem vs k).
Qed.

Lemma plain_merge_variables input own :
  plain_variables input = true -> plain_variables own = true ->
  plain_variables (merge_variables input own) = true.
Proof.
  rewrite !plain_variables_spec, !dict_mem_merge_variables.
  intros [-> [-> [-> [-> ->]]]] [-> [-> [-> [-> ->]]]]. auto.
Qed.

Lemma plain_merge_variables_dst input own destination :
  plain_variables input = true -> plain_variables own = true ->
  plain_variables (merge_variables_dst input own destination) = true.
Proof.
  rewrite !plain_variables_spec, !dict_mem_merge_variables_dst.
  intros [-> [-> [-> [-> ->]]]] [-> [-> [-> [-> ->]]]]. auto.
Qed.

Lemma plain_zero_variables vs :
  plain_variables vs = true -> plain_variables (zero_variables vs) = true.
Proof.
  rewrite !plain_variables_spec, !dict_mem_zero_variables. auto.
Qed.

Lemma plain_has_no_parameter_name vs :
  plain_variables vs = true -> has_parameter_name vs = false.
Proof.
  rewrite plain_variables_spec. unfold has_parameter_name.
  now intros [-> [-> [-> _]]].
Qed.

Lemma transition_report_plain c name window vs :
  plain_variables vs = true ->
  transition_report c name window vs = Ok (mkPayload (Some name) window vs).
Proof.
  rewrite plain_variables_spec. unfold transition_report.
  now intros [_ [_ [_ [-> ->]]]].
Qed.

Lemma state_report_plain window vs :
  plain_variables vs = true ->
  state_report window vs = Ok (mkPayload None window vs).
Proof.
  rewrite plain_variables_spec. unfold state_report.
  now intros [_ [_ [_ [-> _]]]].
Qed.

Lemma forward_children_plain fuel sts ch :
  Forall (fun n => plain_node n = true ->
                   forall t ip iv h c,
                     plain_variables iv = true ->
                     Node_forward fuel sts n t ip iv h c
                     = Node_forward_core fuel sts n t ip iv h c) ch ->
  forallb plain_node ch = true ->
  forall t ip iv h c,
    plain_variables iv = true ->
    forward_children fuel sts ch t ip iv h c
    = forward_children_core fuel sts ch t ip iv h c.
Proof.
  induction 1 as [|n ch Hn _ IH]; intros Hp t ip iv h c Hiv; [reflexivity|].
  cbn [forallb] in Hp. apply andb_true_iff in Hp. destruct Hp as [Hp1 Hp2].
  cbn [forward_children forward_children_core].
  rewrite (plain_has_no_parameter_name _ Hiv), (Hn Hp1 t ip iv h c Hiv).
  destruct (Node_forward_core fuel sts n t ip iv h c) as [[[n1 h1] c1]|e];
    cbn [bind]; [|reflexivity].
  now rewrite (IH Hp2 t ip iv h1 c1 Hiv).
Qed.

Lemma Node_forward_plain fuel sts n :
  plain_node n = true ->
  forall t ip iv h c,
    plain_variables iv = true ->
    Node_forward fuel sts n t ip iv h c
    = Node_forward_core fuel sts n t ip iv h c.
Proof.
  induction n as [nm p vs ch IH | nm p vs ch cum cumv] using Node_ind_children;
    intros Hp t ip iv h c Hiv; cbn [plain_node] in Hp.
  - apply andb_true_iff in Hp. destruct Hp as [Hvs Hch].
    rewrite Node_forward_children, Node_forward_chance.
    destruct (value fuel h p (Some t)) as [[v h1]|e]; cbn [bind]; [|reflexivity].
    destruct (input_value fuel h1 ip) as [[x h2]|e]; cbn [bind]; [|reflexivity].
    now rewrite (forward_children_plain fuel sts ch IH Hch t (InFloat (x * v))
                   (merge_variables iv vs) h2 c
                   (plain_merge_variables _ _ Hiv Hvs)).
  - cbn [Node_forward Node_forward_core].
    destruct (value fuel h p (Some t)) as [[v h1]|e]; cbn [bind]; [|reflexivity].
    destruct (input_value fuel h1 ip) as [[x h2]|e]; cbn [bind]; [|reflexivity].
    destruct (destination_of sts ch) as [d|e]; cbn [bind]; [|reflexivity].
    now rewrite (transition_report_plain c _ _ _
                   (plain_merge_variables_dst iv vs (variables d) Hiv Hp)).
Qed.

Lemma MarkovState_forward_plain fuel sts s t h c :
  plain_state s = true ->
  MarkovState_forward fuel sts s t h c
  = MarkovState_forward_core fuel sts s t h c.
Proof.
  unfold plain_state. intros Hp. apply andb_true_iff in Hp.
  destruct Hp as [Hvs Hch].
  unfold MarkovState_forward, MarkovState_forward_core.
  rewrite (forward_children_plain fuel sts (children s)); auto.
  - apply Forall_forall. intros n _ Hn. now apply Node_forward_plain.
  - now apply plain_zero_variables.
Qed.

Lemma MarkovState_start_plain fuel sts s t m h c :
  plain_state s = true ->
  MarkovState_start fuel sts s t m h c
  = MarkovState_start_core fuel sts s t m h c.
Proof.
  intros Hp. pose proof Hp as Hp'. unfold plain_state in Hp'.
  apply andb_true_iff in Hp'. destruct Hp' as [Hvs _].
  unfold MarkovState_start, MarkovState_start_core. cbn [variables].
  rewrite (state_report_plain _ _ Hvs). cbn [bind].
  destruct (handle_node_message c _ _) as [c1|e]; cbn [bind]; [|reflexivity].
  cbn [alloc]. now apply MarkovState_forward_plain.
Qed.

Lemma plain_node_reset n : plain_node (Node_reset n) = plain_node n.
Proof.
  induction n as [nm p vs ch IH | nm p vs ch cum cumv] using Node_ind_children;
    [|reflexivity].
  cbn [Node_reset plain_node]. f_equal. now apply forallb_map_reset.
Qed.

Lemma plain_state_same s0 s :
  same_state s0 s -> plain_state s = plain_state s0.
Proof.
  intros [_ [Hv Hc]]. unfold plain_state. rewrite Hv. f_equal.
  exact (skeleton_forallb plain_node _ _ plain_node_reset Hc).
Qed.

Lemma plain_names_skeleton sts0 sts :
  same_skeleton sts0 sts -> plain_names sts = plain_names sts0.
Proof.
  unfold plain_names. induction 1 as [|s0 s l0 l Hs _ IH]; [reflexivity|].
  cbn [forallb]. now rewrite (plain_state_same _ _ Hs), IH.
Qed.

Lemma plain_names_nth sts i s :
  plain_names sts = true -> nth_error sts i = Some s -> plain_state s = true.
Proof.
  unfold plain_names. rewrite forallb_forall. intros H Hi.
  apply H. eapply nth_error_In; eauto.
Qed.

Lemma send_to_node_plain fuel node t m c sts h :
  plain_names sts = true ->
  send_to_node fuel node t m c sts h = send_to_node_core fuel node t m c sts h.
Proof.
  intros Hp. unfold send_to_node, send_to_node_core.
  destruct (lookup c sts node) as [[i| | |]|e]; cbn [bind]; try reflexivity.
  destruct (nth_error sts i) as [s|] eqn:Hi; [|reflexivity].
  destruct m as [x|l]; [|reflexivity].
  now rewrite (MarkovState_start_plain fuel sts s t x h c
                 (plain_names_nth _ _ _ Hp Hi)).
Qed.

Lemma send_to_node_core_skeleton fuel node t m c sts h c' sts' h' :
  send_to_node_core fuel node t m c sts h = Ok (c', sts', h') ->
  same_skeleton sts sts'.
Proof.
  intros H.
  destruct (send_to_node_Ok _ _ _ _ _ _ _ _ _ _ H)
    as [i [s [s' [x [_ [Hi [_ [-> Hst]]]]]]]].
  destruct (MarkovState_start_keys _ _ _ _ _ _ _ _ _ _ Hst)
    as [_ [_ [Hn [Hv Hc]]]].
  exact (same_skeleton_update sts sts i s s' (same_skeleton_refl sts) Hi Hn Hv Hc).
Qed.

Lemma send_all_plain fuel items :
  forall c sts h,
    plain_names sts = true ->
    send_all fuel items c sts h = send_all_core fuel items c sts h.
Proof.
  induction items as [|[node m] items IH]; intros c sts h Hp; [reflexivity|].
  cbn [send_all send_all_core]. rewrite (send_to_node_plain _ _ _ _ _ _ _ Hp).
  destruct (send_to_node_core fuel node (model_time c) m c sts h)
    as [[[c1 sts1] h1]|e] eqn:E; cbn [bind]; [|reflexivity].
  apply IH.
  now rewrite (plain_names_skeleton _ _ (send_to_node_core_skeleton _ _ _ _ _ _ _ _ _ _ E)).
Qed.

Lemma start_one_cycle_plain fuel c sts h :
  plain_names sts = true ->
  start_one_cycle fuel c sts h = start_one_cycle_core fuel c sts h.
Proof. apply send_all_plain. Qed.

Lemma cycles_plain fuel n :
  forall c sts h,
    plain_names sts = true ->
    cycles fuel n c sts h = cycles_core fuel n c sts h.
Proof.
  induction n as [|n IH]; intros c sts h Hp; [reflexivity|].
  cbn [cycles cycles_core]. rewrite (start_one_cycle_plain _ _ _ _ Hp).
  destruct (start_one_cycle_core fuel c sts h) as [[[c1 sts1] h1]|e] eqn:E;
    cbn [bind]; [|reflexivity].
  apply IH.
  destruct (start_one_cycle_config fuel sts c sts h c1 sts1 h1
              (same_skeleton_refl sts) E) as [_ Hsk].
  now rewrite (plain_names_skeleton _ _ Hsk).
Qed.

Lemma same_skeleton_trans sts0 sts1 sts2 :
  same_skeleton sts0 sts1 -> same_skeleton sts1 sts2 -> same_skeleton sts0 sts2.
Proof.
  unfold same_skeleton. intros H. revert sts2.
  induction H as [|s0 s1 l0 l1 [A1 [A2 A3]] _ IH]; intros sts2 H2;
    inversion H2 as [|? s2 ? l2 [B1 [B2 B3]] Hl]; subst; constructor.
  - repeat split; congruence.
  - now apply IH.
Qed.

Lemma reset_children_skeleton ids :
  forall sts sts',
    reset_children ids sts = Ok sts' -> same_skeleton sts sts'.
Proof.
  induction ids as [|i ids IH]; intros sts sts' H.
  - inversion H; subst. apply same_skeleton_refl.
  - cbn [reset_children] in H. unfold reset_state_at in H.
    destruct (nth_error sts i) as [s|] eqn:Hi; cbn [bind] in H; [|discriminate].
    apply (same_skeleton_trans _ (update sts i (MarkovState_reset s))).
    + apply (same_skeleton_update sts sts i s); auto using same_skeleton_refl.
      cbn. rewrite map_map. apply map_ext. intros n. apply Node_reset_idem.
    + now apply IH.
Qed.

(** Where no variable bears a reserved name, [run] is the computation of
    the proofs. *)
Lemma run_plain fuel c sts h :
  plain_names sts = true ->
  run fuel c sts h = run_core fuel c sts h.
Proof.
  intros Hp. unfold run, run_core, reset.
  destruct (reset_children (ctrl_children (reset_memory c)) sts) as [sts1|e]
    eqn:E; cbn [bind]; [|reflexivity].
  destruct (get_states (ctrl_children (reset_memory c)) sts1) as [ss|e];
    cbn [bind]; [|reflexivity].
  destruct (seed_start_probs fuel ss h (next_cycle_start_prob (reset_memory c)))
    as [[nx h1]|e]; cbn [bind]; [|reflexivity].
  rewrite cycles_plain; [reflexivity|].
  now rewrite (plain_names_skeleton _ _ (reset_children_skeleton _ _ _ E)).
Qed.

(** * A run of the code *)

(** C2.  In a closed model (the controller owns the states of the store,
    whose initial probabilities sum to one; the children of every state and
    chance node sum to one at every cycle; every transition leads to one of
    the states), with names as the data model requires them, every row of
    the probability table that [run] returns sums to one, whatever the count
    method.  [run] does return its tables where every state is re-entered by
    some transition, or a single cycle is run, and no variable is named
    [self], [time], [input_prob], [prob] or [dst]. *)
Theorem mass_conservation fuel c sts h :
  (3 <= fuel)%nat ->
  ctrl_children c = seq 0 (List.length sts) ->
  unique_names sts ->
  closed_model c sts h = true ->
  ~ 1 + discount_rate c == 0 ->
  (forall prob_df variable_df w,
      run fuel c sts h = Ok (prob_df, variable_df, w) ->
      forall t, (t < total_cycles c)%nat -> row_sum prob_df t == 1) /\
  (reentered c sts ->
   plain_names sts = true ->
   exists prob_df variable_df w, run fuel c sts h = Ok (prob_df, variable_df, w)).
Proof.
  intros Hfuel Hch Huniq Hclosed Hrate.
  destruct (run_core_conserves_mass fuel c sts h Hfuel Hch Huniq Hclosed Hrate)
    as [Hrows Hret].
  split.
  - intros prob_df variable_df w Hrun.
    exact (Hrows prob_df variable_df w (run_refines _ _ _ _ _ Hrun)).
  - intros Hre Hplain. rewrite (run_plain _ _ _ _ Hplain). exact (Hret Hre).
Qed.

Lemma mass_conservation_witness :
  (3 <= 3)%nat /\
  ctrl_children (ab_controller 2 count_half) = seq 0 (List.length ab_store) /\
  unique_names ab_store /\
  closed_model (ab_controller 2 count_half) ab_store ab_heap = true /\
  ~ 1 + discount_rate (ab_controller 2 count_half) == 0 /\
  reentered (ab_controller 2 count_half) ab_store /\
  plain_names ab_store = true /\
  exists prob_df variable_df w,
    run 3 (ab_controller 2 count_half) ab_store ab_heap
    = Ok (prob_df, variable_df, w) /\
    forall t, (t < total_cycles (ab_controller 2 count_half))%nat ->
              row_sum prob_df t == 1.
Proof.
  assert (H5 : ~ 1 + discount_rate (ab_controller 2 count_half) == 0)
    by (intros H; discriminate H).
  split; [apply le_n|]. split; [reflexivity|].
  split; [exact ab_unique_names|]. split; [reflexivity|].
  split; [exact H5|]. split; [exact (ab_reentered 2 count_half)|].
  split; [reflexivity|].
  destruct (mass_conservation 3 (ab_controller 2 count_half) ab_store ab_heap
              (le_n 3) eq_refl ab_unique_names eq_refl H5) as [Hrows Hret].
  destruct (Hret (ab_reentered 2 count_half) eq_refl) as [p [v [w Hrun]]].
  exists p, v, w. split; [exact Hrun|]. exact (Hrows p v w Hrun).
Defined.

(** ** The tables [run] returns, in a closed model with plain names *)

(** The probability table is the Markov trace of the model, with the count
    method's correction.  Let the occupancy of a state at cycle 0 be its
    initial probability and, at cycle [t + 1], the sum over the states of
    their occupancy at cycle [t] times the probability, at cycle [t], of the
    paths from them into the state.  In a closed model where every state is
    re-entered and no variable is named [self], [time], [input_prob], [prob]
    or [dst], [run] returns a table whose entry for state [k] at cycle [t]
    is the occupancy at [t] for ['start'], the occupancy at [t + 1] for
    ['end'], and their mean for ['half']. *)
Theorem probability_table_is_markov_trace fuel c sts h :
  (3 <= fuel)%nat ->
  ctrl_children c = seq 0 (List.length sts) ->
  unique_names sts ->
  plain_names sts = true ->
  closed_model c sts h = true ->
  reentered c sts ->
  ~ 1 + discount_rate c == 0 ->
  exists prob_df variable_df w,
    run fuel c sts h = Ok (prob_df, variable_df, w) /\
    forall k t,
      In k (state_names sts) -> (t < total_cycles c)%nat ->
      nth t (dd_get prob_df k) 0
      == selected (count_method c) (occupancy sts h t k)
           (occupancy sts h (S t) k).
Proof.
  intros Hfuel Hch Huniq Hplain Hclosed Hre Hrate.
  rewrite (run_plain _ _ _ _ Hplain).
  exact (run_core_markov_trace fuel c sts h Hfuel Hch Huniq Hclosed Hre Hrate).
Qed.

Lemma probability_table_is_markov_trace_witness :
  (3 <= 3)%nat /\
  ctrl_children (ab_controller 2 count_half) = seq 0 (List.length ab_store) /\
  unique_names ab_store /\
  plain_names ab_store = true /\
  closed_model (ab_controller 2 count_half) ab_store ab_heap = true /\
  reentered (ab_controller 2 count_half) ab_store /\
  ~ 1 + discount_rate (ab_controller 2 count_half) == 0 /\
  exists prob_df variable_df w,
    run 3 (ab_controller 2 count_half) ab_store ab_heap
    = Ok (prob_df, variable_df, w) /\
    forall k t,
      In k (state_names ab_store) ->
      (t < total_cycles (ab_controller 2 count_half))%nat ->
      nth t (dd_get prob_df k) 0
      == selected (count_method (ab_controller 2 count_half))
           (occupancy ab_store ab_heap t k)
           (occupancy ab_store ab_heap (S t) k).
Proof.
  assert (H5 : ~ 1 + discount_rate (ab_controller 2 count_half) == 0)
    by (intros H; discriminate H).
  split; [apply le_n|]. split; [reflexivity|].
  split; [exact ab_unique_names|]. split; [reflexivity|].
  split; [reflexivity|].
  split; [exact (ab_reentered 2 count_half)|]. split; [exact H5|].
  exact (probability_table_is_markov_trace 3 (ab_controller 2 count_half)
           ab_store ab_heap (le_n 3) eq_refl ab_unique_names eq_refl eq_refl
           (ab_reentered 2 count_half) H5).
Defined.

(** The tables [run] returns have one row per cycle.  In a closed model
    where every state is re-entered and no variable bears a reserved name,
    run for at least one cycle, the probability table has one column per
    state, each state once, and the table of variables one column per
    variable name that a state or a transition reports, each once; every
    column has [total_cycles] entries. *)
Theorem tables_have_a_row_per_cycle fuel c sts h :
  (3 <= fuel)%nat ->
  ctrl_children c = seq 0 (List.length sts) ->
  unique_names sts ->
  plain_names sts = true ->
  closed_model c sts h = true ->
  reentered c sts ->
  ~ 1 + discount_rate c == 0 ->
  total_cycles c <> O ->
  exists prob_df variable_df w,
    run fuel c sts h = Ok (prob_df, variable_df, w) /\
    Permutation (dict_keys prob_df) (state_names sts) /\
    (forall k l, dict_get prob_df k = Some l ->
                 List.length l = total_cycles c) /\
    NoDup (dict_keys variable_df) /\
    (forall k, In k (dict_keys variable_df) <-> In k (all_var_keys sts)) /\
    (forall k l, dict_get variable_df k = Some l ->
                 List.length l = total_cycles c).
Proof.
  intros Hfuel Hch Huniq Hplain Hclosed Hre Hrate Hn.
  rewrite (run_plain _ _ _ _ Hplain).
  exact (run_core_rows_per_cycle fuel c sts h Hfuel Hch Huniq Hclosed Hre Hrate
           Hn).
Qed.

Lemma tables_have_a_row_per_cycle_witness :
  (3 <= 3)%nat /\
  ctrl_children (priced_controller 2 count_half)
  = seq 0 (List.length priced_store) /\
  unique_names priced_store /\
  plain_names priced_store = true /\
  closed_model (priced_controller 2 count_half) priced_store ab_heap = true /\
  reentered (priced_controller 2 count_half) priced_store /\
  ~ 1 + discount_rate (priced_controller 2 count_half) == 0 /\
  total_cycles (priced_controller 2 count_half) <> O /\
  exists prob_df variable_df w,
    run 3 (priced_controller 2 count_half) priced_store ab_heap
    = Ok (prob_df, variable_df, w) /\
    Permutation (dict_keys prob_df) (state_names priced_store) /\
    (forall k l, dict_get prob_df k = Some l ->
                 List.length l = total_cycles (priced_controller 2 count_half)) /\
    NoDup (dict_keys variable_df) /\
    (forall k, In k (dict_keys variable_df)
               <-> In k (all_var_keys priced_store)) /\
    (forall k l, dict_get variable_df k = Some l ->
                 List.length l = total_cycles (priced_controller 2 count_half)).
Proof.
  assert (H5 : ~ 1 + discount_rate (priced_controller 2 count_half) == 0)
    by (intros H; discriminate H).
  assert (H6 : total_cycles (priced_controller 2 count_half) <> O)
    by discriminate.
  split; [apply le_n|]. split; [reflexivity|].
  split; [exact priced_unique_names|]. split; [reflexivity|].
  split; [reflexivity|].
  split; [exact (priced_reentered 2 count_half)|]. split; [exact H5|].
  split; [exact H6|].
  exact (tables_have_a_row_per_cycle 3 (priced_controller 2 count_half)
           priced_store ab_heap (le_n 3) eq_refl priced_unique_names eq_refl
           eq_refl (priced_reentered 2 count_half) H5 H6).
Defined.

(** The table of variables holds the discounted values expected along the
    Markov trace.  A transition reports, under a variable name of its own,
    of the state or of a chance node on the path from the state, the sum of
    the values of the chance nodes on the path, its own and its
    destination's.  Let the reward of cycle [t] be the sum, over the
    states and the transitions below them, of the occupancy of the state at
    [t] times the probability of the path at [t] times the reported value.
    In a closed model where every state is re-entered, the variables of a
    state have distinct names and none is named [self], [time],
    [input_prob], [prob] or [dst], [run] returns a table
    whose entry for the variable [v] at cycle [t] is, divided by
    [(1 + discount_rate) ^ t]: for ['end'] the reward of cycle [t]; for
    ['start'] the reward of the cycle before and, at cycle 0, the states'
    own values weighted by the initial occupancies; for ['half'] the mean of
    the two. *)
Theorem variable_table_is_discounted_reward fuel c sts h :
  (3 <= fuel)%nat ->
  ctrl_children c = seq 0 (List.length sts) ->
  unique_names sts ->
  distinct_variables sts ->
  plain_names sts = true ->
  closed_model c sts h = true ->
  reentered c sts ->
  ~ 1 + discount_rate c == 0 ->
  exists prob_df variable_df w,
    run fuel c sts h = Ok (prob_df, variable_df, w) /\
    forall v t,
      In v (all_var_keys sts) -> (t < total_cycles c)%nat ->
      nth t (dd_get variable_df v) 0
      == selected (count_method c) (entry_reward sts h t v)
           (cycle_reward sts h t v)
         / (1 + discount_rate c) ^ Z.of_nat t.
Proof.
  intros Hfuel Hch Huniq Hdist Hplain Hclosed Hre Hrate.
  rewrite (run_plain _ _ _ _ Hplain).
  exact (run_core_discounted_reward fuel c sts h Hfuel Hch Huniq Hdist Hclosed
           Hre Hrate).
Qed.

Lemma variable_table_is_discounted_reward_witness :
  (3 <= 3)%nat /\
  ctrl_children (priced_controller 2 count_half)
  = seq 0 (List.length priced_store) /\
  unique_names priced_store /\
  distinct_variables priced_store /\
  plain_names priced_store = true /\
  closed_model (priced_controller 2 count_half) priced_store ab_heap = true /\
  reentered (priced_controller 2 count_half) priced_store /\
  ~ 1 + discount_rate (priced_controller 2 count_half) == 0 /\
  exists prob_df variable_df w,
    run 3 (priced_controller 2 count_half) priced_store ab_heap
    = Ok (prob_df, variable_df, w) /\
    forall v t,
      In v (all_var_keys priced_store) ->
      (t < total_cycles (priced_controller 2 count_half))%nat ->
      nth t (dd_get variable_df v) 0
      == selected (count_method (priced_controller 2 count_half))
           (entry_reward priced_store ab_heap t v)
           (cycle_reward priced_store ab_heap t v)
         / (1 + discount_rate (priced_controller 2 count_half)) ^ Z.of_nat t.
Proof.
  assert (H7 : ~ 1 + discount_rate (priced_controller 2 count_half) == 0)
    by (intros H; discriminate H).
  split; [apply le_n|]. split; [reflexivity|].
  split; [exact priced_unique_names|].
  split; [exact priced_distinct_variables|]. split; [reflexivity|].
  split; [reflexivity|].
  split; [exact (priced_reentered 2 count_half)|]. split; [exact H7|].
  exact (variable_table_is_discounted_reward 3 (priced_controller 2 count_half)
           priced_store ab_heap (le_n 3) eq_refl priced_unique_names
           priced_distinct_variables eq_refl eq_refl
           (priced_reentered 2 count_half) H7).
Defined.

(** ** When [run] does not return, and what it leaves when it does *)

(** Every state must be the destination of some transition.  In a closed
    model run for two cycles or more, a state that no transition leads to
    is reported at cycle 0 only: its column stays shorter than the others,
    and [run] does not return its tables. *)
Theorem run_fails_if_a_state_is_never_reentered fuel c sts h k0 :
  (3 <= fuel)%nat ->
  ctrl_children c = seq 0 (List.length sts) ->
  unique_names sts ->
  closed_model c sts h = true ->
  ~ 1 + discount_rate c == 0 ->
  (2 <= total_cycles c)%nat ->
  In k0 (state_names sts) ->
  ~ In k0 (all_dst_names sts) ->
  forall r, run fuel c sts h <> Ok r.
Proof.
  intros H1 H2 H3 H4 H5 H6 H7 H8 r Hrun.
  exact (run_raises fuel c sts h k0 H1 H2 H3 H4 H5 H6 H7 H8 r
           (run_refines _ _ _ _ r Hrun)).
Qed.

Lemma run_fails_if_a_state_is_never_reentered_witness :
  (3 <= 3)%nat /\
  ctrl_children (ab_controller 2 count_half) = seq 0 (List.length landing_store) /\
  unique_names landing_store /\
  closed_model (ab_controller 2 count_half) landing_store ab_heap = true /\
  ~ 1 + discount_rate (ab_controller 2 count_half) == 0 /\
  (2 <= total_cycles (ab_controller 2 count_half))%nat /\
  In "A" (state_names landing_store) /\
  ~ In "A" (all_dst_names landing_store) /\
  forall r, run 3 (ab_controller 2 count_half) landing_store ab_heap <> Ok r.
Proof.
  assert (H5 : ~ 1 + discount_rate (ab_controller 2 count_half) == 0)
    by (intros H; discriminate H).
  assert (H7 : In "A" (state_names landing_store)) by (left; reflexivity).
  assert (H8 : ~ In "A" (all_dst_names landing_store))
    by (simpl; intuition discriminate).
  split; [apply le_n|]. split; [reflexivity|].
  split; [exact landing_unique_names|]. split; [reflexivity|].
  split; [exact H5|]. split; [apply le_n|]. split; [exact H7|].
  split; [exact H8|].
  exact (run_fails_if_a_state_is_never_reentered 3 (ab_controller 2 count_half)
           landing_store ab_heap "A" (le_n 3) eq_refl landing_unique_names
           eq_refl H5 (le_n 2) H7 H8).
Defined.

(** Whenever [run] returns, the tables are the controller's accumulated
    totals, the clock [model_time] stands at [total_cycles], the children
    and the settings are as before, the accumulators of the cycle are empty
    and every start mass kept for a next cycle is a number. *)
Theorem run_ends_at_total_cycles fuel c sts h prob_df variable_df c2 sts2 h2 :
  run fuel c sts h = Ok (prob_df, variable_df, (c2, sts2, h2)) ->
  model_time c2 = total_cycles c /\
  (ctrl_children c2, total_cycles c2, count_method c2, discount_rate c2)
  = (ctrl_children c, total_cycles c, count_method c, discount_rate c) /\
  cycle_probs c2 = [] /\ cycle_variables c2 = [] /\
  all_scalar (next_cycle_start_prob c2) /\
  prob_df = total_probs c2 /\ variable_df = total_variables c2.
Proof.
  intros H.
  exact (run_core_ends_at_total_cycles fuel c sts h prob_df variable_df c2 sts2
           h2 (run_refines _ _ _ _ _ H)).
Qed.

Lemma run_ends_at_total_cycles_witness :
  exists prob_df variable_df c2 sts2 h2,
    run 3 (ab_controller 2 count_half) ab_store ab_heap
    = Ok (prob_df, variable_df, (c2, sts2, h2)) /\
    model_time c2 = 2%nat /\
    cycle_probs c2 = [] /\
    prob_df = total_probs c2.
Proof.
  destruct (run 3 (ab_controller 2 count_half) ab_store ab_heap)
    as [[[p v] [[c2 sts2] h2]]|e] eqn:E; [|vm_compute in E; discriminate E].
  exists p, v, c2, sts2, h2. split; [reflexivity|].
  pose proof (run_ends_at_total_cycles 3 (ab_controller 2 count_half) ab_store
                ab_heap p v c2 sts2 h2 E) as [H1 [_ [H3 [_ [_ [H6 _]]]]]].
  split; [exact H1|]. split; [exact H3|exact H6].
Defined.

(** * [start] and [forward] of the code *)

(** ** [MarkovState.start]: the report *)

(** C4, as the code has it.  [start] notifies the controller and then
    forwards.  The state it reports as has its history extended by the start,
    and the report is [{'prob': [w0; 0], **variables}], where [w0] is the
    delivered mass [m] at cycle 0, from the empty history left by a reset,
    and 0 at a later cycle, the history being that of the starts at the
    cycles before: there the delivered mass is not in the window, the
    occupancy of the state being reported by the transitions that lead into
    it.  The mediator files what the count method selects from that window
    under the name of the state; the children are then entered with the
    delivered mass as a fresh probability object, and when [start] returns
    the history of the state is that of one more start.  The state has no
    variable named [prob], which would take the place of the window. *)
Theorem start_window_by_cycle fuel sts s t m m0 h c :
  initial_prob s = history_before t m0 ->
  dict_mem (variables s) "prob" = false ->
  ~ 1 + discount_rate c == 0 ->
  let w0 := match t with O => m | S _ => 0 end in
  let hist := history_before (S t) (match t with O => m | S _ => m0 end) in
  exists c1 p,
    handle_node_message c
      (AState (mkState (node_name s) (trans_prob s) (variables s) (children s)
                 hist))
      (mkPayload None [w0; 0] (variables s)) = Ok c1 /\
    p == selected (count_method c) w0 0 /\
    cycle_probs c1 = dd_append (cycle_probs c) (node_name s) p /\
    next_cycle_start_prob c1 = next_cycle_start_prob c /\
    MarkovState_start fuel sts s t m h c
    = MarkovState_forward fuel sts
        (mkState (node_name s) (List.length h) (variables s) (children s) hist)
        t (h ++ [constant m]) c1 /\
    forall s' h' c',
      MarkovState_start fuel sts s t m h c = Ok (s', h', c') ->
      initial_prob s' = hist.
Proof.
  intros Hhist Hprob Hrate w0 hist.
  destruct (start_shape s t m m0 Hhist) as [Hwin Hhis].
  assert (Hwin' : start_window s t m = [w0; 0]) by (destruct t; exact Hwin).
  set (s1 := mkState (node_name s) (trans_prob s) (variables s) (children s)
               hist).
  destruct (handle_node_message_reporter c (AState s1)
              (mkPayload None [w0; 0] (variables s)) (node_name s) w0 0
              eq_refl eq_refl Hrate ltac:(intros H; discriminate H))
    as [p [nx [_ [Hsel [Hnx Hh]]]]].
  cbn [is_transition] in Hnx. subst nx.
  eexists; exists p. split; [exact Hh|]. split; [exact Hsel|].
  split; [reflexivity|]. split; [reflexivity|].
  assert (E : MarkovState_start fuel sts s t m h c
              = MarkovState_forward fuel sts
                  (mkState (node_name s) (List.length h) (variables s)
                     (children s) hist)
                  t (h ++ [constant m])
                  (set_cycle (set_next c (next_cycle_start_prob c))
                     (dd_append (cycle_probs c) (node_name s) p)
                     (fold_left
                        (fun acc kv =>
                           dd_append acc (fst kv)
                             ((snd kv * p)
                              / (1 + discount_rate c)
                                ^ Z.of_nat (model_time c)))
                        (variables s) (cycle_variables c)))).
  { unfold MarkovState_start, state_report. cbn [variables].
    rewrite Hprob, Hwin', Hhis. cbn [bind].
    fold hist. fold s1. rewrite Hh. cbn [bind alloc]. reflexivity. }
  split; [exact E|].
  intros s' h' c' Hst. rewrite E in Hst. unfold MarkovState_forward in Hst.
  destruct (forward_children _ _ _ _ _ _ _ _) as [[[ch' h2] c2]|e];
    cbn [bind] in Hst; [|discriminate].
  now inversion Hst.
Qed.

Lemma start_window_by_cycle_witness :
  initial_prob (mkState "A" 0%nat [("cost", 50)] [] [1; 0])
  = history_before 1 1 /\
  dict_mem (variables (mkState "A" 0%nat [("cost", 50)] [] [1; 0])) "prob"
  = false /\
  ~ 1 + discount_rate (ab_controller 2 count_start) == 0 /\
  exists c1 p,
    handle_node_message (ab_controller 2 count_start)
      (AState (mkState "A" 0%nat [("cost", 50)] [] [1; 0; 0]))
      (mkPayload None [0; 0] [("cost", 50)]) = Ok c1 /\
    p == 0 /\
    cycle_probs c1 = [("A", [p])] /\
    next_cycle_start_prob c1 = [] /\
    MarkovState_start 3 ab_store (mkState "A" 0%nat [("cost", 50)] [] [1; 0])
      1 (1 # 2) ab_heap (ab_controller 2 count_start)
    = MarkovState_forward 3 ab_store
        (mkState "A" 6%nat [("cost", 50)] [] [1; 0; 0])
        1 (ab_heap ++ [constant (1 # 2)]) c1 /\
    forall s' h' c',
      MarkovState_start 3 ab_store (mkState "A" 0%nat [("cost", 50)] [] [1; 0])
        1 (1 # 2) ab_heap (ab_controller 2 count_start) = Ok (s', h', c') ->
      initial_prob s' = [1; 0; 0].
Proof.
  assert (H3 : ~ 1 + discount_rate (ab_controller 2 count_start) == 0)
    by (intros H; discriminate H).
  split; [reflexivity|]. split; [reflexivity|]. split; [exact H3|].
  exact (start_window_by_cycle 3 ab_store
           (mkState "A" 0%nat [("cost", 50)] [] [1; 0]) 1 (1 # 2) 1 ab_heap
           (ab_controller 2 count_start) eq_refl eq_refl H3).
Defined.

(** C4 as stated fails at cycle 1.  State A of the two-state model is started
    at cycle 0 with mass 1 and, the cycle ended and the start masses taken
    as [start_one_cycle] does, at cycle 1 with the mass 1/2 that its
    transitions left for it.  With the count method ['start'], which
    selects the first element of a window, the first number filed under A at
    cycle 1, the one of the state's own report, is 0 and not the delivered
    1/2; the second is the report of the transition from A to A. *)
Lemma start_window_cycle1_not_mass :
  exists s1 h1 c1 s2 h2 c2,
    MarkovState_start 3 ab_store ab_state_a 0 1 ab_heap
      (ab_controller 2 count_start) = Ok (s1, h1, c1)
    /\ dict_get (next_cycle_start_prob (end_one_cycle c1)) "A"
       = Some (Scalar (1 # 2))
    /\ MarkovState_start 3 ab_store s1 1 (1 # 2) h1
         (set_next (end_one_cycle c1) []) = Ok (s2, h2, c2)
    /\ dd_get (cycle_probs c2) "A" = [0; 1 # 2]
    /\ ~ nth 0 (dd_get (cycle_probs c2) "A") 0 == 1 # 2.
Proof.
  do 6 eexists. split; [vm_compute; reflexivity|].
  split; [vm_compute; reflexivity|].
  split; [vm_compute; reflexivity|].
  split; [vm_compute; reflexivity|]. vm_compute. discriminate.
Qed.

(** ** [MarkovState.start] outside a run *)

(** [start] at a cycle [t >= 1] needs the history left by the starts at the
    cycles before: when [initial_prob] has at most [t] entries, the window
    [initial_prob[t:t+2]] has fewer than two elements and the mediator raises
    [IndexError] on it before anything is forwarded.  If the state has a
    variable named [prob], its number takes the place of the window in the
    report and the mediator raises [TypeError] instead. *)
Theorem start_without_history_raises fuel sts s t m h c :
  (1 <= t)%nat ->
  (List.length (initial_prob s) <= t)%nat ->
  MarkovState_start fuel sts s t m h c
  = Err (if dict_mem (variables s) "prob" then TypeError else IndexError).
Proof.
  intros Ht Hlen. unfold MarkovState_start, state_report. cbn [variables].
  destruct (dict_mem (variables s) "prob"); [reflexivity|].
  unfold handle_node_message. cbn [bind prob].
  assert (Hw : start_window s t m = [] \/ exists x, start_window s t m = [x]).
  { unfold start_window. apply slice_short. unfold start_history.
    destruct (Nat.eqb_spec t 0) as [->|_]; [lia|].
    rewrite length_app. cbn. lia. }
  destruct Hw as [-> | [x ->]]; reflexivity.
Qed.

Lemma start_without_history_raises_witness :
  (1 <= 1)%nat /\
  (List.length (initial_prob ab_state_a) <= 1)%nat /\
  MarkovState_start 3 ab_store ab_state_a 1%nat (1 # 2) ab_heap
    (ab_controller 2 count_start) = Err IndexError.
Proof.
  split; [apply le_n|]. split; [apply le_0_n|].
  exact (start_without_history_raises 3 ab_store ab_state_a 1%nat (1 # 2) ab_heap
           (ab_controller 2 count_start) (le_n 1) (le_0_n 1)).
Defined.

(** ** [forward]: the variables passed down and reported *)

(** [Node.forward] enters its children with the union-sum of the variables
    it was entered with and its own: every name of either is there with the
    sum of its two values (a missing one counting as 0), and no other name.
    If one of these names is [self], [time] or [input_prob], the call of the
    first child raises [TypeError]; otherwise the children are entered in
    turn with the mass the node was entered with times its probability. *)
Theorem chance_node_variables_union_sum
  fuel sts nm p vs n0 ch t ip iv h c v h1 x h2 :
  value fuel h p (Some t) = Ok (v, h1) ->
  input_value fuel h1 ip = Ok (x, h2) ->
  exists output_variables,
    (forall k, dict_get output_variables k
               = if dict_mem iv k || dict_mem vs k
                 then Some (dict_get0 iv k + dict_get0 vs k)
                 else None) /\
    Node_forward fuel sts (ChanceNode nm p vs (n0 :: ch)) t ip iv h c
    = if has_parameter_name output_variables then Err TypeError
      else
        '(n1, h3, c1) <- Node_forward fuel sts n0 t (InFloat (x * v))
                           output_variables h2 c ;;
        '(l1, h4, c2) <- forward_children fuel sts ch t (InFloat (x * v))
                           output_variables h3 c1 ;;
        Ok (ChanceNode nm p vs (n1 :: l1), h4, c2).
Proof.
  intros Hv Hx. exists (merge_variables iv vs). split.
  - intros k. unfold merge_variables.
    rewrite (fold_dict_set_get (fun k => dict_get0 iv k + dict_get0 vs k)).
    now rewrite mem_keys_union.
  - rewrite Node_forward_children, Hv. cbn [bind]. rewrite Hx.
    cbn [bind forward_children].
    destruct (has_parameter_name (merge_variables iv vs)); [reflexivity|].
    destruct (Node_forward fuel sts n0 t (InFloat (x * v))
                (merge_variables iv vs) h2 c) as [[[n1 h3] c1]|e];
      cbn [bind]; [|reflexivity].
    destruct (forward_children fuel sts ch t (InFloat (x * v))
                (merge_variables iv vs) h3 c1) as [[[l1 h4] c2]|e];
      reflexivity.
Qed.

Lemma chance_node_variables_union_sum_witness :
  value 3 ab_heap 2%nat (Some 0%nat) = Ok (1 # 2, ab_heap) /\
  input_value 3 ab_heap (InFloat 1) = Ok (1, ab_heap) /\
  exists output_variables,
    (forall k, dict_get output_variables k
               = if dict_mem [("cost", 20); ("time", 1)] k
                    || dict_mem [("cost", 30); ("utility", 1)] k
                 then Some (dict_get0 [("cost", 20); ("time", 1)] k
                            + dict_get0 [("cost", 30); ("utility", 1)] k)
                 else None) /\
    Node_forward 3 ab_store
      (ChanceNode "k" 2%nat [("cost", 30); ("utility", 1)]
         [StateTransition "k_to_b" 4%nat [] [ChildState 1%nat] [] []])
      0 (InFloat 1) [("cost", 20); ("time", 1)] ab_heap
      (ab_controller 2 count_half)
    = if has_parameter_name output_variables then Err TypeError
      else
        '(n1, h3, c1) <- Node_forward 3 ab_store
                           (StateTransition "k_to_b" 4%nat [] [ChildState 1%nat]
                              [] [])
                           0 (InFloat (1 * (1 # 2))) output_variables ab_heap
                           (ab_controller 2 count_half) ;;
        '(l1, h4, c2) <- forward_children 3 ab_store [] 0
                           (InFloat (1 * (1 # 2))) output_variables h3 c1 ;;
        Ok (ChanceNode "k" 2%nat [("cost", 30); ("utility", 1)] (n1 :: l1),
            h4, c2).
Proof.
  split; [reflexivity|]. split; [reflexivity|].
  exact (chance_node_variables_union_sum 3 ab_store "k" 2%nat
           [("cost", 30); ("utility", 1)]
           (StateTransition "k_to_b" 4%nat [] [ChildState 1%nat] [] []) []
           0%nat (InFloat 1) [("cost", 20); ("time", 1)] ab_heap
           (ab_controller 2 count_half) (1 # 2) ab_heap 1 ab_heap
           eq_refl eq_refl).
Defined.

(** [MarkovState.forward] enters its children with zeros under the state's
    variable names, so what a transition directly below a state reports is,
    under every name of the state or of the transition, the transition's own
    value plus the destination's: the value of the state being left is not
    in it.  No other name is reported.  Names are plain: none is a parameter
    of [forward] or a key of the report. *)
Theorem transition_below_state_reports_own_plus_destination
  fuel sts s nm p own ch cum cumv rest t h c v h1 x h2 d :
  children s = StateTransition nm p own ch cum cumv :: rest ->
  plain_variables (variables s) = true ->
  plain_variables own = true ->
  value fuel h p (Some t) = Ok (v, h1) ->
  input_value fuel h1 (InObject (trans_prob s)) = Ok (x, h2) ->
  destination_of sts ch = Ok d ->
  exists reported,
    (forall k, dict_get reported k
               = if dict_mem (variables s) k || dict_mem own k
                 then Some (0 + dict_get0 own k + dict_get0 (variables d) k)
                 else None) /\
    MarkovState_forward fuel sts s t h c
    = (let cum2 := (if Nat.eqb t 0 then cum ++ [0] else cum) ++ [x * v] in
       let n' := StateTransition nm p own ch cum2 cumv in
       c1 <- handle_node_message c (ANode n')
               (mkPayload (Some (node_name d)) (slice cum2 t (t + 2))
                  reported) ;;
       '(l1, h3, c2) <- forward_children fuel sts rest t
                          (InObject (trans_prob s))
                          (zero_variables (variables s)) h2 c1 ;;
       Ok (mkState (node_name s) (trans_prob s) (variables s) (n' :: l1)
             (initial_prob s), h3, c2)).
Proof.
  intros Hch Hs Hown Hv Hx Hd.
  exists (merge_variables_dst (zero_variables (variables s)) own (variables d)).
  split.
  - intros k. rewrite merge_variables_dst_get, mem_keys_union.
    unfold dict_mem at 1, dict_get0 at 1. rewrite zero_variables_get.
    fold (dict_mem (variables s) k).
    destruct (dict_mem (variables s) k); reflexivity.
  - unfold MarkovState_forward. rewrite Hch.
    cbn [forward_children Node_forward].
    rewrite (plain_has_no_parameter_name _ (plain_zero_variables _ Hs)).
    rewrite Hv. cbn [bind]. rewrite Hx. cbn [bind]. rewrite Hd. cbn [bind].
    rewrite (transition_report_plain c _ _ _
               (plain_merge_variables_dst _ own (variables d)
                  (plain_zero_variables _ Hs) Hown)).
    cbn [bind]. cbv zeta.
    destruct (handle_node_message c _ _) as [c1|e]; cbn [bind]; [|reflexivity].
    destruct (forward_children fuel sts rest t (InObject (trans_prob s))
                (zero_variables (variables s)) h2 c1) as [[[l1 h3] c2]|e];
      reflexivity.
Qed.

Lemma transition_below_state_reports_own_plus_destination_witness :
  children (nth 0 priced_store ab_state_a)
  = StateTransition "a_to_a" 2%nat [("cost", 1)] [ChildState 0%nat] [] []
    :: [StateTransition "a_to_b" 3%nat [("cost", 20)] [ChildState 1%nat] [] []] /\
  plain_variables (variables (nth 0 priced_store ab_state_a)) = true /\
  plain_variables [("cost", 1)] = true /\
  value 3 ab_heap 2%nat (Some 0%nat) = Ok (1 # 2, ab_heap) /\
  input_value 3 ab_heap (InObject 0%nat) = Ok (1, ab_heap) /\
  destination_of priced_store [ChildState 0%nat]
  = Ok (nth 0 priced_store ab_state_a) /\
  exists reported,
    dict_get reported "cost" = Some (0 + 1 + 50) /\
    MarkovState_forward 3 priced_store (nth 0 priced_store ab_state_a) 0
      ab_heap (priced_controller 2 count_half)
    = (let cum2 := [0; 1 * (1 # 2)] in
       let n' := StateTransition "a_to_a" 2%nat [("cost", 1)]
                   [ChildState 0%nat] cum2 [] in
       c1 <- handle_node_message (priced_controller 2 count_half) (ANode n')
               (mkPayload (Some "A") (slice cum2 0 2) reported) ;;
       '(l1, h3, c2) <- forward_children 3 priced_store
                          [StateTransition "a_to_b" 3%nat [("cost", 20)]
                             [ChildState 1%nat] [] []]
                          0 (InObject 0%nat) (zero_variables [("cost", 50)])
                          ab_heap c1 ;;
       Ok (mkState "A" 0%nat [("cost", 50)] (n' :: l1) [], h3, c2)).
Proof.
  split; [reflexivity|]. split; [reflexivity|]. split; [reflexivity|].
  split; [reflexivity|]. split; [reflexivity|]. split; [reflexivity|].
  destruct (transition_below_state_reports_own_plus_destination
              3 priced_store (nth 0 priced_store ab_state_a) "a_to_a" 2%nat
              [("cost", 1)] [ChildState 0%nat] [] []
              [StateTransition "a_to_b" 3%nat [("cost", 20)]
                 [ChildState 1%nat] [] []]
              0%nat ab_heap (priced_controller 2 count_half) (1 # 2) ab_heap
              1 ab_heap (nth 0 priced_store ab_state_a)
              eq_refl eq_refl eq_refl eq_refl eq_refl eq_refl)
    as [reported [Hget Hfw]].
  exists reported. split; [exact (Hget "cost")|exact Hfw].
Defined.

(** * The mediator and [reset] at work *)

Lemma discounted_contribution_witness :
  report_key (AState ab_state_a) ab_report = Some "A" /\
  prob ab_report = [1; 0] /\
  ~ 1 + discount_rate discounting_controller == 0 /\
  (is_transition (AState ab_state_a) = true ->
   appendable (next_cycle_start_prob discounting_controller) "A" = true) /\
  NoDup (dict_keys (vars ab_report)) /\
  NoDup (dict_keys (cycle_variables discounting_controller)) /\
  dict_get (vars ab_report) "cost" = Some 50 /\
  discount_rate discounting_controller == 1 # 4 /\
  model_time discounting_controller = 2%nat /\
  exists c' p,
    handle_node_message discounting_controller (AState ab_state_a) ab_report
    = Ok c' /\
    select_prob (count_method discounting_controller) (prob ab_report)
    = Ok p /\
    p == 1 # 2 /\
    (50 * p) / (1 + (1 # 4)) ^ 2 == 16 /\
    let x := (50 * p)
             / (1 + discount_rate discounting_controller)
               ^ Z.of_nat (model_time discounting_controller) in
    dd_get (cycle_variables c') "cost"
    = dd_get (cycle_variables discounting_controller) "cost" ++ [x] /\
    dd_get (total_variables (end_one_cycle c')) "cost"
    = dd_get (total_variables discounting_controller) "cost"
      ++ [Qsum (dd_get (cycle_variables c') "cost")] /\
    Qsum (dd_get (cycle_variables c') "cost")
    == Qsum (dd_get (cycle_variables discounting_controller) "cost") + x.
Proof.
  assert (H3 : ~ 1 + discount_rate discounting_controller == 0)
    by (intros H; discriminate H).
  assert (H4 : is_transition (AState ab_state_a) = true ->
               appendable (next_cycle_start_prob discounting_controller)
                 "A" = true) by (intros H; discriminate H).
  assert (H5 : NoDup (dict_keys (vars ab_report)))
    by (repeat constructor; simpl; tauto).
  assert (H6 : NoDup (dict_keys (cycle_variables discounting_controller)))
    by constructor.
  repeat (split; [first [reflexivity | assumption]|]).
  destruct (discounted_contribution discounting_controller
              (AState ab_state_a) ab_report "A" 1 0 "cost" 50
              eq_refl eq_refl H3 H4 H5 H6 eq_refl) as [c' [p [Hh [Hp Hrest]]]].
  exists c', p. split; [exact Hh|]. split; [exact Hp|].
  assert (Ep : p = np_mean [1; 0]) by (vm_compute in Hp; now inversion Hp).
  split; [rewrite Ep; reflexivity|].
  split; [rewrite Ep; reflexivity|exact Hrest].
Defined.

Lemma transition_reset_frame_witness :
  nth_error running_store 0%nat = Some (nth 0 running_store ab_state_a) /\
  node_at [0%nat] (children (nth 0 running_store ab_state_a))
  = Some (StateTransition "a_to_a" 4%nat [] [ChildState 0%nat] [0; 1] []) /\
  (forall k, In k (ctrl_children running_controller) ->
             (k < List.length running_store)%nat) /\
  Node_reset (StateTransition "a_to_a" 4%nat [] [ChildState 0%nat] [0; 1] [])
  = StateTransition "a_to_a" 4%nat [] [ChildState 0%nat] [] [] /\
  (exists s',
      nth_error (call_reset running_store 0%nat [0%nat]) 0%nat = Some s' /\
      node_at [0%nat] (children s')
      = Some (StateTransition "a_to_a" 4%nat [] [ChildState 0%nat] [] [])) /\
  (forall j sj,
      nth_error running_store j = Some sj ->
      exists sj',
        nth_error (call_reset running_store 0%nat [0%nat]) j = Some sj' /\
        initial_prob sj' = initial_prob sj /\
        node_name sj' = node_name sj /\
        trans_prob sj' = trans_prob sj /\
        variables sj' = variables sj /\
        (j <> 0%nat -> sj' = sj)) /\
  (exists sts', reset running_controller running_store
                = Ok (reset_memory running_controller, sts')) /\
  call_reset running_store 0%nat [0%nat]
  = [mkState "A" 0%nat []
       [StateTransition "a_to_a" 4%nat [] [ChildState 0%nat] [] []] [1; 0]].
Proof.
  assert (H3 : forall k, In k (ctrl_children running_controller) ->
                         (k < List.length running_store)%nat).
  { simpl. intros k [<-|[]]. lia. }
  split; [reflexivity|]. split; [reflexivity|]. split; [exact H3|].
  destruct (transition_reset_frame running_store 0%nat
              (nth 0 running_store ab_state_a) [0%nat] "a_to_a"
              4%nat [] [ChildState 0%nat] [0; 1] [] running_controller
              eq_refl eq_refl H3) as [A [B [C D]]].
  split; [exact A|]. split; [exact B|]. split; [exact C|].
  split; [exact D|reflexivity].
Defined.

(** * Building the tree: [set_controller] returns *)

Lemma reaches_leaves_attaches ctl g g' :
  attaches ctl g g' ->
  forall fuel n, reaches_leaves fuel g' n = reaches_leaves fuel g n.
Proof.
  intros [Hlen Hat]. induction fuel as [|fuel IH]; intros n; [reflexivity|].
  cbn [reaches_leaves].
  destruct (nth_error g n) as [o|] eqn:Hn.
  - assert (E : forallb (fun c => match c with
                                  | Some ch => reaches_leaves fuel g' ch
                                  | None => false
                                  end) (obj_children o)
                = forallb (fun c => match c with
                                    | Some ch => reaches_leaves fuel g ch
                                    | None => false
                                    end) (obj_children o)).
    { induction (obj_children o) as [|[c|] l IHl]; cbn [forallb];
        [reflexivity| |reflexivity]. now rewrite IH, IHl. }
    destruct (Hat n o Hn) as [-> | ->]; cbn [with_controller obj_kind obj_children];
      now rewrite E.
  - apply nth_error_None in Hn. rewrite <- Hlen in Hn.
    apply nth_error_None in Hn. now rewrite Hn.
Qed.

Lemma set_controller_children_returns fuel ctl :
  (forall g n, reaches_leaves fuel g n = true ->
               exists g', set_controller fuel g n ctl = Ok g') ->
  forall l g,
    forallb (fun c => match c with
                      | Some ch => reaches_leaves fuel g ch
                      | None => false
                      end) l = true ->
    exists g', set_controller_children fuel l g ctl = Ok g'.
Proof.
  intros IHf. induction l as [|[c|] l IH]; intros g H; cbn [forallb] in H.
  - now exists g.
  - apply andb_true_iff in H. destruct H as [Hc Hl].
    destruct (IHf g c Hc) as [g1 Hg1].
    cbn [set_controller_children]. rewrite Hg1. cbn [bind].
    apply IH.
    destruct (set_controller_sets_below fuel ctl g c g1 Hg1) as [Hat _].
    rewrite <- Hl. clear - Hat.
    induction l as [|[c0|] l IHl]; cbn [forallb]; [reflexivity| |reflexivity].
    now rewrite (reaches_leaves_attaches ctl g g1 Hat), IHl.
  - discriminate.
Qed.

Lemma set_controller_returns fuel ctl :
  forall g n, reaches_leaves fuel g n = true ->
              exists g', set_controller fuel g n ctl = Ok g'.
Proof.
  induction fuel as [|fuel IH]; intros g n H; [discriminate|].
  cbn [reaches_leaves] in H. rewrite set_controller_S.
  destruct (nth_error g n) as [o|] eqn:Hn; [|discriminate].
  destruct (obj_kind o) eqn:Hk;
    try (apply (set_controller_children_returns fuel ctl IH);
         rewrite <- H; clear H;
         induction (obj_children o) as [|[c|] l IHl]; cbn [forallb];
         [reflexivity| |reflexivity];
         now rewrite (reaches_leaves_attaches ctl g _ (attaches_update ctl g n o Hn)),
           IHl).
  eauto.
Qed.

(** [set_controller] gives the controller to the node and to every node
    below it, not going through a transition to its destination; a node that
    is not below keeps its object unchanged; no object changes its class,
    name or children.  It returns where the nodes below are reached within
    the nested calls allowed and every child on the way is a node. *)
Theorem set_controller_attaches_subtree fuel g n ctl :
  reaches_leaves fuel g n = true ->
  exists g',
    set_controller fuel g n ctl = Ok g' /\
    (forall m, below g n m -> has_controller g' ctl m) /\
    (forall m o, nth_error g m = Some o -> ~ below g n m ->
                 nth_error g' m = Some o) /\
    (forall m o, nth_error g m = Some o ->
                 exists o', nth_error g' m = Some o' /\
                            obj_kind o' = obj_kind o /\
                            obj_name o' = obj_name o /\
                            obj_children o' = obj_children o).
Proof.
  intros H. destruct (set_controller_returns fuel ctl g n H) as [g' Hg'].
  exists g'. split; [exact Hg'|].
  exact (set_controller_attached fuel g n ctl g' Hg').
Qed.

Lemma set_controller_attaches_subtree_witness :
  reaches_leaves 4 built 1%nat = true /\
  exists g',
    set_controller 4 built 1%nat 7%nat = Ok g' /\
    (forall m, below built 1%nat m -> has_controller g' 7%nat m) /\
    (forall m o, nth_error built m = Some o -> ~ below built 1%nat m ->
                 nth_error g' m = Some o).
Proof.
  split; [reflexivity|].
  destruct (set_controller_attaches_subtree 4 built 1%nat 7%nat eq_refl)
    as [g' [Hg' [H1 [H2 _]]]].
  exists g'. split; [exact Hg'|]. split; [exact H1|exact H2].
Defined.
